(** * Interval AVL tree and discrete interval encoding trees (DIET)

    A shallow embedding of [avl_tree_ref.c], [diet.c] and [diet3.c].

    All three programs keep their nodes in a global array [nodes[N]] that is
    addressed by [int16_t] handles, with [T = INT16_MAX] standing for "no
    node".  The array is modelled as a total function from indices to node
    records together with the allocation counter [len]; machine integers are
    modelled as [Z] and the conversion back to [int16_t] is written
    [wrap16] wherever the C code stores the result of an arithmetic
    operation into an [i16].  ([min]/[max] of two [i16] values and plain
    copies are value preserving, so no conversion is written there;
    comparisons are carried out in [int], hence without wrap-around.) *)

From Stdlib Require Import ZArith List Lia Bool Arith.
Import ListNotations.
Open Scope Z_scope.

(** ** Machine integers and outcomes *)

Definition T : Z := 32767.      (* #define T INT16_MAX *)
Definition MIN : Z := -32768.   (* #define MIN INT16_MIN *)

Definition wrap16 (z : Z) : Z := (z + 32768) mod 65536 - 32768.

(** Ways in which a run of the C code can stop without returning.
    [OutOfFuel] is an artefact of the embedding (recursion and loops are
    bounded by a fuel argument); the other three are events of the program:
    a failing [assert], the [err(0, "Node.balance")] exit of [diet3.c], and
    a store to [nodes[n]] with [n] outside [0 .. N-1]. *)
Inductive error : Type :=
| OutOfFuel
| AssertFailed
| NodeBalance
| StoreOutsideArena.

Inductive result (A : Type) : Type :=
| Ok (a : A)
| Err (e : error).
Arguments Ok {A} a.
Arguments Err {A} e.

Definition bind {A B : Type} (r : result A) (k : A -> result B) : result B :=
  match r with
  | Ok a => k a
  | Err e => Err e
  end.

Notation "x <- c ;; k" := (bind c (fun x => k))
  (at level 61, c at next level, right associativity).
Notation "' p <- c ;; k" := (bind c (fun x => let 'p := x in k))
  (at level 61, p pattern, c at next level, right associativity).

(** [overlap] of [avl_tree_ref.c]; the comparisons are on [int]. *)
Definition overlap (x0 x1 y0 y1 : Z) : bool := (x0 <=? y1) && (y0 <=? x1).

(** The integers denoted by a list of closed ranges, used both for the
    ranges handed to [blit] and for the intervals stored in a tree. *)
Definition covers (rs : list (Z * Z)) (z : Z) : Prop :=
  exists a b, In (a, b) rs /\ a <= z <= b.

(* ================================================================== *)
(** ** avl_tree_ref.c *)

Module Avl.

Definition N : Z := 1000.

Record node : Type := mkNode {
  n_low : Z;
  n_high : Z;
  n_max : Z;
  n_left : Z;
  n_right : Z;
  n_parent : Z;
  n_height : Z
}.

Record state : Type := mkState {
  root : Z;
  len : Z;
  nodes : Z -> node
}.

Definition init : state := mkState T 0 (fun _ => mkNode 0 0 0 0 0 0 0).

(** Field reads [nodes[i].f]. *)
Definition low (st : state) (i : Z) : Z := n_low (nodes st i).
Definition high (st : state) (i : Z) : Z := n_high (nodes st i).
Definition max (st : state) (i : Z) : Z := n_max (nodes st i).
Definition left (st : state) (i : Z) : Z := n_left (nodes st i).
Definition right (st : state) (i : Z) : Z := n_right (nodes st i).
Definition parent (st : state) (i : Z) : Z := n_parent (nodes st i).
Definition hfield (st : state) (i : Z) : Z := n_height (nodes st i).

(** Field writes [nodes[i].f = v]. *)
Definition upd (st : state) (i : Z) (f : node -> node) : state :=
  mkState (root st) (len st)
          (fun j => if j =? i then f (nodes st i) else nodes st j).

Definition set_max (st : state) (i v : Z) : state :=
  upd st i (fun n => mkNode (n_low n) (n_high n) v (n_left n) (n_right n)
                            (n_parent n) (n_height n)).
Definition set_left (st : state) (i v : Z) : state :=
  upd st i (fun n => mkNode (n_low n) (n_high n) (n_max n) v (n_right n)
                            (n_parent n) (n_height n)).
Definition set_right (st : state) (i v : Z) : state :=
  upd st i (fun n => mkNode (n_low n) (n_high n) (n_max n) (n_left n) v
                            (n_parent n) (n_height n)).
Definition set_parent (st : state) (i v : Z) : state :=
  upd st i (fun n => mkNode (n_low n) (n_high n) (n_max n) (n_left n)
                            (n_right n) v (n_height n)).
Definition set_height (st : state) (i v : Z) : state :=
  upd st i (fun n => mkNode (n_low n) (n_high n) (n_max n) (n_left n)
                            (n_right n) (n_parent n) v).
Definition set_root (st : state) (v : Z) : state :=
  mkState v (len st) (nodes st).
Definition set_len (st : state) (v : Z) : state :=
  mkState (root st) v (nodes st).

Definition init_node (st : state) (i lo hi : Z) : state :=
  upd st i (fun _ => mkNode lo hi hi T T T 1).

Definition height (st : state) (x : Z) : Z :=
  if x =? T then 0 else hfield st x.

Definition diff (st : state) (x : Z) : Z :=
  wrap16 (height st (right st x) - height st (left st x)).

Definition update_height (st : state) (x : Z) : state :=
  let lh := height st (left st x) in
  let rh := height st (right st x) in
  set_height st x (wrap16 (1 + Z.max lh rh)).

Definition update_max (st : state) (x : Z) : state :=
  let lm := if left st x =? T then MIN else max st (left st x) in
  let rm := if right st x =? T then MIN else max st (right st x) in
  set_max st x (Z.max (high st x) (Z.max lm rm)).

Definition right_rotate (st : state) (x : Z) : state * Z :=
  let y := left st x in
  let st := set_left st x (right st y) in
  let st := if right st y =? T then st
            else set_parent st (right st y) x in
  let st := set_parent st y (parent st x) in
  let st := if parent st x =? T then set_root st y
            else if x =? left st (parent st x)
                 then set_left st (parent st x) y
                 else set_right st (parent st x) y in
  let st := set_right st y x in
  let st := set_parent st x y in
  let st := update_height st x in
  let st := update_height st y in
  let st := update_max st x in
  let st := update_max st y in
  (st, y).

Definition left_rotate (st : state) (x : Z) : state * Z :=
  let y := right st x in
  let st := set_right st x (left st y) in
  let st := if left st y =? T then st
            else set_parent st (left st y) x in
  let st := set_parent st y (parent st x) in
  let st := if parent st x =? T then set_root st y
            else if x =? left st (parent st x)
                 then set_left st (parent st x) y
                 else set_right st (parent st x) y in
  let st := set_left st y x in
  let st := set_parent st x y in
  let st := update_height st x in
  let st := update_height st y in
  let st := update_max st x in
  let st := update_max st y in
  (st, y).

Definition balance (st : state) (x : Z) : state * Z :=
  let d := diff st x in
  if 1 <? d then
    let st := if diff st (right st x) <? 0
              then let '(st1, r) := right_rotate st (right st x) in
                   set_right st1 x r
              else st in
    left_rotate st x
  else if d <? -1 then
    let st := if 0 <? diff st (left st x)
              then let '(st1, l) := left_rotate st (left st x) in
                   set_left st1 x l
              else st in
    right_rotate st x
  else
    let st := update_height st x in
    let st := update_max st x in
    (st, x).

(** The descent loop of [insert]: returns the last node visited, [p]. *)
Fixpoint descend (fuel : nat) (st : state) (lo x p : Z) : result Z :=
  match fuel with
  | O => Err OutOfFuel
  | S f =>
      if x =? T then Ok p
      else descend f st lo
             (if lo <? low st x then left st x else right st x) x
  end.

(** The rebalancing loop of [insert]. *)
Fixpoint ascend (fuel : nat) (st : state) (x : Z) : result (state * Z) :=
  match fuel with
  | O => Err OutOfFuel
  | S f =>
      if parent st x =? T then Ok (st, x)
      else let '(st1, x1) := balance st (parent st x) in
           ascend f st1 x1
  end.

Definition insert (fuel : nat) (st : state) (lo hi : Z) : result state :=
  let n := len st in
  if negb ((0 <=? n) && (n <? N)) then Err StoreOutsideArena
  else
    let st := set_len st (wrap16 (n + 1)) in
    let st := init_node st n lo hi in
    if root st =? T then Ok (set_root st n)
    else
      p <- descend fuel st lo (root st) T ;;
      let st := if lo <? low st p then set_left st p n
                else set_right st p n in
      let st := set_parent st n p in
      ' (st, x) <- ascend fuel st n ;;
      Ok (set_root st x).

Fixpoint inserts (fuel : nat) (st : state) (ops : list (Z * Z))
  : result state :=
  match ops with
  | [] => Ok st
  | (lo, hi) :: ops' =>
      st1 <- insert fuel st lo hi ;;
      inserts fuel st1 ops'
  end.

(** [find_all_overlapping]; [results] and [*rlen] together are the list of
    handles written so far. *)
Fixpoint find_all_overlapping (fuel : nat) (st : state) (x lo hi : Z)
         (results : list Z) : result (list Z) :=
  match fuel with
  | O => Err OutOfFuel
  | S f =>
      if x =? T then Ok results
      else
        let results := if overlap lo hi (low st x) (high st x)
                       then results ++ [x] else results in
        results <-
          (if negb (left st x =? T) && (lo <=? max st (left st x))
           then find_all_overlapping f st (left st x) lo hi results
           else Ok results) ;;
        if negb (right st x =? T) && (lo <=? max st (right st x))
        then find_all_overlapping f st (right st x) lo hi results
        else Ok results
  end.

(** [find_all_overlapping_naive]: the loop [for (i = 0; i < len; ++i)]. *)
Definition find_all_overlapping_naive (st : state) (lo hi : Z)
           (actual : list Z) : list Z :=
  fold_left
    (fun acc i => if overlap lo hi (low st i) (high st i)
                  then acc ++ [i] else acc)
    (map Z.of_nat (seq 0 (Z.to_nat (len st)))) actual.

(** [calc_height], the recomputation used by [check_height]. *)
Fixpoint calc_height (fuel : nat) (st : state) (x : Z) : result Z :=
  match fuel with
  | O => Err OutOfFuel
  | S f =>
      if x =? T then Ok 0
      else
        l <- calc_height f st (left st x) ;;
        r <- calc_height f st (right st x) ;;
        Ok (wrap16 (1 + Z.max l r))
  end.

End Avl.

(* ================================================================== *)
(** ** diet.c: the unbalanced DIET *)

Module Diet.

Definition N : Z := 10000.

Record node : Type := mkNode {
  n_low : Z;
  n_high : Z;
  n_left : Z;
  n_right : Z
}.

(** [trace] records the calls of [blit] made by the current [insert], in
    order (in the C test harness: the mask cells set to 2 since the last
    [freeze_masks]). *)
Record state : Type := mkState {
  len : Z;
  root : Z;
  nodes : Z -> node;
  trace : list (Z * Z)
}.

Definition init : state := mkState 0 T (fun _ => mkNode 0 0 0 0) [].

Definition low (st : state) (i : Z) : Z := n_low (nodes st i).
Definition high (st : state) (i : Z) : Z := n_high (nodes st i).
Definition left (st : state) (i : Z) : Z := n_left (nodes st i).
Definition right (st : state) (i : Z) : Z := n_right (nodes st i).

Definition upd (st : state) (i : Z) (f : node -> node) : state :=
  mkState (len st) (root st)
          (fun j => if j =? i then f (nodes st i) else nodes st j)
          (trace st).

Definition set_low (st : state) (i v : Z) : state :=
  upd st i (fun n => mkNode v (n_high n) (n_left n) (n_right n)).
Definition set_high (st : state) (i v : Z) : state :=
  upd st i (fun n => mkNode (n_low n) v (n_left n) (n_right n)).
Definition set_left (st : state) (i v : Z) : state :=
  upd st i (fun n => mkNode (n_low n) (n_high n) v (n_right n)).
Definition set_right (st : state) (i v : Z) : state :=
  upd st i (fun n => mkNode (n_low n) (n_high n) (n_left n) v).
Definition set_root (st : state) (v : Z) : state :=
  mkState (len st) v (nodes st) (trace st).
Definition set_len (st : state) (v : Z) : state :=
  mkState v (root st) (nodes st) (trace st).
Definition set_trace (st : state) (tr : list (Z * Z)) : state :=
  mkState (len st) (root st) (nodes st) tr.

(** [blit(start, end)]: both arguments are converted to [i16]. *)
Definition blit (st : state) (a b : Z) : state :=
  set_trace st (trace st ++ [(wrap16 a, wrap16 b)]).

(** [new_node] has no capacity check: with [len] outside [0 .. N-1] the
    four stores go outside [nodes[N]]. *)
Definition new_node (st : state) (lo hi l r : Z) : result (state * Z) :=
  let n := len st in
  let st := set_len st (wrap16 (n + 1)) in
  if negb ((0 <=? n) && (n <? N)) then Err StoreOutsideArena
  else Ok (upd st n (fun _ => mkNode lo hi l r), n).

(** Returns the new subtree and [*out_low]. *)
Fixpoint less_than_or_equal (fuel : nat) (st : state)
         (x lo blit_low blit_high : Z) : result (state * Z * Z) :=
  match fuel with
  | O => Err OutOfFuel
  | S f =>
      if x =? T then Ok (st, x, lo)
      else if high st x + 1 <? lo then
        let new_blit_low := wrap16 (high st x + 1) in
        let new_blit_high := blit_low in
        ' (st, r2, new_low) <-
          less_than_or_equal f st (right st x) lo new_blit_low new_blit_high ;;
        let out_low := Z.min lo new_low in
        ' (st, n) <- new_node st (low st x) (high st x) (left st x) r2 ;;
        Ok (st, n, out_low)
      else if low st x <=? lo then
        let st := blit st (high st x + 1) blit_high in
        Ok (st, left st x, low st x)
      else
        let st := blit st (high st x + 1) blit_high in
        let new_blit_high := wrap16 (low st x - 1) in
        let st := if left st x =? T then blit st blit_low new_blit_high
                  else st in
        less_than_or_equal f st (left st x) lo blit_low new_blit_high
  end.

(** Returns the new subtree and [*out_high]. *)
Fixpoint greater_than_or_equal (fuel : nat) (st : state)
         (x hi blit_low blit_high : Z) : result (state * Z * Z) :=
  match fuel with
  | O => Err OutOfFuel
  | S f =>
      if x =? T then Ok (st, x, hi)
      else if hi <? low st x - 1 then
        let new_blit_low := blit_high in
        let new_blit_high := wrap16 (low st x - 1) in
        ' (st, l2, new_high) <-
          greater_than_or_equal f st (left st x) hi new_blit_low new_blit_high ;;
        let out_high := Z.max hi new_high in
        ' (st, n) <- new_node st (low st x) (high st x) l2 (right st x) ;;
        Ok (st, n, out_high)
      else if hi <=? high st x then
        let st := blit st blit_low (low st x - 1) in
        Ok (st, right st x, high st x)
      else
        let st := blit st blit_low (low st x - 1) in
        let new_blit_low := wrap16 (high st x + 1) in
        let st := if right st x =? T then blit st new_blit_low blit_high
                  else st in
        greater_than_or_equal f st (right st x) hi new_blit_low blit_high
  end.

Fixpoint insert_range (fuel : nat) (st : state) (x lo hi : Z)
  : result (state * Z) :=
  match fuel with
  | O => Err OutOfFuel
  | S f =>
      if x =? T then
        let st := blit st lo hi in
        new_node st lo hi T T
      else
        let '(ll, lh, rl, rh, default_blit_low, default_blit_high) :=
          if low st x <? lo
          then (low st x, high st x, lo, hi,
                wrap16 (Z.max lo (high st x + 1)), hi)
          else (lo, hi, low st x, high st x,
                lo, wrap16 (Z.min hi (low st x - 1))) in
        if (rl <=? lh) || (lh + 1 =? rl) then
          if (low st x <=? lo) && (hi <=? high st x) then Ok (st, x)
          else
            let r1l := ll in
            let r1h := Z.max lh rh in
            ' (st, new_left, new_low) <-
              less_than_or_equal f st (left st x) r1l
                                 default_blit_low default_blit_high ;;
            ' (st, new_right, new_high) <-
              greater_than_or_equal f st (right st x) r1h
                                    default_blit_low default_blit_high ;;
            let st := if (left st x =? T) && (right st x =? T)
                      then blit st default_blit_low default_blit_high
                      else st in
            let st := set_low st x new_low in
            let st := set_high st x new_high in
            let st := set_left st x new_left in
            let st := set_right st x new_right in
            Ok (st, x)
        else
          let r1l := ll in
          let r1h := lh in
          let r2l := rl in
          let r2h := rh in
          if (r1l =? low st x) && (r1h =? high st x) then
            ' (st, r) <- insert_range f st (right st x) r2l r2h ;;
            Ok (set_right st x r, x)
          else
            ' (st, l) <- insert_range f st (left st x) r1l r1h ;;
            Ok (set_left st x l, x)
  end.

(** [insert]; the trace is restarted so that after the call it holds the
    [blit] calls of this insertion only. *)
Definition insert (fuel : nat) (st : state) (lo hi : Z) : result state :=
  ' (st1, r) <- insert_range fuel (set_trace st []) (root st) lo hi ;;
  Ok (set_root st1 r).

Fixpoint inserts (fuel : nat) (st : state) (ops : list (Z * Z))
  : result state :=
  match ops with
  | [] => Ok st
  | (lo, hi) :: ops' =>
      st1 <- insert fuel st lo hi ;;
      inserts fuel st1 ops'
  end.

(** [gather_indices]: preorder list of the handles below [x] ([x] is not
    the sentinel). *)
Fixpoint gather_indices (fuel : nat) (st : state) (x : Z) (values : list Z)
  : result (list Z) :=
  match fuel with
  | O => Err OutOfFuel
  | S f =>
      let values := values ++ [x] in
      values <- (if left st x =? T then Ok values
                 else gather_indices f st (left st x) values) ;;
      if right st x =? T then Ok values
      else gather_indices f st (right st x) values
  end.

Definition overlapping_or_adjacent (st : state) (x y : Z) : bool :=
  (low st x <=? high st y + 1) && (low st y <=? high st x + 1).

(** The handles of the stored nodes: none for the empty tree, otherwise
    what [check_isolation] gathers from [root]. *)
Definition stored (fuel : nat) (st : state) : result (list Z) :=
  if root st =? T then Ok [] else gather_indices fuel st (root st) [].

End Diet.

(* ================================================================== *)
(** ** diet3.c: the AVL-balanced DIET *)

Module Diet3.

Definition N : Z := 1000.
Definition bal_const : Z := 1.

Record node : Type := mkNode {
  n_start : Z;
  n_end : Z;
  n_height : Z;
  n_left : Z;
  n_right : Z
}.

Record state : Type := mkState {
  len : Z;
  root : Z;
  nodes : Z -> node;
  trace : list (Z * Z)
}.

Definition init : state := mkState 0 T (fun _ => mkNode 0 0 0 0 0) [].

Definition start (st : state) (i : Z) : Z := n_start (nodes st i).
Definition end_ (st : state) (i : Z) : Z := n_end (nodes st i).
Definition hfield (st : state) (i : Z) : Z := n_height (nodes st i).
Definition left (st : state) (i : Z) : Z := n_left (nodes st i).
Definition right (st : state) (i : Z) : Z := n_right (nodes st i).

Definition set_root (st : state) (v : Z) : state :=
  mkState (len st) v (nodes st) (trace st).
Definition set_trace (st : state) (tr : list (Z * Z)) : state :=
  mkState (len st) (root st) (nodes st) tr.

Definition blit (st : state) (a b : Z) : state :=
  set_trace st (trace st ++ [(wrap16 a, wrap16 b)]).

Definition height (st : state) (tree : Z) : Z :=
  if tree =? T then 0 else hfield st tree.

Definition height_join (st : state) (l r : Z) : Z :=
  wrap16 (1 + Z.max (height st l) (height st r)).

(** [new_node] starts with [assert(n < N)]. *)
Definition new_node (st : state) (s e h l r : Z) : result (state * Z) :=
  let n := len st in
  if N <=? n then Err AssertFailed
  else if n <? 0 then Err StoreOutsideArena
  else
    Ok (mkState (wrap16 (n + 1)) (root st)
                (fun j => if j =? n then mkNode s e h l r else nodes st j)
                (trace st), n).

Definition create (st : state) (s e l r : Z) : result (state * Z) :=
  new_node st s e (height_join st l r) l r.

Section EvaluationOrder.

(** C leaves the order in which the two inner [create] calls of a double
    rotation are evaluated unspecified; [rtl] selects right-to-left. *)
Variable rtl : bool.

Definition create2 (st : state) (s1 e1 l1 r1 s2 e2 l2 r2 : Z)
  : result (state * Z * Z) :=
  if rtl then
    ' (st, b) <- create st s2 e2 l2 r2 ;;
    ' (st, a) <- create st s1 e1 l1 r1 ;;
    Ok (st, a, b)
  else
    ' (st, a) <- create st s1 e1 l1 r1 ;;
    ' (st, b) <- create st s2 e2 l2 r2 ;;
    Ok (st, a, b).

Definition balance (st : state) (s e l r : Z) : result (state * Z) :=
  let hl := height st l in
  let hr := height st r in
  if hr + bal_const <? hl then
    if l =? T then Err NodeBalance
    else
      let ls := start st l in
      let le := end_ st l in
      let ll := left st l in
      let lr := right st l in
      if height st lr <=? height st ll then
        ' (st, n) <- create st s e lr r ;;
        create st ls le ll n
      else if lr =? T then Err NodeBalance
      else
        let lrs := start st lr in
        let lre := end_ st lr in
        let lrl := left st lr in
        let lrr := right st lr in
        ' (st, a, b) <- create2 st ls le ll lrl s e lrr r ;;
        create st lrs lre a b
  else if hl + bal_const <? hr then
    if r =? T then Err NodeBalance
    else
      let rs := start st r in
      let re := end_ st r in
      let rl := left st r in
      let rr := right st r in
      if height st rl <=? height st rr then
        ' (st, n) <- create st s e l rl ;;
        create st rs re n rr
      else if rl =? T then Err NodeBalance
      else
        let rls := start st rl in
        let rle := end_ st rl in
        let rll := left st rl in
        let rlr := right st rl in
        ' (st, a, b) <- create2 st s e l rll rs re rlr rr ;;
        create st rls rle a b
  else
    let h := wrap16 (if hr <=? hl then hl + 1 else hr + 1) in
    new_node st s e h l r.

Fixpoint add (fuel : nat) (st : state) (tree : Z) (is_left : bool)
         (s0 e0 : Z) : result (state * Z) :=
  match fuel with
  | O => Err OutOfFuel
  | S f =>
      if tree =? T then new_node st s0 e0 1 T T
      else
        let s := start st tree in
        let e := end_ st tree in
        let l := left st tree in
        let r := right st tree in
        if is_left then
          ' (st, n) <- add f st l is_left s0 e0 ;;
          balance st s e n r
        else
          ' (st, n) <- add f st r is_left s0 e0 ;;
          balance st s e l n
  end.

Fixpoint join (fuel : nat) (st : state) (s0 e0 l r : Z)
  : result (state * Z) :=
  match fuel with
  | O => Err OutOfFuel
  | S f =>
      if l =? T then add f st r true s0 e0
      else if r =? T then add f st l false s0 e0
      else
        let ls := start st l in
        let le := end_ st l in
        let lh := hfield st l in
        let ll := left st l in
        let lr := right st l in
        let rs := start st r in
        let re := end_ st r in
        let rh := hfield st r in
        let rl := left st r in
        let rr := right st r in
        if rh + bal_const <? lh then
          ' (st, n) <- join f st s0 e0 lr r ;;
          balance st ls le ll n
        else if lh + bal_const <? rh then
          ' (st, n) <- join f st s0 e0 l rl ;;
          balance st rs re n rr
        else create st s0 e0 l r
  end.

(** Returns [( *outs, *outl )]. *)
Fixpoint find_del_left (fuel : nat) (st : state) (tree s0 def_blit_end : Z)
  : result (state * Z * Z) :=
  match fuel with
  | O => Err OutOfFuel
  | S f =>
      if tree =? T then Ok (blit st s0 def_blit_end, s0, T)
      else
        let s := start st tree in
        let e := end_ st tree in
        let l := left st tree in
        let r := right st tree in
        if e + 1 <? s0 then
          ' (st, news, newr) <- find_del_left f st r s0 def_blit_end ;;
          ' (st, n) <- join f st s e l newr ;;
          Ok (st, news, n)
        else if s0 <? s then find_del_left f st l s0 def_blit_end
        else Ok (blit st (e + 1) def_blit_end, s, l)
  end.

(** Returns [( *oute, *outr )]. *)
Fixpoint find_del_right (fuel : nat) (st : state) (tree e0 def_blit_start : Z)
  : result (state * Z * Z) :=
  match fuel with
  | O => Err OutOfFuel
  | S f =>
      if tree =? T then Ok (blit st def_blit_start e0, e0, T)
      else
        let s := start st tree in
        let e := end_ st tree in
        let l := left st tree in
        let r := right st tree in
        if e0 <? s - 1 then
          ' (st, newe, newl) <- find_del_right f st l e0 def_blit_start ;;
          ' (st, n) <- join f st s e newl r ;;
          Ok (st, newe, n)
        else if e <? e0 then find_del_right f st r e0 def_blit_start
        else Ok (blit st def_blit_start (s - 1), e, r)
  end.

Fixpoint insert_range (fuel : nat) (st : state) (tree s0 e0 : Z)
  : result (state * Z) :=
  match fuel with
  | O => Err OutOfFuel
  | S f =>
      if tree =? T then
        let st := blit st s0 e0 in
        new_node st s0 e0 1 T T
      else
        let s := start st tree in
        let e := end_ st tree in
        let l := left st tree in
        let r := right st tree in
        if e0 <? s - 1 then
          ' (st, new) <- insert_range f st l s0 e0 ;;
          join f st s e new r
        else if e + 1 <? s0 then
          ' (st, new) <- insert_range f st r s0 e0 ;;
          join f st s e l new
        else
          let def_blit_start := wrap16 (e + 1) in
          let def_blit_end := wrap16 (s - 1) in
          ' (st, news, newl) <-
            (if s <=? s0 then Ok (st, s, l)
             else find_del_left f st l s0 def_blit_end) ;;
          ' (st, newe, newr) <-
            (if e0 <=? e then Ok (st, e, r)
             else find_del_right f st r e0 def_blit_start) ;;
          join f st news newe newl newr
  end.

Definition insert (fuel : nat) (st : state) (s0 e0 : Z) : result state :=
  ' (st1, r) <- insert_range fuel (set_trace st []) (root st) s0 e0 ;;
  Ok (set_root st1 r).

Fixpoint inserts (fuel : nat) (st : state) (ops : list (Z * Z))
  : result state :=
  match ops with
  | [] => Ok st
  | (s0, e0) :: ops' =>
      st1 <- insert fuel st s0 e0 ;;
      inserts fuel st1 ops'
  end.

End EvaluationOrder.

Fixpoint gather_indices (fuel : nat) (st : state) (x : Z) (values : list Z)
  : result (list Z) :=
  match fuel with
  | O => Err OutOfFuel
  | S f =>
      let values := values ++ [x] in
      values <- (if left st x =? T then Ok values
                 else gather_indices f st (left st x) values) ;;
      if right st x =? T then Ok values
      else gather_indices f st (right st x) values
  end.

Definition overlapping_or_adjacent (st : state) (x y : Z) : bool :=
  (start st x <=? end_ st y + 1) && (start st y <=? end_ st x + 1).

Definition stored (fuel : nat) (st : state) : result (list Z) :=
  if root st =? T then Ok [] else gather_indices fuel st (root st) [].

End Diet3.


(* ================================================================== *)
(** * Invariants of the interval AVL tree *)

Module AvlInv.
Import Avl.

(** The two rotations and the two halves of [balance] are mirror images of
    each other; [ch d] reads the child on side [d] ([true] for left) and
    [rotate d] lifts the child on side [d] ([rotate true] is
    [right_rotate]). *)
Definition ch (d : bool) (st : state) (i : Z) : Z :=
  if d then left st i else right st i.

Definition set_ch (d : bool) (st : state) (i v : Z) : state :=
  if d then set_left st i v else set_right st i v.

(** The pointer surgery of a rotation, statement by statement. *)
Definition rot_down (d : bool) (x y : Z) (st : state) : state :=
  set_ch d st x (ch (negb d) st y).
Definition rot_adopt (d : bool) (x y : Z) (st : state) : state :=
  if ch (negb d) st y =? T then st
  else set_parent st (ch (negb d) st y) x.
Definition rot_up (x y : Z) (st : state) : state :=
  set_parent st y (parent st x).
Definition rot_attach (x y : Z) (st : state) : state :=
  if parent st x =? T then set_root st y
  else if x =? left st (parent st x)
       then set_left st (parent st x) y
       else set_right st (parent st x) y.
Definition rot_swap (d : bool) (x y : Z) (st : state) : state :=
  set_parent (set_ch (negb d) st y x) x y.
Definition rot_fields (x y : Z) (st : state) : state :=
  update_max (update_max (update_height (update_height st x) y) x) y.

Definition rotate (d : bool) (st : state) (x : Z) : state * Z :=
  let y := ch d st x in
  (rot_fields x y
     (rot_swap d x y
        (rot_attach x y (rot_up x y (rot_adopt d x y (rot_down d x y st))))),
   y).

(** The rotating half of [balance] for a node whose side [negb d] is too
    tall. *)
Definition rebalance (d : bool) (st : state) (x : Z) : state * Z :=
  let t := ch (negb d) st x in
  let st := if height st (ch (negb d) st t) <? height st (ch d st t)
            then let '(st1, r) := rotate d st t in
                 set_ch (negb d) st1 x r
            else st in
  rotate (negb d) st x.

Definition valid (st : state) (i : Z) : Prop := 0 <= i < len st.

Definition child_ok (st : state) (i c : Z) : Prop :=
  c = T \/ (valid st c /\ parent st c = i).

(** Child and parent fields of node [i] agree with its neighbours. *)
Record links (st : state) (i : Z) : Prop := {
  lk_left : child_ok st i (left st i);
  lk_right : child_ok st i (right st i);
  lk_distinct : left st i = right st i -> left st i = T;
  lk_parent : parent st i = T \/
              (valid st (parent st i) /\
               (left st (parent st i) = i \/ right st (parent st i) = i))
}.

(** [nodes[c].max], with [MIN] for the sentinel, as read by [update_max]. *)
Definition mx (st : state) (c : Z) : Z :=
  if c =? T then MIN else max st c.

Definition hgt_ok (st : state) (i : Z) : Prop :=
  hfield st i = 1 + Z.max (height st (left st i)) (height st (right st i)).

Definition bal_ok (st : state) (i : Z) : Prop :=
  -1 <= height st (right st i) - height st (left st i) <= 1.

(** [nodes[i].max] bounds the [high] of the node and the [max] of its
    children (all that the overlap queries rely on). *)
Definition max_ok (st : state) (i : Z) : Prop :=
  high st i <= max st i /\
  (left st i = T \/ mx st (left st i) <= max st i) /\
  (right st i = T \/ mx st (right st i) <= max st i).

Record node_ok (st : state) (i : Z) : Prop := {
  ok_hgt : hgt_ok st i;
  ok_bal : bal_ok st i;
  ok_max : max_ok st i
}.

(** The invariant that holds between two calls of [insert]. *)
Record Inv (st : state) : Prop := {
  inv_len : 0 <= len st <= N;
  inv_empty : len st = 0 -> root st = T;
  inv_root : 0 < len st -> valid st (root st) /\ parent st (root st) = T;
  inv_top : forall i, valid st i -> parent st i = T -> i = root st;
  inv_links : forall i, valid st i -> links st i;
  inv_ok : forall i, valid st i -> node_ok st i;
  inv_pos : forall i, valid st i -> 1 <= hfield st i;
  inv_hroot : 0 < len st -> hfield st (root st) <= len st
}.

(** The height that the rebalancing loop has to assume for a child [k] of
    the node above the current subtree [x]: the height [c] that the
    subtree had before the insertion if [k] is [x], the stored height
    otherwise. *)
Definition oh (st : state) (x c k : Z) : Z :=
  if k =? x then c else height st k.

Record stale (st : state) (p x c : Z) : Prop := {
  stale_hgt : hfield st p = 1 + Z.max (oh st x c (left st p))
                                      (oh st x c (right st p));
  stale_bal : -1 <= oh st x c (right st p) - oh st x c (left st p) <= 1
}.

(** The invariant of the rebalancing loop of [insert]: [x] is the root of
    the subtree that has been rebalanced so far, [c] the height that
    subtree had before the insertion. *)
Record Mid (st : state) (x c : Z) : Prop := {
  mid_len : 0 < len st <= N;
  mid_x : valid st x;
  mid_links : forall i, valid st i -> links st i;
  mid_top : forall i j, valid st i -> valid st j ->
                        parent st i = T -> parent st j = T -> i = j;
  mid_ok : forall i, valid st i -> i <> parent st x -> node_ok st i;
  mid_pos : forall i, valid st i -> 1 <= hfield st i;
  mid_c : 0 <= c /\ c <= hfield st x <= c + 1 /\ c <= len st - 1;
  mid_px : parent st x <> x;
  mid_stale : parent st x <> T -> stale st (parent st x) x c;
  mid_bound : forall i, valid st i -> parent st i = T -> i <> x ->
                        hfield st i <= len st - 1
}.

(** A strict ranking of the nodes of a [Mid] state along parent links. *)
Definition rk (st : state) (x c i : Z) : Z :=
  if i =? x then 2 * c + 1 else 2 * hfield st i.

(** [desc st x i]: node [i] lies in the subtree of [x]. *)
Inductive desc (st : state) (x : Z) : Z -> Prop :=
| desc_refl : desc st x x
| desc_left : forall i, desc st x i -> left st i <> T ->
                        desc st x (left st i)
| desc_right : forall i, desc st x i -> right st i <> T ->
                         desc st x (right st i).

(** The state after [rotate d st x], field by field; [y] is the child of
    [x] that is lifted, [pp] the parent of [x], [a] and [b] the children
    of [y] on sides [d] and [negb d], [c] the other child of [x]. *)
Record rot_spec (d : bool) (st : state) (x y pp a b c : Z) (st' : state)
  : Prop := {
  rs_len : len st' = len st;
  rs_root : root st' = if pp =? T then y else root st;
  rs_low : forall i, low st' i = low st i;
  rs_high : forall i, high st' i = high st i;
  rs_parent : forall i,
      parent st' i =
      if i =? x then y
      else if i =? y then pp
      else if (i =? b) && negb (b =? T) then x
      else parent st i;
  rs_ch : forall e i,
      ch e st' i =
      if (i =? y) && Bool.eqb e (negb d) then x
      else if (i =? pp) && negb (pp =? T) && Bool.eqb e (x =? left st pp)
           then y
      else if (i =? x) && Bool.eqb e d then b
      else ch e st i;
  rs_hfield : forall i,
      hfield st' i =
      if i =? y
      then wrap16 (1 + Z.max (height st a)
                      (wrap16 (1 + Z.max (height st b) (height st c))))
      else if i =? x then wrap16 (1 + Z.max (height st b) (height st c))
      else hfield st i;
  rs_max : forall i,
      max st' i =
      if i =? y
      then Z.max (high st y)
             (Z.max (mx st a)
                (Z.max (high st x) (Z.max (mx st b) (mx st c))))
      else if i =? x then Z.max (high st x) (Z.max (mx st b) (mx st c))
      else max st i
}.

(** [ranked st r]: [r] strictly increases along every parent link, so the
    links form no cycle. *)
Definition ranked (st : state) (r : Z -> Z) : Prop :=
  forall i, valid st i -> parent st i <> T -> r i < r (parent st i).

(** The ranking after a rotation that lifts [y] above [x]. *)
Definition rot_rank (r : Z -> Z) (x y : Z) : Z -> Z :=
  fun i => if i =? y then 2 * r x
           else if i =? x then 2 * r x - 1
           else 2 * r i.

(** Two states whose nodes agree field by field. *)
Definition same_fields (st1 st2 : state) : Prop :=
  len st2 = len st1 /\ root st2 = root st1 /\
  forall i,
    low st2 i = low st1 i /\ high st2 i = high st1 i /\
    max st2 i = max st1 i /\ left st2 i = left st1 i /\
    right st2 i = right st1 i /\ parent st2 i = parent st1 i /\
    hfield st2 i = hfield st1 i.

(** What a call of [insert] leaves untouched. *)
Definition same_intervals (st st' : state) : Prop :=
  forall i, low st' i = low st i /\ high st' i = high st i.

(** The state of [insert] between its two loops: node [len st] has been
    initialised and stored as the child of [p] on side [e]. *)
Definition linked (st : state) (lo hi p : Z) (e : bool) : state :=
  set_parent
    (set_ch e (init_node (set_len st (len st + 1)) (len st) lo hi) p (len st))
    (len st) p.

(** The test of [find_all_overlapping] on node [i]. *)
Definition hit (st : state) (lo hi i : Z) : bool :=
  overlap lo hi (low st i) (high st i).

End AvlInv.

(* ================================================================== *)
(** * Interval lists and trees of intervals (both DIET variants) *)

Module Ivl.

(** [iso L]: the intervals of [L] are non-empty, in increasing order, and
    any two of them are separated by at least one integer. *)
Fixpoint iso (L : list (Z * Z)) : Prop :=
  match L with
  | [] => True
  | (a, b) :: L' =>
      a <= b /\ (forall c d, In (c, d) L' -> b + 1 < c) /\ iso L'
  end.

Definition below (L : list (Z * Z)) (x : Z) : Prop :=
  forall a b, In (a, b) L -> b + 1 < x.

Definition above (x : Z) (L : list (Z * Z)) : Prop :=
  forall a b, In (a, b) L -> x + 1 < a.

(** [within L lo hi]: every integer of [lo .. hi] is in an interval of
    [L]. *)
Definition within (L : list (Z * Z)) (lo hi : Z) : Prop :=
  forall z, lo <= z <= hi -> covers L z.

(** What the search for the new lower end returns on the intervals [L]
    to the left of a node: the new lower end [news] and the intervals [P]
    that stay. *)
Record cut_left (L : list (Z * Z)) (s0 news : Z) (P : list (Z * Z))
  : Prop := {
  cl_le : news <= s0;
  cl_news : news = s0 \/ exists b, In (news, b) L;
  cl_sub : forall a b, In (a, b) P -> In (a, b) L;
  cl_below : below P news;
  cl_iso : iso P;
  cl_cov : forall z, covers P z \/ news <= z <-> covers L z \/ s0 <= z
}.

(** The same for the new upper end. *)
Record cut_right (L : list (Z * Z)) (e0 newe : Z) (S : list (Z * Z))
  : Prop := {
  cr_ge : e0 <= newe;
  cr_newe : newe = e0 \/ exists a, In (a, newe) L;
  cr_sub : forall a b, In (a, b) S -> In (a, b) L;
  cr_above : above newe S;
  cr_iso : iso S;
  cr_cov : forall z, covers S z \/ z <= newe <-> covers L z \/ z <= e0
}.

(** What an insertion of [s0 .. e0] makes of the intervals [L]. *)
Record ins (L : list (Z * Z)) (s0 e0 : Z) (L' : list (Z * Z)) : Prop := {
  ins_iso : iso L';
  ins_cov : forall z, covers L' z <-> covers L z \/ s0 <= z <= e0
}.

(** The shape of a stored tree: at each node its handle and interval. *)
Inductive tree : Type :=
| Leaf
| Node (l : tree) (h s e : Z) (r : tree).

Fixpoint inorder (t : tree) : list (Z * Z) :=
  match t with
  | Leaf => []
  | Node l _ s e r => inorder l ++ (s, e) :: inorder r
  end.

(** Handles in the order of [gather_indices]. *)
Fixpoint handles (t : tree) : list Z :=
  match t with
  | Leaf => []
  | Node l h _ _ r => h :: handles l ++ handles r
  end.

(** Intervals in the order of [gather_indices]. *)
Fixpoint preorder (t : tree) : list (Z * Z) :=
  match t with
  | Leaf => []
  | Node l _ s e r => (s, e) :: preorder l ++ preorder r
  end.

Fixpoint depth (t : tree) : Z :=
  match t with
  | Leaf => 0
  | Node l _ _ _ r => 1 + Z.max (depth l) (depth r)
  end.

(** AVL balance of a tree shape. *)
Fixpoint avl (t : tree) : Prop :=
  match t with
  | Leaf => True
  | Node l _ _ _ r => avl l /\ avl r /\ -1 <= depth l - depth r <= 1
  end.

(** [overlapping_or_adjacent] on two intervals. *)
Definition adjacent (x y : Z * Z) : bool :=
  (fst x <=? snd y + 1) && (fst y <=? snd x + 1).

End Ivl.

(* ================================================================== *)
(** * Invariants of the balanced DIET ([diet3.c]) *)

Module Diet3Inv.
Import Ivl Diet3.

Definition wf (st : state) : Prop := 0 <= len st <= N.

(** [diet3.c] never writes to an allocated node: a later state extends an
    earlier one. *)
Definition ext (st st' : state) : Prop :=
  len st <= len st' /\
  forall i, 0 <= i < len st -> nodes st' i = nodes st i.

(** [rep st h t]: the nodes reachable from handle [h] form the tree [t];
    children are older than their parent and [height] fields are exact. *)
Inductive rep (st : state) : Z -> tree -> Prop :=
| rep_leaf : rep st T Leaf
| rep_node h l r :
    0 <= h < len st ->
    (left st h = T \/ left st h < h) ->
    (right st h = T \/ right st h < h) ->
    rep st (left st h) l -> rep st (right st h) r ->
    hfield st h = 1 + Z.max (depth l) (depth r) ->
    rep st h (Node l h (start st h) (end_ st h) r).

(** A call either returns a result that satisfies [P] or stops on the
    assertion of [new_node]. *)
Definition post {A : Type} (r : result A) (P : A -> Prop) : Prop :=
  match r with
  | Ok a => P a
  | Err e => e = AssertFailed
  end.

(** The result of a call that builds a tree satisfying [P] and does not
    call [blit]. *)
Definition built (st : state) (P : tree -> Prop) (r : state * Z) : Prop :=
  wf (fst r) /\ ext st (fst r) /\ trace (fst r) = trace st /\
  exists t, rep (fst r) (snd r) t /\ P t.

(** A tree with the intervals [L], balanced if the trees [tl] and [tr] it
    was joined from are, and then not lower than either. *)
Definition joined (L : list (Z * Z)) (tl tr t : tree) : Prop :=
  inorder t = L /\
  (avl tl -> avl tr ->
   avl t /\
   Z.max (depth tl) (depth tr) <= depth t <= 1 + Z.max (depth tl) (depth tr)).

(** What [balance] adds to [joined] when the two heights differ by at
    most two. *)
Definition balanced_join (L : list (Z * Z)) (tl tr t : tree) : Prop :=
  inorder t = L /\
  (avl tl -> avl tr -> -2 <= depth tl - depth tr <= 2 ->
   avl t /\
   Z.max (depth tl) (depth tr) <= depth t <= 1 + Z.max (depth tl) (depth tr)
   /\ (-1 <= depth tl - depth tr <= 1 ->
       depth t = 1 + Z.max (depth tl) (depth tr))).

(** What [add] makes of a tree [t]: the interval is put first or last. *)
Definition added (is_left : bool) (s0 e0 : Z) (t t' : tree) : Prop :=
  inorder t' = (if is_left then (s0, e0) :: inorder t
                else inorder t ++ [(s0, e0)]) /\
  (avl t -> avl t' /\ depth t <= depth t' <= depth t + 1).

(** The result of [insert_range] on a tree [t]: the intervals are those
    of [t] with [s0 .. e0] merged in; [blit] is not called when
    [s0 .. e0] was stored already, and is called otherwise. *)
Definition inserted (st : state) (t : tree) (s0 e0 : Z) (r : state * Z)
  : Prop :=
  wf (fst r) /\ ext st (fst r) /\
  (length (trace st) <= length (trace (fst r)))%nat /\
  exists t', rep (fst r) (snd r) t' /\ avl t' /\
    ins (inorder t) s0 e0 (inorder t') /\
    (within (inorder t) s0 e0 ->
     trace (fst r) = trace st /\ inorder t' = inorder t) /\
    (~ within (inorder t) s0 e0 ->
     (length (trace st) < length (trace (fst r)))%nat).

(** The state between two calls of [insert]. *)
Record Inv (st : state) (t : tree) : Prop := {
  inv_wf : wf st;
  inv_rep : rep st (root st) t;
  inv_iso : iso (inorder t);
  inv_avl : avl t
}.

(** Fuel that suffices for every call on an arena of [N] nodes. *)
Definition enough (fuel : nat) : Prop := 4 * N + 4 < Z.of_nat fuel.

End Diet3Inv.

(* ================================================================== *)
(** * avl_tree_ref.c: the single-result search and the test verifiers *)

Module AvlChecks.
Import Avl.

(** The loop of [search], started at [x]; [nodes[x]] is read only when
    [x] is not the sentinel. *)
Fixpoint search_from (fuel : nat) (st : state) (x lo hi : Z) : result Z :=
  match fuel with
  | O => Err OutOfFuel
  | S f =>
      if x =? T then Ok x
      else if overlap lo hi (low st x) (high st x) then Ok x
      else
        let l := left st x in
        if negb (l =? T) && (lo <=? max st l)
        then search_from f st l lo hi
        else search_from f st (right st x) lo hi
  end.

Definition search (fuel : nat) (st : state) (lo hi : Z) : result Z :=
  search_from fuel st (root st) lo hi.

(** [check_height]: [assert(calc_height(x) == nodes[x].height)], then the
    children that are present. *)
Fixpoint check_height (fuel : nat) (st : state) (x : Z) : result unit :=
  match fuel with
  | O => Err OutOfFuel
  | S f =>
      h <- calc_height fuel st x ;;
      if negb (h =? hfield st x) then Err AssertFailed
      else
        u <- (if left st x =? T then Ok tt
              else check_height f st (left st x)) ;;
        if right st x =? T then Ok tt
        else check_height f st (right st x)
  end.

(** [calc_max], the recomputation used by [check_max]. *)
Fixpoint calc_max (fuel : nat) (st : state) (x : Z) : result Z :=
  match fuel with
  | O => Err OutOfFuel
  | S f =>
      if x =? T then Ok MIN
      else
        l <- calc_max f st (left st x) ;;
        r <- calc_max f st (right st x) ;;
        let t := high st x in
        Ok (Z.max t (Z.max l r))
  end.

Fixpoint check_max (fuel : nat) (st : state) (x : Z) : result unit :=
  match fuel with
  | O => Err OutOfFuel
  | S f =>
      m <- calc_max fuel st x ;;
      if negb (m =? max st x) then Err AssertFailed
      else
        u <- (if left st x =? T then Ok tt
              else check_max f st (left st x)) ;;
        if right st x =? T then Ok tt
        else check_max f st (right st x)
  end.

(** [gather_values]: the [low] fields below [x], in preorder. *)
Fixpoint gather_values (fuel : nat) (st : state) (x : Z) (values : list Z)
  : result (list Z) :=
  match fuel with
  | O => Err OutOfFuel
  | S f =>
      let values := values ++ [low st x] in
      values <- (if left st x =? T then Ok values
                 else gather_values f st (left st x) values) ;;
      if right st x =? T then Ok values
      else gather_values f st (right st x) values
  end.

(** The [for] loops of [check_inequality] over the gathered values. *)
Definition assert_all (p : Z -> bool) (values : list Z) : result unit :=
  if forallb p values then Ok tt else Err AssertFailed.

Fixpoint check_inequality (fuel : nat) (st : state) (x : Z) : result unit :=
  match fuel with
  | O => Err OutOfFuel
  | S f =>
      let l := left st x in
      let r := right st x in
      u <- (if l =? T then Ok tt
            else
              values <- gather_values f st l [] ;;
              u <- assert_all (fun v => v <=? low st x) values ;;
              check_inequality f st l) ;;
      if r =? T then Ok tt
      else
        values <- gather_values f st r [] ;;
        u <- assert_all (fun v => low st x <=? v) values ;;
        check_inequality f st r
  end.

Definition check_invariants (fuel : nat) (st : state) : result unit :=
  u <- check_inequality fuel st (root st) ;;
  u <- check_height fuel st (root st) ;;
  check_max fuel st (root st).

(** [check_overlaps]: [assert(rlen == alen)], then every result must be
    found among [actual]. *)
Definition check_overlaps (results actual : list Z) : result unit :=
  if negb (Z.of_nat (length results) =? Z.of_nat (length actual))
  then Err AssertFailed
  else if forallb (fun r => existsb (fun a => a =? r) actual) results
       then Ok tt
       else Err AssertFailed.

(** One iteration of the loops of [test_overlaps]: both queries for
    [(i, j)], then the comparison. *)
Definition test_overlap (fuel : nat) (st : state) (i j : Z) : result unit :=
  results <- find_all_overlapping fuel st (root st) i j [] ;;
  check_overlaps results (find_all_overlapping_naive st i j []).

End AvlChecks.

(* ================================================================== *)
(** * diet3.c: the test verifiers *)

Module Diet3Checks.
Import Diet3.

(** The two nested loops of [check_isolation] over the gathered
    handles. *)
Fixpoint isolated_pairs (st : state) (values : list Z) : bool :=
  match values with
  | [] => true
  | x :: rest =>
      forallb (fun y => negb (overlapping_or_adjacent st x y)) rest
      && isolated_pairs st rest
  end.

Definition check_isolation (fuel : nat) (st : state) : result unit :=
  values <- gather_indices fuel st (root st) [] ;;
  if isolated_pairs st values then Ok tt else Err AssertFailed.

Fixpoint check_inequality (fuel : nat) (st : state) (x : Z) : result unit :=
  match fuel with
  | O => Err OutOfFuel
  | S f =>
      let l := left st x in
      let r := right st x in
      u <- (if l =? T then Ok tt
            else
              values <- gather_indices f st l [] ;;
              if forallb (fun v => start st v <=? start st x) values
              then check_inequality f st l
              else Err AssertFailed) ;;
      if r =? T then Ok tt
      else
        values <- gather_indices f st r [] ;;
        if forallb (fun v => start st x <=? start st v) values
        then check_inequality f st r
        else Err AssertFailed
  end.

Fixpoint calc_height (fuel : nat) (st : state) (x : Z) : result Z :=
  match fuel with
  | O => Err OutOfFuel
  | S f =>
      if x =? T then Ok 0
      else
        l <- calc_height f st (left st x) ;;
        r <- calc_height f st (right st x) ;;
        Ok (wrap16 (1 + Z.max l r))
  end.

Fixpoint check_height (fuel : nat) (st : state) (x : Z) : result unit :=
  match fuel with
  | O => Err OutOfFuel
  | S f =>
      h <- calc_height fuel st x ;;
      if negb (h =? hfield st x) then Err AssertFailed
      else
        u <- (if left st x =? T then Ok tt
              else check_height f st (left st x)) ;;
        if right st x =? T then Ok tt
        else check_height f st (right st x)
  end.

(** [clear]: the arena is reset by its length and root alone. *)
Definition clear (st : state) : state := mkState 0 T (nodes st) [].

End Diet3Checks.

(* ================================================================== *)
(** * Invariants of the unbalanced DIET ([diet.c]) *)

Module DietInv.
Import Ivl Diet.

Definition wf (st : state) : Prop := 0 <= len st <= N.

(** [rep st h t]: the nodes reachable from handle [h] form the tree [t]. *)
Inductive rep (st : state) : Z -> tree -> Prop :=
| rep_leaf : rep st T Leaf
| rep_node h l r :
    0 <= h < len st ->
    rep st (left st h) l -> rep st (right st h) r ->
    rep st h (Node l h (low st h) (high st h) r).

(** A later state in which the nodes allocated before are unchanged. *)
Definition ext (st st' : state) : Prop :=
  len st <= len st' /\
  forall i, 0 <= i < len st -> nodes st' i = nodes st i.

(** A later state in which only the nodes [hs] may have changed. *)
Definition changes (hs : list Z) (st st' : state) : Prop :=
  len st <= len st' /\
  forall i, 0 <= i < len st -> ~ In i hs -> nodes st' i = nodes st i.

(** The handles of [t'] are handles of [t] or were allocated between
    [st] and [st']. *)
Definition from (st st' : state) (t t' : tree) : Prop :=
  forall i, In i (handles t') ->
            In i (handles t) \/ len st <= i < len st'.

(** A call either returns a result that satisfies [P] or runs into the
    store of [new_node] outside the arena. *)
Definition post {A : Type} (r : result A) (P : A -> Prop) : Prop :=
  match r with
  | Ok a => P a
  | Err e => e = StoreOutsideArena
  end.

(** Nothing of [st] was touched: no node, no allocation, no [blit]. *)
Definition untouched (st st' : state) : Prop :=
  trace st' = trace st /\ len st' = len st /\
  forall i, nodes st' i = nodes st i.

(** What [insert_range st x lo hi] returns when [x] is the tree [t]. *)
Definition inserted (st : state) (x : Z) (t : tree) (lo hi : Z)
           (p : state * Z) : Prop :=
  wf (fst p) /\ (x <> T -> snd p = x) /\
  changes (handles t) st (fst p) /\
  exists t', rep (fst p) (snd p) t' /\ NoDup (handles t') /\
             from st (fst p) t t' /\
             ins (inorder t) lo hi (inorder t') /\
             (within (inorder t) lo hi ->
              untouched st (fst p) /\ snd p = x /\ t' = t).

(** The state between two calls of [insert]. *)
Record Inv (st : state) (t : tree) : Prop := {
  inv_wf : wf st;
  inv_rep : rep st (root st) t;
  inv_nodup : NoDup (handles t);
  inv_iso : iso (inorder t)
}.

End DietInv.

(* ================================================================== *)
(** * diet.c: the test verifiers *)

Module DietChecks.
Import Diet.

Fixpoint isolated_pairs (st : state) (values : list Z) : bool :=
  match values with
  | [] => true
  | x :: rest =>
      forallb (fun y => negb (overlapping_or_adjacent st x y)) rest
      && isolated_pairs st rest
  end.

Definition check_isolation (fuel : nat) (st : state) : result unit :=
  values <- gather_indices fuel st (root st) [] ;;
  if isolated_pairs st values then Ok tt else Err AssertFailed.

Fixpoint check_inequality (fuel : nat) (st : state) (x : Z) : result unit :=
  match fuel with
  | O => Err OutOfFuel
  | S f =>
      let l := left st x in
      let r := right st x in
      u <- (if l =? T then Ok tt
            else
              values <- gather_indices f st l [] ;;
              if forallb (fun v => low st v <=? low st x) values
              then check_inequality f st l
              else Err AssertFailed) ;;
      if r =? T then Ok tt
      else
        values <- gather_indices f st r [] ;;
        if forallb (fun v => low st x <=? low st v) values
        then check_inequality f st r
        else Err AssertFailed
  end.

(** [clear]: [root] and [len] are reset and the masks wiped; the node
    records stay as they are. *)
Definition clear (st : state) : state := mkState 0 T (nodes st) [].

End DietChecks.

(* ================================================================== *)
(** * The interval AVL tree: order of the [low] fields and exact [max] *)

Module AvlOrd.
Import Avl AvlInv.

(** [nodes[i].max] is what [update_max] would store. *)
Definition max_eq (st : state) (i : Z) : Prop :=
  max st i =
  Z.max (high st i) (Z.max (mx st (left st i)) (mx st (right st i))).

(** A bound on one side of a [low] field; [None] is no bound.  Side
    [true] bounds from below, side [false] from above. *)
Definition ble (e : bool) (o : option Z) (z : Z) : Prop :=
  match o with
  | None => True
  | Some a => if e then a <= z else z <= a
  end.

(** [bd e i] is the bound that the path from the root to node [i] puts on
    the [low] fields of the subtree of [i]: a node passes its own bound
    on side [e] to its child on side [e], and bounds that child by its
    own [low] on the other side. *)
Record bnd (st : state) (bd : bool -> Z -> option Z) (i : Z) : Prop := {
  bnd_in : forall e, ble e (bd e i) (low st i);
  bnd_ch : forall e, ch e st i <> T ->
                     bd e (ch e st i) = bd e i /\
                     bd (negb e) (ch e st i) = Some (low st i);
  bnd_top : parent st i = T -> forall e, bd e i = None
}.

Definition Bnd (st : state) (bd : bool -> Z -> option Z) : Prop :=
  forall i, valid st i -> bnd st bd i.

(** The bounds after [rotate d st x], which lifts [y]. *)
Definition rot_bd (d : bool) (x y ly : Z) (bd : bool -> Z -> option Z)
  : bool -> Z -> option Z :=
  fun e i =>
    if (i =? x) && Bool.eqb e d then Some ly
    else if (i =? y) && Bool.eqb e (negb d) then bd (negb d) x
    else bd e i.

(** The bounds after the new node [n] has been linked below [p] on side
    [s]. *)
Definition link_bd (s : bool) (p n lp : Z) (bd : bool -> Z -> option Z)
  : bool -> Z -> option Z :=
  fun e i =>
    if i =? n then (if Bool.eqb e s then bd e p else Some lp)
    else bd e i.

(** What holds between two calls of [insert], besides [Inv]. *)
Record Ord (st : state) : Prop := {
  ord_max : forall i, valid st i -> max_eq st i;
  ord_bnd : exists bd, Bnd st bd
}.

(** The same inside the rebalancing loop, where the [max] of the parent
    of the current subtree [x] is not yet recomputed. *)
Record MidOrd (st : state) (x : Z) : Prop := {
  mo_max : forall i, valid st i -> i <> parent st x -> max_eq st i;
  mo_bnd : exists bd, Bnd st bd
}.

End AvlOrd.

(* ================================================================== *)
(** * diet3.c: ranges that do not wrap *)

Module Diet3BlitDefs.

(** Endpoints that stay clear of the two ends of [int16], so that the
    [e + 1] and [s - 1] handed to [blit] do not wrap. *)
Definition bounded (L : list (Z * Z)) : Prop :=
  forall a b, In (a, b) L -> -32768 < a /\ b < 32767.

End Diet3BlitDefs.

(* ================================================================== *)
(** * diet3.c: an arena holding four trees *)

Module Diet3Sample.

Import Diet3 Ivl.

(** Eleven allocated nodes, children stored before their parents as
    [new_node] leaves them.  Node 4 is the root of a tree of height 3
    over the nodes 0..4, node 5 is a single node, node 9 is the root of a
    tree of height 3 whose right subtree is the taller one, node 10 is a
    single node. *)
Definition cells : list node :=
  [ mkNode 1 1 1 T T;        (* 0 *)
    mkNode 5 5 1 T T;        (* 1 *)
    mkNode 3 3 2 0 1;        (* 2 *)
    mkNode 9 9 1 T T;        (* 3 *)
    mkNode 7 7 3 2 3;        (* 4 *)
    mkNode 13 13 1 T T;      (* 5 *)
    mkNode 21 21 1 T T;      (* 6 *)
    mkNode 25 25 1 T T;      (* 7 *)
    mkNode 27 27 2 7 T;      (* 8 *)
    mkNode 23 23 3 6 8;      (* 9 *)
    mkNode 31 31 1 T T ].    (* 10 *)

Definition arena : state :=
  mkState 11 4 (fun i => nth (Z.to_nat i) cells (mkNode 0 0 0 0 0)) [].

(** The tree at handle 4: intervals 1, 3, 5, 7, 9. *)
Definition tall : tree :=
  Node (Node (Node Leaf 0 1 1 Leaf) 2 3 3 (Node Leaf 1 5 5 Leaf))
       4 7 7
       (Node Leaf 3 9 9 Leaf).

(** The tree at handle 5. *)
Definition single13 : tree := Node Leaf 5 13 13 Leaf.

(** The tree at handle 9: intervals 21, 23, 25, 27; its left subtree has
    height 1 and its right subtree height 2. *)
Definition skew : tree :=
  Node (Node Leaf 6 21 21 Leaf)
       9 23 23
       (Node (Node Leaf 7 25 25 Leaf) 8 27 27 Leaf).

(** The tree at handle 10. *)
Definition single31 : tree := Node Leaf 10 31 31 Leaf.

End Diet3Sample.

(* ================================================================== *)
(** * Observations of whole runs *)

Definition rmap {A B : Type} (f : A -> B) (r : result A) : result B :=
  match r with
  | Ok a => Ok (f a)
  | Err e => Err e
  end.

(** The intervals of the stored nodes, in the order of [gather_indices]. *)
Definition diet_intervals (fuel : nat) (st : Diet.state)
  : result (list (Z * Z)) :=
  rmap (map (fun x => (Diet.low st x, Diet.high st x))) (Diet.stored fuel st).

Definition diet3_intervals (fuel : nat) (st : Diet3.state)
  : result (list (Z * Z)) :=
  rmap (map (fun x => (Diet3.start st x, Diet3.end_ st x)))
       (Diet3.stored fuel st).

(** What one observes of a run: the stored intervals and the [blit] calls
    of the last insertion. *)
Definition diet_run (fuel : nat) (ops : list (Z * Z))
  : result (list (Z * Z) * list (Z * Z)) :=
  st <- Diet.inserts fuel Diet.init ops ;;
  ivs <- diet_intervals fuel st ;;
  Ok (ivs, Diet.trace st).

Definition diet3_run (rtl : bool) (fuel : nat) (ops : list (Z * Z))
  : result (list (Z * Z) * list (Z * Z)) :=
  st <- Diet3.inserts rtl fuel Diet3.init ops ;;
  ivs <- diet3_intervals fuel st ;;
  Ok (ivs, Diet3.trace st).


(* ================================================================== *)
(** * Facts about the interval AVL tree *)

Module AvlFacts.
Import Avl AvlInv.

(** ** Reading a field after a write *)

Ltac field_rw :=
  intros;
  unfold low, high, max, left, right, parent, hfield,
         set_max, set_left, set_right, set_parent, set_height,
         set_root, set_len, init_node, upd;
  cbn [nodes root len];
  try match goal with
      | |- context [?j =? ?i] => destruct (Z.eqb_spec j i); subst
      end;
  reflexivity.

Lemma low_set_max st i v j : low (set_max st i v) j = low st j.
Proof. field_rw. Qed.

Lemma high_set_max st i v j : high (set_max st i v) j = high st j.
Proof. field_rw. Qed.

Lemma max_set_max st i v j :
  max (set_max st i v) j = if j =? i then v else max st j.
Proof. field_rw. Qed.

Lemma left_set_max st i v j : left (set_max st i v) j = left st j.
Proof. field_rw. Qed.

Lemma right_set_max st i v j : right (set_max st i v) j = right st j.
Proof. field_rw. Qed.

Lemma parent_set_max st i v j : parent (set_max st i v) j = parent st j.
Proof. field_rw. Qed.

Lemma hfield_set_max st i v j : hfield (set_max st i v) j = hfield st j.
Proof. field_rw. Qed.

Lemma root_set_max st i v : root (set_max st i v) = root st.
Proof. reflexivity. Qed.

Lemma len_set_max st i v : len (set_max st i v) = len st.
Proof. reflexivity. Qed.

Lemma low_set_left st i v j : low (set_left st i v) j = low st j.
Proof. field_rw. Qed.

Lemma high_set_left st i v j : high (set_left st i v) j = high st j.
Proof. field_rw. Qed.

Lemma max_set_left st i v j : max (set_left st i v) j = max st j.
Proof. field_rw. Qed.

Lemma left_set_left st i v j :
  left (set_left st i v) j = if j =? i then v else left st j.
Proof. field_rw. Qed.

Lemma right_set_left st i v j : right (set_left st i v) j = right st j.
Proof. field_rw. Qed.

Lemma parent_set_left st i v j : parent (set_left st i v) j = parent st j.
Proof. field_rw. Qed.

Lemma hfield_set_left st i v j : hfield (set_left st i v) j = hfield st j.
Proof. field_rw. Qed.

Lemma root_set_left st i v : root (set_left st i v) = root st.
Proof. reflexivity. Qed.

Lemma len_set_left st i v : len (set_left st i v) = len st.
Proof. reflexivity. Qed.

Lemma low_set_right st i v j : low (set_right st i v) j = low st j.
Proof. field_rw. Qed.

Lemma high_set_right st i v j : high (set_right st i v) j = high st j.
Proof. field_rw. Qed.

Lemma max_set_right st i v j : max (set_right st i v) j = max st j.
Proof. field_rw. Qed.

Lemma left_set_right st i v j : left (set_right st i v) j = left st j.
Proof. field_rw. Qed.

Lemma right_set_right st i v j :
  right (set_right st i v) j = if j =? i then v else right st j.
Proof. field_rw. Qed.

Lemma parent_set_right st i v j : parent (set_right st i v) j = parent st j.
Proof. field_rw. Qed.

Lemma hfield_set_right st i v j : hfield (set_right st i v) j = hfield st j.
Proof. field_rw. Qed.

Lemma root_set_right st i v : root (set_right st i v) = root st.
Proof. reflexivity. Qed.

Lemma len_set_right st i v : len (set_right st i v) = len st.
Proof. reflexivity. Qed.

Lemma low_set_parent st i v j : low (set_parent st i v) j = low st j.
Proof. field_rw. Qed.

Lemma high_set_parent st i v j : high (set_parent st i v) j = high st j.
Proof. field_rw. Qed.

Lemma max_set_parent st i v j : max (set_parent st i v) j = max st j.
Proof. field_rw. Qed.

Lemma left_set_parent st i v j : left (set_parent st i v) j = left st j.
Proof. field_rw. Qed.

Lemma right_set_parent st i v j : right (set_parent st i v) j = right st j.
Proof. field_rw. Qed.

Lemma parent_set_parent st i v j :
  parent (set_parent st i v) j = if j =? i then v else parent st j.
Proof. field_rw. Qed.

Lemma hfield_set_parent st i v j : hfield (set_parent st i v) j = hfield st j.
Proof. field_rw. Qed.

Lemma root_set_parent st i v : root (set_parent st i v) = root st.
Proof. reflexivity. Qed.

Lemma len_set_parent st i v : len (set_parent st i v) = len st.
Proof. reflexivity. Qed.

Lemma low_set_height st i v j : low (set_height st i v) j = low st j.
Proof. field_rw. Qed.

Lemma high_set_height st i v j : high (set_height st i v) j = high st j.
Proof. field_rw. Qed.

Lemma max_set_height st i v j : max (set_height st i v) j = max st j.
Proof. field_rw. Qed.

Lemma left_set_height st i v j : left (set_height st i v) j = left st j.
Proof. field_rw. Qed.

Lemma right_set_height st i v j : right (set_height st i v) j = right st j.
Proof. field_rw. Qed.

Lemma parent_set_height st i v j : parent (set_height st i v) j = parent st j.
Proof. field_rw. Qed.

Lemma hfield_set_height st i v j :
  hfield (set_height st i v) j = if j =? i then v else hfield st j.
Proof. field_rw. Qed.

Lemma root_set_height st i v : root (set_height st i v) = root st.
Proof. reflexivity. Qed.

Lemma len_set_height st i v : len (set_height st i v) = len st.
Proof. reflexivity. Qed.

Lemma low_set_root st v j : low (set_root st v) j = low st j.
Proof. reflexivity. Qed.

Lemma high_set_root st v j : high (set_root st v) j = high st j.
Proof. reflexivity. Qed.

Lemma max_set_root st v j : max (set_root st v) j = max st j.
Proof. reflexivity. Qed.

Lemma left_set_root st v j : left (set_root st v) j = left st j.
Proof. reflexivity. Qed.

Lemma right_set_root st v j : right (set_root st v) j = right st j.
Proof. reflexivity. Qed.

Lemma parent_set_root st v j : parent (set_root st v) j = parent st j.
Proof. reflexivity. Qed.

Lemma hfield_set_root st v j : hfield (set_root st v) j = hfield st j.
Proof. reflexivity. Qed.

Lemma low_set_len st v j : low (set_len st v) j = low st j.
Proof. reflexivity. Qed.

Lemma high_set_len st v j : high (set_len st v) j = high st j.
Proof. reflexivity. Qed.

Lemma max_set_len st v j : max (set_len st v) j = max st j.
Proof. reflexivity. Qed.

Lemma left_set_len st v j : left (set_len st v) j = left st j.
Proof. reflexivity. Qed.

Lemma right_set_len st v j : right (set_len st v) j = right st j.
Proof. reflexivity. Qed.

Lemma parent_set_len st v j : parent (set_len st v) j = parent st j.
Proof. reflexivity. Qed.

Lemma hfield_set_len st v j : hfield (set_len st v) j = hfield st j.
Proof. reflexivity. Qed.

Lemma root_set_root st v : root (set_root st v) = v.
Proof. reflexivity. Qed.

Lemma len_set_root st v : len (set_root st v) = len st.
Proof. reflexivity. Qed.

Lemma root_set_len st v : root (set_len st v) = root st.
Proof. reflexivity. Qed.

Lemma len_set_len st v : len (set_len st v) = v.
Proof. reflexivity. Qed.

Lemma low_init_node st i lo hi j :
  low (init_node st i lo hi) j = if j =? i then lo else low st j.
Proof. field_rw. Qed.

Lemma high_init_node st i lo hi j :
  high (init_node st i lo hi) j = if j =? i then hi else high st j.
Proof. field_rw. Qed.

Lemma max_init_node st i lo hi j :
  max (init_node st i lo hi) j = if j =? i then hi else max st j.
Proof. field_rw. Qed.

Lemma left_init_node st i lo hi j :
  left (init_node st i lo hi) j = if j =? i then T else left st j.
Proof. field_rw. Qed.

Lemma right_init_node st i lo hi j :
  right (init_node st i lo hi) j = if j =? i then T else right st j.
Proof. field_rw. Qed.

Lemma parent_init_node st i lo hi j :
  parent (init_node st i lo hi) j = if j =? i then T else parent st j.
Proof. field_rw. Qed.

Lemma hfield_init_node st i lo hi j :
  hfield (init_node st i lo hi) j = if j =? i then 1 else hfield st j.
Proof. field_rw. Qed.

Lemma root_init_node st i lo hi : root (init_node st i lo hi) = root st.
Proof. reflexivity. Qed.

Lemma len_init_node st i lo hi : len (init_node st i lo hi) = len st.
Proof. reflexivity. Qed.

Create Rewrite HintDb avl.

#[export] Hint Rewrite
  low_set_max high_set_max max_set_max left_set_max
  right_set_max parent_set_max hfield_set_max root_set_max
  len_set_max low_set_left high_set_left max_set_left
  left_set_left right_set_left parent_set_left hfield_set_left
  root_set_left len_set_left low_set_right high_set_right
  max_set_right left_set_right right_set_right parent_set_right
  hfield_set_right root_set_right len_set_right low_set_parent
  high_set_parent max_set_parent left_set_parent right_set_parent
  parent_set_parent hfield_set_parent root_set_parent len_set_parent
  low_set_height high_set_height max_set_height left_set_height
  right_set_height parent_set_height hfield_set_height root_set_height
  len_set_height low_set_root high_set_root max_set_root
  left_set_root right_set_root parent_set_root hfield_set_root
  low_set_len high_set_len max_set_len left_set_len
  right_set_len parent_set_len hfield_set_len root_set_root
  len_set_root root_set_len len_set_len low_init_node
  high_init_node max_init_node left_init_node right_init_node
  parent_init_node hfield_init_node root_init_node len_init_node
  : avl.

End AvlFacts.

Module AvlRot.
Import Avl AvlInv AvlFacts.

(** ** Rotations *)

Lemma right_rotate_eq st x : right_rotate st x = rotate true st x.
Proof.
  unfold right_rotate, rotate, rot_fields, rot_swap, rot_attach, rot_up,
    rot_adopt, rot_down, ch, set_ch, negb.
  reflexivity.
Qed.

Lemma left_rotate_eq st x : left_rotate st x = rotate false st x.
Proof.
  unfold left_rotate, rotate, rot_fields, rot_swap, rot_attach, rot_up,
    rot_adopt, rot_down, ch, set_ch, negb.
  reflexivity.
Qed.

Lemma ch_set_ch e d st i v j :
  ch e (set_ch d st i v) j =
  if (j =? i) && Bool.eqb e d then v else ch e st j.
Proof.
  destruct e, d; cbn [ch set_ch Bool.eqb]; autorewrite with avl;
    destruct (j =? i); reflexivity.
Qed.

Lemma ch_set_parent e st i v j : ch e (set_parent st i v) j = ch e st j.
Proof. destruct e; cbn [ch]; autorewrite with avl; reflexivity. Qed.
Lemma ch_set_height e st i v j : ch e (set_height st i v) j = ch e st j.
Proof. destruct e; cbn [ch]; autorewrite with avl; reflexivity. Qed.
Lemma ch_set_max e st i v j : ch e (set_max st i v) j = ch e st j.
Proof. destruct e; cbn [ch]; autorewrite with avl; reflexivity. Qed.
Lemma ch_set_root e st v j : ch e (set_root st v) j = ch e st j.
Proof. reflexivity. Qed.

Lemma parent_set_ch d st i v j : parent (set_ch d st i v) j = parent st j.
Proof. destruct d; cbn [set_ch]; autorewrite with avl; reflexivity. Qed.
Lemma hfield_set_ch d st i v j : hfield (set_ch d st i v) j = hfield st j.
Proof. destruct d; cbn [set_ch]; autorewrite with avl; reflexivity. Qed.
Lemma max_set_ch d st i v j : max (set_ch d st i v) j = max st j.
Proof. destruct d; cbn [set_ch]; autorewrite with avl; reflexivity. Qed.
Lemma low_set_ch d st i v j : low (set_ch d st i v) j = low st j.
Proof. destruct d; cbn [set_ch]; autorewrite with avl; reflexivity. Qed.
Lemma high_set_ch d st i v j : high (set_ch d st i v) j = high st j.
Proof. destruct d; cbn [set_ch]; autorewrite with avl; reflexivity. Qed.
Lemma root_set_ch d st i v : root (set_ch d st i v) = root st.
Proof. destruct d; reflexivity. Qed.
Lemma len_set_ch d st i v : len (set_ch d st i v) = len st.
Proof. destruct d; reflexivity. Qed.

#[export] Hint Rewrite ch_set_ch ch_set_parent ch_set_height ch_set_max
  ch_set_root parent_set_ch hfield_set_ch max_set_ch low_set_ch high_set_ch
  root_set_ch len_set_ch : avl.

Lemma left_ch st i : left st i = ch true st i.
Proof. reflexivity. Qed.
Lemma right_ch st i : right st i = ch false st i.
Proof. reflexivity. Qed.

Lemma eqb_false_l (a b : Z) : a <> b -> (a =? b) = false.
Proof. apply Z.eqb_neq. Qed.
Lemma eqb_false_r (a b : Z) : a <> b -> (b =? a) = false.
Proof. intros H. apply Z.eqb_neq. congruence. Qed.

(** Rewrites the comparisons that the disequalities in the context
    decide. *)
Ltac neq_rw :=
  repeat match goal with
         | H : ?a <> ?b |- context [?a =? ?b] =>
             rewrite (eqb_false_l a b H)
         | H : ?a <> ?b |- context [?b =? ?a] =>
             rewrite (eqb_false_r a b H)
         | |- context [?a =? ?a] => rewrite (Z.eqb_refl a)
         end;
  cbn [andb orb negb Bool.eqb].

Ltac rd := repeat (autorewrite with avl; neq_rw).

Lemma set_ch_side (s : bool) st i v :
  (if s then set_left st i v else set_right st i v) = set_ch s st i v.
Proof. destruct s; reflexivity. Qed.

(** The state after [rotate], as a straight sequence of stores. *)
Lemma rotate_unfold d st x y pp a b c :
  ch d st x = y -> parent st x = pp ->
  ch d st y = a -> ch (negb d) st y = b -> ch (negb d) st x = c ->
  x <> T -> y <> T -> x <> y -> pp <> x -> pp <> y -> b <> x -> a <> x ->
  rotate d st x =
  (let s1 := set_ch d st x b in
   let s2 := if b =? T then s1 else set_parent s1 b x in
   let s3 := set_parent s2 y pp in
   let s4 := if pp =? T then set_root s3 y
             else set_ch (x =? left st pp) s3 pp y in
   let s6 := set_parent (set_ch (negb d) s4 y x) x y in
   let hx := wrap16 (1 + Z.max (height st b) (height st c)) in
   let hy := wrap16 (1 + Z.max (height st a) hx) in
   let mx_ := Z.max (high st x) (Z.max (mx st b) (mx st c)) in
   let my := Z.max (high st y) (Z.max (mx st a) mx_) in
   set_max (set_max (set_height (set_height s6 x hx) y hy) x mx_) y my,
   y).
Proof.
  intros Hy Hpp Ha Hb Hc HxT HyT Hxy Hpx Hpy Hbx Hax.
  assert (Hyx : y <> x) by congruence.
  unfold rotate. rewrite Hy. f_equal.
  assert (E1 : rot_down d x y st = set_ch d st x b).
  { unfold rot_down. rewrite Hb. reflexivity. }
  rewrite E1.
  assert (E2 : rot_adopt d x y (set_ch d st x b) =
               if b =? T then set_ch d st x b
               else set_parent (set_ch d st x b) b x).
  { unfold rot_adopt. rd. destruct d; cbn [negb Bool.eqb] in *; rewrite Hb;
      reflexivity. }
  rewrite E2. clear E1 E2.
  set (s2 := if b =? T then set_ch d st x b
             else set_parent (set_ch d st x b) b x).
  assert (P2 : forall i, i <> b -> parent s2 i = parent st i).
  { intros i Hi. unfold s2. destruct (b =? T); rd; reflexivity. }
  assert (C2 : forall e i, ch e s2 i =
                           if (i =? x) && Bool.eqb e d then b else ch e st i).
  { intros e i. unfold s2. destruct (b =? T); rd; reflexivity. }
  assert (E3 : rot_up x y s2 = set_parent s2 y pp).
  { unfold rot_up. rewrite P2 by congruence. rewrite Hpp. reflexivity. }
  rewrite E3. clear E3.
  set (s3 := set_parent s2 y pp).
  assert (E4 : rot_attach x y s3 =
               if pp =? T then set_root s3 y
               else set_ch (x =? left st pp) s3 pp y).
  { unfold rot_attach, s3. rd. rewrite P2 by congruence. rewrite Hpp.
    rewrite set_ch_side. rewrite !left_ch. rd. rewrite C2. rd. reflexivity. }
  rewrite E4. clear E4.
  set (s4 := if pp =? T then set_root s3 y
             else set_ch (x =? left st pp) s3 pp y).
  unfold rot_swap.
  set (s6 := set_parent (set_ch (negb d) s4 y x) x y).
  assert (C6 : forall e, ch e s6 x = if Bool.eqb e d then b else ch e st x).
  { intros e. unfold s6, s4, s3.
    destruct (pp =? T); rd; rewrite C2; rd; reflexivity. }
  assert (C6y : forall e, ch e s6 y = if Bool.eqb e (negb d) then x
                                      else ch e st y).
  { intros e. unfold s6, s4, s3.
    destruct (pp =? T); rd; rewrite ?C2; rd; reflexivity. }
  assert (H6 : forall i, hfield s6 i = hfield st i).
  { intros i. unfold s6, s4, s3, s2.
    destruct (pp =? T), (b =? T); rd; reflexivity. }
  assert (M6 : forall i, max s6 i = max st i).
  { intros i. unfold s6, s4, s3, s2.
    destruct (pp =? T), (b =? T); rd; reflexivity. }
  assert (G6 : forall i, high s6 i = high st i).
  { intros i. unfold s6, s4, s3, s2.
    destruct (pp =? T), (b =? T); rd; reflexivity. }
  assert (HH6 : forall i, height s6 i = height st i).
  { intros i. unfold height. rewrite H6. reflexivity. }
  assert (MM6 : forall i, mx s6 i = mx st i).
  { intros i. unfold mx. rewrite M6. reflexivity. }
  cbv zeta. unfold rot_fields.
  set (hx := wrap16 (1 + Z.max (height st b) (height st c))).
  assert (E7 : update_height s6 x = set_height s6 x hx).
  { unfold update_height. rewrite !left_ch, !right_ch, !C6, !HH6.
    unfold hx. destruct d; cbn [Bool.eqb negb ch] in *; rewrite ?Hc;
      [reflexivity | rewrite Z.max_comm; reflexivity]. }
  rewrite E7. clear E7.
  set (hy := wrap16 (1 + Z.max (height st a) hx)).
  assert (E8 : update_height (set_height s6 x hx) y
               = set_height (set_height s6 x hx) y hy).
  { unfold update_height. rewrite !left_ch, !right_ch. rd. rewrite !C6y.
    unfold height at 1 2. rd.
    assert (Hh : forall k, k <> x ->
                 (if k =? T then 0 else if k =? x then hx else hfield s6 k)
                 = height st k).
    { intros k Hk. unfold height. neq_rw. rewrite H6. reflexivity. }
    unfold hy.
    destruct d; cbn [Bool.eqb negb ch] in *; rd.
    - rewrite Ha. rewrite Hh by assumption. reflexivity.
    - rewrite Ha. rewrite Hh by assumption. rewrite Z.max_comm. reflexivity. }
  rewrite E8. clear E8.
  set (s8 := set_height (set_height s6 x hx) y hy).
  set (mx_ := Z.max (high st x) (Z.max (mx st b) (mx st c))).
  assert (E9 : update_max s8 x = set_max s8 x mx_).
  { unfold update_max, s8. rd. rewrite !left_ch, !right_ch, !C6.
    change (if ?k =? T then MIN else max s6 ?k) with (mx s6 k).
    rewrite !MM6, G6. unfold mx_.
    destruct d; cbn [Bool.eqb negb ch] in *; rewrite ?Hc;
      [reflexivity | rewrite (Z.max_comm (mx st c)); reflexivity]. }
  rewrite E9. clear E9.
  set (my := Z.max (high st y) (Z.max (mx st a) mx_)).
  assert (E10 : update_max (set_max s8 x mx_) y
                = set_max (set_max s8 x mx_) y my).
  { unfold update_max, s8. rd. rewrite !left_ch, !right_ch. rd.
    rewrite !C6y. rewrite G6.
    assert (Hm : forall k, k <> x ->
                 (if k =? T then MIN else if k =? x then mx_ else max s6 k)
                 = mx st k).
    { intros k Hk. unfold mx. neq_rw. rewrite M6. reflexivity. }
    unfold my.
    destruct d; cbn [Bool.eqb negb ch] in *; rd.
    - rewrite Ha. rewrite Hm by assumption. reflexivity.
    - rewrite Ha. rewrite Hm by assumption.
      rewrite (Z.max_comm mx_). reflexivity. }
  rewrite E10. reflexivity.
Qed.


Ltac eqb_split :=
  repeat match goal with
         | |- context [?a =? ?b] => destruct (Z.eqb_spec a b)
         end;
  cbn [andb orb negb Bool.eqb].

Lemma rotate_spec d st x y pp a b c :
  ch d st x = y -> parent st x = pp ->
  ch d st y = a -> ch (negb d) st y = b -> ch (negb d) st x = c ->
  x <> T -> y <> T -> x <> y -> pp <> x -> pp <> y -> b <> x -> a <> x ->
  exists st', rotate d st x = (st', y) /\ rot_spec d st x y pp a b c st'.
Proof.
  intros Hy Hpp Ha Hb Hc HxT HyT Hxy Hpx Hpy Hbx Hax.
  rewrite (rotate_unfold d st x y pp a b c) by assumption.
  eexists; split; [reflexivity |].
  cbv zeta.
  split; intros.
  - destruct (b =? T), (pp =? T); rd; reflexivity.
  - destruct (b =? T), (pp =? T); rd; reflexivity.
  - destruct (b =? T), (pp =? T); rd; reflexivity.
  - destruct (b =? T), (pp =? T); rd; reflexivity.
  - destruct (Z.eqb_spec b T), (Z.eqb_spec pp T); rd;
      eqb_split; try reflexivity; try congruence.
  - destruct (Z.eqb_spec b T), (Z.eqb_spec pp T); rd;
      eqb_split; destruct e, d; cbn [Bool.eqb negb];
      try reflexivity; try congruence.
  - destruct (b =? T), (pp =? T); rd; eqb_split;
      try reflexivity; try congruence.
  - destruct (b =? T), (pp =? T); rd; eqb_split;
      try reflexivity; try congruence.
Qed.

End AvlRot.

Module AvlMid.
Import Avl AvlInv AvlFacts AvlRot.

(** ** Consequences of the loop invariant *)

Lemma valid_not_T st i : len st <= N -> valid st i -> i <> T.
Proof. unfold valid, N, T. lia. Qed.

Lemma height_valid st i : i <> T -> height st i = hfield st i.
Proof. intros H. unfold height. rewrite (eqb_false_l _ _ H). reflexivity. Qed.

Lemma height_T st : height st T = 0.
Proof. reflexivity. Qed.

Lemma child_cases st i k :
  child_ok st i k -> len st <= N ->
  (k = T /\ height st k = 0) \/
  (k <> T /\ valid st k /\ parent st k = i /\ height st k = hfield st k).
Proof.
  intros [-> | [Hv Hp]] Hl.
  - left. split; reflexivity.
  - right. pose proof (valid_not_T _ _ Hl Hv).
    repeat split; try assumption; try apply Hv.
    apply height_valid; assumption.
Qed.

(** Along every parent link the rank strictly increases. *)
Lemma rk_parent st x c i :
  Mid st x c -> valid st i -> parent st i <> T ->
  valid st (parent st i) /\ rk st x c i < rk st x c (parent st i).
Proof.
  intros M Hi Hq.
  pose proof (mid_len _ _ _ M) as Hlen.
  assert (HiT : i <> T) by (eapply valid_not_T; [apply Hlen | exact Hi]).
  destruct (lk_parent _ _ (mid_links _ _ _ M i Hi)) as [? | [Hqv Hch]];
    [contradiction |].
  split; [exact Hqv |].
  pose proof (mid_c _ _ _ M) as (Hc0 & Hcx & Hcl).
  pose proof (mid_px _ _ _ M) as Hpx.
  remember (parent st i) as q eqn:Eq0.
  assert (Hhi : height st i = hfield st i) by (apply height_valid; exact HiT).
  unfold rk.
  destruct (Z.eq_dec q (parent st x)) as [Eq | Nq].
  - (* the stale node *)
    pose proof (mid_stale _ _ _ M) as S.
    rewrite <- Eq in S. specialize (S Hq). destruct S as [Sh _].
    assert (Hqx : q <> x) by congruence.
    rewrite (eqb_false_l _ _ Hqx).
    assert (Hoh : 1 + oh st x c i <= hfield st q).
    { rewrite Sh. destruct Hch as [E | E]; rewrite E; lia. }
    unfold oh in Hoh.
    destruct (Z.eqb_spec i x); lia.
  - pose proof (ok_hgt _ _ (mid_ok _ _ _ M q Hqv Nq)) as Hh.
    unfold hgt_ok in Hh.
    assert (Hge : 1 + hfield st i <= hfield st q).
    { rewrite Hh, <- Hhi. destruct Hch as [E | E]; rewrite E; lia. }
    destruct (Z.eqb_spec i x) as [-> | Nix]; [congruence |].
    destruct (Z.eqb_spec q x) as [-> | Nqx]; lia.
Qed.

Lemma fin_bound (f : Z -> Z) (n : nat) :
  exists B, forall i, 0 <= i < Z.of_nat n -> f i <= B.
Proof.
  induction n as [| n [B HB]].
  - exists 0. intros i Hi. lia.
  - exists (Z.max B (f (Z.of_nat n))). intros i Hi.
    destruct (Z.eq_dec i (Z.of_nat n)) as [-> | Ne]; [lia |].
    specialize (HB i). lia.
Qed.

(** Every node has a parentless ancestor of rank at least its own. *)
Lemma rk_top st x c i :
  Mid st x c -> valid st i ->
  exists t, valid st t /\ parent st t = T /\ rk st x c i <= rk st x c t.
Proof.
  intros M.
  destruct (fin_bound (rk st x c) (Z.to_nat (len st))) as [B HB].
  assert (HB' : forall j, valid st j -> rk st x c j <= B).
  { intros j Hj. apply HB. unfold valid in Hj. lia. }
  clear HB.
  assert (G : forall n j, valid st j -> B - rk st x c j <= Z.of_nat n ->
              exists t, valid st t /\ parent st t = T /\
                        rk st x c j <= rk st x c t).
  { induction n as [| n IH]; intros j Hj Hn.
    - destruct (Z.eq_dec (parent st j) T) as [E | E].
      + exists j. split; [exact Hj | split; [exact E | lia]].
      + destruct (rk_parent _ _ _ _ M Hj E) as [Hv Hlt].
        specialize (HB' _ Hv). lia.
    - destruct (Z.eq_dec (parent st j) T) as [E | E].
      + exists j. split; [exact Hj | split; [exact E | lia]].
      + destruct (rk_parent _ _ _ _ M Hj E) as [Hv Hlt].
        destruct (IH _ Hv) as (t & Ht & Hp & Hr); [lia |].
        exists t. split; [exact Ht | split; [exact Hp | lia]]. }
  intros Hi. apply (G (Z.to_nat (B - rk st x c i)) i Hi).
  specialize (HB' _ Hi). lia.
Qed.

(** While the loop is below the root, no height exceeds [len - 1]. *)
Lemma mid_heights st x c i :
  Mid st x c -> parent st x <> T -> valid st i ->
  1 <= hfield st i <= len st - 1.
Proof.
  intros M Hp Hi.
  split; [apply (mid_pos _ _ _ M); exact Hi |].
  destruct (rk_top _ _ _ _ M Hi) as (t & Ht & Hpt & Hr).
  assert (Htx : t <> x) by congruence.
  pose proof (mid_bound _ _ _ M t Ht Hpt Htx) as Hb.
  pose proof (mid_c _ _ _ M) as (Hc0 & Hcx & Hcl).
  unfold rk in Hr. rewrite (eqb_false_l _ _ Htx) in Hr.
  destruct (Z.eqb_spec i x) as [-> | Nix]; lia.
Qed.

Lemma wrap16_small z : -32768 <= z <= 32767 -> wrap16 z = z.
Proof.
  intros H. unfold wrap16.
  rewrite Z.mod_small by lia. lia.
Qed.

End AvlMid.

Module AvlFrame.
Import Avl AvlInv AvlFacts AvlRot AvlMid.

(** ** What a rotation preserves *)

Lemma child_facts st r i k :
  len st <= N -> links st i -> ranked st r -> valid st i ->
  (k = left st i \/ k = right st i) ->
  k = T \/ (k <> T /\ valid st k /\ parent st k = i /\ r k < r i).
Proof.
  intros Hl L R Vi Hk.
  assert (C : child_ok st i k).
  { destruct Hk as [-> | ->]; [apply (lk_left _ _ L) | apply (lk_right _ _ L)]. }
  destruct C as [-> | [Vk Pk]]; [left; reflexivity | right].
  pose proof (valid_not_T _ _ Hl Vk) as HkT.
  pose proof (valid_not_T _ _ Hl Vi) as HiT.
  repeat split; try assumption; try apply Vk.
  specialize (R k Vk). rewrite Pk in R. apply R. exact HiT.
Qed.

Lemma ch_cases d st i : ch d st i = left st i \/ ch d st i = right st i.
Proof. destruct d; [left | right]; reflexivity. Qed.

Lemma same_set_ch e st i v : ch e st i = v -> same_fields st (set_ch e st i v).
Proof.
  intros E. split; [| split].
  - apply len_set_ch.
  - apply root_set_ch.
  - intros j.
    destruct e; cbn [set_ch ch] in *; autorewrite with avl;
      repeat split; try reflexivity;
      destruct (Z.eqb_spec j i); subst; congruence.
Qed.

Lemma same_ch st1 st2 e i : same_fields st1 st2 -> ch e st2 i = ch e st1 i.
Proof.
  intros (_ & _ & F). destruct (F i) as (_ & _ & _ & L & R & _).
  destruct e; assumption.
Qed.

Lemma same_height st1 st2 i : same_fields st1 st2 -> height st2 i = height st1 i.
Proof.
  intros (_ & _ & F). destruct (F i) as (_ & _ & _ & _ & _ & _ & H).
  unfold height. rewrite H. reflexivity.
Qed.

Lemma same_mx st1 st2 i : same_fields st1 st2 -> mx st2 i = mx st1 i.
Proof.
  intros (_ & _ & F). destruct (F i) as (_ & _ & M & _).
  unfold mx. rewrite M. reflexivity.
Qed.

Lemma rot_spec_same d st1 st2 x y pp a b c st' :
  same_fields st1 st2 ->
  rot_spec d st2 x y pp a b c st' -> rot_spec d st1 x y pp a b c st'.
Proof.
  intros S RS.
  pose proof S as (Sl & Sr & F).
  split; intros.
  - rewrite (rs_len _ _ _ _ _ _ _ _ _ RS). exact Sl.
  - rewrite (rs_root _ _ _ _ _ _ _ _ _ RS), Sr. reflexivity.
  - rewrite (rs_low _ _ _ _ _ _ _ _ _ RS). apply F.
  - rewrite (rs_high _ _ _ _ _ _ _ _ _ RS). apply F.
  - rewrite (rs_parent _ _ _ _ _ _ _ _ _ RS).
    destruct (F i) as (_ & _ & _ & _ & _ & P & _). rewrite P. reflexivity.
  - rewrite (rs_ch _ _ _ _ _ _ _ _ _ RS).
    rewrite (same_ch st1 st2 e i S).
    destruct (F pp) as (_ & _ & _ & L & _). rewrite L. reflexivity.
  - rewrite (rs_hfield _ _ _ _ _ _ _ _ _ RS).
    rewrite !(same_height st1 st2) by exact S.
    destruct (F i) as (_ & _ & _ & _ & _ & _ & H). rewrite H. reflexivity.
  - rewrite (rs_max _ _ _ _ _ _ _ _ _ RS).
    rewrite !(same_mx st1 st2) by exact S.
    destruct (F i) as (_ & G & M & _). 
    destruct (F x) as (_ & Gx & _). destruct (F y) as (_ & Gy & _).
    rewrite M, Gx, Gy. reflexivity.
Qed.

Lemma ltb_sub_0 a b : (a - b <? 0) = (a <? b).
Proof.
  destruct (Z.ltb_spec a b); [apply Z.ltb_lt | apply Z.ltb_ge]; lia.
Qed.

Lemma ltb_0_sub a b : (0 <? a - b) = (b <? a).
Proof.
  destruct (Z.ltb_spec b a); [apply Z.ltb_lt | apply Z.ltb_ge]; lia.
Qed.

Lemma hgt_ok_ch d st i :
  hgt_ok st i <->
  hfield st i = 1 + Z.max (height st (ch d st i)) (height st (ch (negb d) st i)).
Proof.
  unfold hgt_ok. destruct d; cbn [ch negb]; [tauto |].
  rewrite Z.max_comm. tauto.
Qed.

Lemma bal_ok_ch d st i :
  bal_ok st i <->
  -1 <= height st (ch d st i) - height st (ch (negb d) st i) <= 1.
Proof. unfold bal_ok. destruct d; cbn [ch negb]; lia. Qed.

Lemma max_ok_ch d st i :
  max_ok st i <->
  high st i <= max st i /\
  (ch d st i = T \/ mx st (ch d st i) <= max st i) /\
  (ch (negb d) st i = T \/ mx st (ch (negb d) st i) <= max st i).
Proof. unfold max_ok. destruct d; cbn [ch negb]; tauto. Qed.

Section Rotation.

Variables (d : bool) (st : state) (r : Z -> Z) (x : Z).
Hypothesis Hlen : len st <= N.
Hypothesis LK : forall i, valid st i -> links st i.
Hypothesis RK : ranked st r.
Hypothesis Vx : valid st x.
Hypothesis HyT : ch d st x <> T.

Let y := ch d st x.
Let pp := parent st x.
Let a := ch d st y.
Let b := ch (negb d) st y.
Let c := ch (negb d) st x.

Lemma rot_y : valid st y /\ parent st y = x /\ r y < r x.
Proof.
  destruct (child_facts st r x y Hlen (LK x Vx) RK Vx (ch_cases d st x))
    as [E | (_ & V & P & R)]; [contradiction | auto].
Qed.

Lemma rot_c : c = T \/ (c <> T /\ valid st c /\ parent st c = x /\ r c < r x).
Proof.
  exact (child_facts st r x c Hlen (LK x Vx) RK Vx (ch_cases (negb d) st x)).
Qed.

Lemma rot_a : a = T \/ (a <> T /\ valid st a /\ parent st a = y /\ r a < r y).
Proof.
  destruct rot_y as (Vy & _).
  exact (child_facts st r y a Hlen (LK y Vy) RK Vy (ch_cases d st y)).
Qed.

Lemma rot_b : b = T \/ (b <> T /\ valid st b /\ parent st b = y /\ r b < r y).
Proof.
  destruct rot_y as (Vy & _).
  exact (child_facts st r y b Hlen (LK y Vy) RK Vy (ch_cases (negb d) st y)).
Qed.

Lemma rot_pp :
  pp = T \/ (pp <> T /\ valid st pp /\ r x < r pp /\
             (left st pp = x \/ right st pp = x)).
Proof.
  destruct (Z.eq_dec pp T) as [E | E]; [left; exact E | right].
  destruct (lk_parent _ _ (LK x Vx)) as [E' | [V C]]; [contradiction |].
  repeat split; try assumption; try apply V.
  apply (RK x Vx E).
Qed.

Lemma rot_c_y : c <> y.
Proof.
  intros E.
  pose proof (lk_distinct _ _ (LK x Vx)) as D.
  unfold c, y in E. destruct d; cbn [ch negb] in *; apply HyT.
  - apply D. congruence.
  - rewrite <- E. apply D. exact E.
Qed.

Lemma rot_a_b : a = b -> a = T.
Proof.
  intros E. destruct rot_y as (Vy & _).
  pose proof (lk_distinct _ _ (LK y Vy)) as D.
  unfold a, b in *. destruct d; cbn [ch negb] in *.
  - apply D. exact E.
  - rewrite E. apply D. congruence.
Qed.

Lemma rot_distinct :
  x <> T /\ x <> y /\ pp <> x /\ pp <> y /\ b <> x /\ a <> x /\
  b <> y /\ a <> y /\ c <> x /\
  (pp = a -> pp = T) /\ (pp = b -> pp = T) /\ (pp = c -> pp = T).
Proof.
  destruct rot_y as (Vy & Py & Ry).
  pose proof (valid_not_T _ _ Hlen Vx) as HxT.
  pose proof (valid_not_T _ _ Hlen Vy) as HyT'.
  assert (Hp : pp = T \/ r x < r pp).
  { destruct rot_pp as [E | (_ & _ & R & _)]; [left; exact E | right; lia]. }
  assert (Ha : a = T \/ r a < r y).
  { destruct rot_a as [E | (_ & _ & _ & R)]; [left; exact E | right; lia]. }
  assert (Hb : b = T \/ r b < r y).
  { destruct rot_b as [E | (_ & _ & _ & R)]; [left; exact E | right; lia]. }
  assert (Hc : c = T \/ r c < r x).
  { destruct rot_c as [E | (_ & _ & _ & R)]; [left; exact E | right; lia]. }
  clearbody y pp a b c. clear - Ry HxT HyT' Hp Ha Hb Hc.
  repeat match goal with |- _ /\ _ => split end; try assumption;
    intros E; destruct Hp, Ha, Hb, Hc; subst; try congruence; lia.
Qed.

(** The rotation is defined and described by [rot_spec]. *)
Lemma rot_defined :
  exists st', rotate d st x = (st', y) /\ rot_spec d st x y pp a b c st'.
Proof.
  destruct rot_distinct as (? & ? & ? & ? & ? & ? & _).
  apply rotate_spec; try reflexivity; try assumption.
Qed.

Variable st' : state.
Hypothesis RS : rot_spec d st x y pp a b c st'.

Let e0 : bool := x =? left st pp.

Lemma rot_valid i : valid st' i <-> valid st i.
Proof. unfold valid. rewrite (rs_len _ _ _ _ _ _ _ _ _ RS). tauto. Qed.

Lemma rot_pp_side : pp <> T -> ch e0 st pp = x /\ links st pp.
Proof.
  intros Hp. destruct rot_pp as [E | (_ & V & _ & C)]; [contradiction |].
  split; [| apply LK; exact V].
  unfold e0. destruct (Z.eqb_spec x (left st pp)) as [E | E]; cbn [ch].
  - symmetry; exact E.
  - destruct C as [C | C]; [congruence | exact C].
Qed.

Lemma rot_parent_x : parent st' x = y.
Proof. rewrite (rs_parent _ _ _ _ _ _ _ _ _ RS). rewrite Z.eqb_refl. reflexivity. Qed.

Lemma rot_parent_y : parent st' y = pp.
Proof.
  destruct rot_distinct as (_ & Dxy & _).
  rewrite (rs_parent _ _ _ _ _ _ _ _ _ RS).
  rewrite (eqb_false_r _ _ Dxy), Z.eqb_refl. reflexivity.
Qed.

Lemma rot_parent_b : b <> T -> parent st' b = x.
Proof.
  intros Hb.
  destruct rot_distinct as (_ & _ & _ & _ & Dbx & _ & Dby & _).
  rewrite (rs_parent _ _ _ _ _ _ _ _ _ RS).
  rewrite (eqb_false_l _ _ Dbx), (eqb_false_l _ _ Dby), Z.eqb_refl.
  rewrite (eqb_false_l _ _ Hb). reflexivity.
Qed.

Lemma rot_parent_other i :
  i <> x -> i <> y -> (i = b -> b = T) -> parent st' i = parent st i.
Proof.
  intros Hx Hy Hb.
  rewrite (rs_parent _ _ _ _ _ _ _ _ _ RS).
  rewrite (eqb_false_l _ _ Hx), (eqb_false_l _ _ Hy).
  destruct (Z.eqb_spec i b) as [E | E]; [| reflexivity].
  rewrite (Hb E), Z.eqb_refl. reflexivity.
Qed.

Lemma rot_ch_y e : ch e st' y = if Bool.eqb e (negb d) then x else ch e st y.
Proof.
  destruct rot_distinct as (_ & Dxy & _ & Dpy & _).
  rewrite (rs_ch _ _ _ _ _ _ _ _ _ RS).
  rewrite Z.eqb_refl, (eqb_false_r _ _ Dpy), (eqb_false_r _ _ Dxy).
  cbn [andb]. destruct (Bool.eqb e (negb d)); reflexivity.
Qed.

Lemma rot_ch_x e : ch e st' x = if Bool.eqb e d then b else ch e st x.
Proof.
  destruct rot_distinct as (_ & Dxy & Dpx & _).
  rewrite (rs_ch _ _ _ _ _ _ _ _ _ RS).
  rewrite Z.eqb_refl, (eqb_false_l _ _ Dxy), (eqb_false_r _ _ Dpx).
  cbn [andb]. reflexivity.
Qed.

Lemma rot_ch_pp e :
  pp <> T -> ch e st' pp = if Bool.eqb e e0 then y else ch e st pp.
Proof.
  intros Hp.
  destruct rot_distinct as (_ & _ & Dpx & Dpy & _).
  rewrite (rs_ch _ _ _ _ _ _ _ _ _ RS).
  rewrite Z.eqb_refl, (eqb_false_l _ _ Dpx), (eqb_false_l _ _ Dpy),
    (eqb_false_l _ _ Hp).
  cbn [andb negb]. fold e0. destruct (Bool.eqb e e0); reflexivity.
Qed.

Lemma rot_ch_other e i :
  i <> x -> i <> y -> (i = pp -> pp = T) -> ch e st' i = ch e st i.
Proof.
  intros Hx Hy Hp.
  rewrite (rs_ch _ _ _ _ _ _ _ _ _ RS).
  rewrite (eqb_false_l _ _ Hx), (eqb_false_l _ _ Hy). cbn [andb].
  destruct (Z.eqb_spec i pp) as [E | E]; [| reflexivity].
  rewrite (Hp E), Z.eqb_refl. reflexivity.
Qed.

Lemma eqb_false_negb (e1 e2 : bool) : Bool.eqb e1 e2 = false -> e1 = negb e2.
Proof. destruct e1, e2; cbn; congruence. Qed.

Lemma eqb_true_eq (e1 e2 : bool) : Bool.eqb e1 e2 = true -> e1 = e2.
Proof. destruct e1, e2; cbn; congruence. Qed.

(** The parent field of a node [k] that had parent [i] before. *)
Lemma rot_parent_of_child i k :
  valid st i -> valid st k -> parent st k = i ->
  i <> x -> i <> y -> (i = pp -> pp = T) -> parent st' k = i.
Proof.
  intros Vi Vk Pk Nx Ny Np.
  destruct rot_y as (_ & Py & _).
  pose proof (valid_not_T _ _ Hlen Vi) as HiT.
  rewrite rot_parent_other; [exact Pk | | |].
  - intros ->. exfalso. apply HiT. rewrite <- Pk. apply Np. symmetry. exact Pk.
  - intros ->. congruence.
  - intros ->. destruct rot_b as [E | (_ & _ & Pb & _)]; [exact E | congruence].
Qed.

Lemma rot_child_ok e i : valid st i -> child_ok st' i (ch e st' i).
Proof.
  intros Vi.
  destruct rot_y as (Vy & Py & Ry).
  destruct rot_distinct as
    (HxT & Dxy & Dpx & Dpy & Dbx & Dax & Dby & Day & Dcx & Dpa & Dpb & Dpc).
  destruct (Z.eq_dec i x) as [-> | Nx].
  { rewrite rot_ch_x. destruct (Bool.eqb e d) eqn:Ed.
    - destruct rot_b as [E | (HbT & Vb & Pb & _)]; [left; exact E | right].
      split; [apply rot_valid; exact Vb | apply rot_parent_b; exact HbT].
    - apply eqb_false_negb in Ed. subst e. fold c.
      destruct rot_c as [E | (HcT & Vc & Pc & _)]; [left; exact E | right].
      split; [apply rot_valid; exact Vc |].
      destruct (Z.eq_dec c b) as [E | E].
      + rewrite E. apply rot_parent_b. congruence.
      + rewrite rot_parent_other; auto using rot_c_y. intros; contradiction. }
  destruct (Z.eq_dec i y) as [-> | Ny].
  { rewrite rot_ch_y. destruct (Bool.eqb e (negb d)) eqn:Ed.
    - right. split; [apply rot_valid; exact Vx | apply rot_parent_x].
    - apply eqb_false_negb in Ed. rewrite Bool.negb_involutive in Ed. subst e.
      fold a.
      destruct rot_a as [E | (HaT & Va & Pa & _)]; [left; exact E | right].
      split; [apply rot_valid; exact Va |].
      rewrite rot_parent_other; auto.
      intros E. pose proof (rot_a_b E). contradiction. }
  destruct (Z.eq_dec i pp) as [-> | Np].
  { assert (HpT : pp <> T) by (apply (valid_not_T st); assumption).
    destruct (rot_pp_side HpT) as (Sx & Lp).
    rewrite (rot_ch_pp _ HpT). destruct (Bool.eqb e e0) eqn:Ed.
    - right. split; [apply rot_valid; exact Vy | apply rot_parent_y].
    - apply eqb_false_negb in Ed. subst e.
      assert (C : child_ok st pp (ch (negb e0) st pp)).
      { destruct e0; [apply (lk_right _ _ Lp) | apply (lk_left _ _ Lp)]. }
      destruct C as [E | [Vs Ps]]; [left; exact E | right].
      split; [apply rot_valid; exact Vs |].
      pose proof (lk_distinct _ _ Lp) as Dp.
      rewrite rot_parent_other; auto.
      + intros E. apply HxT.
        assert (D2 : left st pp = right st pp)
          by (destruct e0; cbn [ch negb] in *; congruence).
        pose proof (Dp D2).
        destruct e0; cbn [ch negb] in *; congruence.
      + intros E. rewrite E in Ps. congruence.
      + intros E. rewrite E in Ps.
        destruct rot_b as [Eb | (_ & _ & Pb & _)]; [exact Eb | congruence]. }
  (* any other node keeps its children *)
  rewrite rot_ch_other by (auto; intros; contradiction).
  assert (C : child_ok st i (ch e st i)).
  { destruct e; [apply (lk_left _ _ (LK i Vi)) | apply (lk_right _ _ (LK i Vi))]. }
  destruct C as [E | [Vk Pk]]; [left; exact E | right].
  split; [apply rot_valid; exact Vk |].
  apply rot_parent_of_child; auto. intros; contradiction.
Qed.

Lemma rot_child_distinct e i :
  valid st i -> ch e st' i = ch (negb e) st' i -> ch e st' i = T.
Proof.
  intros Vi.
  destruct rot_y as (Vy & Py & Ry).
  destruct rot_distinct as
    (HxT & Dxy & Dpx & Dpy & Dbx & Dax & Dby & Day & Dcx & Dpa & Dpb & Dpc).
  destruct (Z.eq_dec i x) as [-> | Nx].
  { rewrite !rot_ch_x.
    assert (Hbc : b = c -> b = T).
    { intros E. destruct rot_b as [Eb | (_ & _ & Pb & _)]; [exact Eb |].
      destruct rot_c as [Ec | (_ & _ & Pc & _)]; [congruence |].
      rewrite E in Pb. congruence. }
    assert (Ec : ch (negb d) st x = c) by reflexivity.
    clearbody c b.
    destruct e, d; cbn [Bool.eqb negb ch] in *; rewrite Ec; intros E;
      first [ apply Hbc; exact E
            | rewrite E; apply Hbc; symmetry; exact E
            | rewrite <- E; apply Hbc; symmetry; exact E ]. }
  destruct (Z.eq_dec i y) as [-> | Ny].
  { rewrite !rot_ch_y.
    assert (Ea : ch d st y = a) by reflexivity.
    clearbody a.
    destruct e, d; cbn [Bool.eqb negb ch] in *; rewrite Ea; intros E;
      congruence. }
  destruct (Z.eq_dec i pp) as [-> | Np].
  { assert (HpT : pp <> T) by (apply (valid_not_T st); assumption).
    destruct (rot_pp_side HpT) as (Sx & Lp).
    rewrite !(rot_ch_pp _ HpT).
    assert (HyT' : y <> T) by exact HyT.
    assert (Hs : ch (negb e0) st pp <> y).
    { intros E.
      assert (C : child_ok st pp (ch (negb e0) st pp)).
      { destruct e0; [apply (lk_right _ _ Lp) | apply (lk_left _ _ Lp)]. }
      destruct C as [E' | [_ Ps]]; [congruence |].
      rewrite E in Ps. congruence. }
    clear Sx. clearbody e0 y.
    destruct e, e0; cbn [Bool.eqb negb ch] in *; intros E; congruence. }
  rewrite !rot_ch_other by (auto; intros; contradiction).
  pose proof (lk_distinct _ _ (LK i Vi)) as D.
  destruct e; cbn [ch negb]; intros E; [apply D; exact E |].
  rewrite E. apply D. symmetry. exact E.
Qed.

Lemma rot_parent_ok i :
  valid st i ->
  parent st' i = T \/
  (valid st' (parent st' i) /\
   (left st' (parent st' i) = i \/ right st' (parent st' i) = i)).
Proof.
  intros Vi.
  destruct rot_y as (Vy & Py & Ry).
  destruct rot_distinct as
    (HxT & Dxy & Dpx & Dpy & Dbx & Dax & Dby & Day & Dcx & Dpa & Dpb & Dpc).
  pose proof (valid_not_T _ _ Hlen Vi) as HiT.
  assert (side : forall q e, ch e st' q = i ->
                 left st' q = i \/ right st' q = i).
  { intros q e E. destruct e; [left | right]; exact E. }
  destruct (Z.eq_dec i x) as [-> | Nx].
  { right. rewrite rot_parent_x. split; [apply rot_valid; exact Vy |].
    apply (side y (negb d)). rewrite rot_ch_y.
    rewrite Bool.eqb_reflx. reflexivity. }
  destruct (Z.eq_dec i y) as [-> | Ny].
  { rewrite rot_parent_y.
    destruct (Z.eq_dec pp T) as [E | HpT]; [left; exact E | right].
    destruct rot_pp as [E | (_ & Vp & _)]; [contradiction |].
    split; [apply rot_valid; exact Vp |].
    apply (side pp e0). rewrite (rot_ch_pp _ HpT).
    rewrite Bool.eqb_reflx. reflexivity. }
  destruct (Z.eq_dec i b) as [-> | Nb].
  { right. rewrite (rot_parent_b HiT). split; [apply rot_valid; exact Vx |].
    apply (side x d). rewrite rot_ch_x. rewrite Bool.eqb_reflx. reflexivity. }
  rewrite rot_parent_other by (auto; intros; contradiction).
  destruct (lk_parent _ _ (LK i Vi)) as [E | [Vq C]]; [left; exact E | right].
  split; [apply rot_valid; exact Vq |].
  assert (C' : exists e, ch e st (parent st i) = i).
  { destruct C; [exists true | exists false]; assumption. }
  destruct C' as [e E].
  apply (side _ e).
  destruct (Z.eq_dec (parent st i) x) as [Eq | Nqx].
  { rewrite Eq in *. rewrite rot_ch_x.
    destruct (Bool.eqb e d) eqn:Ed; [| exact E].
    apply eqb_true_eq in Ed. subst e. fold y in E. congruence. }
  destruct (Z.eq_dec (parent st i) y) as [Eq | Nqy].
  { rewrite Eq in *. rewrite rot_ch_y.
    destruct (Bool.eqb e (negb d)) eqn:Ed; [| exact E].
    apply eqb_true_eq in Ed. subst e. fold b in E. congruence. }
  destruct (Z.eq_dec (parent st i) pp) as [Eq | Nqp].
  { assert (HpT : pp <> T).
    { rewrite <- Eq. apply (valid_not_T st); assumption. }
    destruct (rot_pp_side HpT) as (Sx & _).
    rewrite Eq in *. rewrite (rot_ch_pp _ HpT).
    destruct (Bool.eqb e e0) eqn:Ed; [| exact E].
    apply eqb_true_eq in Ed. subst e. congruence. }
  rewrite rot_ch_other by (auto; intros; contradiction). exact E.
Qed.

Lemma rot_links i : valid st' i -> links st' i.
Proof.
  intros Vi. apply rot_valid in Vi. split.
  - apply (rot_child_ok true i Vi).
  - apply (rot_child_ok false i Vi).
  - apply (rot_child_distinct true i Vi).
  - apply (rot_parent_ok i Vi).
Qed.

Lemma rot_ranked : ranked st' (rot_rank r x y).
Proof.
  intros i Vi Hp. apply rot_valid in Vi.
  destruct rot_y as (Vy & Py & Ry).
  destruct rot_distinct as
    (HxT & Dxy & Dpx & Dpy & Dbx & Dax & Dby & Day & Dcx & Dpa & Dpb & Dpc).
  pose proof (valid_not_T _ _ Hlen Vi) as HiT.
  unfold rot_rank.
  destruct (Z.eq_dec i x) as [-> | Nx].
  { rewrite rot_parent_x. rewrite Z.eqb_refl.
    rewrite (eqb_false_l _ _ Dxy), Z.eqb_refl. lia. }
  destruct (Z.eq_dec i y) as [-> | Ny].
  { rewrite rot_parent_y in *. rewrite Z.eqb_refl.
    rewrite (eqb_false_l _ _ Dpx), (eqb_false_l _ _ Dpy).
    destruct rot_pp as [E | (_ & _ & R & _)]; [contradiction |].
    clear - R. lia. }
  rewrite (eqb_false_l _ _ Nx), (eqb_false_l _ _ Ny).
  destruct (Z.eq_dec i b) as [-> | Nb].
  { rewrite (rot_parent_b HiT). rewrite Z.eqb_refl.
    rewrite (eqb_false_l _ _ Dxy).
    destruct rot_b as [E | (_ & _ & _ & R)]; [contradiction |].
    clear - R Ry. lia. }
  rewrite rot_parent_other in * by (auto; intros; contradiction).
  pose proof (RK i Vi Hp) as R.
  destruct (Z.eqb_spec (parent st i) y) as [E | E];
    [rewrite E in R; clear - R Ry; lia |].
  destruct (Z.eqb_spec (parent st i) x) as [E' | E'];
    [rewrite E' in R |]; clear - R; lia.
Qed.

Lemma rot_parentless i :
  valid st i -> parent st' i = T ->
  (i = y /\ pp = T) \/ (i <> x /\ i <> y /\ parent st i = T).
Proof.
  intros Vi Hp.
  destruct rot_y as (Vy & Py & Ry).
  pose proof (valid_not_T _ _ Hlen Vi) as HiT.
  pose proof (valid_not_T _ _ Hlen Vx) as HxT.
  assert (HyT' : y <> T) by exact HyT.
  destruct (Z.eq_dec i x) as [-> | Nx].
  { rewrite rot_parent_x in Hp. contradiction. }
  destruct (Z.eq_dec i y) as [-> | Ny].
  { rewrite rot_parent_y in Hp. left. split; [reflexivity | exact Hp]. }
  destruct (Z.eq_dec i b) as [-> | Nb].
  { rewrite (rot_parent_b HiT) in Hp. contradiction. }
  rewrite rot_parent_other in Hp by (auto; intros; contradiction).
  right. auto.
Qed.

Lemma rot_top :
  (forall i j, valid st i -> valid st j ->
               parent st i = T -> parent st j = T -> i = j) ->
  forall i j, valid st' i -> valid st' j ->
              parent st' i = T -> parent st' j = T -> i = j.
Proof.
  intros U i j Vi Vj Pi Pj.
  apply rot_valid in Vi. apply rot_valid in Vj.
  destruct (rot_parentless i Vi Pi) as [[-> Ep] | (Nix & Niy & Pi')];
    destruct (rot_parentless j Vj Pj) as [[-> Ep'] | (Njx & Njy & Pj')].
  - reflexivity.
  - exfalso. apply Njx. apply U; auto.
  - exfalso. apply Nix. apply U; auto.
  - apply U; auto.
Qed.

Lemma rot_height_other k : k <> x -> k <> y -> height st' k = height st k.
Proof.
  intros Hx Hy. unfold height.
  rewrite (rs_hfield _ _ _ _ _ _ _ _ _ RS).
  rewrite (eqb_false_l _ _ Hx), (eqb_false_l _ _ Hy). reflexivity.
Qed.

Lemma rot_mx_other k : k <> x -> k <> y -> mx st' k = mx st k.
Proof.
  intros Hx Hy. unfold mx.
  rewrite (rs_max _ _ _ _ _ _ _ _ _ RS).
  rewrite (eqb_false_l _ _ Hx), (eqb_false_l _ _ Hy). reflexivity.
Qed.

(** A child of a node other than [x] and [pp] is neither [x] nor [y]. *)
Lemma rot_child_other e i :
  valid st i -> i <> x -> (i = pp -> pp = T) ->
  ch e st i <> x /\ ch e st i <> y.
Proof.
  intros Vi Nx Np.
  destruct rot_y as (Vy & Py & Ry).
  pose proof (valid_not_T _ _ Hlen Vi) as HiT.
  pose proof (valid_not_T _ _ Hlen Vx) as HxT.
  assert (HyT' : y <> T) by exact HyT.
  assert (C : child_ok st i (ch e st i)).
  { destruct e; [apply (lk_left _ _ (LK i Vi)) | apply (lk_right _ _ (LK i Vi))]. }
  destruct C as [E | [Vk Pk]]; [rewrite E; split; congruence |].
  split; intros E; rewrite E in Pk.
  - apply HiT. rewrite <- Pk. apply Np. symmetry. exact Pk.
  - congruence.
Qed.

(** Nodes outside the rotation keep the fields that [node_ok] reads. *)
Lemma rot_frame i :
  valid st i -> i <> x -> i <> y -> (i = pp -> pp = T) ->
  left st' i = left st i /\ right st' i = right st i /\
  height st' (left st i) = height st (left st i) /\
  height st' (right st i) = height st (right st i) /\
  mx st' (left st i) = mx st (left st i) /\
  mx st' (right st i) = mx st (right st i) /\
  hfield st' i = hfield st i /\ max st' i = max st i /\
  high st' i = high st i.
Proof.
  intros Vi Nx Ny Np.
  destruct (rot_child_other true i Vi Nx Np) as [L1 L2].
  destruct (rot_child_other false i Vi Nx Np) as [R1 R2].
  cbn [ch] in *.
  split; [apply (rot_ch_other true); auto |].
  split; [apply (rot_ch_other false); auto |].
  split; [apply rot_height_other; auto |].
  split; [apply rot_height_other; auto |].
  split; [apply rot_mx_other; auto |].
  split; [apply rot_mx_other; auto |].
  split; [| split].
  - rewrite (rs_hfield _ _ _ _ _ _ _ _ _ RS).
    rewrite (eqb_false_l _ _ Nx), (eqb_false_l _ _ Ny). reflexivity.
  - rewrite (rs_max _ _ _ _ _ _ _ _ _ RS).
    rewrite (eqb_false_l _ _ Nx), (eqb_false_l _ _ Ny). reflexivity.
  - apply (rs_high _ _ _ _ _ _ _ _ _ RS).
Qed.

Lemma rot_node_ok i :
  valid st i -> i <> x -> i <> y -> (i = pp -> pp = T) ->
  node_ok st i -> node_ok st' i.
Proof.
  intros Vi Nx Ny Np [H1 H2 H3].
  destruct (rot_frame i Vi Nx Ny Np)
    as (E1 & E2 & E3 & E4 & E5 & E6 & E7 & E8 & E9).
  split; unfold hgt_ok, bal_ok, max_ok in *;
    rewrite ?E1, ?E2, ?E3, ?E4, ?E5, ?E6, ?E7, ?E8, ?E9; assumption.
Qed.

Lemma rot_at_x :
  ch d st' x = b /\ ch (negb d) st' x = c /\
  height st' b = height st b /\ height st' c = height st c /\
  mx st' b = mx st b /\ mx st' c = mx st c /\
  hfield st' x = wrap16 (1 + Z.max (height st b) (height st c)) /\
  max st' x = Z.max (high st x) (Z.max (mx st b) (mx st c)) /\
  high st' x = high st x.
Proof.
  destruct rot_distinct as
    (HxT & Dxy & Dpx & Dpy & Dbx & Dax & Dby & Day & Dcx & Dpa & Dpb & Dpc).
  pose proof rot_c_y as Dcy.
  split; [rewrite rot_ch_x, Bool.eqb_reflx; reflexivity |].
  split; [rewrite rot_ch_x; destruct d; reflexivity |].
  split; [apply rot_height_other; assumption |].
  split; [apply rot_height_other; assumption |].
  split; [apply rot_mx_other; assumption |].
  split; [apply rot_mx_other; assumption |].
  split; [| split].
  - rewrite (rs_hfield _ _ _ _ _ _ _ _ _ RS).
    rewrite (eqb_false_l _ _ Dxy), Z.eqb_refl. reflexivity.
  - rewrite (rs_max _ _ _ _ _ _ _ _ _ RS).
    rewrite (eqb_false_l _ _ Dxy), Z.eqb_refl. reflexivity.
  - apply (rs_high _ _ _ _ _ _ _ _ _ RS).
Qed.

Lemma rot_at_y :
  ch d st' y = a /\ ch (negb d) st' y = x /\
  height st' a = height st a /\ mx st' a = mx st a /\
  height st' x = hfield st' x /\ mx st' x = max st' x /\
  hfield st' y = wrap16 (1 + Z.max (height st a) (hfield st' x)) /\
  max st' y = Z.max (high st y) (Z.max (mx st a) (max st' x)) /\
  high st' y = high st y.
Proof.
  destruct rot_distinct as
    (HxT & Dxy & Dpx & Dpy & Dbx & Dax & Dby & Day & Dcx & Dpa & Dpb & Dpc).
  destruct rot_at_x as (_ & _ & _ & _ & _ & _ & Hx & Mx & _).
  split; [rewrite rot_ch_y; destruct d; reflexivity |].
  split; [rewrite rot_ch_y, Bool.eqb_reflx; reflexivity |].
  split; [apply rot_height_other; assumption |].
  split; [apply rot_mx_other; assumption |].
  split; [apply height_valid; assumption |].
  split; [unfold mx; rewrite (eqb_false_l _ _ HxT); reflexivity |].
  split; [| split].
  - rewrite Hx. rewrite (rs_hfield _ _ _ _ _ _ _ _ _ RS).
    rewrite Z.eqb_refl. reflexivity.
  - rewrite Mx. rewrite (rs_max _ _ _ _ _ _ _ _ _ RS).
    rewrite Z.eqb_refl. reflexivity.
  - apply (rs_high _ _ _ _ _ _ _ _ _ RS).
Qed.

Lemma rot_max_ok_x : max_ok st' x.
Proof.
  destruct rot_at_x as (C1 & C2 & _ & _ & M1 & M2 & _ & Mx & Hh).
  apply (max_ok_ch d). rewrite C1, C2, M1, M2, Mx, Hh.
  clear. lia.
Qed.

Lemma rot_max_ok_y : max_ok st' y.
Proof.
  destruct rot_at_y as (C1 & C2 & _ & M1 & _ & M2 & _ & My & Hh).
  apply (max_ok_ch d). rewrite C1, C2, M1, M2, My, Hh.
  clear. lia.
Qed.

(** Around the parent of the rotated subtree. *)
Lemma rot_at_pp :
  pp <> T ->
  ch e0 st pp = x /\ ch e0 st' pp = y /\
  ch (negb e0) st' pp = ch (negb e0) st pp /\
  height st' (ch (negb e0) st pp) = height st (ch (negb e0) st pp) /\
  mx st' (ch (negb e0) st pp) = mx st (ch (negb e0) st pp) /\
  height st' y = hfield st' y /\ mx st' y = max st' y /\
  hfield st' pp = hfield st pp /\ max st' pp = max st pp /\
  high st' pp = high st pp.
Proof.
  intros HpT.
  destruct rot_distinct as
    (HxT & Dxy & Dpx & Dpy & Dbx & Dax & Dby & Day & Dcx & Dpa & Dpb & Dpc).
  destruct rot_y as (Vy & Py & Ry).
  assert (HyT' : y <> T) by exact HyT.
  destruct (rot_pp_side HpT) as (Sx & Lp).
  destruct rot_pp as [E | (_ & Vp & _)]; [contradiction |].
  assert (Hs : ch (negb e0) st pp <> x /\ ch (negb e0) st pp <> y).
  { assert (C : child_ok st pp (ch (negb e0) st pp)).
    { destruct e0; [apply (lk_right _ _ Lp) | apply (lk_left _ _ Lp)]. }
    pose proof (lk_distinct _ _ Lp) as Dp.
    split; intros E.
    - apply HxT.
      assert (D2 : left st pp = right st pp)
        by (destruct e0; cbn [ch negb] in *; congruence).
      pose proof (Dp D2).
      destruct e0; cbn [ch negb] in *; congruence.
    - destruct C as [E' | [_ Ps]]; [congruence |].
      rewrite E in Ps. congruence. }
  destruct Hs as [Hs1 Hs2].
  split; [exact Sx |].
  split; [rewrite (rot_ch_pp _ HpT), Bool.eqb_reflx; reflexivity |].
  split; [rewrite (rot_ch_pp _ HpT); destruct e0; reflexivity |].
  split; [apply rot_height_other; assumption |].
  split; [apply rot_mx_other; assumption |].
  split; [apply height_valid; assumption |].
  split; [unfold mx; rewrite (eqb_false_l _ _ HyT'); reflexivity |].
  split; [| split].
  - rewrite (rs_hfield _ _ _ _ _ _ _ _ _ RS).
    rewrite (eqb_false_l _ _ Dpx), (eqb_false_l _ _ Dpy). reflexivity.
  - rewrite (rs_max _ _ _ _ _ _ _ _ _ RS).
    rewrite (eqb_false_l _ _ Dpx), (eqb_false_l _ _ Dpy). reflexivity.
  - apply (rs_high _ _ _ _ _ _ _ _ _ RS).
Qed.

(** The same rotation started from a state with the same fields. *)
Lemma rot_defined_same st2 :
  same_fields st st2 ->
  exists st', rotate d st2 x = (st', y) /\ rot_spec d st x y pp a b c st'.
Proof.
  intros S.
  destruct rot_distinct as (? & ? & ? & ? & ? & ? & _).
  pose proof S as (_ & _ & F).
  destruct (rotate_spec d st2 x y pp a b c) as (st'' & Hr & RS');
    try assumption.
  - apply (same_ch st st2); exact S.
  - destruct (F x) as (_ & _ & _ & _ & _ & P & _). exact P.
  - apply (same_ch st st2); exact S.
  - apply (same_ch st st2); exact S.
  - apply (same_ch st st2); exact S.
  - exists st''. split; [exact Hr |].
    apply (rot_spec_same d st st2); assumption.
Qed.

End Rotation.

End AvlFrame.

Module AvlStep.
Import Avl AvlInv AvlFacts AvlRot AvlMid AvlFrame.

(** ** One iteration of the rebalancing loop *)

Lemma mid_ranked st x c : Mid st x c -> ranked st (rk st x c).
Proof.
  intros M i Vi Hp. apply (rk_parent st x c i M Vi Hp).
Qed.

Lemma diff_small st k :
  0 <= height st (left st k) <= 16000 ->
  0 <= height st (right st k) <= 16000 ->
  diff st k = height st (right st k) - height st (left st k).
Proof. intros H1 H2. unfold diff. apply wrap16_small. lia. Qed.

(** [balance] in terms of [rebalance], when no height overflows. *)
Lemma balance_eq st p :
  0 <= height st (left st p) <= 16000 ->
  0 <= height st (right st p) <= 16000 ->
  (forall e k, k = left st p \/ k = right st p -> k <> T ->
               0 <= height st (ch e st k) <= 16000) ->
  balance st p =
  if 1 <? height st (right st p) - height st (left st p)
  then rebalance true st p
  else if height st (right st p) - height st (left st p) <? -1
       then rebalance false st p
       else (update_max (update_height st p) p, p).
Proof.
  intros B1 B2 B3.
  unfold balance, rebalance. rewrite (diff_small st p B1 B2).
  cbn [ch negb set_ch].
  destruct (Z.ltb_spec 1 (height st (right st p) - height st (left st p)))
    as [E1 | E1].
  - assert (Hr : right st p <> T).
    { intros E. rewrite E in E1. rewrite height_T in E1. lia. }
    rewrite (diff_small st (right st p)
               (B3 true _ (or_intror eq_refl) Hr)
               (B3 false _ (or_intror eq_refl) Hr)).
    rewrite ltb_sub_0.
    rewrite right_rotate_eq, left_rotate_eq. reflexivity.
  - destruct (Z.ltb_spec (height st (right st p) - height st (left st p)) (-1))
      as [E2 | E2]; [| reflexivity].
    assert (Hl : left st p <> T).
    { intros E. rewrite E in E2. rewrite height_T in E2. lia. }
    rewrite (diff_small st (left st p)
               (B3 true _ (or_introl eq_refl) Hl)
               (B3 false _ (or_introl eq_refl) Hl)).
    rewrite ltb_0_sub.
    rewrite right_rotate_eq, left_rotate_eq. reflexivity.
Qed.

Lemma oh_x st x c : oh st x c x = c.
Proof. unfold oh. rewrite Z.eqb_refl. reflexivity. Qed.

Lemma oh_other st x c k : k <> x -> oh st x c k = height st k.
Proof. intros H. unfold oh. rewrite (eqb_false_l _ _ H). reflexivity. Qed.

Lemma stale_ch d st p x c :
  stale st p x c <->
  hfield st p = 1 + Z.max (oh st x c (ch d st p)) (oh st x c (ch (negb d) st p))
  /\ -1 <= oh st x c (ch d st p) - oh st x c (ch (negb d) st p) <= 1.
Proof.
  split.
  - intros [H1 H2]. destruct d; cbn [ch negb]; split; try lia.
  - intros [H1 H2]. destruct d; cbn [ch negb] in *; split; try lia.
Qed.

(** The facts that hold when side [negb d] of the parent [p] of the
    current subtree [x] is too tall. *)
Lemma tall_facts d st x c p :
  Mid st x c -> parent st x = p -> p <> T ->
  2 <= height st (ch (negb d) st p) - height st (ch d st p) ->
  ch (negb d) st p = x /\ ch d st p <> x /\
  hfield st x = c + 1 /\ height st (ch d st p) = c - 1 /\
  hfield st p = c + 1.
Proof.
  intros M Hp HpT Htall.
  pose proof (mid_len _ _ _ M) as [_ Hlen].
  pose proof (mid_x _ _ _ M) as Vx.
  pose proof (valid_not_T _ _ Hlen Vx) as HxT.
  pose proof (mid_c _ _ _ M) as (Hc0 & Hcx & Hcl).
  pose proof (mid_stale _ _ _ M) as S. rewrite Hp in S. specialize (S HpT).
  apply (stale_ch d) in S. destruct S as [S1 S2].
  destruct (lk_parent _ _ (mid_links _ _ _ M x Vx)) as [E | [Vp C]];
    [congruence |].
  rewrite Hp in Vp, C.
  pose proof (lk_distinct _ _ (mid_links _ _ _ M p Vp)) as D.
  assert (Hx : height st x = hfield st x) by (apply height_valid; exact HxT).
  assert (Cases : (ch (negb d) st p = x /\ ch d st p <> x) \/
                  (ch d st p = x /\ ch (negb d) st p <> x)).
  { assert (Hboth : left st p = x -> right st p = x -> False).
    { intros A B. apply HxT. rewrite <- A. apply D. congruence. }
    destruct d; cbn [ch negb] in *; destruct C as [C | C];
      first [ left; split; [exact C | intros E; auto]
            | right; split; [exact C | intros E; auto] ]. }
  destruct Cases as [[E1 E2] | [E1 E2]].
  - rewrite E1 in *. rewrite oh_x in *. rewrite (oh_other _ _ _ _ E2) in *.
    repeat split; try assumption; lia.
  - exfalso. rewrite E1 in *. rewrite oh_x in *.
    rewrite (oh_other _ _ _ _ E2) in *. lia.
Qed.

Lemma mid_parent_valid st x c p :
  Mid st x c -> parent st x = p -> p <> T -> valid st p /\ p <> x.
Proof.
  intros M Hp HpT.
  pose proof (mid_x _ _ _ M) as Vx.
  destruct (lk_parent _ _ (mid_links _ _ _ M x Vx)) as [E | [Vp _]];
    [congruence |].
  rewrite Hp in Vp. split; [exact Vp |].
  pose proof (mid_px _ _ _ M). congruence.
Qed.

(** In a [Mid] state below the root every height read through a valid
    node or the sentinel is small. *)
Lemma mid_height_small st x c k :
  Mid st x c -> parent st x <> T -> k = T \/ valid st k ->
  0 <= height st k <= 999.
Proof.
  intros M Hp [-> | Vk].
  - rewrite height_T. lia.
  - pose proof (mid_len _ _ _ M) as [_ Hlen].
    rewrite height_valid by (eapply valid_not_T; eassumption).
    pose proof (mid_heights _ _ _ _ M Hp Vk). unfold N in Hlen. lia.
Qed.

Lemma mid_child st x c e i :
  Mid st x c -> valid st i -> ch e st i = T \/ valid st (ch e st i).
Proof.
  intros M Vi.
  assert (C : child_ok st i (ch e st i)).
  { destruct e; [apply (lk_left _ _ (mid_links _ _ _ M i Vi))
                | apply (lk_right _ _ (mid_links _ _ _ M i Vi))]. }
  destruct C as [E | [V _]]; [left | right]; assumption.
Qed.

(** The node above the rotated subtree becomes the stale node. *)
Lemma stale_after st st' x c p y e0 :
  Mid st x c -> parent st x = p -> valid st p -> p <> x ->
  parent st p <> T ->
  ch e0 st (parent st p) = p ->
  ch e0 st' (parent st p) = y ->
  ch (negb e0) st' (parent st p) = ch (negb e0) st (parent st p) ->
  height st' (ch (negb e0) st (parent st p)) =
  height st (ch (negb e0) st (parent st p)) ->
  hfield st' (parent st p) = hfield st (parent st p) ->
  ch (negb e0) st (parent st p) <> y ->
  stale st' (parent st p) y (hfield st p).
Proof.
  intros M Hp Vp Npx HppT C1 C2 C3 H1 H2 Ns.
  pose proof (mid_len _ _ _ M) as [_ Hlen].
  pose proof (valid_not_T _ _ Hlen Vp) as HpT.
  destruct (rk_parent st x c p M Vp HppT) as [Vpp Rpp].
  assert (Npp : parent st p <> p).
  { intros E. rewrite E in Rpp. lia. }
  assert (Ok : node_ok st (parent st p)).
  { apply (mid_ok _ _ _ M); [exact Vpp | congruence]. }
  destruct Ok as [Oh Ob _].
  apply (hgt_ok_ch e0) in Oh. apply (bal_ok_ch e0) in Ob.
  rewrite C1 in Oh, Ob. rewrite (height_valid _ _ HpT) in Oh, Ob.
  apply (stale_ch e0). rewrite C2, C3, oh_x, (oh_other _ _ _ _ Ns), H1, H2.
  split; assumption.
Qed.

Lemma step_single d st x c p :
  Mid st x c -> parent st x = p -> p <> T ->
  2 <= height st (ch (negb d) st p) - height st (ch d st p) ->
  height st (ch d st x) <= height st (ch (negb d) st x) ->
  exists st', rotate (negb d) st p = (st', x) /\
              Mid st' x (hfield st p) /\
              parent st' x = parent st p /\
              len st' = len st /\ same_intervals st st'.
Proof.
  intros M Hp HpT Htall Hin.
  destruct (tall_facts d st x c p M Hp HpT Htall) as (Et & Eo & Hhx & Hho & Hhp).
  destruct (mid_parent_valid st x c p M Hp HpT) as (Vp & Npx).
  pose proof (mid_len _ _ _ M) as [Hlen0 Hlen].
  pose proof (mid_x _ _ _ M) as Vx.
  pose proof (valid_not_T _ _ Hlen Vx) as HxT.
  pose proof (mid_links _ _ _ M) as LK.
  pose proof (mid_ranked _ _ _ M) as RK.
  assert (HpT' : parent st x <> T) by congruence.
  assert (Okx : node_ok st x).
  { apply (mid_ok _ _ _ M); [exact Vx | congruence]. }
  destruct Okx as [Oxh Oxb _].
  apply (hgt_ok_ch d) in Oxh. apply (bal_ok_ch d) in Oxb.
  pose proof (mid_height_small st x c (ch d st x) M HpT'
                (mid_child st x c d x M Vx)) as Bg.
  pose proof (mid_height_small st x c (ch (negb d) st x) M HpT'
                (mid_child st x c (negb d) x M Vx)) as Bo.
  pose proof (mid_height_small st x c (ch d st p) M HpT'
                (mid_child st x c d p M Vp)) as Bs.
  pose proof (mid_heights st x c p M HpT' Vp) as Bp.
  assert (HyT : ch (negb d) st p <> T) by (rewrite Et; exact HxT).
  destruct (rot_defined (negb d) st (rk st x c) p Hlen LK RK Vp HyT)
    as (st' & Hrot & RS).
  pose proof (rot_links _ _ _ _ Hlen LK RK Vp HyT st' RS) as LK'.
  pose proof (rot_top _ _ _ _ Hlen LK RK Vp HyT st' RS (mid_top _ _ _ M))
    as TOP'.
  pose proof (rot_at_x _ _ _ _ Hlen LK RK Vp HyT st' RS) as AX.
  pose proof (rot_at_y _ _ _ _ Hlen LK RK Vp HyT st' RS) as AY.
  pose proof (rot_at_pp _ _ _ _ Hlen LK RK Vp HyT st' RS) as AP.
  pose proof (rot_parent_y _ _ _ _ Hlen LK RK Vp HyT st' RS) as PY.
  pose proof (rot_max_ok_x _ _ _ _ Hlen LK RK Vp HyT st' RS) as MX.
  pose proof (rot_max_ok_y _ _ _ _ Hlen LK RK Vp HyT st' RS) as MY.
  pose proof (rot_distinct _ _ _ _ Hlen LK RK Vp HyT) as DD.
  pose proof (rot_node_ok _ _ _ _ Hlen LK RK Vp HyT st' RS) as FR.
  pose proof (rot_parentless _ _ _ _ Hlen LK RK Vp HyT st' RS) as PL.
  pose proof (rot_valid _ _ _ _ RS) as VV.
  pose proof (rs_hfield _ _ _ _ _ _ _ _ _ RS) as HF.
  pose proof (rs_len _ _ _ _ _ _ _ _ _ RS) as NE.
  pose proof (rs_low _ _ _ _ _ _ _ _ _ RS) as LO.
  pose proof (rs_high _ _ _ _ _ _ _ _ _ RS) as HI.
  clear RS.
  rewrite ?Bool.negb_involutive, ?Et in *.
  destruct AX as (Xc1 & Xc2 & Xh1 & Xh2 & _ & _ & Xh & _).
  destruct AY as (Yc1 & Yc2 & Yh1 & _ & Yh2 & _ & Yh & _).
  destruct DD as (_ & _ & Dpp & Dppx & _ & _ & _ & _ & _ & _ & _ & _).
  rewrite height_valid in Htall by exact HxT.
  assert (Hp' : hfield st' p = 1 + Z.max (height st (ch d st x))
                                        (height st (ch d st p))).
  { rewrite Xh. apply wrap16_small. lia. }
  assert (Hx' : hfield st' x = 1 + Z.max (height st (ch (negb d) st x))
                                        (hfield st' p)).
  { rewrite Yh. apply wrap16_small. lia. }
  exists st'. split; [exact Hrot |].
  split; [| split; [exact PY | split; [exact NE | intros i; auto]]].
  split.
  - rewrite NE. split; assumption.
  - apply VV. exact Vx.
  - exact LK'.
  - exact TOP'.
  - intros i Vi Ni. apply VV in Vi. rewrite PY in Ni.
    destruct (Z.eq_dec i p) as [-> | Nip].
    { split; [| | exact MX].
      - apply (hgt_ok_ch (negb d)). rewrite Bool.negb_involutive.
        rewrite Xc1, Xc2, Xh1, Xh2. exact Hp'.
      - apply (bal_ok_ch (negb d)). rewrite Bool.negb_involutive.
        rewrite Xc1, Xc2, Xh1, Xh2. lia. }
    destruct (Z.eq_dec i x) as [-> | Nix].
    { split; [| | exact MY].
      - apply (hgt_ok_ch (negb d)). rewrite Bool.negb_involutive.
        rewrite Yc1, Yc2, Yh1, Yh2. exact Hx'.
      - apply (bal_ok_ch (negb d)). rewrite Bool.negb_involutive.
        rewrite Yc1, Yc2, Yh1, Yh2. lia. }
    apply FR; auto.
    + intros; contradiction.
    + apply (mid_ok _ _ _ M); [exact Vi | congruence].
  - intros i Vi. apply VV in Vi.
    destruct (Z.eq_dec i x) as [-> | Nix]; [rewrite Hx'; lia |].
    destruct (Z.eq_dec i p) as [-> | Nip]; [rewrite Hp'; lia |].
    rewrite HF. rewrite (eqb_false_l _ _ Nix), (eqb_false_l _ _ Nip).
    apply (mid_pos _ _ _ M); exact Vi.
  - rewrite NE. lia.
  - rewrite PY. exact Dppx.
  - rewrite PY. intros HppT.
    destruct (AP HppT) as (P1 & P2 & P3 & P4 & _ & _ & _ & P5 & _).
    apply (stale_after st st' x c p x (p =? left st (parent st p)));
      try assumption.
    intros E.
    destruct (mid_child st x c (negb (p =? left st (parent st p)))
                (parent st p) M) as [E' | V'].
    { apply (rk_parent st x c p M Vp HppT). }
    { congruence. }
    assert (C : child_ok st (parent st p)
                  (ch (negb (p =? left st (parent st p))) st (parent st p))).
    { destruct (rk_parent st x c p M Vp HppT) as [Vpp _].
      destruct (negb (p =? left st (parent st p)));
        [apply (lk_left _ _ (LK _ Vpp)) | apply (lk_right _ _ (LK _ Vpp))]. }
    destruct C as [E' | [_ Pc]]; [congruence |].
    rewrite E in Pc. congruence.
  - intros i Vi Pi Ni. apply VV in Vi. rewrite NE.
    destruct (PL i Vi Pi) as [[E _] | (N1 & N2 & Pi')]; [contradiction |].
    rewrite HF. rewrite (eqb_false_l _ _ N2), (eqb_false_l _ _ N1).
    apply (mid_bound _ _ _ M); auto.
Qed.

Lemma step_double d st x c p :
  Mid st x c -> parent st x = p -> p <> T ->
  2 <= height st (ch (negb d) st p) - height st (ch d st p) ->
  height st (ch (negb d) st x) < height st (ch d st x) ->
  exists st1 st3 g,
    rotate d st x = (st1, g) /\
    rotate (negb d) (set_ch (negb d) st1 p g) p = (st3, g) /\
    Mid st3 g (hfield st p) /\
    parent st3 g = parent st p /\
    len st3 = len st /\ same_intervals st st3.
Proof.
  intros M Hp HpT Htall Hin.
  destruct (tall_facts d st x c p M Hp HpT Htall) as (Et & Eo & Hhx & Hho & Hhp).
  destruct (mid_parent_valid st x c p M Hp HpT) as (Vp & Npx).
  pose proof (mid_len _ _ _ M) as [Hlen0 Hlen].
  pose proof (mid_x _ _ _ M) as Vx.
  pose proof (valid_not_T _ _ Hlen Vx) as HxT.
  pose proof (mid_links _ _ _ M) as LK.
  pose proof (mid_ranked _ _ _ M) as RK.
  assert (HpT' : parent st x <> T) by congruence.
  assert (Okx : node_ok st x).
  { apply (mid_ok _ _ _ M); [exact Vx | congruence]. }
  destruct Okx as [Oxh Oxb _].
  apply (hgt_ok_ch d) in Oxh. apply (bal_ok_ch d) in Oxb.
  pose proof (mid_height_small st x c (ch (negb d) st x) M HpT'
                (mid_child st x c (negb d) x M Vx)) as Bo.
  pose proof (mid_height_small st x c (ch d st p) M HpT'
                (mid_child st x c d p M Vp)) as Bs.
  pose proof (mid_heights st x c p M HpT' Vp) as Bp.
  (* the inner grandchild *)
  assert (HgT : ch d st x <> T).
  { intros E. rewrite E, height_T in Hin. lia. }
  destruct (mid_child st x c d x M Vx) as [E | Vg]; [contradiction |].
  (* first rotation *)
  destruct (rot_defined d st (rk st x c) x Hlen LK RK Vx HgT)
    as (st1 & Hrot1 & RS1).
  pose proof (rot_links _ _ _ _ Hlen LK RK Vx HgT st1 RS1) as LK1.
  pose proof (rot_ranked _ _ _ _ Hlen LK RK Vx HgT st1 RS1) as RK1.
  pose proof (rot_top _ _ _ _ Hlen LK RK Vx HgT st1 RS1 (mid_top _ _ _ M))
    as TOP1.
  pose proof (rot_at_x _ _ _ _ Hlen LK RK Vx HgT st1 RS1) as AX1.
  pose proof (rot_at_y _ _ _ _ Hlen LK RK Vx HgT st1 RS1) as AY1.
  pose proof (rot_at_pp _ _ _ _ Hlen LK RK Vx HgT st1 RS1) as AP1.
  pose proof (rot_max_ok_x _ _ _ _ Hlen LK RK Vx HgT st1 RS1) as MX1.
  pose proof (rot_distinct _ _ _ _ Hlen LK RK Vx HgT) as DD1.
  pose proof (rot_node_ok _ _ _ _ Hlen LK RK Vx HgT st1 RS1) as FR1.
  pose proof (rot_frame _ _ _ _ Hlen LK RK Vx HgT st1 RS1) as FF1.
  pose proof (rot_parentless _ _ _ _ Hlen LK RK Vx HgT st1 RS1) as PL1.
  pose proof (rot_parent_other _ _ _ _ RS1) as PO1.
  pose proof (rot_valid _ _ _ _ RS1) as VV1.
  pose proof (rs_hfield _ _ _ _ _ _ _ _ _ RS1) as HF1.
  pose proof (rs_len _ _ _ _ _ _ _ _ _ RS1) as NE1.
  pose proof (rs_low _ _ _ _ _ _ _ _ _ RS1) as LO1.
  pose proof (rs_high _ _ _ _ _ _ _ _ _ RS1) as HI1.
  clear RS1.
  rewrite ?Hp in *. rewrite Et in Htall.
  specialize (AP1 HpT).
  assert (E0 : (x =? left st p) = negb d).
  { destruct AP1 as (A & _). clear - A Eo.
    destruct (x =? left st p), d; cbn [negb] in *; congruence. }
  rewrite E0 in AP1. rewrite ?Bool.negb_involutive in AP1.
  remember (ch d st x) as g eqn:Eg.
  remember (ch d st g) as a1 eqn:Ea1.
  remember (ch (negb d) st g) as b1 eqn:Eb1.
  remember (ch (negb d) st x) as outer eqn:Eouter.
  remember (ch d st p) as o eqn:Eo'.
  destruct AX1 as (X1c1 & X1c2 & X1h1 & X1h2 & _ & _ & X1h & _).
  destruct AY1 as (Y1c1 & Y1c2 & Y1h1 & _ & Y1h2 & _ & Y1h & _).
  destruct AP1 as (_ & P1c1 & P1c2 & P1h1 & _ & P1h2 & _ & P1h & _).
  destruct DD1 as (_ & Dxg & _ & Dpg & Db1x & Da1x & Db1g & Da1g & Dox
                     & Dpa1 & Dpb1 & Dpo).
  assert (HgT' : g <> T) by exact HgT.
  (* numbers *)
  assert (Okg : node_ok st g).
  { apply (mid_ok _ _ _ M); [exact Vg | congruence]. }
  destruct Okg as [Ogh Ogb _].
  apply (hgt_ok_ch d) in Ogh. apply (bal_ok_ch d) in Ogb.
  rewrite <- Ea1, <- Eb1 in Ogh, Ogb.
  assert (MHS : forall k, k = T \/ valid st k -> 0 <= height st k <= 999).
  { intros k. apply (mid_height_small st x c k M). congruence. }
  assert (Ba : 0 <= height st a1 <= 999).
  { apply MHS. rewrite Ea1. apply (mid_child st x c d g M Vg). }
  assert (Bb : 0 <= height st b1 <= 999).
  { apply MHS. rewrite Eb1. apply (mid_child st x c (negb d) g M Vg). }
  rewrite (height_valid st g HgT') in Hin, Oxh, Oxb.
  rewrite (height_valid st x HxT) in Htall.
  assert (Hx1 : hfield st1 x = 1 + Z.max (height st b1) (height st outer)).
  { rewrite X1h. apply wrap16_small. clear - Bb Bo. lia. }
  assert (Hg1 : hfield st1 g = 1 + Z.max (height st a1) (hfield st1 x)).
  { rewrite Y1h. apply wrap16_small. rewrite Hx1. clear - Ba Bb Bo. lia. }
  (* second rotation *)
  assert (S2 : same_fields st1 (set_ch (negb d) st1 p g)).
  { apply same_set_ch. exact P1c1. }
  assert (Hlen1 : len st1 <= N) by (rewrite NE1; exact Hlen).
  assert (Vp1 : valid st1 p) by (apply VV1; exact Vp).
  assert (HyT2 : ch (negb d) st1 p <> T) by (rewrite P1c1; exact HgT').
  destruct (rot_defined_same (negb d) st1 _ p Hlen1 LK1 RK1 Vp1 HyT2 _ S2)
    as (st3 & Hrot2 & RS2).
  pose proof (rot_links _ _ _ _ Hlen1 LK1 RK1 Vp1 HyT2 st3 RS2) as LK3.
  pose proof (rot_top _ _ _ _ Hlen1 LK1 RK1 Vp1 HyT2 st3 RS2 TOP1) as TOP3.
  pose proof (rot_at_x _ _ _ _ Hlen1 LK1 RK1 Vp1 HyT2 st3 RS2) as AX2.
  pose proof (rot_at_y _ _ _ _ Hlen1 LK1 RK1 Vp1 HyT2 st3 RS2) as AY2.
  pose proof (rot_at_pp _ _ _ _ Hlen1 LK1 RK1 Vp1 HyT2 st3 RS2) as AP2.
  pose proof (rot_parent_y _ _ _ _ Hlen1 LK1 RK1 Vp1 HyT2 st3 RS2) as PY2.
  pose proof (rot_max_ok_x _ _ _ _ Hlen1 LK1 RK1 Vp1 HyT2 st3 RS2) as MX2.
  pose proof (rot_max_ok_y _ _ _ _ Hlen1 LK1 RK1 Vp1 HyT2 st3 RS2) as MY2.
  pose proof (rot_distinct _ _ _ _ Hlen1 LK1 RK1 Vp1 HyT2) as DD2.
  pose proof (rot_node_ok _ _ _ _ Hlen1 LK1 RK1 Vp1 HyT2 st3 RS2) as FR2.
  pose proof (rot_parentless _ _ _ _ Hlen1 LK1 RK1 Vp1 HyT2 st3 RS2) as PL2.
  pose proof (rot_valid _ _ _ _ RS2) as VV2.
  pose proof (rs_hfield _ _ _ _ _ _ _ _ _ RS2) as HF2.
  pose proof (rs_len _ _ _ _ _ _ _ _ _ RS2) as NE2.
  pose proof (rs_low _ _ _ _ _ _ _ _ _ RS2) as LO2.
  pose proof (rs_high _ _ _ _ _ _ _ _ _ RS2) as HI2.
  clear RS2.
  assert (Pp1 : parent st1 p = parent st p).
  { apply PO1; try congruence. intros E. exfalso. apply HpT. apply Dpb1.
    exact E. }
  rewrite ?Bool.negb_involutive, ?P1c1, ?Pp1, ?Y1c2, ?Y1c1, ?P1c2 in *.
  destruct AX2 as (X2c1 & X2c2 & X2h1 & X2h2 & _ & _ & X2h & _).
  destruct AY2 as (Y2c1 & Y2c2 & Y2h1 & _ & Y2h2 & _ & Y2h & _).
  destruct DD2 as (_ & _ & Dppp & Dppg & _ & _ & _ & _ & _ & Dppx & _ & _).
  rewrite Y1h1 in X2h1. rewrite P1h1 in X2h2. rewrite Y1h2 in Y2h1.
  rewrite Y1h1, P1h1 in X2h. rewrite Y1h2 in Y2h.
  pose proof (mid_pos _ _ _ M g Vg) as Pg.
  assert (Hp3 : hfield st3 p = 1 + Z.max (height st a1) (height st o)).
  { rewrite X2h. apply wrap16_small. clear - Ba Bs. lia. }
  assert (Hg3 : hfield st3 g = 1 + Z.max (hfield st1 x) (hfield st3 p)).
  { rewrite Y2h. apply wrap16_small. rewrite Hx1, Hp3.
    clear - Ba Bb Bo Bs. lia. }
  assert (NUM : hfield st g = c /\ height st outer = c - 1 /\
                c - 2 <= height st a1 <= c - 1 /\
                c - 2 <= height st b1 <= c - 1 /\
                height st o = c - 1 /\ hfield st p = c + 1 /\
                hfield st1 x = c /\ hfield st3 p = c /\
                hfield st3 g = c + 1 /\ 1 <= c).
  { clear - Hhx Oxh Hin Oxb Ogh Ogb Hho Hhp Ba Bb Bo Bs Hx1 Hp3 Hg3 Pg.
    lia. }
  destruct NUM as (N1 & N2 & N3 & N4 & N5 & N6 & N7 & N8 & N9 & N10).
  exists st1, st3, g. split; [exact Hrot1 |]. split; [exact Hrot2 |].
  split; [| split; [exact PY2 | split;
    [rewrite NE2; exact NE1 | intros i; rewrite LO2, HI2; auto]]].
  split.
  - rewrite NE2, NE1. split; assumption.
  - apply VV2, VV1. exact Vg.
  - exact LK3.
  - exact TOP3.
  - intros i Vi Ni. apply VV2 in Vi. pose proof Vi as Vi0. apply VV1 in Vi0.
    rewrite PY2 in Ni.
    destruct (Z.eq_dec i p) as [-> | Nip].
    { split; [| | exact MX2].
      - apply (hgt_ok_ch (negb d)). rewrite Bool.negb_involutive.
        rewrite X2c1, X2c2, X2h1, X2h2. exact Hp3.
      - apply (bal_ok_ch (negb d)). rewrite Bool.negb_involutive.
        rewrite X2c1, X2c2, X2h1, X2h2. clear - N3 N5. lia. }
    destruct (Z.eq_dec i g) as [-> | Nig].
    { split; [| | exact MY2].
      - apply (hgt_ok_ch (negb d)). rewrite Bool.negb_involutive.
        rewrite Y2c1, Y2c2, Y2h1, Y2h2. exact Hg3.
      - apply (bal_ok_ch (negb d)). rewrite Bool.negb_involutive.
        rewrite Y2c1, Y2c2, Y2h1, Y2h2. clear - N7 N8. lia. }
    apply FR2; auto; [intros; contradiction |].
    destruct (Z.eq_dec i x) as [-> | Nix].
    { split; [| | exact MX1].
      - apply (hgt_ok_ch d). rewrite X1c1, X1c2, X1h1, X1h2. exact Hx1.
      - apply (bal_ok_ch d). rewrite X1c1, X1c2, X1h1, X1h2.
        clear - N2 N4. lia. }
    apply FR1; auto; [intros; contradiction |].
    apply (mid_ok _ _ _ M); [exact Vi0 | congruence].
  - intros i Vi. apply VV2 in Vi. pose proof Vi as Vi0. apply VV1 in Vi0.
    destruct (Z.eq_dec i g) as [-> | Nig]; [clear - N9 N10; lia |].
    destruct (Z.eq_dec i p) as [-> | Nip]; [clear - N8 N10; lia |].
    rewrite HF2. rewrite (eqb_false_l _ _ Nig), (eqb_false_l _ _ Nip).
    destruct (Z.eq_dec i x) as [-> | Nix]; [clear - N7 N10; lia |].
    rewrite HF1. rewrite (eqb_false_l _ _ Nig), (eqb_false_l _ _ Nix).
    apply (mid_pos _ _ _ M); exact Vi0.
  - rewrite NE2, NE1. clear - N6 N9 Bp. lia.
  - rewrite PY2. exact Dppg.
  - rewrite PY2. intros HppT.
    destruct (rk_parent st x c p M Vp HppT) as [Vpp _].
    assert (Nppx : parent st p <> x).
    { intros E. apply HppT. apply Dppx. exact E. }
    destruct (FF1 (parent st p) Vpp Nppx Dppg)
      as (F1 & F2 & F3 & F4 & _ & _ & F5 & _).
    { intros E. contradiction. }
    destruct (AP2 HppT) as (P1 & P2 & P3 & P4 & _ & _ & _ & P5 & _).
    rewrite F1 in P1, P2, P3, P4.
    assert (Cs : forall e, ch e st1 (parent st p) = ch e st (parent st p)).
    { intros e. destruct e; assumption. }
    assert (Hs : forall e, height st1 (ch e st (parent st p))
                           = height st (ch e st (parent st p))).
    { intros e. destruct e; assumption. }
    rewrite Cs in P1, P3, P4. rewrite Hs in P4. rewrite F5 in P5.
    apply (stale_after st st3 x c p g (p =? left st (parent st p)));
      try assumption.
    intros E.
    assert (C : child_ok st (parent st p)
                  (ch (negb (p =? left st (parent st p))) st (parent st p))).
    { destruct (negb (p =? left st (parent st p)));
        [apply (lk_left _ _ (LK _ Vpp)) | apply (lk_right _ _ (LK _ Vpp))]. }
    destruct C as [E' | [_ Pc]]; [congruence |].
    rewrite E in Pc.
    assert (Pg0 : parent st g = x).
    { destruct (lk_left _ _ (LK x Vx)) as [El | [_ Pl]];
        destruct (lk_right _ _ (LK x Vx)) as [Er | [_ Pr]];
        destruct d; cbn [ch] in Eg; congruence. }
    congruence.
  - intros i Vi Pi Ni. apply VV2 in Vi. pose proof Vi as Vi0. apply VV1 in Vi0.
    rewrite NE2, NE1.
    destruct (PL2 i Vi Pi) as [[E _] | (N1' & N2' & Pi')]; [contradiction |].
    destruct (PL1 i Vi0 Pi') as [[E _] | (N3' & N4' & Pi'')]; [contradiction |].
    rewrite HF2. rewrite (eqb_false_l _ _ N2'), (eqb_false_l _ _ N1').
    rewrite HF1. rewrite (eqb_false_l _ _ N4'), (eqb_false_l _ _ N3').
    apply (mid_bound _ _ _ M); auto.
Qed.

End AvlStep.

Module AvlLoop.
Import Avl AvlInv AvlFacts AvlRot AvlMid AvlFrame AvlStep.

(** ** The branch of [balance] without rotation *)

Lemma update_fields st p :
  let st' := update_max (update_height st p) p in
  len st' = len st /\ root st' = root st /\
  (forall i, low st' i = low st i /\ high st' i = high st i /\
             left st' i = left st i /\ right st' i = right st i /\
             parent st' i = parent st i) /\
  (forall i, hfield st' i =
             if i =? p
             then wrap16 (1 + Z.max (height st (left st p))
                                    (height st (right st p)))
             else hfield st i) /\
  (forall i, max st' i =
             if i =? p
             then Z.max (high st p)
                    (Z.max (mx st (left st p)) (mx st (right st p)))
             else max st i).
Proof.
  cbv zeta. unfold update_max, update_height.
  repeat split; intros; autorewrite with avl; reflexivity.
Qed.

Lemma sibling_neq st i e :
  links st i -> ch e st i <> T -> ch (negb e) st i <> ch e st i.
Proof.
  intros L H E. pose proof (lk_distinct _ _ L) as D.
  destruct e; cbn [ch negb] in *; apply H.
  - apply D. congruence.
  - rewrite <- E. apply D. congruence.
Qed.

Lemma mid_parent_height st x c p :
  Mid st x c -> parent st x = p -> p <> T -> c + 1 <= hfield st p.
Proof.
  intros M Hp HpT.
  pose proof (mid_x _ _ _ M) as Vx.
  pose proof (mid_stale _ _ _ M) as S. rewrite Hp in S.
  destruct (S HpT) as [Sh _].
  destruct (lk_parent _ _ (mid_links _ _ _ M x Vx)) as [E | [_ C]];
    [congruence |].
  rewrite Hp in C.
  destruct C as [C | C]; rewrite C, oh_x in Sh; lia.
Qed.

Lemma step_none st x c p :
  Mid st x c -> parent st x = p -> p <> T ->
  -1 <= height st (right st p) - height st (left st p) <= 1 ->
  Mid (update_max (update_height st p) p) p (hfield st p) /\
  parent (update_max (update_height st p) p) p = parent st p /\
  len (update_max (update_height st p) p) = len st /\
  same_intervals st (update_max (update_height st p) p).
Proof.
  intros M Hp HpT Hbal.
  destruct (update_fields st p) as (NE & _ & FL & HF & MF).
  set (st' := update_max (update_height st p) p) in *.
  destruct (mid_parent_valid st x c p M Hp HpT) as (Vp & Npx).
  pose proof (mid_len _ _ _ M) as [Hlen0 Hlen].
  pose proof (mid_x _ _ _ M) as Vx.
  pose proof (valid_not_T _ _ Hlen Vx) as HxT.
  pose proof (mid_links _ _ _ M) as LK.
  assert (HpT' : parent st x <> T) by congruence.
  pose proof (mid_heights st x c p M HpT' Vp) as Bp.
  pose proof (mid_parent_height st x c p M Hp HpT) as Hcp.
  pose proof (mid_c _ _ _ M) as (Hc0 & Hcx & Hcl).
  pose proof (mid_stale _ _ _ M) as S. rewrite Hp in S.
  destruct (S HpT) as [Sh Sb]. clear S.
  assert (VV : forall i, valid st' i <-> valid st i).
  { intros i. unfold valid. rewrite NE. tauto. }
  assert (LK' : forall i, valid st' i -> links st' i).
  { intros i Vi. apply VV in Vi. destruct (LK i Vi) as [L1 L2 L3 L4].
    unfold child_ok in *.
    destruct (FL i) as (_ & _ & El & Er & Ep).
    split; unfold child_ok; rewrite ?El, ?Er, ?Ep.
    - destruct L1 as [E | [V P]]; [left; exact E | right].
      split; [apply VV; exact V |].
      destruct (FL (left st i)) as (_ & _ & _ & _ & Ep'). congruence.
    - destruct L2 as [E | [V P]]; [left; exact E | right].
      split; [apply VV; exact V |].
      destruct (FL (right st i)) as (_ & _ & _ & _ & Ep'). congruence.
    - exact L3.
    - destruct L4 as [E | [V C]]; [left; exact E | right].
      split; [apply VV; exact V |].
      destruct (FL (parent st i)) as (_ & _ & El' & Er' & _).
      rewrite El', Er'. exact C. }
  (* heights of the children of p, read in either state *)
  assert (Hch : forall k, k <> p -> height st' k = height st k).
  { intros k Hk. unfold height. rewrite HF, (eqb_false_l _ _ Hk). reflexivity. }
  assert (Mch : forall k, k <> p -> mx st' k = mx st k).
  { intros k Hk. unfold mx. rewrite MF, (eqb_false_l _ _ Hk). reflexivity. }
  assert (Cp : forall e, ch e st p <> p).
  { intros e E.
    destruct (mid_child st x c e p M Vp) as [E' | V']; [congruence |].
    assert (C : child_ok st p (ch e st p)).
    { destruct e; [apply (lk_left _ _ (LK p Vp)) | apply (lk_right _ _ (LK p Vp))]. }
    destruct C as [E' | [_ Pc]]; [congruence |].
    rewrite E in Pc.
    pose proof (rk_parent st x c p M Vp) as R. rewrite Pc in R.
    specialize (R HpT). lia. }
  pose proof (Cp true) as Cl. pose proof (Cp false) as Cr. cbn [ch] in Cl, Cr.
  pose proof (mid_height_small st x c (left st p) M HpT'
                (mid_child st x c true p M Vp)) as Bl.
  pose proof (mid_height_small st x c (right st p) M HpT'
                (mid_child st x c false p M Vp)) as Br.
  assert (Hp' : hfield st' p = 1 + Z.max (height st (left st p))
                                        (height st (right st p))).
  { rewrite HF, Z.eqb_refl. apply wrap16_small. clear - Bl Br. lia. }
  (* the stale height is at most one below the new one *)
  assert (Hoh : forall k, k = left st p \/ k = right st p ->
                          oh st x c k <= height st k <= oh st x c k + 1).
  { intros k _. unfold oh. destruct (Z.eqb_spec k x) as [-> | N].
    - rewrite (height_valid _ _ HxT). lia.
    - lia. }
  pose proof (Hoh _ (or_introl eq_refl)) as Hol.
  pose proof (Hoh _ (or_intror eq_refl)) as Hor.
  split; [| split; [apply FL | split; [exact NE | intros i; split; apply FL]]].
  split.
  - rewrite NE. split; assumption.
  - apply VV. exact Vp.
  - exact LK'.
  - intros i j Vi Vj Pi Pj. apply VV in Vi. apply VV in Vj.
    destruct (FL i) as (_ & _ & _ & _ & Ei).
    destruct (FL j) as (_ & _ & _ & _ & Ej).
    rewrite Ei in Pi. rewrite Ej in Pj.
    apply (mid_top _ _ _ M); assumption.
  - intros i Vi Ni. apply VV in Vi.
    destruct (FL p) as (_ & Gp & Elp & Erp & Epp).
    rewrite Epp in Ni.
    destruct (Z.eq_dec i p) as [-> | Nip].
    { split.
      - unfold hgt_ok. rewrite Elp, Erp, (Hch _ Cl), (Hch _ Cr). exact Hp'.
      - unfold bal_ok. rewrite Elp, Erp, (Hch _ Cl), (Hch _ Cr). exact Hbal.
      - unfold max_ok. rewrite Elp, Erp, (Mch _ Cl), (Mch _ Cr), Gp.
        rewrite MF, Z.eqb_refl. clear. lia. }
    assert (Oki : node_ok st i).
    { apply (mid_ok _ _ _ M); [exact Vi | congruence]. }
    destruct (FL i) as (_ & Gi & Eli & Eri & Epi).
    assert (Ci : forall e, ch e st i <> p).
    { intros e E.
      assert (C : child_ok st i (ch e st i)).
      { destruct e; [apply (lk_left _ _ (LK i Vi)) | apply (lk_right _ _ (LK i Vi))]. }
      destruct C as [E' | [_ Pc]]; [congruence |].
      rewrite E in Pc. congruence. }
    pose proof (Ci true) as Cil. pose proof (Ci false) as Cir.
    cbn [ch] in Cil, Cir.
    destruct Oki as [O1 O2 O3].
    split; unfold hgt_ok, bal_ok, max_ok in *;
      rewrite Eli, Eri, ?(Hch _ Cil), ?(Hch _ Cir), ?(Mch _ Cil), ?(Mch _ Cir),
        ?Gi, ?HF, ?MF, ?(eqb_false_l _ _ Nip); assumption.
  - intros i Vi. apply VV in Vi.
    destruct (Z.eq_dec i p) as [-> | Nip].
    + rewrite Hp'. clear - Bl Br. lia.
    + rewrite HF, (eqb_false_l _ _ Nip). apply (mid_pos _ _ _ M). exact Vi.
  - rewrite NE, Hp'. clear - Sh Hol Hor Bp. lia.
  - destruct (FL p) as (_ & _ & _ & _ & Epp). rewrite Epp.
    intros E. pose proof (rk_parent st x c p M Vp) as R. rewrite E in R.
    specialize (R HpT). lia.
  - destruct (FL p) as (_ & _ & _ & _ & Epp). rewrite Epp. intros HppT.
    destruct (rk_parent st x c p M Vp HppT) as [Vpp Rpp].
    assert (Npp : parent st p <> p) by (intros E; rewrite E in Rpp; lia).
    destruct (lk_parent _ _ (LK p Vp)) as [E | [_ C]]; [contradiction |].
    assert (Ce : exists e, ch e st (parent st p) = p).
    { destruct C; [exists true | exists false]; assumption. }
    destruct Ce as [e Ce].
    destruct (FL (parent st p)) as (_ & _ & Elq & Erq & _).
    assert (Cq : forall e', ch e' st' (parent st p) = ch e' st (parent st p)).
    { intros e'. destruct e'; assumption. }
    apply (stale_after st st' x c p p e); try assumption.
    + rewrite Cq. exact Ce.
    + apply Cq.
    + apply Hch. rewrite <- Ce at 2. apply sibling_neq; [apply LK, Vpp |].
      rewrite Ce. exact HpT.
    + rewrite HF, (eqb_false_l _ _ Npp). reflexivity.
    + rewrite <- Ce at 2. apply sibling_neq; [apply LK, Vpp |].
      rewrite Ce. exact HpT.
  - intros i Vi Pi Ni. apply VV in Vi.
    destruct (FL i) as (_ & _ & _ & _ & Ei). rewrite Ei in Pi.
    rewrite HF, (eqb_false_l _ _ Ni), NE.
    apply (mid_bound _ _ _ M); auto. congruence.
Qed.

Lemma rebalance_step d st x c p :
  Mid st x c -> parent st x = p -> p <> T ->
  2 <= height st (ch (negb d) st p) - height st (ch d st p) ->
  exists st' y, rebalance d st p = (st', y) /\
    Mid st' y (hfield st p) /\ parent st' y = parent st p /\
    len st' = len st /\ same_intervals st st'.
Proof.
  intros M Hp HpT Htall.
  destruct (tall_facts d st x c p M Hp HpT Htall) as (Ex & _).
  unfold rebalance. rewrite Ex.
  destruct (Z.ltb_spec (height st (ch (negb d) st x)) (height st (ch d st x)))
    as [Hlt | Hge].
  - destruct (step_double d st x c p M Hp HpT Htall Hlt)
      as (st1 & st3 & g & R1 & R2 & M3 & P3 & L3 & S3).
    rewrite R1. exists st3, g. rewrite R2. auto.
  - destruct (step_single d st x c p M Hp HpT Htall Hge)
      as (st' & R & M' & P' & L' & S').
    exists st', x. rewrite R. auto.
Qed.

Lemma balance_step st x c p :
  Mid st x c -> parent st x = p -> p <> T ->
  exists st' y, balance st p = (st', y) /\
    Mid st' y (hfield st p) /\ parent st' y = parent st p /\
    len st' = len st /\ same_intervals st st'.
Proof.
  intros M Hp HpT.
  destruct (mid_parent_valid st x c p M Hp HpT) as (Vp & Npx).
  assert (HpT' : parent st x <> T) by congruence.
  assert (B : forall e i, valid st i -> 0 <= height st (ch e st i) <= 16000).
  { intros e i Vi.
    pose proof (mid_height_small st x c (ch e st i) M HpT'
                  (mid_child st x c e i M Vi)). lia. }
  rewrite balance_eq.
  - destruct (Z.ltb_spec 1 (height st (right st p) - height st (left st p)))
      as [H1 | H1].
    + apply (rebalance_step true st x c p M Hp HpT). cbn [ch negb]. lia.
    + destruct (Z.ltb_spec (height st (right st p) - height st (left st p)) (-1))
        as [H2 | H2].
      * apply (rebalance_step false st x c p M Hp HpT). cbn [ch negb]. lia.
      * exists (update_max (update_height st p) p), p.
        split; [reflexivity |].
        apply (step_none st x c p M Hp HpT). lia.
  - apply (B true p Vp).
  - apply (B false p Vp).
  - intros e k Hk HkT. apply B.
    destruct Hk as [-> | ->].
    + destruct (mid_child st x c true p M Vp) as [E | V];
        [contradiction | exact V].
    + destruct (mid_child st x c false p M Vp) as [E | V];
        [contradiction | exact V].
Qed.

(** ** The rebalancing loop *)

Lemma same_intervals_refl st : same_intervals st st.
Proof. intros i. split; reflexivity. Qed.

Lemma same_intervals_trans st1 st2 st3 :
  same_intervals st1 st2 -> same_intervals st2 st3 -> same_intervals st1 st3.
Proof.
  intros A B i. destruct (A i) as [A1 A2]. destruct (B i) as [B1 B2].
  split; congruence.
Qed.

Lemma ascend_ok fuel : forall st x c,
  Mid st x c -> len st < Z.of_nat fuel + c ->
  exists st' y c', ascend fuel st x = Ok (st', y) /\
    Mid st' y c' /\ parent st' y = T /\
    len st' = len st /\ same_intervals st st'.
Proof.
  induction fuel as [| f IH]; intros st x c M Hf.
  - pose proof (mid_c _ _ _ M). lia.
  - cbn [ascend].
    destruct (Z.eqb_spec (parent st x) T) as [E | HpT].
    + exists st, x, c.
      split; [reflexivity |]. split; [exact M |]. split; [exact E |].
      split; [reflexivity | apply same_intervals_refl].
    + destruct (balance_step st x c (parent st x) M eq_refl HpT)
        as (st1 & y & Eb & M1 & P1 & L1 & S1).
      rewrite Eb.
      pose proof (mid_parent_height st x c _ M eq_refl HpT) as Hc.
      destruct (IH st1 y (hfield st (parent st x)) M1) as
        (st' & z & c' & Ea & M' & P' & L' & S'); [lia |].
      exists st', z, c'. split; [exact Ea |].
      split; [exact M' |]. split; [exact P' |].
      split; [congruence |].
      eapply same_intervals_trans; eassumption.
Qed.

End AvlLoop.

Module AvlInsert.
Import Avl AvlInv AvlFacts AvlRot AvlMid AvlFrame AvlStep AvlLoop.

(** ** The descent loop *)

Lemma inv_valid_not_T st i : Inv st -> valid st i -> i <> T.
Proof.
  intros I V. apply (valid_not_T st i); [apply (inv_len _ I) | exact V].
Qed.

Lemma inv_child st e i :
  Inv st -> valid st i -> ch e st i = T \/ valid st (ch e st i).
Proof.
  intros I Vi.
  assert (C : child_ok st i (ch e st i)).
  { destruct e; [apply (lk_left _ _ (inv_links _ I i Vi))
                | apply (lk_right _ _ (inv_links _ I i Vi))]. }
  destruct C as [E | [V _]]; [left | right]; assumption.
Qed.

Lemma inv_height_child st e i :
  Inv st -> valid st i -> 0 <= height st (ch e st i) < hfield st i.
Proof.
  intros I Vi.
  pose proof (ok_hgt _ _ (inv_ok _ I i Vi)) as H. unfold hgt_ok in H.
  assert (P : forall k, k = T \/ valid st k -> 0 <= height st k).
  { intros k [-> | Vk].
    - rewrite height_T. lia.
    - rewrite (height_valid _ _ (inv_valid_not_T _ _ I Vk)).
      pose proof (inv_pos _ I k Vk). lia. }
  pose proof (P _ (inv_child st true i I Vi)) as Pl.
  pose proof (P _ (inv_child st false i I Vi)) as Pr.
  cbn [ch] in Pl, Pr.
  destruct e; cbn [ch]; lia.
Qed.

Lemma descend_ok fuel : forall st st2 lo x p,
  Inv st ->
  (forall i, valid st i ->
             low st2 i = low st i /\ left st2 i = left st i /\
             right st2 i = right st i) ->
  x = T \/ valid st x ->
  (x = T -> valid st p /\
            (if lo <? low st p then left st p else right st p) = T) ->
  height st x < Z.of_nat fuel ->
  exists q, descend fuel st2 lo x p = Ok q /\ valid st q /\
            (if lo <? low st q then left st q else right st q) = T.
Proof.
  induction fuel as [| f IH]; intros st st2 lo x p I S Hx Hp Hf.
  - exfalso. destruct Hx as [-> | Vx].
    + rewrite height_T in Hf. lia.
    + rewrite (height_valid _ _ (inv_valid_not_T _ _ I Vx)) in Hf.
      pose proof (inv_pos _ I x Vx). lia.
  - cbn [descend]. destruct (Z.eqb_spec x T) as [E | HxT].
    + exists p. destruct (Hp E) as [Vp Cp]. auto.
    + destruct Hx as [E | Vx]; [contradiction |].
      destruct (S x Vx) as (El & Ell & Er). rewrite El, Ell, Er.
      assert (Hc : exists e, (if lo <? low st x then left st x
                              else right st x) = ch e st x).
      { destruct (lo <? low st x); [exists true | exists false]; reflexivity. }
      destruct Hc as [e Hc].
      apply (IH st st2 lo _ x I S).
      * rewrite Hc. apply inv_child; assumption.
      * intros E. split; assumption.
      * rewrite Hc. pose proof (inv_height_child st e x I Vx) as B.
        rewrite (height_valid _ _ HxT) in Hf. lia.
Qed.

(** ** Linking the new node below the node found by the descent *)

Lemma neq_negb (a b : bool) : a <> b -> a = negb b.
Proof. destruct a, b; cbn [negb]; congruence. Qed.

Lemma linked_fields st lo hi p e :
  p <> len st ->
  len (linked st lo hi p e) = len st + 1 /\
  root (linked st lo hi p e) = root st /\
  (forall i, low (linked st lo hi p e) i =
             if i =? len st then lo else low st i) /\
  (forall i, high (linked st lo hi p e) i =
             if i =? len st then hi else high st i) /\
  (forall i, max (linked st lo hi p e) i =
             if i =? len st then hi else max st i) /\
  (forall i, hfield (linked st lo hi p e) i =
             if i =? len st then 1 else hfield st i) /\
  (forall i, parent (linked st lo hi p e) i =
             if i =? len st then p else parent st i) /\
  (forall e' i, ch e' (linked st lo hi p e) i =
                if (i =? p) && Bool.eqb e' e then len st
                else if i =? len st then T else ch e' st i).
Proof.
  intros Hp. unfold linked.
  repeat split; intros; autorewrite with avl; try reflexivity.
  - destruct (i =? len st); reflexivity.
  - destruct (Z.eqb_spec i p) as [-> | N1]; cbn [andb].
    + destruct (Bool.eqb e' e); [reflexivity |].
      rewrite (eqb_false_l _ _ Hp).
      destruct e'; cbn [ch]; autorewrite with avl;
        rewrite ?(eqb_false_l _ _ Hp); reflexivity.
    + destruct e'; cbn [ch]; autorewrite with avl;
        destruct (i =? len st); reflexivity.
Qed.

Lemma linked_mid st lo hi p e :
  Inv st -> len st < N -> valid st p -> ch e st p = T ->
  Mid (linked st lo hi p e) (len st) 0.
Proof.
  intros I Hn Vp He.
  pose proof (inv_len _ I) as [Hl0 HlN].
  assert (Hpn : p <> len st) by (unfold valid in Vp; lia).
  destruct (linked_fields st lo hi p e Hpn)
    as (EL & ER & Flo & Fhi & Fmx & Fh & Fp & Fc).
  set (st' := linked st lo hi p e) in *.
  pose proof (inv_valid_not_T _ _ I Vp) as HpT.
  assert (HnT : len st <> T) by (unfold N, T in *; lia).
  assert (VV : forall i, valid st' i <-> valid st i \/ i = len st).
  { intros i. unfold valid. rewrite EL. lia. }
  assert (Vn : forall i, valid st i -> i <> len st).
  { unfold valid. intros i Hi. lia. }
  assert (Kn : forall k, k = T \/ valid st k -> k <> len st).
  { intros k [-> | Vk]; [congruence | apply Vn, Vk]. }
  assert (Hh : forall k, k <> len st -> height st' k = height st k).
  { intros k Hk. unfold height. rewrite Fh, (eqb_false_l _ _ Hk). reflexivity. }
  assert (Hm : forall k, k <> len st -> mx st' k = mx st k).
  { intros k Hk. unfold mx. rewrite Fmx, (eqb_false_l _ _ Hk). reflexivity. }
  assert (Pk : forall k, k <> len st -> parent st' k = parent st k).
  { intros k Hk. rewrite Fp, (eqb_false_l _ _ Hk). reflexivity. }
  assert (Cn : forall e', ch e' st' (len st) = T).
  { intros e'. rewrite Fc, (eqb_false_r _ _ Hpn), Z.eqb_refl. reflexivity. }
  assert (Cpe : ch e st' p = len st).
  { rewrite Fc, Z.eqb_refl, Bool.eqb_reflx. reflexivity. }
  assert (Cpo : ch (negb e) st' p = ch (negb e) st p).
  { rewrite Fc, Z.eqb_refl, (eqb_false_l _ _ Hpn).
    destruct e; reflexivity. }
  assert (Co : forall e' i, i <> p -> i <> len st ->
                            ch e' st' i = ch e' st i).
  { intros e' i H1 H2.
    rewrite Fc, (eqb_false_l _ _ H1), (eqb_false_l _ _ H2). reflexivity. }
  (* a child link of the old tree survives *)
  assert (Ck : forall e' q k, valid st q -> k <> T -> ch e' st q = k ->
                              ch e' st' q = k).
  { intros e' q k Vq HkT Hk.
    destruct (Z.eq_dec q p) as [-> | Nq].
    - destruct (Bool.eqb_spec e' e) as [-> | Ne]; [congruence |].
      rewrite (neq_negb _ _ Ne) in *.
      congruence.
    - rewrite Co; auto. }
  assert (Cold : forall e' q, valid st q ->
                 ch e' st' q = len st \/ ch e' st' q = ch e' st q).
  { intros e' q Vq.
    destruct (Z.eq_dec q p) as [-> | Nq].
    - destruct (Bool.eqb_spec e' e) as [-> | Ne]; [left; exact Cpe |].
      rewrite (neq_negb _ _ Ne) in *.
      right. exact Cpo.
    - right. apply Co; auto. }
  assert (LKn : links st' (len st)).
  { split.
    - left. apply (Cn true).
    - left. apply (Cn false).
    - intros _. apply (Cn true).
    - right. rewrite Fp, Z.eqb_refl. split; [apply VV; left; exact Vp |].
      destruct e; [left | right]; exact Cpe. }
  assert (CO : forall e' q, valid st q -> child_ok st' q (ch e' st' q)).
  { intros e' q Vq.
    destruct (Cold e' q Vq) as [E | E]; rewrite E.
    - right. split; [apply VV; right; reflexivity |].
      rewrite Fp, Z.eqb_refl.
      destruct (Z.eq_dec q p) as [-> | Nq]; [reflexivity |].
      exfalso. rewrite Co in E by auto.
      apply (Kn (ch e' st q)); [apply inv_child; assumption | exact E].
    - assert (C : child_ok st q (ch e' st q)).
      { destruct e'; [apply (lk_left _ _ (inv_links _ I q Vq))
                     | apply (lk_right _ _ (inv_links _ I q Vq))]. }
      destruct C as [C | [V P]]; [left; exact C | right].
      split; [apply VV; left; exact V |].
      rewrite Pk by (apply Vn, V). exact P. }
  assert (LKo : forall i, valid st i -> links st' i).
  { intros i Vi. pose proof (inv_links _ I i Vi) as L.
    split.
    - apply (CO true i Vi).
    - apply (CO false i Vi).
    - change (ch true st' i = ch false st' i -> ch true st' i = T).
      intros E.
      destruct (Cold true i Vi) as [E1 | E1];
        destruct (Cold false i Vi) as [E2 | E2].
      + exfalso. destruct (Z.eq_dec i p) as [-> | Ni].
        * pose proof Cpo as Q. destruct e; cbn [negb] in Q.
          -- apply (Kn (ch false st p)); [apply inv_child; assumption |].
             congruence.
          -- apply (Kn (ch true st p)); [apply inv_child; assumption |].
             congruence.
        * rewrite Co in E1 by auto.
          apply (Kn (ch true st i)); [apply inv_child; assumption | exact E1].
      + exfalso. apply (Kn (ch false st i)); [apply inv_child; assumption |].
        congruence.
      + exfalso. apply (Kn (ch true st i)); [apply inv_child; assumption |].
        congruence.
      + rewrite E1. apply (lk_distinct _ _ L). cbn [ch] in *. congruence.
    - rewrite Pk by (apply Vn, Vi).
      destruct (lk_parent _ _ L) as [E | [Vq C]]; [left; exact E | right].
      split; [apply VV; left; exact Vq |].
      pose proof (inv_valid_not_T _ _ I Vi) as HiT.
      destruct C as [C | C]; [left | right].
      + apply (Ck true); assumption.
      + apply (Ck false); assumption. }
  split.
  - rewrite EL. lia.
  - apply VV. right. reflexivity.
  - intros i Vi. apply VV in Vi. destruct Vi as [Vi | ->]; auto.
  - intros i j Vi Vj Pi Pj.
    assert (R : forall k, valid st' k -> parent st' k = T -> k = root st).
    { intros k Vk Hk. apply VV in Vk. destruct Vk as [Vk | ->].
      - rewrite Pk in Hk by (apply Vn, Vk). apply (inv_top _ I); assumption.
      - rewrite Fp, Z.eqb_refl in Hk. contradiction. }
    rewrite (R i Vi Pi), (R j Vj Pj). reflexivity.
  - intros i Vi Ni. rewrite Fp, Z.eqb_refl in Ni.
    apply VV in Vi. destruct Vi as [Vi | ->].
    + pose proof (Vn i Vi) as Nn.
      destruct (inv_ok _ I i Vi) as [O1 O2 O3].
      assert (Kc : forall e', ch e' st i <> len st).
      { intros e'. apply Kn. apply inv_child; assumption. }
      pose proof (Co true i Ni Nn) as C1. pose proof (Co false i Ni Nn) as C2.
      pose proof (Kc true) as K1. pose proof (Kc false) as K2.
      cbn [ch] in C1, C2, K1, K2.
      split; unfold hgt_ok, bal_ok, max_ok in *;
        rewrite C1, C2, ?(Hh _ K1), ?(Hh _ K2), ?(Hm _ K1), ?(Hm _ K2),
          ?Fh, ?Fmx, ?Fhi, ?(eqb_false_l _ _ Nn); assumption.
    + pose proof (Cn true) as C1. pose proof (Cn false) as C2.
      cbn [ch] in C1, C2.
      split; unfold hgt_ok, bal_ok, max_ok;
        rewrite C1, C2, ?height_T, ?Fh, ?Fmx, ?Fhi, ?Z.eqb_refl.
      * reflexivity.
      * lia.
      * split; [lia | split; left; reflexivity].
  - intros i Vi. apply VV in Vi. destruct Vi as [Vi | ->].
    + rewrite Fh, (eqb_false_l _ _ (Vn i Vi)). apply (inv_pos _ I i Vi).
    + rewrite Fh, Z.eqb_refl. lia.
  - rewrite Fh, Z.eqb_refl, EL. lia.
  - rewrite Fp, Z.eqb_refl. exact Hpn.
  - rewrite Fp, Z.eqb_refl. intros _.
    apply (stale_ch e). rewrite Cpe, Cpo, oh_x.
    assert (Ko : ch (negb e) st p <> len st).
    { apply Kn. apply inv_child; assumption. }
    rewrite (oh_other _ _ _ _ Ko), (Hh _ Ko).
    rewrite Fh, (eqb_false_l _ _ Hpn).
    destruct (inv_ok _ I p Vp) as [O1 O2 _].
    apply (hgt_ok_ch e) in O1. apply (bal_ok_ch e) in O2.
    rewrite He, height_T in O1, O2. split; assumption.
  - intros i Vi Pi Ni. apply VV in Vi.
    destruct Vi as [Vi | ->]; [| contradiction].
    rewrite Pk in Pi by exact Ni.
    rewrite Fh, (eqb_false_l _ _ Ni), EL.
    assert (0 < len st) by (unfold valid in Vi; lia).
    rewrite (inv_top _ I i Vi Pi).
    pose proof (inv_hroot _ I). lia.
Qed.

(** ** A whole call of [insert] *)

Lemma mid_inv st x c :
  Mid st x c -> parent st x = T -> Inv (set_root st x).
Proof.
  intros M Px.
  pose proof (mid_len _ _ _ M) as [Hl0 HlN].
  pose proof (mid_c _ _ _ M) as (Hc0 & Hcx & Hcl).
  split.
  - change (0 <= len st <= N). lia.
  - change (len st = 0 -> x = T). lia.
  - intros _. split; [exact (mid_x _ _ _ M) | exact Px].
  - intros i Vi Pi. change (i = x).
    apply (mid_top _ _ _ M); [exact Vi | exact (mid_x _ _ _ M) | exact Pi
                              | exact Px].
  - intros i Vi. destruct (mid_links _ _ _ M i Vi) as [L1 L2 L3 L4].
    split; assumption.
  - intros i Vi.
    assert (O : node_ok st i).
    { apply (mid_ok _ _ _ M i Vi).
      rewrite Px. apply (valid_not_T st i HlN Vi). }
    destruct O as [O1 O2 O3]. split; assumption.
  - exact (mid_pos _ _ _ M).
  - intros _. change (hfield st x <= len st). lia.
Qed.

Lemma first_inv st lo hi :
  len st = 0 ->
  Inv (set_root (init_node (set_len st 1) 0 lo hi) 0).
Proof.
  intros Hl.
  set (st' := set_root (init_node (set_len st 1) 0 lo hi) 0).
  assert (V0 : forall i, valid st' i -> i = 0).
  { intros i Vi. unfold valid in Vi. change (len st') with 1 in Vi. lia. }
  assert (F : left st' 0 = T /\ right st' 0 = T /\ parent st' 0 = T /\
              hfield st' 0 = 1 /\ max st' 0 = hi /\ high st' 0 = hi).
  { unfold st'. repeat split. }
  destruct F as (F1 & F2 & F3 & F4 & F5 & F6).
  split.
  - change (0 <= 1 <= N). unfold N. lia.
  - change (1 = 0 -> 0 = T). lia.
  - intros _. split; [change (0 <= 0 < 1); lia | exact F3].
  - intros i Vi _. apply (V0 i Vi).
  - intros i Vi. rewrite (V0 i Vi). split.
    + left. exact F1.
    + left. exact F2.
    + intros _. exact F1.
    + left. exact F3.
  - intros i Vi. rewrite (V0 i Vi).
    split; unfold hgt_ok, bal_ok, max_ok; rewrite F1, F2, ?F4, ?F5, ?F6,
      ?height_T.
    + reflexivity.
    + lia.
    + split; [lia | split; left; reflexivity].
  - intros i Vi. rewrite (V0 i Vi), F4. lia.
  - intros _. change (hfield st' 0 <= 1). rewrite F4. lia.
Qed.

Lemma insert_ok fuel st lo hi :
  Inv st -> len st < N -> N < Z.of_nat fuel ->
  exists st', insert fuel st lo hi = Ok st' /\ Inv st' /\
    len st' = len st + 1 /\
    (forall i, low st' i = if i =? len st then lo else low st i) /\
    (forall i, high st' i = if i =? len st then hi else high st i).
Proof.
  intros I Hn Hf.
  pose proof (inv_len _ I) as [Hl0 _].
  unfold insert.
  assert (Hchk : negb ((0 <=? len st) && (len st <? N)) = false).
  { destruct (Z.leb_spec 0 (len st)); [| lia].
    destruct (Z.ltb_spec (len st) N); [reflexivity | lia]. }
  rewrite Hchk.
  assert (Hw : wrap16 (len st + 1) = len st + 1).
  { apply wrap16_small. unfold N in Hn. lia. }
  rewrite Hw.
  change (root (init_node (set_len st (len st + 1)) (len st) lo hi))
    with (root st).
  destruct (Z.eq_dec (len st) 0) as [E0 | N0].
  - rewrite (inv_empty _ I E0), Z.eqb_refl.
    eexists. split; [reflexivity |].
    rewrite E0. cbn [Z.add].
    split; [apply first_inv; exact E0 |].
    split; [reflexivity |].
    split; intros i; autorewrite with avl; reflexivity.
  - assert (Hpos : 0 < len st) by lia.
    destruct (inv_root _ I Hpos) as [Vr Pr].
    pose proof (inv_valid_not_T _ _ I Vr) as HrT.
    rewrite (eqb_false_l _ _ HrT).
    set (st1 := init_node (set_len st (len st + 1)) (len st) lo hi).
    assert (S1 : forall i, valid st i ->
                 low st1 i = low st i /\ left st1 i = left st i /\
                 right st1 i = right st i).
    { intros i Vi. assert (Ni : i <> len st) by (unfold valid in Vi; lia).
      unfold st1. autorewrite with avl. rewrite (eqb_false_l _ _ Ni).
      repeat split. }
    destruct (descend_ok fuel st st1 lo (root st) T I S1 (or_intror Vr))
      as (q & Eq & Vq & Hq).
    { intros E. contradiction. }
    { rewrite (height_valid _ _ HrT). pose proof (inv_hroot _ I Hpos). lia. }
    rewrite Eq. cbn [bind].
    destruct (S1 q Vq) as (Lq & _ & _). rewrite Lq.
    rewrite set_ch_side.
    change (set_parent (set_ch (lo <? low st q) st1 q (len st)) (len st) q)
      with (linked st lo hi q (lo <? low st q)).
    assert (Hq' : ch (lo <? low st q) st q = T).
    { destruct (lo <? low st q); exact Hq. }
    pose proof (linked_mid st lo hi q _ I Hn Vq Hq') as M.
    assert (Nq : q <> len st) by (unfold valid in Vq; lia).
    destruct (linked_fields st lo hi q (lo <? low st q) Nq)
      as (EL & _ & Flo & Fhi & _).
    destruct (ascend_ok fuel _ _ _ M) as (st' & y & c' & Ea & M' & P' & L' & S').
    { rewrite EL. lia. }
    rewrite Ea. cbn [bind].
    exists (set_root st' y).
    split; [reflexivity |].
    split; [apply (mid_inv st' y c' M' P') |].
    split; [change (len st' = len st + 1); congruence |].
    split; intros i; destruct (S' i) as [S1' S2'].
    + change (low st' i = if i =? len st then lo else low st i).
      rewrite S1'. apply Flo.
    + change (high st' i = if i =? len st then hi else high st i).
      rewrite S2'. apply Fhi.
Qed.

End AvlInsert.

Module AvlQuery.
Import Avl AvlInv AvlFacts AvlRot AvlMid AvlFrame AvlStep AvlLoop AvlInsert.

(** ** A sequence of calls of [insert] *)

Lemma init_inv : Inv init.
Proof.
  split.
  - change (0 <= 0 <= N). unfold N. lia.
  - reflexivity.
  - change (0 < 0 -> valid init (root init) /\ parent init (root init) = T).
    lia.
  - intros i Vi. unfold valid in Vi. change (len init) with 0 in Vi. lia.
  - intros i Vi. unfold valid in Vi. change (len init) with 0 in Vi. lia.
  - intros i Vi. unfold valid in Vi. change (len init) with 0 in Vi. lia.
  - intros i Vi. unfold valid in Vi. change (len init) with 0 in Vi. lia.
  - change (0 < 0 -> hfield init (root init) <= 0). lia.
Qed.

Lemma inserts_ok fuel ops : forall st,
  Inv st -> len st + Z.of_nat (length ops) <= N -> N < Z.of_nat fuel ->
  exists st', inserts fuel st ops = Ok st' /\ Inv st' /\
              len st' = len st + Z.of_nat (length ops).
Proof.
  induction ops as [| [lo hi] ops IH]; intros st I Hn Hf.
  - exists st. cbn [inserts length].
    split; [reflexivity | split; [exact I | lia]].
  - cbn [length] in Hn. cbn [inserts].
    destruct (insert_ok fuel st lo hi I) as (st1 & E1 & I1 & L1 & _);
      [lia | exact Hf |].
    rewrite E1. cbn [bind].
    destruct (IH st1 I1) as (st' & E' & I' & L'); [lia | exact Hf |].
    exists st'. split; [exact E' | split; [exact I' |]].
    cbn [length]. lia.
Qed.

(** ** Reachability from the root *)

Lemma inv_hgt_parent st i :
  Inv st -> valid st i -> parent st i <> T ->
  valid st (parent st i) /\ hfield st i < hfield st (parent st i) /\
  (left st (parent st i) = i \/ right st (parent st i) = i).
Proof.
  intros I Vi Hp.
  destruct (lk_parent _ _ (inv_links _ I i Vi)) as [E | [Vq C]];
    [contradiction |].
  split; [exact Vq |]. split; [| exact C].
  pose proof (inv_valid_not_T _ _ I Vi) as HiT.
  pose proof (inv_height_child st true _ I Vq) as Hl.
  pose proof (inv_height_child st false _ I Vq) as Hr.
  cbn [ch] in Hl, Hr.
  destruct C as [C | C].
  - rewrite C, (height_valid _ _ HiT) in Hl. lia.
  - rewrite C, (height_valid _ _ HiT) in Hr. lia.
Qed.

Lemma inv_reach st i : Inv st -> valid st i -> desc st (root st) i.
Proof.
  intros I.
  destruct (fin_bound (hfield st) (Z.to_nat (len st))) as [B HB].
  assert (HB' : forall j, valid st j -> hfield st j <= B).
  { intros j Hj. apply HB. unfold valid in Hj. lia. }
  clear HB.
  assert (G : forall n j, valid st j -> B - hfield st j < Z.of_nat n ->
                          desc st (root st) j).
  { induction n as [| n IH]; intros j Vj Hn.
    - specialize (HB' j Vj). lia.
    - destruct (Z.eq_dec (parent st j) T) as [E | E].
      + rewrite <- (inv_top _ I j Vj E). apply desc_refl.
      + destruct (inv_hgt_parent st j I Vj E) as (Vq & Hq & C).
        pose proof (inv_valid_not_T _ _ I Vj) as HjT.
        assert (D : desc st (root st) (parent st j)) by (apply IH; [exact Vq | lia]).
        destruct C as [C | C]; rewrite <- C.
        * apply desc_left; [exact D | congruence].
        * apply desc_right; [exact D | congruence]. }
  intros Vi. apply (G (S (Z.to_nat (B - hfield st i))) i Vi).
  specialize (HB' i Vi). lia.
Qed.

Lemma desc_valid st x i : Inv st -> valid st x -> desc st x i -> valid st i.
Proof.
  intros I Vx D. induction D as [| i D IH Hl | i D IH Hr].
  - exact Vx.
  - destruct (inv_child st true i I IH) as [E | V]; [contradiction | exact V].
  - destruct (inv_child st false i I IH) as [E | V]; [contradiction | exact V].
Qed.

Lemma desc_trans st x y i : desc st x y -> desc st y i -> desc st x i.
Proof.
  intros Dxy Dyi. induction Dyi as [| i D IH Hl | i D IH Hr].
  - exact Dxy.
  - apply desc_left; assumption.
  - apply desc_right; assumption.
Qed.

Lemma desc_cases st x i :
  desc st x i ->
  i = x \/ (left st x <> T /\ desc st (left st x) i) \/
  (right st x <> T /\ desc st (right st x) i).
Proof.
  intros D. induction D as [| i D IH Hl | i D IH Hr].
  - left. reflexivity.
  - right. destruct IH as [-> | [[H1 H2] | [H1 H2]]].
    + left. split; [exact Hl | apply desc_refl].
    + left. split; [exact H1 | apply desc_left; assumption].
    + right. split; [exact H1 | apply desc_left; assumption].
  - right. destruct IH as [-> | [[H1 H2] | [H1 H2]]].
    + right. split; [exact Hr | apply desc_refl].
    + left. split; [exact H1 | apply desc_right; assumption].
    + right. split; [exact H1 | apply desc_right; assumption].
Qed.

(** [nodes[x].max] bounds the upper end of every interval below [x]. *)
Lemma desc_max st x i :
  Inv st -> valid st x -> desc st x i -> high st i <= max st i <= max st x.
Proof.
  intros I Vx D. induction D as [| i D IH Hl | i D IH Hr].
  - destruct (ok_max _ _ (inv_ok _ I x Vx)) as (H & _). lia.
  - pose proof (desc_valid st x i I Vx D) as Vi.
    destruct (inv_child st true i I Vi) as [E | V]; [contradiction |].
    cbn [ch] in V.
    destruct (ok_max _ _ (inv_ok _ I i Vi)) as (_ & [H | H] & _);
      [contradiction |].
    destruct (ok_max _ _ (inv_ok _ I _ V)) as (H' & _).
    unfold mx in H. rewrite (eqb_false_l _ _ Hl) in H. lia.
  - pose proof (desc_valid st x i I Vx D) as Vi.
    destruct (inv_child st false i I Vi) as [E | V]; [contradiction |].
    cbn [ch] in V.
    destruct (ok_max _ _ (inv_ok _ I i Vi)) as (_ & _ & [H | H]);
      [contradiction |].
    destruct (ok_max _ _ (inv_ok _ I _ V)) as (H' & _).
    unfold mx in H. rewrite (eqb_false_l _ _ Hr) in H. lia.
Qed.

Lemma desc_hfield st x i :
  Inv st -> valid st x -> desc st x i -> hfield st i <= hfield st x.
Proof.
  intros I Vx D. induction D as [| i D IH Hl | i D IH Hr].
  - lia.
  - pose proof (desc_valid st x i I Vx D) as Vi.
    pose proof (inv_height_child st true i I Vi) as H. cbn [ch] in H.
    rewrite (height_valid _ _ Hl) in H. lia.
  - pose proof (desc_valid st x i I Vx D) as Vi.
    pose proof (inv_height_child st false i I Vi) as H. cbn [ch] in H.
    rewrite (height_valid _ _ Hr) in H. lia.
Qed.

Lemma inv_hfield_le st i : Inv st -> valid st i -> 1 <= hfield st i <= N.
Proof.
  intros I Vi. split; [apply (inv_pos _ I i Vi) |].
  pose proof (inv_len _ I) as [_ HlN].
  assert (Hpos : 0 < len st) by (unfold valid in Vi; lia).
  destruct (inv_root _ I Hpos) as [Vr _].
  pose proof (desc_hfield st _ i I Vr (inv_reach st i I Vi)).
  pose proof (inv_hroot _ I Hpos). lia.
Qed.

Lemma inv_diff st i :
  Inv st -> valid st i ->
  diff st i = height st (right st i) - height st (left st i) /\
  -1 <= diff st i <= 1.
Proof.
  intros I Vi.
  pose proof (inv_hfield_le st i I Vi) as Hh.
  pose proof (inv_height_child st true i I Vi) as Hl.
  pose proof (inv_height_child st false i I Vi) as Hr.
  cbn [ch] in Hl, Hr.
  assert (E : diff st i = height st (right st i) - height st (left st i)).
  { apply diff_small; unfold N in Hh; lia. }
  split; [exact E |]. rewrite E.
  apply (ok_bal _ _ (inv_ok _ I i Vi)).
Qed.

(** ** The overlap query *)

Lemma hit_below st lo hi k i :
  Inv st -> valid st k -> max st k < lo -> desc st k i ->
  hit st lo hi i = false.
Proof.
  intros I Vk Hm D. pose proof (desc_max st k i I Vk D) as H.
  unfold hit, overlap. apply andb_false_intro1. apply Z.leb_gt. lia.
Qed.

Lemma find_all_overlapping_ok fuel : forall st x lo hi acc,
  Inv st -> x = T \/ valid st x -> height st x < Z.of_nat fuel ->
  exists res, find_all_overlapping fuel st x lo hi acc = Ok res /\
    forall i, In i res <->
              In i acc \/ (x <> T /\ desc st x i /\ hit st lo hi i = true).
Proof.
  induction fuel as [| f IH]; intros st x lo hi acc I Hx Hf.
  - exfalso. destruct Hx as [-> | Vx].
    + rewrite height_T in Hf. lia.
    + rewrite (height_valid _ _ (inv_valid_not_T _ _ I Vx)) in Hf.
      pose proof (inv_pos _ I x Vx). lia.
  - cbn [find_all_overlapping].
    destruct (Z.eqb_spec x T) as [E | HxT].
    + exists acc. split; [reflexivity |]. intros i. tauto.
    + destruct Hx as [E | Vx]; [contradiction |].
      rewrite (height_valid _ _ HxT) in Hf.
      pose proof (inv_height_child st true x I Vx) as Hl.
      pose proof (inv_height_child st false x I Vx) as Hr.
      pose proof (inv_child st true x I Vx) as Cl.
      pose proof (inv_child st false x I Vx) as Cr.
      cbn [ch] in Hl, Hr, Cl, Cr.
      change (overlap lo hi (low st x) (high st x)) with (hit st lo hi x).
      set (acc1 := if hit st lo hi x then acc ++ [x] else acc).
      assert (A1 : forall i, In i acc1 <->
                             In i acc \/ (i = x /\ hit st lo hi i = true)).
      { intros i. unfold acc1. destruct (hit st lo hi x) eqn:Hh.
        - rewrite in_app_iff. cbn [In]. split.
          + intros [H | [H | []]]; [left; exact H | right].
            subst i. split; [reflexivity | exact Hh].
          + intros [H | [-> _]]; [left; exact H | right; left; reflexivity].
        - split; [intros H; left; exact H |].
          intros [H | [-> H]]; [exact H | congruence]. }
      (* the left subtree *)
      assert (L : exists res1,
                 (if negb (left st x =? T) && (lo <=? max st (left st x))
                  then find_all_overlapping f st (left st x) lo hi acc1
                  else Ok acc1) = Ok res1 /\
                 forall i, In i res1 <->
                   In i acc1 \/ (left st x <> T /\ desc st (left st x) i /\
                                 hit st lo hi i = true)).
      { destruct (Z.eqb_spec (left st x) T) as [E | N1]; cbn [negb andb].
        - exists acc1. split; [reflexivity |]. intros i. tauto.
        - destruct Cl as [E | Vl]; [contradiction |].
          destruct (Z.leb_spec lo (max st (left st x))) as [Hm | Hm].
          + apply IH; [exact I | right; exact Vl | lia].
          + exists acc1. split; [reflexivity |]. intros i.
            split; [intros H; left; exact H |].
            intros [H | (_ & D & Hh)]; [exact H |].
            rewrite (hit_below st lo hi _ i I Vl Hm D) in Hh. discriminate. }
      destruct L as (res1 & E1 & R1). rewrite E1. cbn [bind].
      assert (R : exists res,
                 (if negb (right st x =? T) && (lo <=? max st (right st x))
                  then find_all_overlapping f st (right st x) lo hi res1
                  else Ok res1) = Ok res /\
                 forall i, In i res <->
                   In i res1 \/ (right st x <> T /\ desc st (right st x) i /\
                                 hit st lo hi i = true)).
      { destruct (Z.eqb_spec (right st x) T) as [E | N1]; cbn [negb andb].
        - exists res1. split; [reflexivity |]. intros i. tauto.
        - destruct Cr as [E | Vr]; [contradiction |].
          destruct (Z.leb_spec lo (max st (right st x))) as [Hm | Hm].
          + apply IH; [exact I | right; exact Vr | lia].
          + exists res1. split; [reflexivity |]. intros i.
            split; [intros H; left; exact H |].
            intros [H | (_ & D & Hh)]; [exact H |].
            rewrite (hit_below st lo hi _ i I Vr Hm D) in Hh. discriminate. }
      destruct R as (res & E2 & R2). exists res. split; [exact E2 |].
      intros i. rewrite R2, R1, A1. split.
      * intros [[[H | [-> H]] | (H1 & H2 & H3)] | (H1 & H2 & H3)].
        -- left. exact H.
        -- right. split; [exact HxT | split; [apply desc_refl | exact H]].
        -- right. split; [exact HxT | split; [| exact H3]].
           apply (desc_trans st x (left st x) i); [| exact H2].
           apply desc_left; [apply desc_refl | exact H1].
        -- right. split; [exact HxT | split; [| exact H3]].
           apply (desc_trans st x (right st x) i); [| exact H2].
           apply desc_right; [apply desc_refl | exact H1].
      * intros [H | (_ & D & Hh)]; [left; left; left; exact H |].
        destruct (desc_cases st x i D) as [-> | [[H1 H2] | [H1 H2]]].
        -- left. left. right. split; [reflexivity | exact Hh].
        -- left. right. repeat split; assumption.
        -- right. repeat split; assumption.
Qed.

Lemma naive_fold st lo hi l : forall acc i,
  In i (fold_left (fun acc i => if overlap lo hi (low st i) (high st i)
                                then acc ++ [i] else acc) l acc) <->
  In i acc \/ (In i l /\ hit st lo hi i = true).
Proof.
  induction l as [| a l IH]; intros acc i; cbn [fold_left].
  - cbn [In]. tauto.
  - rewrite IH. cbn [In].
    change (overlap lo hi (low st a) (high st a)) with (hit st lo hi a).
    destruct (hit st lo hi a) eqn:Ha.
    + rewrite in_app_iff. cbn [In]. split.
      * intros [[H | [H | []]] | [H1 H2]]; auto.
        subst a. right. split; [left; reflexivity | exact Ha].
      * intros [H | [[H | H] H2]]; auto.
    + split.
      * intros [H | [H1 H2]]; auto.
      * intros [H | [[H | H] H2]]; auto. subst a. congruence.
Qed.

Lemma in_handles n i :
  In i (map Z.of_nat (seq 0 (Z.to_nat n))) <-> 0 <= i < n.
Proof.
  rewrite in_map_iff. split.
  - intros (k & <- & Hk). apply in_seq in Hk. lia.
  - intros H. exists (Z.to_nat i). split; [lia |]. apply in_seq. lia.
Qed.

Lemma naive_ok st lo hi i :
  In i (find_all_overlapping_naive st lo hi []) <->
  valid st i /\ hit st lo hi i = true.
Proof.
  unfold find_all_overlapping_naive. rewrite naive_fold, in_handles.
  cbn [In]. unfold valid. tauto.
Qed.

Lemma query_ok fuel st lo hi :
  Inv st -> N < Z.of_nat fuel ->
  exists res, find_all_overlapping fuel st (root st) lo hi [] = Ok res /\
    forall i, In i res <-> In i (find_all_overlapping_naive st lo hi []).
Proof.
  intros I Hf.
  pose proof (inv_len _ I) as [Hl0 HlN].
  destruct (Z.eq_dec (len st) 0) as [E0 | N0].
  - destruct (find_all_overlapping_ok fuel st (root st) lo hi [] I)
      as (res & E & R).
    + left. apply (inv_empty _ I E0).
    + rewrite (inv_empty _ I E0), height_T. unfold N in Hf. lia.
    + exists res. split; [exact E |]. intros i. rewrite R, naive_ok.
      cbn [In]. split.
      * intros [[] | (H & _)]. elim H. apply (inv_empty _ I E0).
      * intros [V _]. unfold valid in V. lia.
  - assert (Hpos : 0 < len st) by lia.
    destruct (inv_root _ I Hpos) as [Vr _].
    destruct (find_all_overlapping_ok fuel st (root st) lo hi [] I)
      as (res & E & R).
    + right. exact Vr.
    + rewrite (height_valid _ _ (inv_valid_not_T _ _ I Vr)).
      pose proof (inv_hroot _ I Hpos). lia.
    + exists res. split; [exact E |]. intros i. rewrite R, naive_ok.
      cbn [In]. split.
      * intros [[] | (_ & D & H)].
        split; [apply (desc_valid st (root st) i I Vr D) | exact H].
      * intros [V H]. right.
        split; [apply (inv_valid_not_T _ _ I Vr) |].
        split; [apply (inv_reach st i I V) | exact H].
Qed.

End AvlQuery.

(* ================================================================== *)
(** * The verifiers of avl_tree_ref.c on the states that [insert] builds *)

Module AvlChecksFacts.
Import Avl AvlInv AvlFacts AvlRot AvlMid AvlFrame AvlStep AvlLoop AvlInsert
       AvlQuery AvlChecks.

(** ** Heights *)

Lemma calc_height_ok fuel : forall st x,
  Inv st -> x = T \/ valid st x -> height st x < Z.of_nat fuel ->
  calc_height fuel st x = Ok (height st x).
Proof.
  induction fuel as [| f IH]; intros st x I Hx Hf.
  - exfalso. destruct Hx as [-> | Vx].
    + rewrite height_T in Hf. lia.
    + rewrite (height_valid _ _ (inv_valid_not_T _ _ I Vx)) in Hf.
      pose proof (inv_pos _ I x Vx). lia.
  - cbn [calc_height]. destruct (Z.eqb_spec x T) as [E | HxT].
    + rewrite E. reflexivity.
    + destruct Hx as [E | Vx]; [contradiction |].
      rewrite (height_valid _ _ HxT) in *.
      pose proof (inv_height_child st true x I Vx) as Hl.
      pose proof (inv_height_child st false x I Vx) as Hr.
      cbn [ch] in Hl, Hr.
      rewrite (IH st (left st x) I (inv_child st true x I Vx)) by lia.
      rewrite (IH st (right st x) I (inv_child st false x I Vx)) by lia.
      cbn [bind].
      rewrite <- (ok_hgt _ _ (inv_ok _ I x Vx)).
      rewrite wrap16_small; [reflexivity |].
      pose proof (inv_hfield_le st x I Vx). unfold N in *. lia.
Qed.

Lemma check_height_ok fuel : forall st x,
  Inv st -> valid st x -> hfield st x < Z.of_nat fuel ->
  check_height fuel st x = Ok tt.
Proof.
  induction fuel as [| f IH]; intros st x I Vx Hf.
  - pose proof (inv_pos _ I x Vx). lia.
  - pose proof (inv_valid_not_T _ _ I Vx) as HxT.
    cbn [check_height].
    rewrite (calc_height_ok (S f) st x I (or_intror Vx))
      by (rewrite (height_valid _ _ HxT); exact Hf).
    cbn [bind]. rewrite (height_valid _ _ HxT), Z.eqb_refl. cbn [negb].
    pose proof (inv_height_child st true x I Vx) as Hl.
    pose proof (inv_height_child st false x I Vx) as Hr.
    cbn [ch] in Hl, Hr.
    assert (L : (if left st x =? T then Ok tt
                 else check_height f st (left st x)) = Ok tt).
    { destruct (Z.eqb_spec (left st x) T) as [E | NE]; [reflexivity |].
      destruct (inv_child st true x I Vx) as [E | V]; [contradiction |].
      apply IH; [exact I | exact V |].
      rewrite (height_valid _ _ NE) in Hl. lia. }
    rewrite L. cbn [bind].
    destruct (Z.eqb_spec (right st x) T) as [E | NE]; [reflexivity |].
    destruct (inv_child st false x I Vx) as [E | V]; [contradiction |].
    apply IH; [exact I | exact V |].
    rewrite (height_valid _ _ NE) in Hr. lia.
Qed.

(** ** The single-result search *)

Lemma search_from_ok fuel : forall st x lo hi,
  Inv st -> x = T \/ valid st x -> height st x < Z.of_nat fuel ->
  exists r, search_from fuel st x lo hi = Ok r /\
            (r = T \/ (valid st r /\ desc st x r /\ hit st lo hi r = true)).
Proof.
  induction fuel as [| f IH]; intros st x lo hi I Hx Hf.
  - exfalso. destruct Hx as [-> | Vx].
    + rewrite height_T in Hf. lia.
    + rewrite (height_valid _ _ (inv_valid_not_T _ _ I Vx)) in Hf.
      pose proof (inv_pos _ I x Vx). lia.
  - cbn [search_from]. destruct (Z.eqb_spec x T) as [E | HxT].
    + exists x. split; [reflexivity | left; exact E].
    + destruct Hx as [E | Vx]; [contradiction |].
      change (overlap lo hi (low st x) (high st x)) with (hit st lo hi x).
      destruct (hit st lo hi x) eqn:Hh.
      * exists x. split; [reflexivity | right].
        split; [exact Vx | split; [apply desc_refl | exact Hh]].
      * rewrite (height_valid _ _ HxT) in Hf.
        pose proof (inv_height_child st true x I Vx) as Hl.
        pose proof (inv_height_child st false x I Vx) as Hr.
        cbn [ch] in Hl, Hr.
        destruct (negb (left st x =? T) && (lo <=? max st (left st x))) eqn:G.
        -- apply andb_prop in G. destruct G as [G _].
           apply negb_true_iff, Z.eqb_neq in G.
           destruct (IH st (left st x) lo hi I (inv_child st true x I Vx))
             as (r & Er & Hr'); [lia |].
           exists r. split; [exact Er |].
           destruct Hr' as [-> | (V & D & H)]; [left; reflexivity | right].
           split; [exact V | split; [| exact H]].
           apply (desc_trans st x (left st x) r); [| exact D].
           apply desc_left; [apply desc_refl | exact G].
        -- destruct (IH st (right st x) lo hi I (inv_child st false x I Vx))
             as (r & Er & Hr'); [lia |].
           exists r. split; [exact Er |].
           destruct (Z.eq_dec (right st x) T) as [E | NE].
           ++ left. rewrite E in Er. destruct f as [| f']; [discriminate |].
              cbn [search_from] in Er. rewrite Z.eqb_refl in Er.
              congruence.
           ++ destruct Hr' as [-> | (V & D & H)]; [left; reflexivity | right].
              split; [exact V | split; [| exact H]].
              apply (desc_trans st x (right st x) r); [| exact D].
              apply desc_right; [apply desc_refl | exact NE].
Qed.

(** ** Subtrees do not share nodes *)

Lemma desc_parent st k i :
  Inv st -> valid st k -> desc st k i -> i <> k -> desc st k (parent st i).
Proof.
  intros I Vk D. induction D as [| i D IH Hl | i D IH Hr]; intros Hi.
  - contradiction.
  - pose proof (desc_valid st k i I Vk D) as Vi.
    destruct (lk_left _ _ (inv_links _ I i Vi)) as [E | [_ P]];
      [contradiction |].
    rewrite P. exact D.
  - pose proof (desc_valid st k i I Vk D) as Vi.
    destruct (lk_right _ _ (inv_links _ I i Vi)) as [E | [_ P]];
      [contradiction |].
    rewrite P. exact D.
Qed.

Lemma desc_chain st a b i :
  Inv st -> valid st a -> valid st b ->
  desc st a i -> desc st b i -> desc st a b \/ desc st b a.
Proof.
  intros I Va Vb D. induction D as [| i D IH Hl | i D IH Hr]; intros D'.
  - right. exact D'.
  - destruct (Z.eq_dec (left st i) b) as [E | NE].
    + left. rewrite <- E. apply desc_left; assumption.
    + pose proof (desc_valid st a i I Va D) as Vi.
      pose proof (desc_parent st b _ I Vb D' NE) as Dp.
      destruct (lk_left _ _ (inv_links _ I i Vi)) as [E | [_ P]];
        [contradiction |].
      rewrite P in Dp. apply IH. exact Dp.
  - destruct (Z.eq_dec (right st i) b) as [E | NE].
    + left. rewrite <- E. apply desc_right; assumption.
    + pose proof (desc_valid st a i I Va D) as Vi.
      pose proof (desc_parent st b _ I Vb D' NE) as Dp.
      destruct (lk_right _ _ (inv_links _ I i Vi)) as [E | [_ P]];
        [contradiction |].
      rewrite P in Dp. apply IH. exact Dp.
Qed.

Lemma child_not_above st e x :
  Inv st -> valid st x -> ch e st x <> T -> ~ desc st (ch e st x) x.
Proof.
  intros I Vx Hc D.
  destruct (inv_child st e x I Vx) as [E | Vc]; [contradiction |].
  pose proof (desc_hfield st _ x I Vc D) as H.
  pose proof (inv_height_child st e x I Vx) as H'.
  rewrite (height_valid _ _ Hc) in H'. lia.
Qed.

Lemma subtrees_disjoint st x i :
  Inv st -> valid st x -> left st x <> T -> right st x <> T ->
  desc st (left st x) i -> desc st (right st x) i -> False.
Proof.
  intros I Vx Hl Hr Dl Dr.
  destruct (inv_child st true x I Vx) as [E | Vl]; [contradiction |].
  destruct (inv_child st false x I Vx) as [E | Vr]; [contradiction |].
  cbn [ch] in Vl, Vr.
  pose proof (inv_links _ I x Vx) as L.
  assert (Nlr : left st x <> right st x).
  { intros E. apply Hl. apply (lk_distinct _ _ L E). }
  destruct (lk_left _ _ L) as [E | [_ Pl]]; [contradiction |].
  destruct (lk_right _ _ L) as [E | [_ Pr]]; [contradiction |].
  destruct (desc_chain st _ _ i I Vl Vr Dl Dr) as [D | D].
  - assert (Dp : desc st (left st x) (parent st (right st x))).
    { apply desc_parent; auto. }
    rewrite Pr in Dp. apply (child_not_above st true x I Vx Hl Dp).
  - assert (Dp : desc st (right st x) (parent st (left st x))).
    { apply desc_parent; auto. }
    rewrite Pl in Dp. apply (child_not_above st false x I Vx Hr Dp).
Qed.

(** ** No handle is reported twice *)

Lemma find_all_overlapping_new fuel : forall st x lo hi acc res,
  Inv st -> x = T \/ valid st x ->
  find_all_overlapping fuel st x lo hi acc = Ok res ->
  exists new, res = acc ++ new /\ NoDup new /\
              forall i, In i new -> x <> T /\ desc st x i.
Proof.
  induction fuel as [| f IH]; intros st x lo hi acc res I Hx E;
    [discriminate |].
  cbn [find_all_overlapping] in E.
  destruct (Z.eqb_spec x T) as [Ex | HxT].
  - exists []. inversion E. rewrite app_nil_r.
    split; [reflexivity | split; [constructor | intros i []]].
  - destruct Hx as [Ex | Vx]; [contradiction |].
    set (new0 := if overlap lo hi (low st x) (high st x) then [x] else []).
    assert (A0 : (if overlap lo hi (low st x) (high st x)
                  then acc ++ [x] else acc) = acc ++ new0).
    { unfold new0. destruct (overlap lo hi (low st x) (high st x));
        [reflexivity | rewrite app_nil_r; reflexivity]. }
    rewrite A0 in E.
    assert (N0 : NoDup new0 /\ forall i, In i new0 -> i = x).
    { unfold new0. destruct (overlap lo hi (low st x) (high st x)).
      - split; [constructor; [intros [] | constructor] |].
        intros i [H | []]. symmetry. exact H.
      - split; [constructor | intros i []]. }
    destruct N0 as [N0 I0].
    (* the left subtree *)
    assert (L : forall r1,
               (if negb (left st x =? T) && (lo <=? max st (left st x))
                then find_all_overlapping f st (left st x) lo hi (acc ++ new0)
                else Ok (acc ++ new0)) = Ok r1 ->
               exists newl, r1 = (acc ++ new0) ++ newl /\ NoDup newl /\
                 forall i, In i newl ->
                           left st x <> T /\ desc st (left st x) i).
    { intros r1 E1.
      destruct (negb (left st x =? T) && (lo <=? max st (left st x))).
      - apply (IH st (left st x) lo hi _ r1 I (inv_child st true x I Vx) E1).
      - exists []. inversion E1. rewrite app_nil_r.
        split; [reflexivity | split; [constructor | intros i []]]. }
    destruct (if negb (left st x =? T) && (lo <=? max st (left st x))
              then find_all_overlapping f st (left st x) lo hi (acc ++ new0)
              else Ok (acc ++ new0)) as [r1 | e1] eqn:E1;
      [| discriminate].
    cbn [bind] in E.
    destruct (L r1 eq_refl) as (newl & -> & Nl & Il). clear L.
    assert (R : exists newr, res = ((acc ++ new0) ++ newl) ++ newr /\
                  NoDup newr /\
                  forall i, In i newr ->
                            right st x <> T /\ desc st (right st x) i).
    { destruct (negb (right st x =? T) && (lo <=? max st (right st x))).
      - apply (IH st (right st x) lo hi _ res I (inv_child st false x I Vx) E).
      - exists []. inversion E. rewrite app_nil_r.
        split; [reflexivity | split; [constructor | intros i []]]. }
    destruct R as (newr & -> & Nr & Ir).
    exists (new0 ++ newl ++ newr).
    split; [rewrite !app_assoc; reflexivity |].
    split.
    + apply NoDup_app; [exact N0 | |].
      * apply NoDup_app; [exact Nl | exact Nr |].
        intros i Hl Hr. destruct (Il i Hl) as [Tl Dl].
        destruct (Ir i Hr) as [Tr Dr].
        apply (subtrees_disjoint st x i I Vx Tl Tr Dl Dr).
      * intros i H0 H. rewrite (I0 i H0) in H. apply in_app_or in H.
        destruct H as [H | H].
        -- destruct (Il x H) as [Tl Dl].
           apply (child_not_above st true x I Vx Tl Dl).
        -- destruct (Ir x H) as [Tr Dr].
           apply (child_not_above st false x I Vx Tr Dr).
    + intros i H. split; [exact HxT |].
      apply in_app_or in H. destruct H as [H | H].
      * rewrite (I0 i H). apply desc_refl.
      * apply in_app_or in H. destruct H as [H | H].
        -- destruct (Il i H) as [Tl Dl].
           apply (desc_trans st x (left st x) i); [| exact Dl].
           apply desc_left; [apply desc_refl | exact Tl].
        -- destruct (Ir i H) as [Tr Dr].
           apply (desc_trans st x (right st x) i); [| exact Dr].
           apply desc_right; [apply desc_refl | exact Tr].
Qed.

Lemma naive_filter st lo hi l : forall acc,
  fold_left (fun acc i => if overlap lo hi (low st i) (high st i)
                          then acc ++ [i] else acc) l acc
  = acc ++ filter (hit st lo hi) l.
Proof.
  induction l as [| a l IH]; intros acc; cbn [fold_left filter].
  - rewrite app_nil_r. reflexivity.
  - rewrite IH. unfold hit at 2.
    destruct (overlap lo hi (low st a) (high st a)); [| reflexivity].
    rewrite <- app_assoc. reflexivity.
Qed.

Lemma naive_nodup st lo hi : NoDup (find_all_overlapping_naive st lo hi []).
Proof.
  unfold find_all_overlapping_naive. rewrite naive_filter. cbn [app].
  apply NoDup_filter.
  generalize (seq_NoDup (Z.to_nat (len st)) 0).
  generalize (seq 0 (Z.to_nat (len st))) as l.
  intros l N. induction N as [| a l Ha N IH]; cbn [map]; constructor.
  - intros H. apply in_map_iff in H. destruct H as (b & E & Hb).
    apply Nat2Z.inj in E. subst b. contradiction.
  - exact IH.
Qed.

Lemma check_overlaps_ok (results actual : list Z) :
  NoDup results -> NoDup actual ->
  (forall i, In i results <-> In i actual) ->
  check_overlaps results actual = Ok tt.
Proof.
  intros N1 N2 H. unfold check_overlaps.
  assert (L : length results = length actual).
  { apply Nat.le_antisymm; apply NoDup_incl_length; try assumption;
      intros i Hi; apply H; exact Hi. }
  rewrite L, Z.eqb_refl. cbn [negb].
  assert (F : forallb (fun r => existsb (fun a => a =? r) actual) results
              = true).
  { apply forallb_forall. intros r Hr. apply existsb_exists.
    exists r. split; [apply H; exact Hr | apply Z.eqb_refl]. }
  rewrite F. reflexivity.
Qed.

End AvlChecksFacts.

(* ================================================================== *)
(** * The interval AVL tree: [insert] keeps the order and the exact [max] *)

Module AvlOrdFacts.
Import Avl AvlInv AvlFacts AvlRot AvlMid AvlFrame AvlStep AvlLoop AvlInsert.
Import AvlOrd.

Lemma max_eq_ch d st i :
  max_eq st i <->
  max st i = Z.max (high st i)
               (Z.max (mx st (ch d st i)) (mx st (ch (negb d) st i))).
Proof.
  unfold max_eq. destruct d; cbn [ch negb]; [tauto |].
  rewrite (Z.max_comm (mx st (right st i))). tauto.
Qed.

Lemma ble_flip e a z : ble (negb e) (Some a) z -> ble e (Some z) a.
Proof. destruct e; cbn [ble negb]; lia. Qed.

Lemma ble_trans e o a z : ble e o a -> ble e (Some a) z -> ble e o z.
Proof. destruct o as [b |]; destruct e; cbn [ble]; lia. Qed.

Lemma eqb_negb_l (d : bool) : Bool.eqb (negb d) d = false.
Proof. destruct d; reflexivity. Qed.

Lemma eqb_negb_r (d : bool) : Bool.eqb d (negb d) = false.
Proof. destruct d; reflexivity. Qed.

Lemma rot_bd_other d x y ly bd e i :
  i <> x -> i <> y -> rot_bd d x y ly bd e i = bd e i.
Proof.
  intros H1 H2. unfold rot_bd.
  rewrite (eqb_false_l _ _ H1), (eqb_false_l _ _ H2). reflexivity.
Qed.

Lemma rot_bd_x_in d x y ly bd : rot_bd d x y ly bd d x = Some ly.
Proof. unfold rot_bd. rewrite Z.eqb_refl, Bool.eqb_reflx. reflexivity. Qed.

Lemma rot_bd_x_out d x y ly bd :
  x <> y -> rot_bd d x y ly bd (negb d) x = bd (negb d) x.
Proof.
  intros H. unfold rot_bd.
  rewrite Z.eqb_refl, eqb_negb_l, (eqb_false_l _ _ H). reflexivity.
Qed.

Lemma rot_bd_y_out d x y ly bd :
  x <> y -> rot_bd d x y ly bd (negb d) y = bd (negb d) x.
Proof.
  intros H. unfold rot_bd.
  rewrite (eqb_false_r _ _ H), Z.eqb_refl, Bool.eqb_reflx. reflexivity.
Qed.

Lemma rot_bd_y_in d x y ly bd :
  x <> y -> rot_bd d x y ly bd d y = bd d y.
Proof.
  intros H. unfold rot_bd.
  rewrite (eqb_false_r _ _ H), Z.eqb_refl, eqb_negb_r. reflexivity.
Qed.

(** ** A rotation *)

Section RotationOrd.

Variables (d : bool) (st : state) (r : Z -> Z) (x : Z).
Hypothesis Hlen : len st <= N.
Hypothesis LK : forall i, valid st i -> links st i.
Hypothesis RK : ranked st r.
Hypothesis Vx : valid st x.
Hypothesis HyT : ch d st x <> T.

Let y := ch d st x.
Let pp := parent st x.
Let a := ch d st y.
Let b := ch (negb d) st y.
Let c := ch (negb d) st x.

Variable st' : state.
Hypothesis RS : rot_spec d st x y pp a b c st'.

Lemma rot_max_eq_x : max_eq st' x.
Proof.
  destruct (rot_at_x d st r x Hlen LK RK Vx HyT st' RS)
    as (C1 & C2 & _ & _ & M1 & M2 & _ & Mx & Hx).
  apply (max_eq_ch d). rewrite C1, C2, M1, M2, Mx, Hx. reflexivity.
Qed.

Lemma rot_max_eq_y : max_eq st' y.
Proof.
  destruct (rot_at_y d st r x Hlen LK RK Vx HyT st' RS)
    as (C1 & C2 & _ & M1 & _ & M2 & _ & My & Hy).
  apply (max_eq_ch d). fold y in C1, C2, M1, My, Hy.
  rewrite C1, C2, M1, M2, My, Hy. reflexivity.
Qed.

Lemma rot_max_eq_other i :
  valid st i -> i <> x -> i <> y -> (i = pp -> pp = T) ->
  max_eq st i -> max_eq st' i.
Proof.
  intros Vi Nx Ny Np H.
  destruct (rot_frame d st r x Hlen LK RK Vx HyT st' RS i Vi Nx Ny Np)
    as (E1 & E2 & _ & _ & E5 & E6 & _ & E8 & E9).
  unfold max_eq in *. rewrite E1, E2, E5, E6, E8, E9. exact H.
Qed.

Lemma rot_bnd bd :
  Bnd st bd -> Bnd st' (rot_bd d x y (low st y) bd).
Proof.
  intros B.
  pose proof (rot_valid d st x st' RS) as VV.
  pose proof (rs_low _ _ _ _ _ _ _ _ _ RS) as LO.
  destruct (rot_y d st r x Hlen LK RK Vx HyT) as (Vy & Py & _).
  destruct (rot_distinct d st r x Hlen LK RK Vx HyT)
    as (HxT & Dxy & Dpx & Dpy & Dbx & Dax & Dby & Day & Dcx & _).
  pose proof (rot_c_y d st x LK Vx HyT) as Dcy.
  pose proof (rot_ch_x d st r x Hlen LK RK Vx HyT st' RS) as CX.
  pose proof (rot_ch_y d st r x Hlen LK RK Vx HyT st' RS) as CY.
  pose proof (rot_ch_pp d st r x Hlen LK RK Vx HyT st' RS) as CP.
  pose proof (rot_ch_other d st x st' RS) as CO.
  pose proof (rot_child_other d st r x Hlen LK RK Vx HyT) as CHO.
  pose proof (rot_parentless d st r x Hlen LK RK Vx HyT st' RS) as PL.
  pose proof (rot_pp_side st r x LK RK Vx) as PS.
  fold y pp a b c in Vy, Py, Dxy, Dpx, Dpy, Dbx, Dax, Dby, Day, Dcx, Dcy,
    CX, CY, CP, CO, CHO, PL, PS.
  pose proof (B x Vx) as Bx. pose proof (B y Vy) as By.
  destruct (bnd_ch _ _ _ Bx d HyT) as (Ey1 & Ey2). fold y in Ey1, Ey2.
  assert (Lyx : ble (negb d) (Some (low st x)) (low st y)).
  { rewrite <- Ey2. apply (bnd_in _ _ _ By). }
  intros i Vi. apply VV in Vi.
  destruct (Z.eq_dec i x) as [-> | Nx];
    [| destruct (Z.eq_dec i y) as [-> | Ny]].
  - (* the node that goes down *)
    split.
    + intros e. rewrite LO.
      destruct (Bool.eqb_spec e d) as [-> | Ne].
      * rewrite rot_bd_x_in. apply ble_flip. exact Lyx.
      * rewrite (neq_negb _ _ Ne), rot_bd_x_out by exact Dxy.
        apply (bnd_in _ _ _ Bx).
    + intros e. rewrite LO, CX.
      destruct (Bool.eqb_spec e d) as [-> | Ne].
      * intros HbT.
        destruct (bnd_ch _ _ _ By (negb d) HbT) as (Eb1 & Eb2).
        fold b in Eb1, Eb2. rewrite Bool.negb_involutive in Eb2.
        rewrite !(rot_bd_other d x y _ bd _ b) by assumption.
        rewrite rot_bd_x_in.
        split; [exact Eb2 | congruence].
      * rewrite (neq_negb _ _ Ne). intros HcT.
        destruct (bnd_ch _ _ _ Bx (negb d) HcT) as (Ec1 & Ec2).
        fold c in Ec1, Ec2, HcT |- *.
        rewrite !(rot_bd_other d x y _ bd _ c) by assumption.
        rewrite rot_bd_x_out by exact Dxy. split; assumption.
    + intros Hp e. exfalso.
      destruct (PL x Vx Hp) as [(E & _) | (E & _)]; congruence.
  - (* the node that goes up *)
    split.
    + intros e. rewrite LO.
      destruct (Bool.eqb_spec e d) as [-> | Ne].
      * rewrite rot_bd_y_in by exact Dxy. apply (bnd_in _ _ _ By).
      * rewrite (neq_negb _ _ Ne), rot_bd_y_out by exact Dxy.
        apply (ble_trans _ _ (low st x)); [apply (bnd_in _ _ _ Bx) |].
        exact Lyx.
    + intros e. rewrite LO, CY.
      destruct (Bool.eqb_spec e (negb d)) as [-> | Ne].
      * intros _. rewrite Bool.negb_involutive.
        rewrite rot_bd_x_out, rot_bd_y_out, rot_bd_x_in by exact Dxy.
        split; reflexivity.
      * assert (Ed : e = d).
        { destruct e, d; cbn [negb] in *; congruence. }
        subst e. intros HaT.
        destruct (bnd_ch _ _ _ By d HaT) as (Ea1 & Ea2).
        fold a in Ea1, Ea2, HaT |- *.
        rewrite !(rot_bd_other d x y _ bd _ a) by assumption.
        rewrite rot_bd_y_in by exact Dxy. split; assumption.
    + intros Hp e.
      destruct (PL y Vy Hp) as [(_ & E) | (_ & E & _)]; [| congruence].
      pose proof (bnd_top _ _ _ Bx E) as Tx.
      destruct (Bool.eqb_spec e d) as [-> | Ne].
      * rewrite rot_bd_y_in by exact Dxy. rewrite Ey1. apply Tx.
      * rewrite (neq_negb _ _ Ne), rot_bd_y_out by exact Dxy. apply Tx.
  - pose proof (B i Vi) as Bi.
    split.
    + intros e. rewrite LO, rot_bd_other by assumption.
      apply (bnd_in _ _ _ Bi).
    + intros e. rewrite LO.
      destruct (Z.eq_dec i pp) as [-> | Np].
      * (* the node above the rotation *)
        assert (HpT : pp <> T).
        { apply (valid_not_T st pp Hlen Vi). }
        destruct (PS HpT) as (Cx & Lp). fold pp in Cx, Lp.
        rewrite CP by exact HpT.
        remember (x =? left st pp) as e0 eqn:Ee0.
        assert (HxT' : ch e0 st pp <> T) by (rewrite Cx; exact HxT).
        destruct (bnd_ch _ _ _ Bi e0 HxT') as (Ex1 & Ex2).
        rewrite Cx in Ex1, Ex2.
        destruct (Bool.eqb_spec e e0) as [-> | Ne].
        -- intros _. rewrite !(rot_bd_other d x y _ bd _ pp) by assumption.
           destruct (Bool.eqb_spec e0 d) as [Ed | Nd].
           ++ rewrite Ed in *.
              rewrite rot_bd_y_in, rot_bd_y_out by exact Dxy.
              split; congruence.
           ++ rewrite (neq_negb _ _ Nd) in *.
              rewrite Bool.negb_involutive in *.
              rewrite rot_bd_y_in, rot_bd_y_out by exact Dxy.
              split; congruence.
        -- rewrite (neq_negb _ _ Ne). intros HkT.
           destruct (bnd_ch _ _ _ Bi (negb e0) HkT) as (Ek1 & Ek2).
           assert (Kx : ch (negb e0) st pp <> x).
           { intros E. apply (sibling_neq st pp e0 Lp HxT').
             rewrite E, Cx. reflexivity. }
           assert (Ky : ch (negb e0) st pp <> y).
           { intros E.
             assert (C : child_ok st pp (ch (negb e0) st pp)).
             { destruct (negb e0);
                 [apply (lk_left _ _ Lp) | apply (lk_right _ _ Lp)]. }
             destruct C as [C | (_ & C)]; [contradiction |].
             rewrite E in C. congruence. }
           rewrite !(rot_bd_other d x y _ bd _ pp) by assumption.
           rewrite !(rot_bd_other d x y _ bd _ (ch (negb e0) st pp))
             by assumption.
           split; assumption.
      * assert (Np' : i = pp -> pp = T) by (intros E; contradiction).
        rewrite (CO e i Nx Ny Np'). intros HkT.
        destruct (CHO e i Vi Nx Np') as (K1 & K2).
        destruct (bnd_ch _ _ _ Bi e HkT) as (Ek1 & Ek2).
        rewrite !(rot_bd_other d x y _ bd _ i) by assumption.
        rewrite !(rot_bd_other d x y _ bd _ (ch e st i)) by assumption.
        split; assumption.
    + intros Hp e. rewrite rot_bd_other by assumption.
      destruct (PL i Vi Hp) as [(E & _) | (_ & _ & E)]; [contradiction |].
      apply (bnd_top _ _ _ Bi E).
Qed.

End RotationOrd.


(** ** One iteration of the rebalancing loop *)

Lemma bnd_same st st' bd :
  (forall i, valid st' i <-> valid st i) ->
  (forall i, low st' i = low st i) ->
  (forall e i, ch e st' i = ch e st i) ->
  (forall i, parent st' i = parent st i) ->
  Bnd st bd -> Bnd st' bd.
Proof.
  intros VV LO CH PA B i Vi. apply VV in Vi.
  destruct (B i Vi) as [B1 B2 B3]. split.
  - intros e. rewrite LO. apply B1.
  - intros e. rewrite LO, CH. apply B2.
  - rewrite PA. apply B3.
Qed.

Lemma mid_child_neq st x c e i :
  Mid st x c -> valid st i -> ch e st i <> i.
Proof.
  intros M Vi E.
  pose proof (mid_len _ _ _ M) as [_ Hlen].
  pose proof (valid_not_T _ _ Hlen Vi) as HiT.
  assert (C : child_ok st i (ch e st i)).
  { destruct e; [apply (lk_left _ _ (mid_links _ _ _ M i Vi))
                | apply (lk_right _ _ (mid_links _ _ _ M i Vi))]. }
  destruct C as [C | (_ & C)]; [congruence |].
  rewrite E in C.
  assert (Hp : parent st i <> T) by congruence.
  destruct (rk_parent st x c i M Vi Hp) as (_ & R).
  rewrite C in R. lia.
Qed.

Lemma mid_child_of st x c e i k :
  Mid st x c -> valid st i -> valid st k -> ch e st i = k ->
  parent st k = i.
Proof.
  intros M Vi Vk E.
  pose proof (mid_len _ _ _ M) as [_ Hlen].
  pose proof (valid_not_T _ _ Hlen Vk) as HkT.
  assert (C : child_ok st i (ch e st i)).
  { destruct e; [apply (lk_left _ _ (mid_links _ _ _ M i Vi))
                | apply (lk_right _ _ (mid_links _ _ _ M i Vi))]. }
  destruct C as [C | (_ & C)]; congruence.
Qed.

Lemma step_none_ord st x c p :
  Mid st x c -> parent st x = p -> p <> T -> MidOrd st x ->
  MidOrd (update_max (update_height st p) p) p.
Proof.
  intros M Hp HpT [Om [bd B]].
  destruct (update_fields st p) as (NE & _ & FL & _ & MF).
  set (st' := update_max (update_height st p) p) in *.
  destruct (mid_parent_valid st x c p M Hp HpT) as (Vp & Npx).
  assert (VV : forall i, valid st' i <-> valid st i).
  { intros i. unfold valid. rewrite NE. tauto. }
  assert (Mch : forall k, k <> p -> mx st' k = mx st k).
  { intros k Hk. unfold mx. rewrite MF, (eqb_false_l _ _ Hk). reflexivity. }
  split.
  - intros i Vi Ni. apply VV in Vi.
    destruct (FL p) as (_ & _ & _ & _ & Epp). rewrite Epp in Ni.
    destruct (FL i) as (_ & Hi & Li & Ri & _).
    unfold max_eq. rewrite Hi, Li, Ri.
    destruct (Z.eq_dec i p) as [-> | Nip].
    + pose proof (mid_child_neq st x c true p M Vp) as Cl.
      pose proof (mid_child_neq st x c false p M Vp) as Cr.
      cbn [ch] in Cl, Cr.
      rewrite (Mch _ Cl), (Mch _ Cr), MF, Z.eqb_refl. reflexivity.
    + assert (Ci : forall e, ch e st i <> p).
      { intros e E. apply Ni. symmetry.
        apply (mid_child_of st x c e i p M Vi Vp E). }
      pose proof (Ci true) as Cl. pose proof (Ci false) as Cr.
      cbn [ch] in Cl, Cr.
      rewrite (Mch _ Cl), (Mch _ Cr), MF, (eqb_false_l _ _ Nip).
      apply Om; [exact Vi | congruence].
  - exists bd. apply (bnd_same st st' bd VV); [| | | exact B].
    + intros i. apply FL.
    + intros e i. destruct (FL i) as (_ & _ & Li & Ri & _).
      destruct e; assumption.
    + intros i. apply FL.
Qed.

Lemma step_single_ord d st x c p st' :
  Mid st x c -> parent st x = p -> p <> T ->
  2 <= height st (ch (negb d) st p) - height st (ch d st p) ->
  rotate (negb d) st p = (st', x) ->
  MidOrd st x -> MidOrd st' x.
Proof.
  intros M Hp HpT Htall Hrot [Om [bd B]].
  destruct (tall_facts d st x c p M Hp HpT Htall) as (Et & _).
  destruct (mid_parent_valid st x c p M Hp HpT) as (Vp & Npx).
  pose proof (mid_len _ _ _ M) as [_ Hlen].
  pose proof (mid_x _ _ _ M) as Vx.
  pose proof (valid_not_T _ _ Hlen Vx) as HxT.
  pose proof (mid_links _ _ _ M) as LK.
  pose proof (mid_ranked _ _ _ M) as RK.
  assert (HyT : ch (negb d) st p <> T) by (rewrite Et; exact HxT).
  destruct (rot_defined (negb d) st (rk st x c) p Hlen LK RK Vp HyT)
    as (st2 & Hrot2 & RS).
  rewrite Hrot in Hrot2. injection Hrot2 as E2 _. subst st2.
  pose proof (rot_parent_y _ _ _ _ Hlen LK RK Vp HyT st' RS) as PY.
  pose proof (rot_valid _ _ _ _ RS) as VV.
  pose proof (rot_max_eq_x _ _ _ _ Hlen LK RK Vp HyT st' RS) as MX.
  pose proof (rot_max_eq_y _ _ _ _ Hlen LK RK Vp HyT st' RS) as MY.
  pose proof (rot_max_eq_other _ _ _ _ Hlen LK RK Vp HyT st' RS) as MO.
  pose proof (rot_bnd _ _ _ _ Hlen LK RK Vp HyT st' RS bd B) as B'.
  rewrite Et in PY, MY, MO, B'.
  split.
  - intros i Vi Ni. apply VV in Vi. rewrite PY in Ni.
    destruct (Z.eq_dec i p) as [-> | Nip]; [exact MX |].
    destruct (Z.eq_dec i x) as [-> | Nix]; [exact MY |].
    apply MO; [exact Vi | exact Nip | exact Nix | intros; contradiction |].
    apply Om; [exact Vi | congruence].
  - eexists. exact B'.
Qed.

Lemma step_double_ord d st x c p st1 g st3 g' :
  Mid st x c -> parent st x = p -> p <> T ->
  2 <= height st (ch (negb d) st p) - height st (ch d st p) ->
  height st (ch (negb d) st x) < height st (ch d st x) ->
  rotate d st x = (st1, g) ->
  rotate (negb d) (set_ch (negb d) st1 p g) p = (st3, g') ->
  MidOrd st x -> MidOrd st3 g.
Proof.
  intros M Hp HpT Htall Hin Hr1 Hr2 [Om [bd B]].
  destruct (tall_facts d st x c p M Hp HpT Htall) as (Et & Eo & _).
  destruct (mid_parent_valid st x c p M Hp HpT) as (Vp & Npx).
  pose proof (mid_len _ _ _ M) as [_ Hlen].
  pose proof (mid_x _ _ _ M) as Vx.
  pose proof (valid_not_T _ _ Hlen Vx) as HxT.
  pose proof (mid_links _ _ _ M) as LK.
  pose proof (mid_ranked _ _ _ M) as RK.
  assert (HgT : ch d st x <> T).
  { intros E. rewrite E, height_T in Hin.
    assert (HpT' : parent st x <> T) by congruence.
    pose proof (mid_height_small st x c (ch (negb d) st x) M HpT'
                  (mid_child st x c (negb d) x M Vx)). lia. }
  destruct (mid_child st x c d x M Vx) as [E | Vg]; [contradiction |].
  (* first rotation *)
  destruct (rot_defined d st (rk st x c) x Hlen LK RK Vx HgT)
    as (s1 & Hrot1 & RS1).
  rewrite Hr1 in Hrot1. injection Hrot1 as E1 Eg. subst s1.
  pose proof (rot_links _ _ _ _ Hlen LK RK Vx HgT st1 RS1) as LK1.
  pose proof (rot_ranked _ _ _ _ Hlen LK RK Vx HgT st1 RS1) as RK1.
  pose proof (rot_at_pp _ _ _ _ Hlen LK RK Vx HgT st1 RS1) as AP1.
  pose proof (rot_distinct _ _ _ _ Hlen LK RK Vx HgT) as DD1.
  pose proof (rot_parent_other _ _ _ _ RS1) as PO1.
  pose proof (rot_valid _ _ _ _ RS1) as VV1.
  pose proof (rs_len _ _ _ _ _ _ _ _ _ RS1) as NE1.
  pose proof (rot_max_eq_x _ _ _ _ Hlen LK RK Vx HgT st1 RS1) as MX1.
  pose proof (rot_max_eq_y _ _ _ _ Hlen LK RK Vx HgT st1 RS1) as MY1.
  pose proof (rot_max_eq_other _ _ _ _ Hlen LK RK Vx HgT st1 RS1) as MO1.
  pose proof (rot_bnd _ _ _ _ Hlen LK RK Vx HgT st1 RS1 bd B) as B1.
  clear RS1.
  rewrite ?Hp, <- ?Eg in *.
  specialize (AP1 HpT).
  assert (E0 : (x =? left st p) = negb d).
  { destruct AP1 as (A & _). clear - A Eo.
    destruct (x =? left st p), d; cbn [negb] in *; congruence. }
  rewrite E0 in AP1. rewrite ?Bool.negb_involutive in AP1.
  destruct AP1 as (_ & P1c1 & _).
  destruct DD1 as (_ & Dxg & _ & Dpg & _ & _ & _ & _ & _ & _ & Dpb1 & _).
  assert (Om1 : forall i, valid st1 i -> i <> p -> max_eq st1 i).
  { intros i Vi Ni. apply VV1 in Vi.
    destruct (Z.eq_dec i x) as [-> | Nix]; [exact MX1 |].
    destruct (Z.eq_dec i g) as [-> | Nig]; [exact MY1 |].
    apply MO1; [exact Vi | exact Nix | exact Nig | intros; contradiction |].
    apply Om; [exact Vi | congruence]. }
  (* second rotation *)
  assert (S2 : same_fields st1 (set_ch (negb d) st1 p g)).
  { apply same_set_ch. exact P1c1. }
  assert (Hlen1 : len st1 <= N) by (rewrite NE1; exact Hlen).
  assert (Vp1 : valid st1 p) by (apply VV1; exact Vp).
  assert (HyT2 : ch (negb d) st1 p <> T) by (rewrite P1c1; exact HgT).
  destruct (rot_defined_same (negb d) st1 _ p Hlen1 LK1 RK1 Vp1 HyT2 _ S2)
    as (s3 & Hrot2 & RS2).
  rewrite Hr2 in Hrot2. injection Hrot2 as E3 _. subst s3.
  pose proof (rot_parent_y _ _ _ _ Hlen1 LK1 RK1 Vp1 HyT2 st3 RS2) as PY2.
  pose proof (rot_valid _ _ _ _ RS2) as VV2.
  pose proof (rot_max_eq_x _ _ _ _ Hlen1 LK1 RK1 Vp1 HyT2 st3 RS2) as MX2.
  pose proof (rot_max_eq_y _ _ _ _ Hlen1 LK1 RK1 Vp1 HyT2 st3 RS2) as MY2.
  pose proof (rot_max_eq_other _ _ _ _ Hlen1 LK1 RK1 Vp1 HyT2 st3 RS2) as MO2.
  pose proof (rot_bnd _ _ _ _ Hlen1 LK1 RK1 Vp1 HyT2 st3 RS2 _ B1) as B3.
  clear RS2.
  rewrite P1c1 in PY2, MY2, MO2, B3.
  split.
  - intros i Vi Ni. apply VV2 in Vi. rewrite PY2 in Ni.
    destruct (Z.eq_dec i p) as [-> | Nip]; [exact MX2 |].
    destruct (Z.eq_dec i g) as [-> | Nig]; [exact MY2 |].
    apply MO2; [exact Vi | exact Nip | exact Nig | intros; contradiction |].
    apply Om1; [exact Vi | exact Nip].
  - eexists. exact B3.
Qed.

Lemma rebalance_ord d st x c p :
  Mid st x c -> parent st x = p -> p <> T ->
  2 <= height st (ch (negb d) st p) - height st (ch d st p) ->
  MidOrd st x ->
  MidOrd (fst (rebalance d st p)) (snd (rebalance d st p)).
Proof.
  intros M Hp HpT Htall O.
  destruct (tall_facts d st x c p M Hp HpT Htall) as (Ex & _).
  unfold rebalance. rewrite Ex.
  destruct (Z.ltb_spec (height st (ch (negb d) st x)) (height st (ch d st x)))
    as [Hlt | Hge].
  - destruct (step_double d st x c p M Hp HpT Htall Hlt)
      as (st1 & st3 & g & R1 & R2 & _).
    rewrite R1, R2. cbn [fst snd].
    apply (step_double_ord d st x c p st1 g st3 g M Hp HpT Htall Hlt R1 R2 O).
  - destruct (step_single d st x c p M Hp HpT Htall Hge)
      as (st' & R & _).
    rewrite R. cbn [fst snd].
    apply (step_single_ord d st x c p st' M Hp HpT Htall R O).
Qed.

Lemma balance_ord st x c p :
  Mid st x c -> parent st x = p -> p <> T -> MidOrd st x ->
  MidOrd (fst (balance st p)) (snd (balance st p)).
Proof.
  intros M Hp HpT O.
  destruct (mid_parent_valid st x c p M Hp HpT) as (Vp & Npx).
  assert (HpT' : parent st x <> T) by congruence.
  assert (B : forall e i, valid st i -> 0 <= height st (ch e st i) <= 16000).
  { intros e i Vi.
    pose proof (mid_height_small st x c (ch e st i) M HpT'
                  (mid_child st x c e i M Vi)). lia. }
  rewrite balance_eq.
  - destruct (Z.ltb_spec 1 (height st (right st p) - height st (left st p)))
      as [H1 | H1].
    + apply (rebalance_ord true st x c p M Hp HpT); [| exact O].
      cbn [ch negb]. lia.
    + destruct (Z.ltb_spec (height st (right st p) - height st (left st p)) (-1))
        as [H2 | H2].
      * apply (rebalance_ord false st x c p M Hp HpT); [| exact O].
        cbn [ch negb]. lia.
      * cbn [fst snd]. apply (step_none_ord st x c p M Hp HpT O).
  - apply (B true p Vp).
  - apply (B false p Vp).
  - intros e k Hk HkT. apply B.
    destruct Hk as [-> | ->].
    + destruct (mid_child st x c true p M Vp) as [E | V];
        [contradiction | exact V].
    + destruct (mid_child st x c false p M Vp) as [E | V];
        [contradiction | exact V].
Qed.

Lemma ascend_ord fuel : forall st x c st' y,
  Mid st x c -> MidOrd st x ->
  ascend fuel st x = Ok (st', y) -> MidOrd st' y.
Proof.
  induction fuel as [| f IH]; intros st x c st' y M O E.
  - discriminate E.
  - cbn [ascend] in E.
    destruct (Z.eqb_spec (parent st x) T) as [Ep | HpT].
    + injection E as E1 E2. subst st' y. exact O.
    + destruct (balance_step st x c (parent st x) M eq_refl HpT)
        as (st1 & y1 & Eb & M1 & _).
      pose proof (balance_ord st x c (parent st x) M eq_refl HpT O) as O1.
      rewrite Eb in O1, E. cbn [fst snd] in O1.
      apply (IH st1 y1 _ st' y M1 O1 E).
Qed.


(** ** The descent loop and the linking of the new node *)

Lemma side_ble lo lq : ble (negb (lo <? lq)) (Some lq) lo.
Proof.
  destruct (Z.ltb_spec lo lq); cbn [negb ble]; lia.
Qed.

Lemma descend_bnd fuel : forall st st2 bd lo x p q,
  Inv st -> Bnd st bd ->
  (forall i, valid st i ->
             low st2 i = low st i /\ left st2 i = left st i /\
             right st2 i = right st i) ->
  x = T \/ valid st x ->
  (x <> T -> forall e, ble e (bd e x) lo) ->
  (x = T -> forall e, ble e (bd e p) lo) ->
  descend fuel st2 lo x p = Ok q ->
  forall e, ble e (bd e q) lo.
Proof.
  induction fuel as [| f IH]; intros st st2 bd lo x p q I B S Hx Bx Bp E.
  - discriminate E.
  - cbn [descend] in E. destruct (Z.eqb_spec x T) as [ET | HxT].
    + injection E as E. subst q. apply (Bp ET).
    + destruct Hx as [ET | Vx]; [contradiction |].
      destruct (S x Vx) as (El & Ell & Er). rewrite El, Ell, Er in E.
      assert (Hc : (if lo <? low st x then left st x else right st x)
                   = ch (lo <? low st x) st x).
      { destruct (lo <? low st x); reflexivity. }
      rewrite Hc in E.
      apply (IH st st2 bd lo _ x q I B S
               (inv_child st (lo <? low st x) x I Vx)); [| | exact E].
      * intros HkT e.
        destruct (bnd_ch _ _ _ (B x Vx) _ HkT) as (E1 & E2).
        destruct (Bool.eqb_spec e (lo <? low st x)) as [-> | Ne].
        -- rewrite E1. apply (Bx HxT).
        -- rewrite (neq_negb _ _ Ne), E2. apply side_ble.
      * intros _. apply (Bx HxT).
Qed.

Lemma linked_ord st lo hi p e bd :
  Inv st -> len st < N -> valid st p -> ch e st p = T -> MIN <= hi ->
  (forall i, valid st i -> max_eq st i) -> Bnd st bd ->
  (forall e', ble e' (bd e' p) lo) ->
  ble (negb e) (Some (low st p)) lo ->
  MidOrd (linked st lo hi p e) (len st).
Proof.
  intros I Hn Vp He Hhi Om B Bp Bs.
  pose proof (inv_len _ I) as [Hl0 HlN].
  assert (Hpn : p <> len st) by (unfold valid in Vp; lia).
  destruct (linked_fields st lo hi p e Hpn)
    as (EL & _ & Flo & Fhi & Fmx & _ & Fp & Fc).
  set (st' := linked st lo hi p e) in *.
  assert (HnT : len st <> T) by (unfold N, T in *; lia).
  assert (VV : forall i, valid st' i <-> valid st i \/ i = len st).
  { intros i. unfold valid. rewrite EL. lia. }
  assert (Vn : forall i, valid st i -> i <> len st).
  { unfold valid. intros i Hi. lia. }
  assert (Kn : forall e' i, valid st i -> ch e' st i <> len st).
  { intros e' i Vi E.
    destruct (inv_child st e' i I Vi) as [C | C]; [congruence |].
    apply (Vn _ C). exact E. }
  assert (Hm : forall k, k <> len st -> mx st' k = mx st k).
  { intros k Hk. unfold mx. rewrite Fmx, (eqb_false_l _ _ Hk). reflexivity. }
  assert (Cn : forall e', ch e' st' (len st) = T).
  { intros e'. rewrite Fc, (eqb_false_r _ _ Hpn), Z.eqb_refl. reflexivity. }
  assert (Cpe : ch e st' p = len st).
  { rewrite Fc, Z.eqb_refl, Bool.eqb_reflx. reflexivity. }
  assert (Cpo : ch (negb e) st' p = ch (negb e) st p).
  { rewrite Fc, Z.eqb_refl, (eqb_false_l _ _ Hpn).
    destruct e; reflexivity. }
  assert (Co : forall e' i, i <> p -> i <> len st ->
                            ch e' st' i = ch e' st i).
  { intros e' i H1 H2.
    rewrite Fc, (eqb_false_l _ _ H1), (eqb_false_l _ _ H2). reflexivity. }
  assert (Pn : parent st' (len st) = p).
  { rewrite Fp, Z.eqb_refl. reflexivity. }
  assert (Lb : forall e' i, i <> len st ->
                 link_bd e p (len st) (low st p) bd e' i = bd e' i).
  { intros e' i Hi. unfold link_bd. rewrite (eqb_false_l _ _ Hi).
    reflexivity. }
  split.
  - intros i Vi Ni. rewrite Pn in Ni. apply VV in Vi.
    destruct Vi as [Vi | ->].
    + pose proof (Vn i Vi) as Nn.
      pose proof (Co true i Ni Nn) as C1. pose proof (Co false i Ni Nn) as C2.
      pose proof (Kn true i Vi) as K1. pose proof (Kn false i Vi) as K2.
      cbn [ch] in C1, C2, K1, K2.
      unfold max_eq.
      rewrite C1, C2, (Hm _ K1), (Hm _ K2), Fmx, Fhi, (eqb_false_l _ _ Nn).
      apply (Om i Vi).
    + pose proof (Cn true) as C1. pose proof (Cn false) as C2.
      cbn [ch] in C1, C2.
      unfold max_eq. rewrite C1, C2, Fmx, Fhi, Z.eqb_refl.
      unfold mx. rewrite Z.eqb_refl. lia.
  - exists (link_bd e p (len st) (low st p) bd).
    intros i Vi. apply VV in Vi. destruct Vi as [Vi | ->].
    + pose proof (Vn i Vi) as Nn. destruct (B i Vi) as [B1 B2 B3].
      split.
      * intros e'. rewrite Flo, (eqb_false_l _ _ Nn), Lb by exact Nn.
        apply B1.
      * intros e'. rewrite Flo, (eqb_false_l _ _ Nn), (Lb _ i Nn).
        destruct (Z.eq_dec i p) as [-> | Nip].
        -- destruct (Bool.eqb_spec e' e) as [-> | Ne].
           ++ intros _. rewrite Cpe. unfold link_bd.
              rewrite Z.eqb_refl, Bool.eqb_reflx, eqb_negb_l.
              split; reflexivity.
           ++ rewrite (neq_negb _ _ Ne), Cpo. intros HkT.
              rewrite !(Lb _ (ch (negb e) st p)) by (apply Kn; exact Vi).
              apply B2. exact HkT.
        -- rewrite (Co e' i Nip Nn). intros HkT.
           rewrite !(Lb _ (ch e' st i)) by (apply Kn; exact Vi).
           apply B2. exact HkT.
      * rewrite Fp, (eqb_false_l _ _ Nn). intros Hp e'.
        rewrite Lb by exact Nn. apply (B3 Hp).
    + split.
      * intros e'. rewrite Flo, Z.eqb_refl. unfold link_bd.
        rewrite Z.eqb_refl.
        destruct (Bool.eqb_spec e' e) as [-> | Ne]; [apply Bp |].
        rewrite (neq_negb _ _ Ne). exact Bs.
      * intros e' H. exfalso. apply H. apply Cn.
      * rewrite Pn. intros Hp. exfalso.
        apply (inv_valid_not_T _ _ I Vp). exact Hp.
Qed.

(** ** A whole call of [insert] *)

Lemma mid_ord_inv st x c :
  Mid st x c -> MidOrd st x -> parent st x = T -> Ord (set_root st x).
Proof.
  intros M [Om [bd B]] Px.
  pose proof (mid_len _ _ _ M) as [_ HlN].
  split.
  - intros i Vi. change (max_eq st i). apply Om; [exact Vi |].
    rewrite Px. apply (valid_not_T st i HlN Vi).
  - exists bd. intros i Vi. destruct (B i Vi) as [B1 B2 B3].
    split; assumption.
Qed.

Lemma first_ord st lo hi :
  len st = 0 -> MIN <= hi ->
  Ord (set_root (init_node (set_len st 1) 0 lo hi) 0).
Proof.
  intros Hl Hhi.
  set (st' := set_root (init_node (set_len st 1) 0 lo hi) 0).
  assert (V0 : forall i, valid st' i -> i = 0).
  { intros i Vi. unfold valid in Vi. change (len st') with 1 in Vi. lia. }
  assert (F : left st' 0 = T /\ right st' 0 = T /\ parent st' 0 = T /\
              max st' 0 = hi /\ high st' 0 = hi).
  { unfold st'. repeat split. }
  destruct F as (F1 & F2 & F3 & F5 & F6).
  split.
  - intros i Vi. rewrite (V0 i Vi). unfold max_eq.
    rewrite F1, F2, F5, F6. unfold mx. rewrite Z.eqb_refl. lia.
  - exists (fun _ _ => None). intros i Vi. rewrite (V0 i Vi). split.
    + intros e. exact I.
    + intros e H. exfalso. apply H. destruct e; assumption.
    + intros _ e. reflexivity.
Qed.

Lemma init_ord : Ord init.
Proof.
  split.
  - intros i Vi. unfold valid in Vi. cbn in Vi. lia.
  - exists (fun _ _ => None). intros i Vi. unfold valid in Vi. cbn in Vi. lia.
Qed.

Lemma insert_ord fuel st lo hi st' :
  Inv st -> Ord st -> len st < N -> N < Z.of_nat fuel -> MIN <= hi ->
  insert fuel st lo hi = Ok st' -> Ord st'.
Proof.
  intros I [Om [bd B]] Hn Hf Hhi E.
  pose proof (inv_len _ I) as [Hl0 _].
  unfold insert in E.
  assert (Hchk : negb ((0 <=? len st) && (len st <? N)) = false).
  { destruct (Z.leb_spec 0 (len st)); [| lia].
    destruct (Z.ltb_spec (len st) N); [reflexivity | lia]. }
  rewrite Hchk in E.
  assert (Hw : wrap16 (len st + 1) = len st + 1).
  { apply wrap16_small. unfold N in Hn. lia. }
  rewrite Hw in E.
  change (root (init_node (set_len st (len st + 1)) (len st) lo hi))
    with (root st) in E.
  destruct (Z.eq_dec (len st) 0) as [E0 | N0].
  - rewrite (inv_empty _ I E0), Z.eqb_refl in E.
    injection E as E. subst st'. rewrite E0. cbn [Z.add].
    apply first_ord; assumption.
  - assert (Hpos : 0 < len st) by lia.
    destruct (inv_root _ I Hpos) as [Vr Pr].
    pose proof (inv_valid_not_T _ _ I Vr) as HrT.
    rewrite (eqb_false_l _ _ HrT) in E.
    set (st1 := init_node (set_len st (len st + 1)) (len st) lo hi) in *.
    assert (S1 : forall i, valid st i ->
                 low st1 i = low st i /\ left st1 i = left st i /\
                 right st1 i = right st i).
    { intros i Vi. assert (Ni : i <> len st) by (unfold valid in Vi; lia).
      unfold st1. autorewrite with avl. rewrite (eqb_false_l _ _ Ni).
      repeat split. }
    destruct (descend_ok fuel st st1 lo (root st) T I S1 (or_intror Vr))
      as (q & Eq & Vq & Hq).
    { intros E'. contradiction. }
    { rewrite (height_valid _ _ HrT). pose proof (inv_hroot _ I Hpos). lia. }
    assert (Bq : forall e, ble e (bd e q) lo).
    { apply (descend_bnd fuel st st1 bd lo (root st) T q I B S1
               (or_intror Vr)); [| | exact Eq].
      - intros _ e. rewrite (bnd_top _ _ _ (B _ Vr) Pr). exact Logic.I.
      - intros E'. contradiction. }
    rewrite Eq in E. cbn [bind] in E.
    destruct (S1 q Vq) as (Lq & _ & _). rewrite Lq in E.
    rewrite set_ch_side in E.
    change (set_parent (set_ch (lo <? low st q) st1 q (len st)) (len st) q)
      with (linked st lo hi q (lo <? low st q)) in E.
    assert (Hq' : ch (lo <? low st q) st q = T).
    { destruct (lo <? low st q); exact Hq. }
    pose proof (linked_mid st lo hi q _ I Hn Vq Hq') as M.
    pose proof (linked_ord st lo hi q _ bd I Hn Vq Hq' Hhi Om B Bq
                  (side_ble lo (low st q))) as O.
    assert (Nq : q <> len st) by (unfold valid in Vq; lia).
    destruct (linked_fields st lo hi q (lo <? low st q) Nq) as (EL & _).
    destruct (ascend_ok fuel _ _ _ M) as (s2 & y & c' & Ea & M' & P' & _).
    { rewrite EL. lia. }
    pose proof (ascend_ord fuel _ _ _ s2 y M O Ea) as O'.
    rewrite Ea in E. cbn [bind] in E. injection E as E. subst st'.
    apply (mid_ord_inv s2 y c' M' O' P').
Qed.

Lemma inserts_ord fuel ops : forall st st',
  Inv st -> Ord st -> len st + Z.of_nat (length ops) <= N ->
  N < Z.of_nat fuel -> Forall (fun op => MIN <= snd op) ops ->
  inserts fuel st ops = Ok st' -> Ord st'.
Proof.
  induction ops as [| [lo hi] ops IH]; intros st st' I O Hn Hf F E.
  - cbn [inserts] in E. injection E as E. subst st'. exact O.
  - inversion F as [| x l F1 F2]; subst. cbn [fst snd] in F1.
    cbn [inserts] in E. cbn [length] in Hn.
    assert (Hn1 : len st < N) by lia.
    destruct (insert_ok fuel st lo hi I Hn1 Hf) as (s1 & E1 & I1 & L1 & _).
    rewrite E1 in E. cbn [bind] in E.
    apply (IH s1 st' I1); [| lia | exact Hf | exact F2 | exact E].
    apply (insert_ord fuel st lo hi s1 I O Hn1 Hf F1 E1).
Qed.

End AvlOrdFacts.

(* ================================================================== *)
(** * The interval AVL tree: [check_invariants] and the completeness of
      [search] *)

Module AvlOrdChecks.
Import Avl AvlInv AvlFacts AvlRot AvlMid AvlFrame AvlInsert AvlQuery.
Import AvlChecks AvlChecksFacts AvlOrd AvlOrdFacts.

Lemma mx_valid st i : i <> T -> mx st i = max st i.
Proof. intros H. unfold mx. rewrite (eqb_false_l _ _ H). reflexivity. Qed.

Lemma mx_T st : mx st T = MIN.
Proof. unfold mx. rewrite Z.eqb_refl. reflexivity. Qed.

(** ** [check_max] *)

Lemma calc_max_ok fuel : forall st x,
  Inv st -> (forall i, valid st i -> max_eq st i) ->
  x = T \/ valid st x -> height st x < Z.of_nat fuel ->
  calc_max fuel st x = Ok (mx st x).
Proof.
  induction fuel as [| f IH]; intros st x I Om Hx Hf.
  - exfalso. destruct Hx as [-> | Vx].
    + rewrite height_T in Hf. lia.
    + rewrite (height_valid _ _ (inv_valid_not_T _ _ I Vx)) in Hf.
      pose proof (inv_pos _ I x Vx). lia.
  - cbn [calc_max]. destruct (Z.eqb_spec x T) as [E | HxT].
    + rewrite E, mx_T. reflexivity.
    + destruct Hx as [E | Vx]; [contradiction |].
      rewrite (height_valid _ _ HxT) in *.
      pose proof (inv_height_child st true x I Vx) as Hl.
      pose proof (inv_height_child st false x I Vx) as Hr.
      cbn [ch] in Hl, Hr.
      rewrite (IH st (left st x) I Om (inv_child st true x I Vx)) by lia.
      rewrite (IH st (right st x) I Om (inv_child st false x I Vx)) by lia.
      cbn [bind]. rewrite (mx_valid _ _ HxT), (Om x Vx). reflexivity.
Qed.

Lemma check_max_ok fuel : forall st x,
  Inv st -> (forall i, valid st i -> max_eq st i) ->
  valid st x -> hfield st x < Z.of_nat fuel ->
  check_max fuel st x = Ok tt.
Proof.
  induction fuel as [| f IH]; intros st x I Om Vx Hf.
  - pose proof (inv_pos _ I x Vx). lia.
  - pose proof (inv_valid_not_T _ _ I Vx) as HxT.
    cbn [check_max].
    rewrite (calc_max_ok (S f) st x I Om (or_intror Vx))
      by (rewrite (height_valid _ _ HxT); exact Hf).
    cbn [bind]. rewrite (mx_valid _ _ HxT), Z.eqb_refl. cbn [negb].
    pose proof (inv_height_child st true x I Vx) as Hl.
    pose proof (inv_height_child st false x I Vx) as Hr.
    cbn [ch] in Hl, Hr.
    assert (L : (if left st x =? T then Ok tt
                 else check_max f st (left st x)) = Ok tt).
    { destruct (Z.eqb_spec (left st x) T) as [E | NE]; [reflexivity |].
      destruct (inv_child st true x I Vx) as [E | V]; [contradiction |].
      apply IH; [exact I | exact Om | exact V |].
      rewrite (height_valid _ _ NE) in Hl. lia. }
    rewrite L. cbn [bind].
    destruct (Z.eqb_spec (right st x) T) as [E | NE]; [reflexivity |].
    destruct (inv_child st false x I Vx) as [E | V]; [contradiction |].
    apply IH; [exact I | exact Om | exact V |].
    rewrite (height_valid _ _ NE) in Hr. lia.
Qed.

(** Some node of every subtree carries the [max] of its root. *)
Lemma max_attained st :
  Inv st -> (forall i, valid st i -> max_eq st i) ->
  (forall i, valid st i -> MIN <= high st i) ->
  forall (n : nat) x, valid st x -> hfield st x <= Z.of_nat n ->
    exists j, desc st x j /\ high st j = max st x.
Proof.
  intros I Om Hh. induction n as [| n IH]; intros x Vx Hn.
  - pose proof (inv_pos _ I x Vx). lia.
  - pose proof (inv_valid_not_T _ _ I Vx) as HxT.
    pose proof (Om x Vx) as E. unfold max_eq in E.
    pose proof (Hh x Vx) as Hx.
    pose proof (inv_height_child st true x I Vx) as Hl.
    pose proof (inv_height_child st false x I Vx) as Hr.
    cbn [ch] in Hl, Hr.
    assert (Sub : forall e, ch e st x <> T ->
                  mx st (ch e st x) = max st x ->
                  exists j, desc st x j /\ high st j = max st x).
    { intros e HkT Ek.
      destruct (inv_child st e x I Vx) as [C | Vk]; [contradiction |].
      pose proof (inv_height_child st e x I Vx) as Hk.
      rewrite (height_valid _ _ HkT) in Hk.
      destruct (IH (ch e st x) Vk) as (j & Dj & Ej); [lia |].
      exists j. split.
      - apply (desc_trans st x (ch e st x) j); [| exact Dj].
        destruct e; cbn [ch] in *;
          [apply desc_left | apply desc_right];
          (apply desc_refl || assumption).
      - rewrite Ej. rewrite <- Ek. symmetry. apply mx_valid. exact HkT. }
    destruct (Z.eq_dec (max st x) (high st x)) as [Eh | Nh].
    { exists x. split; [apply desc_refl | symmetry; exact Eh]. }
    destruct (Z.eq_dec (max st x) (mx st (left st x))) as [El | Nl].
    { apply (Sub true); [| symmetry; exact El].
      cbn [ch]. intros C. rewrite C, mx_T in El. lia. }
    apply (Sub false); [| cbn [ch]; lia].
    cbn [ch]. intros C. rewrite C, mx_T in E. lia.
Qed.

(** ** [check_inequality] *)

Lemma gather_values_ok fuel : forall st x acc,
  Inv st -> valid st x -> hfield st x < Z.of_nat fuel ->
  exists vs, gather_values fuel st x acc = Ok (acc ++ vs) /\
             forall v, In v vs -> exists j, desc st x j /\ v = low st j.
Proof.
  induction fuel as [| f IH]; intros st x acc I Vx Hf.
  - pose proof (inv_pos _ I x Vx). lia.
  - cbn [gather_values].
    pose proof (inv_height_child st true x I Vx) as Hl.
    pose proof (inv_height_child st false x I Vx) as Hr.
    cbn [ch] in Hl, Hr.
    assert (L : exists vl,
               (if left st x =? T then Ok (acc ++ [low st x])
                else gather_values f st (left st x) (acc ++ [low st x]))
               = Ok ((acc ++ [low st x]) ++ vl) /\
               forall v, In v vl ->
                         exists j, desc st x j /\ v = low st j).
    { destruct (Z.eqb_spec (left st x) T) as [E | NE].
      - exists []. rewrite app_nil_r. split; [reflexivity |].
        intros v [].
      - destruct (inv_child st true x I Vx) as [E | V]; [contradiction |].
        rewrite (height_valid _ _ NE) in Hl.
        destruct (IH st (left st x) (acc ++ [low st x]) I V) as (vl & E1 & P1);
          [lia |].
        exists vl. split; [exact E1 |].
        intros v Hv. destruct (P1 v Hv) as (j & Dj & Ej).
        exists j. split; [| exact Ej].
        apply (desc_trans st x (left st x) j); [| exact Dj].
        apply desc_left; [apply desc_refl | exact NE]. }
    destruct L as (vl & EL & PL). rewrite EL. cbn [bind].
    assert (Self : forall v, In v [low st x] ->
                             exists j, desc st x j /\ v = low st j).
    { intros v [Hv | []]. exists x. split; [apply desc_refl |].
      symmetry. exact Hv. }
    destruct (Z.eqb_spec (right st x) T) as [E | NE].
    + exists ([low st x] ++ vl). rewrite app_assoc. split; [reflexivity |].
      intros v Hv. apply in_app_or in Hv. destruct Hv; auto.
    + destruct (inv_child st false x I Vx) as [E | V]; [contradiction |].
      rewrite (height_valid _ _ NE) in Hr.
      destruct (IH st (right st x) ((acc ++ [low st x]) ++ vl) I V)
        as (vr & E2 & P2); [lia |].
      exists ([low st x] ++ vl ++ vr). rewrite E2.
      split; [rewrite <- !app_assoc; reflexivity |].
      intros v Hv. apply in_app_or in Hv. destruct Hv as [Hv | Hv]; auto.
      apply in_app_or in Hv. destruct Hv as [Hv | Hv]; auto.
      destruct (P2 v Hv) as (j & Dj & Ej).
      exists j. split; [| exact Ej].
      apply (desc_trans st x (right st x) j); [| exact Dj].
      apply desc_right; [apply desc_refl | exact NE].
Qed.

(** Going down, the bounds get tighter. *)
Lemma bnd_desc st bd k j :
  Inv st -> Bnd st bd -> valid st k -> desc st k j ->
  forall e z, ble e (bd e j) z -> ble e (bd e k) z.
Proof.
  intros I B Vk D. induction D as [| i D IH HiT | i D IH HiT];
    intros e z H; [exact H | |].
  - pose proof (desc_valid st k i I Vk D) as Vi.
    destruct (bnd_ch _ _ _ (B i Vi) true HiT) as (E1 & E2).
    cbn [ch negb] in E1, E2. apply IH.
    destruct e.
    + rewrite <- E1. exact H.
    + rewrite E2 in H.
      apply (ble_trans _ _ (low st i)); [apply (bnd_in _ _ _ (B i Vi)) |].
      exact H.
  - pose proof (desc_valid st k i I Vk D) as Vi.
    destruct (bnd_ch _ _ _ (B i Vi) false HiT) as (E1 & E2).
    cbn [ch negb] in E1, E2. apply IH.
    destruct e.
    + rewrite E2 in H.
      apply (ble_trans _ _ (low st i)); [apply (bnd_in _ _ _ (B i Vi)) |].
      exact H.
    + rewrite <- E1. exact H.
Qed.

(** The order of the [low] fields: smaller or equal to the left, greater
    or equal to the right. *)
Lemma bst_order st bd x j :
  Inv st -> Bnd st bd -> valid st x ->
  (left st x <> T -> desc st (left st x) j -> low st j <= low st x) /\
  (right st x <> T -> desc st (right st x) j -> low st x <= low st j).
Proof.
  intros I B Vx.
  assert (G : forall e, ch e st x <> T -> desc st (ch e st x) j ->
                        ble (negb e) (Some (low st x)) (low st j)).
  { intros e HkT D.
    destruct (inv_child st e x I Vx) as [C | Vk]; [contradiction |].
    destruct (bnd_ch _ _ _ (B x Vx) e HkT) as (_ & E2).
    rewrite <- E2.
    apply (bnd_desc st bd _ j I B Vk D).
    apply (bnd_in _ _ _ (B j (desc_valid st _ j I Vk D))). }
  split; intros HkT D.
  - apply (G true HkT D).
  - apply (G false HkT D).
Qed.

Lemma avl_check_inequality_ok fuel : forall st bd x,
  Inv st -> Bnd st bd -> valid st x -> hfield st x < Z.of_nat fuel ->
  check_inequality fuel st x = Ok tt.
Proof.
  induction fuel as [| f IH]; intros st bd x I B Vx Hf.
  - pose proof (inv_pos _ I x Vx). lia.
  - cbn [check_inequality].
    pose proof (inv_height_child st true x I Vx) as Hl.
    pose proof (inv_height_child st false x I Vx) as Hr.
    cbn [ch] in Hl, Hr.
    assert (L : (if left st x =? T then Ok tt
                 else
                   values <- gather_values f st (left st x) [] ;;
                   u <- assert_all (fun v => v <=? low st x) values ;;
                   check_inequality f st (left st x)) = Ok tt).
    { destruct (Z.eqb_spec (left st x) T) as [E | NE]; [reflexivity |].
      destruct (inv_child st true x I Vx) as [E | V]; [contradiction |].
      rewrite (height_valid _ _ NE) in Hl.
      destruct (gather_values_ok f st (left st x) [] I V) as (vs & E1 & P1);
        [lia |].
      rewrite E1. cbn [bind app]. unfold assert_all.
      assert (F : forallb (fun v => v <=? low st x) vs = true).
      { apply forallb_forall. intros v Hv. apply Z.leb_le.
        destruct (P1 v Hv) as (j & Dj & ->).
        apply (proj1 (bst_order st bd x j I B Vx) NE Dj). }
      rewrite F. cbn [bind].
      apply (IH st bd (left st x) I B V). lia. }
    rewrite L. cbn [bind].
    destruct (Z.eqb_spec (right st x) T) as [E | NE]; [reflexivity |].
    destruct (inv_child st false x I Vx) as [E | V]; [contradiction |].
    rewrite (height_valid _ _ NE) in Hr.
    destruct (gather_values_ok f st (right st x) [] I V) as (vs & E1 & P1);
      [lia |].
    rewrite E1. cbn [bind app]. unfold assert_all.
    assert (F : forallb (fun v => low st x <=? v) vs = true).
    { apply forallb_forall. intros v Hv. apply Z.leb_le.
      destruct (P1 v Hv) as (j & Dj & ->).
      apply (proj2 (bst_order st bd x j I B Vx) NE Dj). }
    rewrite F. cbn [bind].
    apply (IH st bd (right st x) I B V). lia.
Qed.

Lemma check_invariants_ok fuel st :
  Inv st -> Ord st -> 0 < len st -> N < Z.of_nat fuel ->
  check_invariants fuel st = Ok tt.
Proof.
  intros I [Om [bd B]] Hpos Hf.
  destruct (inv_root _ I Hpos) as [Vr _].
  pose proof (inv_hfield_le st _ I Vr) as Hh.
  unfold check_invariants.
  rewrite (avl_check_inequality_ok fuel st bd _ I B Vr) by lia. cbn [bind].
  rewrite (check_height_ok fuel st _ I Vr) by lia. cbn [bind].
  apply (check_max_ok fuel st _ I Om Vr). lia.
Qed.

(** ** [search] misses nothing *)

Lemma hit_false st lo hi j :
  hit st lo hi j = false -> lo <= high st j -> hi < low st j.
Proof.
  unfold hit, overlap. intros H Hl.
  apply andb_false_iff in H. destruct H as [H | H].
  - apply Z.leb_gt in H. lia.
  - apply Z.leb_gt in H. exact H.
Qed.

Lemma hit_above st lo hi j : hi < low st j -> hit st lo hi j = false.
Proof.
  unfold hit, overlap. intros H. apply andb_false_iff. right.
  apply Z.leb_gt. exact H.
Qed.

Lemma search_from_complete fuel : forall st bd x lo hi,
  Inv st -> (forall i, valid st i -> max_eq st i) -> Bnd st bd ->
  (forall i, valid st i -> MIN <= high st i) ->
  valid st x ->
  search_from fuel st x lo hi = Ok T ->
  forall j, desc st x j -> hit st lo hi j = false.
Proof.
  induction fuel as [| f IH]; intros st bd x lo hi I Om B Hh Vx E j Dj.
  - discriminate E.
  - pose proof (inv_valid_not_T _ _ I Vx) as HxT.
    cbn [search_from] in E. rewrite (eqb_false_l _ _ HxT) in E.
    destruct (overlap lo hi (low st x) (high st x)) eqn:Hx.
    { injection E as E. contradiction. }
    assert (Sub : forall e, ch e st x <> T ->
                  search_from f st (ch e st x) lo hi = Ok T ->
                  forall k, desc st (ch e st x) k -> hit st lo hi k = false).
    { intros e HkT Ek k Dk.
      destruct (inv_child st e x I Vx) as [C | Vk]; [contradiction |].
      apply (IH st bd (ch e st x) lo hi I Om B Hh Vk Ek k Dk). }
    destruct (desc_cases st x j Dj) as [-> | [(HlT & Dl) | (HrT & Dr)]];
      [exact Hx | |].
    + (* j is in the left subtree *)
      destruct (Z.eqb_spec (left st x) T) as [C | _]; [contradiction |].
      cbn [negb andb] in E.
      destruct (Z.leb_spec lo (max st (left st x))) as [Hm | Hm].
      * apply (Sub true HlT E j Dl).
      * destruct (inv_child st true x I Vx) as [C | Vl]; [contradiction |].
        apply (hit_below st lo hi (left st x) j I Vl Hm Dl).
    + (* j is in the right subtree *)
      destruct (Z.eqb_spec (left st x) T) as [C | HlT];
        cbn [negb andb] in E; [apply (Sub false HrT E j Dr) |].
      destruct (Z.leb_spec lo (max st (left st x))) as [Hm | Hm];
        [| apply (Sub false HrT E j Dr)].
      destruct (inv_child st true x I Vx) as [C | Vl]; [contradiction |].
      pose proof (inv_hfield_le st _ I Vl) as Hb.
      destruct (max_attained st I Om Hh (Z.to_nat (hfield st (left st x)))
                  (left st x) Vl) as (k & Dk & Ek); [lia |].
      pose proof (Sub true HlT E k Dk) as Hk.
      apply hit_above.
      pose proof (hit_false st lo hi k Hk ltac:(lia)) as H1.
      pose proof (proj1 (bst_order st bd x k I B Vx) HlT Dk) as H2.
      pose proof (proj2 (bst_order st bd x j I B Vx) HrT Dr) as H3.
      lia.
Qed.

Lemma inserts_high fuel ops : forall st st',
  Inv st -> (forall i, valid st i -> MIN <= high st i) ->
  len st + Z.of_nat (length ops) <= N -> N < Z.of_nat fuel ->
  Forall (fun op => MIN <= snd op) ops ->
  inserts fuel st ops = Ok st' ->
  forall i, valid st' i -> MIN <= high st' i.
Proof.
  induction ops as [| [lo hi] ops IH]; intros st st' I Hh Hn Hf F E.
  - cbn [inserts] in E. injection E as E. subst st'. exact Hh.
  - inversion F as [| x l F1 F2]; subst. cbn [fst snd] in F1.
    cbn [inserts] in E. cbn [length] in Hn.
    assert (Hn1 : len st < N) by lia.
    destruct (insert_ok fuel st lo hi I Hn1 Hf)
      as (s1 & E1 & I1 & L1 & _ & Fh).
    rewrite E1 in E. cbn [bind] in E.
    apply (IH s1 st' I1); [| lia | exact Hf | exact F2 | exact E].
    intros i Vi. rewrite Fh.
    destruct (Z.eqb_spec i (len st)) as [-> | Ni]; [exact F1 |].
    apply Hh. unfold valid in *. lia.
Qed.

End AvlOrdChecks.

(* ================================================================== *)
(** * Facts about interval lists *)

Module IvlFacts.
Import Ivl.

Lemma covers_nil z : ~ covers [] z.
Proof. intros (a & b & [] & _). Qed.

Lemma covers_cons a b L z :
  covers ((a, b) :: L) z <-> a <= z <= b \/ covers L z.
Proof.
  unfold covers. split.
  - intros (a' & b' & [E | H] & Hz).
    + inversion E; subst. left. exact Hz.
    + right. exists a', b'. split; assumption.
  - intros [Hz | (a' & b' & H & Hz)].
    + exists a, b. split; [left; reflexivity | exact Hz].
    + exists a', b'. split; [right; exact H | exact Hz].
Qed.

Lemma covers_app L1 L2 z :
  covers (L1 ++ L2) z <-> covers L1 z \/ covers L2 z.
Proof.
  unfold covers. split.
  - intros (a & b & H & Hz). apply in_app_or in H.
    destruct H as [H | H]; [left | right]; exists a, b; split; assumption.
  - intros [(a & b & H & Hz) | (a & b & H & Hz)]; exists a, b;
      (split; [apply in_or_app | exact Hz]); [left | right]; exact H.
Qed.

Lemma covers_mid L1 s e L2 z :
  covers (L1 ++ (s, e) :: L2) z <->
  covers L1 z \/ s <= z <= e \/ covers L2 z.
Proof. rewrite covers_app, covers_cons. tauto. Qed.

Lemma covers_in a b L z : In (a, b) L -> a <= z <= b -> covers L z.
Proof. intros H Hz. exists a, b. split; assumption. Qed.

Lemma iso_in L a b : iso L -> In (a, b) L -> a <= b.
Proof.
  induction L as [| [c d] L IH]; cbn [iso In]; [tauto |].
  intros (H1 & _ & H3) [E | H]; [inversion E; subst; exact H1 | auto].
Qed.

Lemma iso_app L1 L2 :
  iso (L1 ++ L2) <->
  iso L1 /\ iso L2 /\
  (forall a b c d, In (a, b) L1 -> In (c, d) L2 -> b + 1 < c).
Proof.
  induction L1 as [| [a b] L1 IH]; cbn [app iso].
  - split.
    + intros H. split; [exact I | split; [exact H |]]. intros ? ? ? ? [].
    + intros (_ & H & _). exact H.
  - rewrite IH. split.
    + intros (H1 & H2 & H3 & H4 & H5).
      split; [split; [exact H1 | split; [| exact H3]] | split; [exact H4 |]].
      * intros c d H. apply (H2 c d). apply in_or_app. left. exact H.
      * intros a' b' c d [E | H] H'.
        -- inversion E; subst. apply (H2 c d). apply in_or_app. right. exact H'.
        -- apply (H5 a' b' c d H H').
    + intros ((H1 & H2 & H3) & H4 & H5).
      split; [exact H1 | split; [| split; [exact H3 | split; [exact H4 |]]]].
      * intros c d H. apply in_app_or in H. destruct H as [H | H].
        -- apply (H2 c d H).
        -- apply (H5 a b c d); [left; reflexivity | exact H].
      * intros a' b' c d H H'. apply (H5 a' b' c d); [right | ]; assumption.
Qed.

Lemma iso_mid L1 s e L2 :
  iso (L1 ++ (s, e) :: L2) <->
  iso L1 /\ iso L2 /\ s <= e /\ below L1 s /\ above e L2.
Proof.
  rewrite iso_app. cbn [iso]. unfold below, above. split.
  - intros (H1 & (H2 & H3 & H4) & H5). repeat split; auto.
    intros a b H. apply (H5 a b s e H). left. reflexivity.
  - intros (H1 & H2 & H3 & H4 & H5). repeat split; auto.
    intros a b c d H [E | H'].
    + inversion E; subst. apply (H4 a b H).
    + pose proof (H4 a b H). pose proof (H5 c d H'). lia.
Qed.

Lemma below_covers L x z : iso L -> below L x -> covers L z -> z + 1 < x.
Proof.
  intros _ B (a & b & H & Hz). pose proof (B a b H). lia.
Qed.

Lemma above_covers L x z : above x L -> covers L z -> x + 1 < z.
Proof.
  intros A (a & b & H & Hz). pose proof (A a b H). lia.
Qed.

Lemma ins_below L s0 e0 L' x :
  ins L s0 e0 L' -> below L x -> e0 + 1 < x -> below L' x.
Proof.
  intros [I C] B Hx a b H.
  pose proof (iso_in L' a b I H) as Hab.
  assert (Hc : covers L' b) by (apply (covers_in a b); [exact H | lia]).
  apply C in Hc. destruct Hc as [(a' & b' & H' & Hz) | Hz].
  - pose proof (B a' b' H'). lia.
  - lia.
Qed.

Lemma ins_above L s0 e0 L' x :
  ins L s0 e0 L' -> above x L -> x + 1 < s0 -> above x L'.
Proof.
  intros [I C] A Hx a b H.
  pose proof (iso_in L' a b I H) as Hab.
  assert (Hc : covers L' a) by (apply (covers_in a b); [exact H | lia]).
  apply C in Hc. destruct Hc as [(a' & b' & H' & Hz) | Hz].
  - pose proof (A a' b' H'). lia.
  - lia.
Qed.

(** ** Insertion below a node that stays *)

Lemma ins_left L1 s e L2 s0 e0 L1' :
  iso (L1 ++ (s, e) :: L2) -> e0 < s - 1 ->
  ins L1 s0 e0 L1' -> ins (L1 ++ (s, e) :: L2) s0 e0 (L1' ++ (s, e) :: L2).
Proof.
  intros I He H. apply iso_mid in I. destruct I as (I1 & I2 & Hs & B & A).
  split.
  - apply iso_mid. repeat split; auto.
    + apply (ins_iso _ _ _ _ H).
    + apply (ins_below L1 s0 e0 L1' s H B). lia.
  - intros z. rewrite !covers_mid, (ins_cov _ _ _ _ H). tauto.
Qed.

Lemma ins_right L1 s e L2 s0 e0 L2' :
  iso (L1 ++ (s, e) :: L2) -> e + 1 < s0 ->
  ins L2 s0 e0 L2' -> ins (L1 ++ (s, e) :: L2) s0 e0 (L1 ++ (s, e) :: L2').
Proof.
  intros I He H. apply iso_mid in I. destruct I as (I1 & I2 & Hs & B & A).
  split.
  - apply iso_mid. repeat split; auto.
    + apply (ins_iso _ _ _ _ H).
    + apply (ins_above L2 s0 e0 L2' e H A). lia.
  - intros z. rewrite !covers_mid, (ins_cov _ _ _ _ H). tauto.
Qed.

Lemma ins_nil s0 e0 : s0 <= e0 -> ins [] s0 e0 [(s0, e0)].
Proof.
  intros H. split.
  - cbn [iso]. repeat split; [exact H | intros ? ? []].
  - intros z. rewrite covers_cons. pose proof (covers_nil z). tauto.
Qed.

(** ** The search for the new lower end *)

Lemma cut_left_nil s0 : cut_left [] s0 s0 [].
Proof.
  split.
  - lia.
  - left. reflexivity.
  - intros ? ? [].
  - intros ? ? [].
  - exact I.
  - intros z. tauto.
Qed.

Lemma cut_left_all L s : iso L -> below L s -> cut_left L s s L.
Proof.
  intros I B. split.
  - lia.
  - left. reflexivity.
  - auto.
  - exact B.
  - exact I.
  - intros z. tauto.
Qed.

Lemma cut_left_right L1 s e L2 s0 news P :
  iso (L1 ++ (s, e) :: L2) -> e + 1 < s0 ->
  cut_left L2 s0 news P ->
  cut_left (L1 ++ (s, e) :: L2) s0 news (L1 ++ (s, e) :: P).
Proof.
  intros I He [C1 C2 C3 C4 C5 C6].
  apply iso_mid in I. destruct I as (I1 & I2 & Hs & B & A).
  assert (Hn : e + 1 < news).
  { destruct C2 as [-> | (b & Hb)]; [exact He | apply (A news b Hb)]. }
  split.
  - exact C1.
  - destruct C2 as [E | (b & Hb)]; [left; exact E | right].
    exists b. apply in_or_app. right. right. exact Hb.
  - intros a b H. apply in_app_or in H. apply in_or_app.
    destruct H as [H | [H | H]]; [left; exact H | right; left; exact H |].
    right. right. apply (C3 a b H).
  - intros a b H. apply in_app_or in H.
    destruct H as [H | [H | H]].
    + pose proof (B a b H). lia.
    + inversion H; subst. exact Hn.
    + apply (C4 a b H).
  - apply iso_mid. repeat split; auto.
    intros a b H. apply (A a b). apply (C3 a b H).
  - intros z. rewrite !covers_mid. specialize (C6 z). tauto.
Qed.

Lemma cut_left_left L1 s e L2 s0 news P :
  iso (L1 ++ (s, e) :: L2) -> s0 < s ->
  cut_left L1 s0 news P ->
  cut_left (L1 ++ (s, e) :: L2) s0 news P.
Proof.
  intros I He [C1 C2 C3 C4 C5 C6].
  apply iso_mid in I. destruct I as (I1 & I2 & Hs & B & A).
  split.
  - exact C1.
  - destruct C2 as [E | (b & Hb)]; [left; exact E | right].
    exists b. apply in_or_app. left. exact Hb.
  - intros a b H. apply in_or_app. left. apply (C3 a b H).
  - exact C4.
  - exact C5.
  - intros z. rewrite covers_mid. specialize (C6 z).
    assert (covers L2 z -> e + 1 < z) by (apply above_covers; exact A).
    split.
    + intros H'. tauto.
    + intros [[H' | [H' | H']] | H']; [tauto | right; lia | | tauto].
      specialize (H H'). right. lia.
Qed.

Lemma cut_left_here L1 s e L2 s0 :
  iso (L1 ++ (s, e) :: L2) -> s <= s0 -> s0 <= e + 1 ->
  cut_left (L1 ++ (s, e) :: L2) s0 s L1.
Proof.
  intros I H1 H2.
  apply iso_mid in I. destruct I as (I1 & I2 & Hs & B & A).
  split.
  - exact H1.
  - right. exists e. apply in_or_app. right. left. reflexivity.
  - intros a b H. apply in_or_app. left. exact H.
  - exact B.
  - exact I1.
  - intros z. rewrite covers_mid.
    assert (covers L2 z -> e + 1 < z) by (apply above_covers; exact A).
    split.
    + intros [H' | H']; [tauto |].
      destruct (Z_le_gt_dec z e); [left; right; left; lia | right; lia].
    + intros [[H' | [H' | H']] | H']; [tauto | right; lia | | right; lia].
      specialize (H H'). right. lia.
Qed.

(** ** The search for the new upper end *)

Lemma cut_right_nil e0 : cut_right [] e0 e0 [].
Proof.
  split.
  - lia.
  - left. reflexivity.
  - intros ? ? [].
  - intros ? ? [].
  - exact I.
  - intros z. tauto.
Qed.

Lemma cut_right_all L e : iso L -> above e L -> cut_right L e e L.
Proof.
  intros I A. split.
  - lia.
  - left. reflexivity.
  - auto.
  - exact A.
  - exact I.
  - intros z. tauto.
Qed.

Lemma cut_right_left L1 s e L2 e0 newe S :
  iso (L1 ++ (s, e) :: L2) -> e0 < s - 1 ->
  cut_right L1 e0 newe S ->
  cut_right (L1 ++ (s, e) :: L2) e0 newe (S ++ (s, e) :: L2).
Proof.
  intros I He [C1 C2 C3 C4 C5 C6].
  apply iso_mid in I. destruct I as (I1 & I2 & Hs & B & A).
  assert (Hn : newe + 1 < s).
  { destruct C2 as [-> | (a & Ha)]; [lia | apply (B a newe Ha)]. }
  split.
  - exact C1.
  - destruct C2 as [E | (a & Ha)]; [left; exact E | right].
    exists a. apply in_or_app. left. exact Ha.
  - intros a b H. apply in_app_or in H. apply in_or_app.
    destruct H as [H | [H | H]]; [left; apply (C3 a b H) | right; left; exact H |].
    right. right. exact H.
  - intros a b H. apply in_app_or in H.
    destruct H as [H | [H | H]].
    + apply (C4 a b H).
    + inversion H; subst. exact Hn.
    + pose proof (A a b H). lia.
  - apply iso_mid. repeat split; auto.
    intros a b H. apply (B a b). apply (C3 a b H).
  - intros z. rewrite !covers_mid. specialize (C6 z). tauto.
Qed.

Lemma cut_right_right L1 s e L2 e0 newe S :
  iso (L1 ++ (s, e) :: L2) -> e < e0 ->
  cut_right L2 e0 newe S ->
  cut_right (L1 ++ (s, e) :: L2) e0 newe S.
Proof.
  intros I He [C1 C2 C3 C4 C5 C6].
  apply iso_mid in I. destruct I as (I1 & I2 & Hs & B & A).
  split.
  - exact C1.
  - destruct C2 as [E | (a & Ha)]; [left; exact E | right].
    exists a. apply in_or_app. right. right. exact Ha.
  - intros a b H. apply in_or_app. right. right. apply (C3 a b H).
  - exact C4.
  - exact C5.
  - intros z. rewrite covers_mid. specialize (C6 z).
    assert (covers L1 z -> z + 1 < s) by (apply below_covers; assumption).
    split.
    + intros H'. tauto.
    + intros [[H' | [H' | H']] | H']; [| right; lia | tauto | tauto].
      specialize (H H'). right. lia.
Qed.

Lemma cut_right_here L1 s e L2 e0 :
  iso (L1 ++ (s, e) :: L2) -> e0 <= e -> s - 1 <= e0 ->
  cut_right (L1 ++ (s, e) :: L2) e0 e L2.
Proof.
  intros I H1 H2.
  apply iso_mid in I. destruct I as (I1 & I2 & Hs & B & A).
  split.
  - exact H1.
  - right. exists s. apply in_or_app. right. left. reflexivity.
  - intros a b H. apply in_or_app. right. right. exact H.
  - exact A.
  - exact I2.
  - intros z. rewrite covers_mid.
    assert (covers L1 z -> z + 1 < s) by (apply below_covers; assumption).
    split.
    + intros [H' | H']; [tauto |].
      destruct (Z_le_gt_dec s z); [left; right; left; lia | right; lia].
    + intros [[H' | [H' | H']] | H']; [| right; lia | tauto | right; lia].
      specialize (H H'). right. lia.
Qed.

(** ** Merging with a node *)

Lemma ins_merge L1 s e L2 s0 e0 news P newe S :
  iso (L1 ++ (s, e) :: L2) -> s0 <= e0 ->
  s - 1 <= e0 -> s0 <= e + 1 ->
  cut_left L1 (Z.min s s0) news P ->
  cut_right L2 (Z.max e e0) newe S ->
  ins (L1 ++ (s, e) :: L2) s0 e0 (P ++ (news, newe) :: S).
Proof.
  intros I H0 H1 H2 [C1 C2 C3 C4 C5 C6] [D1 D2 D3 D4 D5 D6].
  apply iso_mid in I. destruct I as (I1 & I2 & Hs & B & A).
  split.
  - apply iso_mid.
    split; [exact C5 | split; [exact D5 | split; [lia |]]].
    split; assumption.
  - intros z. rewrite !covers_mid.
    destruct (C6 z) as [C6a C6b]. destruct (D6 z) as [D6a D6b].
    assert (K1 : covers L1 z -> z + 1 < s) by (apply below_covers; assumption).
    assert (K2 : covers L2 z -> e + 1 < z) by (apply above_covers; assumption).
    assert (K3 : covers P z -> z + 1 < news).
    { apply below_covers; assumption. }
    assert (K4 : covers S z -> newe + 1 < z).
    { apply above_covers; assumption. }
    clear C2 C3 C4 C5 C6 D2 D3 D4 D5 D6 I1 I2 B A.
    split.
    + intros [H | [H | H]].
      * specialize (K3 H).
        destruct (C6a (or_introl H)) as [G | G]; [left; left; exact G |].
        exfalso. clear - K3 G C1. lia.
      * destruct (C6a (or_intror (proj1 H))) as [G | G];
          [left; left; exact G |].
        destruct (D6a (or_intror (proj2 H))) as [G' | G'];
          [left; right; right; exact G' |].
        clear - G G' H1 H2 Hs H0.
        destruct (Z_le_gt_dec s z), (Z_le_gt_dec z e);
          [left; right; left; lia | right; lia | right; lia | right; lia].
      * specialize (K4 H).
        destruct (D6a (or_introl H)) as [G | G]; [left; right; right; exact G |].
        exfalso. clear - K4 G D1. lia.
    + intros [[H | [H | H]] | H].
      * specialize (K1 H).
        destruct (C6b (or_introl H)) as [G | G]; [left; exact G |].
        right. left. clear - K1 G D1 Hs. lia.
      * right. left. clear - H C1 D1. lia.
      * specialize (K2 H).
        destruct (D6b (or_introl H)) as [G | G]; [right; right; exact G |].
        right. left. clear - K2 G C1 Hs. lia.
      * right. left. clear - H C1 D1. lia.
Qed.

(** Inside a stored interval nothing changes. *)
Lemma within_mid L1 s e L2 s0 e0 :
  iso (L1 ++ (s, e) :: L2) -> s0 <= e0 ->
  within (L1 ++ (s, e) :: L2) s0 e0 ->
  (e0 < s - 1 -> within L1 s0 e0) /\
  (e + 1 < s0 -> within L2 s0 e0) /\
  (s - 1 <= e0 -> s0 <= e + 1 -> s <= s0 /\ e0 <= e).
Proof.
  intros I H0 W.
  apply iso_mid in I. destruct I as (I1 & I2 & Hs & B & A).
  assert (K1 : forall z, covers L1 z -> z + 1 < s).
  { intros z. apply below_covers; assumption. }
  assert (K2 : forall z, covers L2 z -> e + 1 < z).
  { intros z. apply above_covers; assumption. }
  split; [| split].
  - intros He z Hz. specialize (W z Hz). apply covers_mid in W.
    destruct W as [W | [W | W]]; [exact W | lia |].
    pose proof (K2 z W). lia.
  - intros He z Hz. specialize (W z Hz). apply covers_mid in W.
    destruct W as [W | [W | W]]; [| lia | exact W].
    pose proof (K1 z W). lia.
  - intros H1 H2. split.
    + destruct (Z_le_gt_dec s s0) as [L | G]; [exact L | exfalso].
      assert (W1 : covers (L1 ++ (s, e) :: L2) (s - 1)) by (apply W; lia).
      apply covers_mid in W1.
      destruct W1 as [W1 | [W1 | W1]]; [pose proof (K1 _ W1) | | pose proof (K2 _ W1)]; lia.
    + destruct (Z_le_gt_dec e0 e) as [L | G]; [exact L | exfalso].
      assert (W1 : covers (L1 ++ (s, e) :: L2) (e + 1)) by (apply W; lia).
      apply covers_mid in W1.
      destruct W1 as [W1 | [W1 | W1]]; [pose proof (K1 _ W1) | | pose proof (K2 _ W1)]; lia.
Qed.

Lemma within_sub L1 s e L2 s0 e0 :
  (within L1 s0 e0 \/ within L2 s0 e0) -> within (L1 ++ (s, e) :: L2) s0 e0.
Proof.
  intros [W | W] z Hz; apply covers_mid; specialize (W z Hz); tauto.
Qed.

(** ** Trees *)

Lemma depth_nonneg t : 0 <= depth t.
Proof. induction t; cbn [depth]; lia. Qed.

Lemma in_preorder t x : In x (preorder t) <-> In x (inorder t).
Proof.
  induction t as [| l IHl h s e r IHr]; cbn [preorder inorder]; [tauto |].
  cbn [In]. rewrite !in_app_iff. cbn [In]. rewrite IHl, IHr. tauto.
Qed.

Lemma adjacent_false a b c d :
  b + 1 < c \/ d + 1 < a -> adjacent (a, b) (c, d) = false.
Proof.
  intros H. unfold adjacent. cbn [fst snd].
  apply andb_false_iff.
  destruct H; [right | left]; apply Z.leb_gt; lia.
Qed.

Lemma pairs_app {A : Type} (R : A -> A -> Prop) (l1 l2 : list A) :
  ForallOrdPairs R l1 -> ForallOrdPairs R l2 ->
  (forall x y, In x l1 -> In y l2 -> R x y) ->
  ForallOrdPairs R (l1 ++ l2).
Proof.
  intros H1 H2 H. induction H1 as [| x l1 Hx Hp IH]; cbn [app].
  - exact H2.
  - constructor.
    + apply Forall_app. split; [exact Hx |].
      apply Forall_forall. intros y Hy. apply H; [left; reflexivity | exact Hy].
    + apply IH. intros x' y Hx' Hy. apply H; [right; exact Hx' | exact Hy].
Qed.

(** No two intervals of an isolated tree touch, in the order in which
    [gather_indices] lists them. *)
Lemma preorder_isolated t :
  iso (inorder t) ->
  ForallOrdPairs (fun x y => adjacent x y = false) (preorder t).
Proof.
  induction t as [| l IHl h s e r IHr]; cbn [preorder inorder]; intros I.
  - constructor.
  - apply iso_mid in I. destruct I as (I1 & I2 & Hs & B & A).
    constructor.
    + apply Forall_forall. intros [c d] H. apply in_app_or in H.
      apply adjacent_false.
      destruct H as [H | H]; apply in_preorder in H.
      * right. apply (B c d H).
      * left. apply (A c d H).
    + apply pairs_app; [apply IHl, I1 | apply IHr, I2 |].
      intros [a b] [c d] Hx Hy.
      apply in_preorder in Hx. apply in_preorder in Hy.
      apply adjacent_false. left.
      pose proof (B a b Hx). pose proof (A c d Hy). lia.
Qed.

(** The same, by position. *)
Lemma pairs_nth {A : Type} (R : A -> A -> Prop) (l : list A) (d : A) :
  ForallOrdPairs R l ->
  forall i j, (i < j < length l)%nat -> R (nth i l d) (nth j l d).
Proof.
  intros H. induction H as [| x l Hx Hp IH]; intros i j Hij.
  - cbn [length] in Hij. lia.
  - cbn [length] in Hij. destruct j as [| j]; [lia |].
    destruct i as [| i]; cbn [nth].
    + rewrite Forall_forall in Hx. apply Hx. apply nth_In. lia.
    + apply IH. lia.
Qed.

End IvlFacts.

(* ================================================================== *)
(** * The balanced DIET: building trees *)

Module Diet3Build.
Import Ivl IvlFacts Diet3 Diet3Inv.

Lemma post_bind {A B : Type} (r : result A) (k : A -> result B)
      (P : A -> Prop) (Q : B -> Prop) :
  post r P -> (forall a, P a -> post (k a) Q) -> post (bind r k) Q.
Proof.
  destruct r as [a | e]; cbn [post bind]; intros H K; [apply K, H | exact H].
Qed.

Lemma post_weaken {A : Type} (r : result A) (P Q : A -> Prop) :
  post r P -> (forall a, P a -> Q a) -> post r Q.
Proof.
  destruct r as [a | e]; cbn [post]; intros H K; [apply K, H | exact H].
Qed.

Lemma ext_refl st : ext st st.
Proof. split; [lia | reflexivity]. Qed.

Lemma ext_trans st1 st2 st3 : ext st1 st2 -> ext st2 st3 -> ext st1 st3.
Proof.
  intros [L1 E1] [L2 E2]. split; [lia |].
  intros i Hi. rewrite E2 by lia. apply E1. exact Hi.
Qed.

Lemma ext_blit st a b : ext st (blit st a b).
Proof. split; [cbn; lia | reflexivity]. Qed.

Lemma ext_fields st st' i :
  ext st st' -> 0 <= i < len st ->
  start st' i = start st i /\ end_ st' i = end_ st i /\
  hfield st' i = hfield st i /\ left st' i = left st i /\
  right st' i = right st i.
Proof.
  intros [_ E] Hi. unfold start, end_, hfield, left, right.
  rewrite (E i Hi). repeat split.
Qed.

Lemma rep_ext st st' h t : ext st st' -> rep st h t -> rep st' h t.
Proof.
  intros X R. induction R as [| h l r Hh Cl Cr Rl IHl Rr IHr Hd].
  - constructor.
  - destruct (ext_fields st st' h X Hh) as (E1 & E2 & E3 & E4 & E5).
    rewrite <- E1, <- E2.
    constructor; rewrite ?E3, ?E4, ?E5; try assumption.
    destruct X as [X _]. lia.
Qed.

Lemma wf_not_T st h : wf st -> 0 <= h < len st -> h <> T.
Proof. unfold wf, N, T. lia. Qed.

Lemma rep_T st t : wf st -> rep st T t -> t = Leaf.
Proof.
  intros W R. inversion R as [| h l r Hh]; [reflexivity |].
  exfalso. apply (wf_not_T st T W); [assumption | reflexivity].
Qed.

Lemma rep_handle st h t : rep st h t -> h = T \/ 0 <= h < len st.
Proof. intros R. destruct R; [left; reflexivity | right; assumption]. Qed.

Lemma rep_inv st h t :
  wf st -> rep st h t -> h <> T ->
  exists l r,
    t = Node l h (start st h) (end_ st h) r /\ 0 <= h < len st /\
    rep st (left st h) l /\ rep st (right st h) r /\
    hfield st h = 1 + Z.max (depth l) (depth r).
Proof.
  intros W R H. destruct R as [| h l r Hh Cl Cr Rl Rr Hd]; [contradiction |].
  exists l, r. split; [reflexivity |].
  split; [exact Hh |]. split; [exact Rl |]. split; [exact Rr | exact Hd].
Qed.

Lemma rep_height st h t : wf st -> rep st h t -> height st h = depth t.
Proof.
  intros W R. destruct R as [| h l r Hh Cl Cr Rl Rr Hd].
  - reflexivity.
  - unfold height. pose proof (wf_not_T st h W Hh) as N.
    apply Z.eqb_neq in N. rewrite N. exact Hd.
Qed.

Lemma rep_depth st h t : wf st -> rep st h t -> h <> T -> depth t <= h + 1.
Proof.
  intros W R. induction R as [| h l r Hh Cl Cr Rl IHl Rr IHr Hd];
    intros HT; [contradiction |].
  cbn [depth].
  assert (Dl : depth l <= h).
  { destruct Cl as [E | Lt].
    - rewrite E in Rl. rewrite (rep_T st l W Rl). cbn [depth]. lia.
    - destruct (Z.eq_dec (left st h) T) as [E | NE].
      + rewrite E in Rl. rewrite (rep_T st l W Rl). cbn [depth]. lia.
      + specialize (IHl NE). lia. }
  assert (Dr : depth r <= h).
  { destruct Cr as [E | Lt].
    - rewrite E in Rr. rewrite (rep_T st r W Rr). cbn [depth]. lia.
    - destruct (Z.eq_dec (right st h) T) as [E | NE].
      + rewrite E in Rr. rewrite (rep_T st r W Rr). cbn [depth]. lia.
      + specialize (IHr NE). lia. }
  lia.
Qed.

Lemma rep_depth_le st h t : wf st -> rep st h t -> 0 <= depth t <= N.
Proof.
  intros W R. split; [apply depth_nonneg |].
  destruct (rep_handle st h t R) as [E | Hh].
  - rewrite E in R. rewrite (rep_T st t W R). cbn [depth]. unfold N. lia.
  - pose proof (rep_depth st h t W R (wf_not_T st h W Hh)).
    unfold wf in W. lia.
Qed.

Lemma rep_fun st h t1 : rep st h t1 -> forall t2, wf st -> rep st h t2 -> t1 = t2.
Proof.
  intros R. induction R as [| h l r Hh Cl Cr Rl IHl Rr IHr Hd]; intros t2 W R2.
  - symmetry. apply (rep_T st t2 W R2).
  - destruct (rep_inv st h t2 W R2 (wf_not_T st h W Hh))
      as (l2 & r2 & -> & _ & Rl2 & Rr2 & _).
    rewrite (IHl l2 W Rl2), (IHr r2 W Rr2). reflexivity.
Qed.

Lemma wrap16_id z : -32768 <= z <= 32767 -> wrap16 z = z.
Proof.
  intros H. unfold wrap16. rewrite Z.mod_small by lia. lia.
Qed.

(** ** [new_node] and [create] *)

Lemma new_node_rep st s e h l r tl tr :
  wf st -> rep st l tl -> rep st r tr ->
  h = 1 + Z.max (depth tl) (depth tr) ->
  post (new_node st s e h l r)
       (fun p => wf (fst p) /\ ext st (fst p) /\ trace (fst p) = trace st /\
                 rep (fst p) (snd p) (Node tl (snd p) s e tr)).
Proof.
  intros W Rl Rr Hh. unfold new_node.
  destruct (Z.leb_spec N (len st)) as [Full | Free]; [reflexivity |].
  destruct (Z.ltb_spec (len st) 0) as [Neg | Pos];
    [unfold wf in W; lia |].
  cbn [post fst snd].
  set (st' := mkState _ _ _ _).
  assert (Hw : wrap16 (len st + 1) = len st + 1).
  { apply wrap16_id. unfold N in Free. lia. }
  assert (L' : len st' = len st + 1) by exact Hw.
  assert (X : ext st st').
  { split; [lia |]. intros i Hi. unfold st'. cbn [nodes].
    destruct (Z.eqb_spec i (len st)); [lia | reflexivity]. }
  assert (F : nodes st' (len st) = mkNode s e h l r).
  { unfold st'. cbn [nodes]. rewrite Z.eqb_refl. reflexivity. }
  split; [unfold wf; lia |]. split; [exact X |]. split; [reflexivity |].
  assert (E1 : start st' (len st) = s) by (unfold start; rewrite F; reflexivity).
  assert (E2 : end_ st' (len st) = e) by (unfold end_; rewrite F; reflexivity).
  assert (E3 : hfield st' (len st) = h) by (unfold hfield; rewrite F; reflexivity).
  assert (E4 : left st' (len st) = l) by (unfold left; rewrite F; reflexivity).
  assert (E5 : right st' (len st) = r) by (unfold right; rewrite F; reflexivity).
  replace (Node tl (len st) s e tr)
    with (Node tl (len st) (start st' (len st)) (end_ st' (len st)) tr)
    by (rewrite E1, E2; reflexivity).
  constructor; rewrite ?E3, ?E4, ?E5.
  - lia.
  - destruct (rep_handle _ _ _ Rl); [left; assumption | right; lia].
  - destruct (rep_handle _ _ _ Rr); [left; assumption | right; lia].
  - apply (rep_ext st st' l tl X Rl).
  - apply (rep_ext st st' r tr X Rr).
  - exact Hh.
Qed.

Lemma create_rep st s e l r tl tr :
  wf st -> rep st l tl -> rep st r tr ->
  post (create st s e l r)
       (fun p => wf (fst p) /\ ext st (fst p) /\ trace (fst p) = trace st /\
                 rep (fst p) (snd p) (Node tl (snd p) s e tr)).
Proof.
  intros W Rl Rr. unfold create. apply new_node_rep; try assumption.
  unfold height_join.
  rewrite (rep_height st l tl W Rl), (rep_height st r tr W Rr).
  pose proof (rep_depth_le st l tl W Rl).
  pose proof (rep_depth_le st r tr W Rr).
  apply wrap16_id. unfold N in *. lia.
Qed.

Lemma create2_rep rtl st s1 e1 l1 r1 s2 e2 l2 r2 t1l t1r t2l t2r :
  wf st -> rep st l1 t1l -> rep st r1 t1r -> rep st l2 t2l -> rep st r2 t2r ->
  post (create2 rtl st s1 e1 l1 r1 s2 e2 l2 r2)
       (fun p => wf (fst (fst p)) /\ ext st (fst (fst p)) /\
                 trace (fst (fst p)) = trace st /\
                 rep (fst (fst p)) (snd (fst p))
                     (Node t1l (snd (fst p)) s1 e1 t1r) /\
                 rep (fst (fst p)) (snd p) (Node t2l (snd p) s2 e2 t2r)).
Proof.
  intros W R1l R1r R2l R2r. unfold create2. destruct rtl.
  - apply (post_bind _ _ _ _ (create_rep st s2 e2 l2 r2 _ _ W R2l R2r)).
    intros [sa b] (Wa & Xa & Ta & Ra). cbn [fst snd] in *.
    apply (post_bind _ _ _ _
             (create_rep sa s1 e1 l1 r1 _ _ Wa
                (rep_ext _ _ _ _ Xa R1l) (rep_ext _ _ _ _ Xa R1r))).
    intros [sb a] (Wb & Xb & Tb & Rb). cbn [fst snd post] in *.
    split; [exact Wb |]. split; [apply (ext_trans _ _ _ Xa Xb) |].
    split; [congruence |]. split; [exact Rb |].
    apply (rep_ext _ _ _ _ Xb Ra).
  - apply (post_bind _ _ _ _ (create_rep st s1 e1 l1 r1 _ _ W R1l R1r)).
    intros [sa a] (Wa & Xa & Ta & Ra). cbn [fst snd] in *.
    apply (post_bind _ _ _ _
             (create_rep sa s2 e2 l2 r2 _ _ Wa
                (rep_ext _ _ _ _ Xa R2l) (rep_ext _ _ _ _ Xa R2r))).
    intros [sb b] (Wb & Xb & Tb & Rb). cbn [fst snd post] in *.
    split; [exact Wb |]. split; [apply (ext_trans _ _ _ Xa Xb) |].
    split; [congruence |]. split; [| exact Rb].
    apply (rep_ext _ _ _ _ Xb Ra).
Qed.

(** ** [balance] *)

Lemma depth_pos_node t : 0 < depth t -> exists l h s e r, t = Node l h s e r.
Proof.
  destruct t as [| l h s e r]; cbn [depth]; [lia |].
  intros _. exists l, h, s, e, r. reflexivity.
Qed.

Lemma rep_node_inv st h tl hh s e tr :
  wf st -> rep st h (Node tl hh s e tr) ->
  h <> T /\ hh = h /\ s = start st h /\ e = end_ st h /\
  rep st (left st h) tl /\ rep st (right st h) tr.
Proof.
  intros W R. inversion R as [| h' l r Hh Cl Cr Rl Rr Hd E1 [E2 E3 E4 E5 E6]].
  subst. split; [apply (wf_not_T st hh W Hh) |].
  split; [reflexivity |]. split; [reflexivity |]. split; [reflexivity |].
  split; assumption.
Qed.

Ltac finish_built W X T R :=
  cbn [fst snd post] in *;
  split; [exact W |];
  split; [exact X |];
  split; [exact T |];
  eexists; split; [exact R |].

Lemma balance_built rtl st s e l r tl tr :
  wf st -> rep st l tl -> rep st r tr ->
  post (balance rtl st s e l r)
       (built st (balanced_join (inorder tl ++ (s, e) :: inorder tr) tl tr)).
Proof.
  intros W Rl Rr. unfold balance.
  rewrite (rep_height st l tl W Rl), (rep_height st r tr W Rr).
  unfold bal_const.
  pose proof (depth_nonneg tl) as Pl. pose proof (depth_nonneg tr) as Pr.
  destruct (Z.ltb_spec (depth tr + 1) (depth tl)) as [H1 | H1].
  - (* the left side is too tall *)
    destruct (depth_pos_node tl) as (tll & h' & ls & le & tlr & Et); [lia |].
    subst tl.
    destruct (rep_node_inv st l _ _ _ _ _ W Rl)
      as (HlT & Eh & Es & Ee & Rll & Rlr).
    subst h' ls le.
    rewrite (proj2 (Z.eqb_neq l T) HlT).
    rewrite (rep_height _ _ _ W Rlr), (rep_height _ _ _ W Rll).
    pose proof (depth_nonneg tll) as Pll.
    pose proof (depth_nonneg tlr) as Plr.
    destruct (Z.leb_spec (depth tlr) (depth tll)) as [H2 | H2].
    + apply (post_bind _ _ _ _
               (create_rep st s e (right st l) r _ _ W Rlr Rr)).
      intros [s1 n1] (W1 & X1 & T1 & R1). cbn [fst snd] in *.
      apply (post_weaken _ _ _
               (create_rep s1 (start st l) (end_ st l) (left st l) n1 _ _
                  W1 (rep_ext _ _ _ _ X1 Rll) R1)).
      intros [s2 n2] (W2 & X2 & T2 & R2).
      finish_built W2 (ext_trans _ _ _ X1 X2) (eq_trans T2 T1) R2.
      split.
      * cbn [inorder]. rewrite <- app_assoc. reflexivity.
      * cbn [avl depth] in *. intros (A1 & A2 & A3) Ar Hd.
        split; [| lia].
        split; [exact A1 |]. split; [| lia].
        split; [exact A2 |]. split; [exact Ar | lia].
    + destruct (depth_pos_node tlr) as (ta & h' & ms & me & tb & Et); [lia |].
      subst tlr.
      destruct (rep_node_inv st _ _ _ _ _ _ W Rlr)
        as (HmT & Eh & Es & Ee & Ra & Rb).
      subst h' ms me.
      rewrite (proj2 (Z.eqb_neq _ T) HmT).
      apply (post_bind _ _ _ _
               (create2_rep rtl st (start st l) (end_ st l) (left st l)
                  (left st (right st l)) s e (right st (right st l)) r
                  _ _ _ _ W Rll Ra Rb Rr)).
      intros [[s1 a] b] (W1 & X1 & T1 & R1 & R1'). cbn [fst snd] in *.
      apply (post_weaken _ _ _
               (create_rep s1 (start st (right st l)) (end_ st (right st l))
                  a b _ _ W1 R1 R1')).
      intros [s2 n2] (W2 & X2 & T2 & R2).
      finish_built W2 (ext_trans _ _ _ X1 X2) (eq_trans T2 T1) R2.
      split.
      * cbn [inorder]. rewrite <- !app_assoc. cbn [app].
        rewrite <- app_assoc. reflexivity.
      * cbn [avl depth] in *.
        pose proof (depth_nonneg ta). pose proof (depth_nonneg tb).
        intros (A1 & (A2 & A3 & A4) & A5) Ar Hd.
        split; [| lia].
        split; [split; [exact A1 | split; [exact A2 | lia]] |].
        split; [split; [exact A3 | split; [exact Ar | lia]] | lia].
  - destruct (Z.ltb_spec (depth tl + 1) (depth tr)) as [H3 | H3].
    + (* the right side is too tall *)
      destruct (depth_pos_node tr) as (trl & h' & rs & re & trr & Et); [lia |].
      subst tr.
      destruct (rep_node_inv st r _ _ _ _ _ W Rr)
        as (HrT & Eh & Es & Ee & Rrl & Rrr).
      subst h' rs re.
      rewrite (proj2 (Z.eqb_neq r T) HrT).
      rewrite (rep_height _ _ _ W Rrl), (rep_height _ _ _ W Rrr).
      pose proof (depth_nonneg trl) as Prl.
      pose proof (depth_nonneg trr) as Prr.
      destruct (Z.leb_spec (depth trl) (depth trr)) as [H2 | H2].
      * apply (post_bind _ _ _ _
                 (create_rep st s e l (left st r) _ _ W Rl Rrl)).
        intros [s1 n1] (W1 & X1 & T1 & R1). cbn [fst snd] in *.
        apply (post_weaken _ _ _
                 (create_rep s1 (start st r) (end_ st r) n1 (right st r) _ _
                    W1 R1 (rep_ext _ _ _ _ X1 Rrr))).
        intros [s2 n2] (W2 & X2 & T2 & R2).
        finish_built W2 (ext_trans _ _ _ X1 X2) (eq_trans T2 T1) R2.
        split.
        -- cbn [inorder]. rewrite <- app_assoc. reflexivity.
        -- cbn [avl depth] in *. intros Al (A1 & A2 & A3) Hd.
           split; [| lia].
           split; [| split; [exact A2 | lia]].
           split; [exact Al |]. split; [exact A1 | lia].
      * destruct (depth_pos_node trl) as (ta & h' & ms & me & tb & Et);
          [lia |].
        subst trl.
        destruct (rep_node_inv st _ _ _ _ _ _ W Rrl)
          as (HmT & Eh & Es & Ee & Ra & Rb).
        subst h' ms me.
        rewrite (proj2 (Z.eqb_neq _ T) HmT).
        apply (post_bind _ _ _ _
                 (create2_rep rtl st s e l (left st (left st r))
                    (start st r) (end_ st r) (right st (left st r))
                    (right st r) _ _ _ _ W Rl Ra Rb Rrr)).
        intros [[s1 a] b] (W1 & X1 & T1 & R1 & R1'). cbn [fst snd] in *.
        apply (post_weaken _ _ _
                 (create_rep s1 (start st (left st r)) (end_ st (left st r))
                    a b _ _ W1 R1 R1')).
        intros [s2 n2] (W2 & X2 & T2 & R2).
        finish_built W2 (ext_trans _ _ _ X1 X2) (eq_trans T2 T1) R2.
        split.
        -- cbn [inorder]. rewrite <- !app_assoc. cbn [app]. reflexivity.
        -- cbn [avl depth] in *.
           pose proof (depth_nonneg ta). pose proof (depth_nonneg tb).
           intros Al ((A1 & A2 & A3) & A4 & A5) Hd.
           split; [| lia].
           split; [split; [exact Al | split; [exact A1 | lia]] |].
           split; [split; [exact A2 | split; [exact A4 | lia]] | lia].
    + (* no rotation *)
      assert (Eh : wrap16 (if depth tr <=? depth tl
                           then depth tl + 1 else depth tr + 1)
                   = 1 + Z.max (depth tl) (depth tr)).
      { pose proof (rep_depth_le st l tl W Rl).
        pose proof (rep_depth_le st r tr W Rr).
        unfold N in *.
        destruct (Z.leb_spec (depth tr) (depth tl));
          rewrite wrap16_id; lia. }
      rewrite Eh.
      apply (post_weaken _ _ _ (new_node_rep st s e _ l r tl tr W Rl Rr
               (eq_refl _))).
      intros [s2 n2] (W2 & X2 & T2 & R2).
      finish_built W2 X2 T2 R2.
      split; [reflexivity |].
      cbn [avl depth]. intros Al Ar Hd.
      split; [split; [exact Al | split; [exact Ar | lia]] | lia].
Qed.

(** ** [add] and [join] *)

Lemma add_built rtl fuel : forall st tree is_left s0 e0 t,
  wf st -> rep st tree t -> depth t < Z.of_nat fuel ->
  post (add rtl fuel st tree is_left s0 e0)
       (built st (added is_left s0 e0 t)).
Proof.
  induction fuel as [| f IH]; intros st tree is_left s0 e0 t W R Hf.
  - pose proof (depth_nonneg t). lia.
  - cbn [add]. destruct (Z.eqb_spec tree T) as [E | NE].
    + subst tree. rewrite (rep_T st t W R).
      apply (post_weaken _ _ _
               (new_node_rep st s0 e0 1 T T Leaf Leaf W (rep_leaf st)
                  (rep_leaf st) (eq_refl _))).
      intros [s2 n2] (W2 & X2 & T2 & R2).
      finish_built W2 X2 T2 R2.
      split; [destruct is_left; reflexivity |].
      cbn [avl depth]. intros _. split; [| lia].
      split; [exact I | split; [exact I | lia]].
    + destruct (rep_inv st tree t W R NE) as (tl & tr & -> & Hh & Rl & Rr & Hd).
      cbn [depth] in Hf.
      pose proof (depth_nonneg tl) as Pl. pose proof (depth_nonneg tr) as Pr.
      destruct is_left.
      * apply (post_bind _ _ _ _
                 (IH st (left st tree) true s0 e0 tl W Rl ltac:(lia))).
        intros [s1 n1] (W1 & X1 & T1 & (t1 & R1 & I1 & A1)).
        cbn [fst snd] in *.
        apply (post_weaken _ _ _
                 (balance_built rtl s1 (start st tree) (end_ st tree) n1
                    (right st tree) t1 tr W1 R1 (rep_ext _ _ _ _ X1 Rr))).
        intros [s2 n2] (W2 & X2 & T2 & (t2 & R2 & I2 & A2)).
        finish_built W2 (ext_trans _ _ _ X1 X2) (eq_trans T2 T1) R2.
        split.
        -- rewrite I2, I1. cbn [inorder app]. reflexivity.
        -- cbn [avl depth]. intros (Al & Ar & Hb).
           destruct (A1 Al) as (A1' & D1).
           destruct (A2 A1' Ar ltac:(lia)) as (A2' & D2 & D3).
           split; [exact A2' |].
           clear - D1 D2 D3 Hb Pl Pr. 
           destruct (Z_le_gt_dec (depth t1 - depth tr) 1) as [G | G].
           ++ specialize (D3 ltac:(lia)). lia.
           ++ lia.
      * apply (post_bind _ _ _ _
                 (IH st (right st tree) false s0 e0 tr W Rr ltac:(lia))).
        intros [s1 n1] (W1 & X1 & T1 & (t1 & R1 & I1 & A1)).
        cbn [fst snd] in *.
        apply (post_weaken _ _ _
                 (balance_built rtl s1 (start st tree) (end_ st tree)
                    (left st tree) n1 tl t1 W1 (rep_ext _ _ _ _ X1 Rl) R1)).
        intros [s2 n2] (W2 & X2 & T2 & (t2 & R2 & I2 & A2)).
        finish_built W2 (ext_trans _ _ _ X1 X2) (eq_trans T2 T1) R2.
        split.
        -- rewrite I2, I1. cbn [inorder app].
           rewrite <- app_assoc. reflexivity.
        -- cbn [avl depth]. intros (Al & Ar & Hb).
           destruct (A1 Ar) as (A1' & D1).
           destruct (A2 Al A1' ltac:(lia)) as (A2' & D2 & D3).
           split; [exact A2' |].
           clear - D1 D2 D3 Hb Pl Pr.
           destruct (Z_le_gt_dec (depth t1 - depth tl) 1) as [G | G].
           ++ specialize (D3 ltac:(lia)). lia.
           ++ lia.
Qed.

Lemma join_built rtl fuel : forall st s0 e0 l r tl tr,
  wf st -> rep st l tl -> rep st r tr ->
  depth tl + depth tr + 1 < Z.of_nat fuel ->
  post (join rtl fuel st s0 e0 l r)
       (built st (joined (inorder tl ++ (s0, e0) :: inorder tr) tl tr)).
Proof.
  induction fuel as [| f IH]; intros st s0 e0 l r tl tr W Rl Rr Hf.
  - pose proof (depth_nonneg tl). pose proof (depth_nonneg tr). lia.
  - pose proof (depth_nonneg tl) as Pl. pose proof (depth_nonneg tr) as Pr.
    cbn [join]. destruct (Z.eqb_spec l T) as [El | NEl].
    + subst l. rewrite (rep_T st tl W Rl) in *. cbn [depth inorder app] in *.
      apply (post_weaken _ _ _
               (add_built rtl f st r true s0 e0 tr W Rr ltac:(lia))).
      intros [s2 n2] (W2 & X2 & T2 & (t2 & R2 & I2 & A2)).
      finish_built W2 X2 T2 R2.
      split; [exact I2 |].
      intros _ Ar. destruct (A2 Ar) as (A2' & D2).
      split; [exact A2' | cbn [depth]; lia].
    + destruct (Z.eqb_spec r T) as [Er | NEr].
      * subst r. rewrite (rep_T st tr W Rr) in *. cbn [depth inorder] in *.
        apply (post_weaken _ _ _
                 (add_built rtl f st l false s0 e0 tl W Rl ltac:(lia))).
        intros [s2 n2] (W2 & X2 & T2 & (t2 & R2 & I2 & A2)).
        finish_built W2 X2 T2 R2.
        split; [exact I2 |].
        intros Al _. destruct (A2 Al) as (A2' & D2).
        split; [exact A2' | cbn [depth]; lia].
      * destruct (rep_inv st l tl W Rl NEl)
          as (tll & tlr & Etl & Hl & Rll & Rlr & Hdl).
        destruct (rep_inv st r tr W Rr NEr)
          as (trl & trr & Etr & Hr & Rrl & Rrr & Hdr).
        assert (Dl : hfield st l = depth tl) by (rewrite Etl; exact Hdl).
        assert (Dr : hfield st r = depth tr) by (rewrite Etr; exact Hdr).
        rewrite Dl, Dr. unfold bal_const.
        pose proof (depth_nonneg tll) as Pll.
        pose proof (depth_nonneg tlr) as Plr.
        pose proof (depth_nonneg trl) as Prl.
        pose proof (depth_nonneg trr) as Prr.
        destruct (Z.ltb_spec (depth tr + 1) (depth tl)) as [H1 | H1].
        -- assert (Hf' : depth tlr + depth tr + 1 < Z.of_nat f).
           { rewrite Etl in Hf. cbn [depth] in Hf. lia. }
           apply (post_bind _ _ _ _
                    (IH st s0 e0 (right st l) r tlr tr W Rlr Rr Hf')).
           intros [s1 n1] (W1 & X1 & T1 & (t1 & R1 & I1 & A1)).
           cbn [fst snd] in *.
           apply (post_weaken _ _ _
                    (balance_built rtl s1 (start st l) (end_ st l)
                       (left st l) n1 tll t1 W1 (rep_ext _ _ _ _ X1 Rll) R1)).
           intros [s2 n2] (W2 & X2 & T2 & (t2 & R2 & I2 & A2)).
           finish_built W2 (ext_trans _ _ _ X1 X2) (eq_trans T2 T1) R2.
           split.
           ++ rewrite I2, I1, Etl. cbn [inorder].
              rewrite <- app_assoc. reflexivity.
           ++ rewrite Etl in *. cbn [avl depth] in *.
              intros (All & Alr & Hb) Ar.
              destruct (A1 Alr Ar) as (A1' & D1).
              destruct (A2 All A1' ltac:(lia)) as (A2' & D2 & D3).
              split; [exact A2' |].
              clear - D1 D2 D3 Hb H1 Pll Plr Pr.
              destruct (Z_le_gt_dec (depth t1 - depth tll) 1) as [G | G].
              ** specialize (D3 ltac:(lia)). lia.
              ** lia.
        -- destruct (Z.ltb_spec (depth tl + 1) (depth tr)) as [H2 | H2].
           ++ assert (Hf' : depth tl + depth trl + 1 < Z.of_nat f).
              { rewrite Etr in Hf. cbn [depth] in Hf. lia. }
              apply (post_bind _ _ _ _
                       (IH st s0 e0 l (left st r) tl trl W Rl Rrl Hf')).
              intros [s1 n1] (W1 & X1 & T1 & (t1 & R1 & I1 & A1)).
              cbn [fst snd] in *.
              apply (post_weaken _ _ _
                       (balance_built rtl s1 (start st r) (end_ st r)
                          n1 (right st r) t1 trr W1 R1
                          (rep_ext _ _ _ _ X1 Rrr))).
              intros [s2 n2] (W2 & X2 & T2 & (t2 & R2 & I2 & A2)).
              finish_built W2 (ext_trans _ _ _ X1 X2) (eq_trans T2 T1) R2.
              split.
              ** rewrite I2, I1, Etr. cbn [inorder].
                 rewrite <- app_assoc. reflexivity.
              ** rewrite Etr in *. cbn [avl depth] in *.
                 intros Al (Arl & Arr & Hb).
                 destruct (A1 Al Arl) as (A1' & D1).
                 destruct (A2 A1' Arr ltac:(lia)) as (A2' & D2 & D3).
                 split; [exact A2' |].
                 clear - D1 D2 D3 Hb H2 H1 Pl Prl Prr.
                 destruct (Z_le_gt_dec (depth t1 - depth trr) 1) as [G | G].
                 --- specialize (D3 ltac:(lia)). lia.
                 --- lia.
           ++ apply (post_weaken _ _ _ (create_rep st s0 e0 l r tl tr W Rl Rr)).
              intros [s2 n2] (W2 & X2 & T2 & R2).
              finish_built W2 X2 T2 R2.
              split; [reflexivity |].
              cbn [avl depth]. intros Al Ar.
              split; [split; [exact Al | split; [exact Ar | lia]] | lia].
Qed.

End Diet3Build.

(* ================================================================== *)
(** * The balanced DIET: insertion *)

Module Diet3Insert.
Import Ivl IvlFacts Diet3 Diet3Inv Diet3Build.

Lemma wf_blit st a b : wf st -> wf (blit st a b).
Proof. intros W. exact W. Qed.

Lemma trace_blit st a b :
  length (trace (blit st a b)) = S (length (trace st)).
Proof. cbn. rewrite length_app. cbn. lia. Qed.

Lemma rep_inorder st h t :
  wf st -> rep st h t -> h <> T ->
  exists tl tr,
    t = Node tl h (start st h) (end_ st h) tr /\
    rep st (left st h) tl /\ rep st (right st h) tr /\
    inorder t = inorder tl ++ (start st h, end_ st h) :: inorder tr /\
    depth t = 1 + Z.max (depth tl) (depth tr).
Proof.
  intros W R H.
  destruct (rep_inv st h t W R H) as (tl & tr & -> & _ & Rl & Rr & _).
  exists tl, tr. repeat split; assumption.
Qed.

(** ** [find_del_left] and [find_del_right] *)

Lemma find_del_left_ok rtl fuel : forall st tree s0 dbe t,
  wf st -> rep st tree t -> iso (inorder t) -> avl t ->
  depth t + 2 * N + 2 < Z.of_nat fuel ->
  post (find_del_left rtl fuel st tree s0 dbe)
       (fun p =>
          wf (fst (fst p)) /\ ext st (fst (fst p)) /\
          (length (trace st) < length (trace (fst (fst p))))%nat /\
          exists t', rep (fst (fst p)) (snd p) t' /\ avl t' /\
                     cut_left (inorder t) s0 (snd (fst p)) (inorder t')).
Proof.
  induction fuel as [| f IH]; intros st tree s0 dbe t W R Iso A Hf.
  - pose proof (depth_nonneg t). unfold N in Hf. lia.
  - cbn [find_del_left]. destruct (Z.eqb_spec tree T) as [E | NE].
    + subst tree. rewrite (rep_T st t W R). cbn [post fst snd].
      split; [exact W |]. split; [apply ext_blit |].
      split; [rewrite trace_blit; lia |].
      exists Leaf. split; [constructor |]. split; [exact I |].
      apply cut_left_nil.
    + destruct (rep_inorder st tree t W R NE)
        as (tl & tr & Et & Rl & Rr & Ein & Ed).
      rewrite Ein in *. rewrite Et in A. cbn [avl] in A.
      destruct A as (Al & Ar & _).
      pose proof (proj1 (iso_mid _ _ _ _) Iso) as (I1 & I2 & Hs & B & Ab).
      pose proof (depth_nonneg tl) as Pl. pose proof (depth_nonneg tr) as Pr.
      destruct (Z.ltb_spec (end_ st tree + 1) s0) as [H1 | H1].
      * apply (post_bind _ _ _ _
                 (IH st (right st tree) s0 dbe tr W Rr I2 Ar ltac:(lia))).
        intros [[s1 news] newr] (W1 & X1 & T1 & (t1 & R1 & A1 & C1)).
        cbn [fst snd] in *.
        assert (Hj : depth tl + depth t1 + 1 < Z.of_nat f).
        { pose proof (rep_depth_le _ _ _ W1 R1). unfold N in *. lia. }
        apply (post_bind _ _ _ _
                 (join_built rtl f s1 (start st tree) (end_ st tree)
                    (left st tree) newr tl t1 W1
                    (rep_ext _ _ _ _ X1 Rl) R1 Hj)).
        intros [s2 n2] (W2 & X2 & T2 & (t2 & R2 & I2' & A2)).
        cbn [fst snd post] in *.
        split; [exact W2 |]. split; [apply (ext_trans _ _ _ X1 X2) |].
        split; [rewrite T2; exact T1 |].
        exists t2. split; [exact R2 |].
        split; [apply (A2 Al A1) |].
        rewrite I2'. apply cut_left_right; assumption.
      * destruct (Z.ltb_spec s0 (start st tree)) as [H2 | H2].
        -- apply (post_weaken _ _ _
                    (IH st (left st tree) s0 dbe tl W Rl I1 Al ltac:(lia))).
           intros [[s1 news] newl] (W1 & X1 & T1 & (t1 & R1 & A1 & C1)).
           cbn [fst snd] in *.
           split; [exact W1 |]. split; [exact X1 |]. split; [exact T1 |].
           exists t1. split; [exact R1 |]. split; [exact A1 |].
           apply cut_left_left; assumption.
        -- cbn [post fst snd].
           split; [exact W |]. split; [apply ext_blit |].
           split; [rewrite trace_blit; lia |].
           exists tl. split; [apply (rep_ext _ _ _ _ (ext_blit _ _ _) Rl) |].
           split; [exact Al |].
           apply cut_left_here; [exact Iso | lia | lia].
Qed.

Lemma find_del_right_ok rtl fuel : forall st tree e0 dbs t,
  wf st -> rep st tree t -> iso (inorder t) -> avl t ->
  depth t + 2 * N + 2 < Z.of_nat fuel ->
  post (find_del_right rtl fuel st tree e0 dbs)
       (fun p =>
          wf (fst (fst p)) /\ ext st (fst (fst p)) /\
          (length (trace st) < length (trace (fst (fst p))))%nat /\
          exists t', rep (fst (fst p)) (snd p) t' /\ avl t' /\
                     cut_right (inorder t) e0 (snd (fst p)) (inorder t')).
Proof.
  induction fuel as [| f IH]; intros st tree e0 dbs t W R Iso A Hf.
  - pose proof (depth_nonneg t). unfold N in Hf. lia.
  - cbn [find_del_right]. destruct (Z.eqb_spec tree T) as [E | NE].
    + subst tree. rewrite (rep_T st t W R). cbn [post fst snd].
      split; [exact W |]. split; [apply ext_blit |].
      split; [rewrite trace_blit; lia |].
      exists Leaf. split; [constructor |]. split; [exact I |].
      apply cut_right_nil.
    + destruct (rep_inorder st tree t W R NE)
        as (tl & tr & Et & Rl & Rr & Ein & Ed).
      rewrite Ein in *. rewrite Et in A. cbn [avl] in A.
      destruct A as (Al & Ar & _).
      pose proof (proj1 (iso_mid _ _ _ _) Iso) as (I1 & I2 & Hs & B & Ab).
      pose proof (depth_nonneg tl) as Pl. pose proof (depth_nonneg tr) as Pr.
      destruct (Z.ltb_spec e0 (start st tree - 1)) as [H1 | H1].
      * apply (post_bind _ _ _ _
                 (IH st (left st tree) e0 dbs tl W Rl I1 Al ltac:(lia))).
        intros [[s1 newe] newl] (W1 & X1 & T1 & (t1 & R1 & A1 & C1)).
        cbn [fst snd] in *.
        assert (Hj : depth t1 + depth tr + 1 < Z.of_nat f).
        { pose proof (rep_depth_le _ _ _ W1 R1). unfold N in *. lia. }
        apply (post_bind _ _ _ _
                 (join_built rtl f s1 (start st tree) (end_ st tree)
                    newl (right st tree) t1 tr W1 R1
                    (rep_ext _ _ _ _ X1 Rr) Hj)).
        intros [s2 n2] (W2 & X2 & T2 & (t2 & R2 & I2' & A2)).
        cbn [fst snd post] in *.
        split; [exact W2 |]. split; [apply (ext_trans _ _ _ X1 X2) |].
        split; [rewrite T2; exact T1 |].
        exists t2. split; [exact R2 |].
        split; [apply (A2 A1 Ar) |].
        rewrite I2'. apply cut_right_left; assumption.
      * destruct (Z.ltb_spec (end_ st tree) e0) as [H2 | H2].
        -- apply (post_weaken _ _ _
                    (IH st (right st tree) e0 dbs tr W Rr I2 Ar ltac:(lia))).
           intros [[s1 newe] newr] (W1 & X1 & T1 & (t1 & R1 & A1 & C1)).
           cbn [fst snd] in *.
           split; [exact W1 |]. split; [exact X1 |]. split; [exact T1 |].
           exists t1. split; [exact R1 |]. split; [exact A1 |].
           apply cut_right_right; assumption.
        -- cbn [post fst snd].
           split; [exact W |]. split; [apply ext_blit |].
           split; [rewrite trace_blit; lia |].
           exists tr. split; [apply (rep_ext _ _ _ _ (ext_blit _ _ _) Rr) |].
           split; [exact Ar |].
           apply cut_right_here; [exact Iso | lia | lia].
Qed.

(** ** [insert_range] *)

Lemma within_nil s0 e0 : s0 <= e0 -> ~ within [] s0 e0.
Proof.
  intros H W. apply (covers_nil s0). apply W. lia.
Qed.

Lemma within_node L1 s e L2 s0 e0 :
  s <= s0 -> e0 <= e -> within (L1 ++ (s, e) :: L2) s0 e0.
Proof.
  intros H1 H2 z Hz. apply covers_mid. right. left. lia.
Qed.

Lemma insert_range_ok rtl fuel : forall st tree s0 e0 t,
  wf st -> rep st tree t -> iso (inorder t) -> avl t -> s0 <= e0 ->
  depth t + 3 * N + 4 < Z.of_nat fuel ->
  post (insert_range rtl fuel st tree s0 e0) (inserted st t s0 e0).
Proof.
  unfold inserted.
  induction fuel as [| f IH]; intros st tree s0 e0 t W R Iso A H0 Hf.
  - pose proof (depth_nonneg t). unfold N in Hf. lia.
  - cbn [insert_range]. destruct (Z.eqb_spec tree T) as [E | NE].
    + subst tree. rewrite (rep_T st t W R).
      apply (post_weaken _ _ _
               (new_node_rep (blit st s0 e0) s0 e0 1 T T Leaf Leaf
                  (wf_blit _ _ _ W) (rep_leaf _) (rep_leaf _) (eq_refl _))).
      intros [s2 n2] (W2 & X2 & T2 & R2). cbn [fst snd] in *.
      split; [exact W2 |].
      split; [apply (ext_trans _ _ _ (ext_blit st s0 e0) X2) |].
      split; [rewrite T2, trace_blit; lia |].
      eexists. split; [exact R2 |].
      split; [cbn [avl depth]; split; [exact I | split; [exact I | lia]] |].
      split; [apply ins_nil; exact H0 |].
      split.
      * intros Wi. exfalso. apply (within_nil s0 e0 H0 Wi).
      * intros _. rewrite T2, trace_blit. lia.
    + destruct (rep_inorder st tree t W R NE)
        as (tl & tr & Et & Rl & Rr & Ein & Ed).
      rewrite Ein in *. rewrite Et in A. cbn [avl] in A.
      destruct A as (Al & Ar & _).
      pose proof (proj1 (iso_mid _ _ _ _) Iso) as (I1 & I2 & Hs & B & Ab).
      pose proof (depth_nonneg tl) as Pl. pose proof (depth_nonneg tr) as Pr.
      pose proof (within_mid _ _ _ _ s0 e0 Iso H0) as WM.
      destruct (Z.ltb_spec e0 (start st tree - 1)) as [H1 | H1].
      * (* entirely to the left *)
        apply (post_bind _ _ _ _
                 (IH st (left st tree) s0 e0 tl W Rl I1 Al H0 ltac:(lia))).
        intros [s1 n1] (W1 & X1 & T1 & (t1 & R1 & A1 & C1 & Y1 & N1)).
        cbn [fst snd] in *.
        assert (Hj : depth t1 + depth tr + 1 < Z.of_nat f).
        { pose proof (rep_depth_le _ _ _ W1 R1). unfold N in *. lia. }
        apply (post_weaken _ _ _
                 (join_built rtl f s1 (start st tree) (end_ st tree)
                    n1 (right st tree) t1 tr W1 R1
                    (rep_ext _ _ _ _ X1 Rr) Hj)).
        intros [s2 n2] (W2 & X2 & T2 & (t2 & R2 & I2' & A2)).
        cbn [fst snd] in *.
        split; [exact W2 |]. split; [apply (ext_trans _ _ _ X1 X2) |].
        split; [rewrite T2; exact T1 |].
        exists t2. split; [exact R2 |]. split; [apply (A2 A1 Ar) |].
        rewrite I2', T2.
        split; [apply ins_left; assumption |].
        split.
        -- intros Wi. destruct (Y1 (proj1 (WM Wi) H1)) as [Y Y'].
           split; [exact Y | rewrite Y'; reflexivity].
        -- intros Nw. apply N1. intros Wi. apply Nw.
           apply within_sub. left. exact Wi.
      * destruct (Z.ltb_spec (end_ st tree + 1) s0) as [H2 | H2].
        -- (* entirely to the right *)
           apply (post_bind _ _ _ _
                    (IH st (right st tree) s0 e0 tr W Rr I2 Ar H0
                        ltac:(lia))).
           intros [s1 n1] (W1 & X1 & T1 & (t1 & R1 & A1 & C1 & Y1 & N1)).
           cbn [fst snd] in *.
           assert (Hj : depth tl + depth t1 + 1 < Z.of_nat f).
           { pose proof (rep_depth_le _ _ _ W1 R1). unfold N in *. lia. }
           apply (post_weaken _ _ _
                    (join_built rtl f s1 (start st tree) (end_ st tree)
                       (left st tree) n1 tl t1 W1
                       (rep_ext _ _ _ _ X1 Rl) R1 Hj)).
           intros [s2 n2] (W2 & X2 & T2 & (t2 & R2 & I2' & A2)).
           cbn [fst snd] in *.
           split; [exact W2 |]. split; [apply (ext_trans _ _ _ X1 X2) |].
           split; [rewrite T2; exact T1 |].
           exists t2. split; [exact R2 |]. split; [apply (A2 Al A1) |].
           rewrite I2', T2.
           split; [apply ins_right; assumption |].
           split.
           ++ intros Wi.
              destruct (Y1 (proj1 (proj2 (WM Wi)) H2)) as [Y Y'].
              split; [exact Y | rewrite Y'; reflexivity].
           ++ intros Nw. apply N1. intros Wi. apply Nw.
              apply within_sub. right. exact Wi.
        -- (* the node is met *)
           set (s := start st tree) in *. set (e := end_ st tree) in *.
           (* the lower end *)
           assert (Q1 :
             post (if s <=? s0 then Ok (st, s, left st tree)
                   else find_del_left rtl f st (left st tree) s0
                          (wrap16 (s - 1)))
                  (fun p =>
                     wf (fst (fst p)) /\ ext st (fst (fst p)) /\
                     (length (trace st)
                      <= length (trace (fst (fst p))))%nat /\
                     (s0 < s -> (length (trace st)
                                 < length (trace (fst (fst p))))%nat) /\
                     exists t1, rep (fst (fst p)) (snd p) t1 /\ avl t1 /\
                       cut_left (inorder tl) (Z.min s s0) (snd (fst p))
                                (inorder t1) /\
                       (s <= s0 -> trace (fst (fst p)) = trace st /\
                                   snd (fst p) = s /\
                                   inorder t1 = inorder tl))).
           { destruct (Z.leb_spec s s0) as [G | G].
             - cbn [post fst snd].
               split; [exact W |]. split; [apply ext_refl |].
               split; [lia |]. split; [lia |].
               exists tl. split; [exact Rl |]. split; [exact Al |].
               split; [| intros _; repeat split].
               rewrite Z.min_l by lia. apply cut_left_all; assumption.
             - apply (post_weaken _ _ _
                        (find_del_left_ok rtl f st (left st tree) s0 _ tl
                           W Rl I1 Al ltac:(unfold N in *; lia))).
               intros [[s1 news] newl] (W1 & X1 & T1 & (t1 & R1 & A1 & C1)).
               cbn [fst snd] in *.
               split; [exact W1 |]. split; [exact X1 |].
               split; [lia |]. split; [intros _; exact T1 |].
               exists t1. split; [exact R1 |]. split; [exact A1 |].
               split; [rewrite Z.min_r by lia; exact C1 | lia]. }
           apply (post_bind _ _ _ _ Q1). clear Q1.
           intros [[s1 news] newl]
                  (W1 & X1 & T1 & T1' & (t1 & R1 & A1 & C1 & K1)).
           cbn [fst snd] in *.
           (* the upper end *)
           assert (Q2 :
             post (if e0 <=? e then Ok (s1, e, right st tree)
                   else find_del_right rtl f s1 (right st tree) e0
                          (wrap16 (e + 1)))
                  (fun p =>
                     wf (fst (fst p)) /\ ext s1 (fst (fst p)) /\
                     (length (trace s1)
                      <= length (trace (fst (fst p))))%nat /\
                     (e < e0 -> (length (trace s1)
                                 < length (trace (fst (fst p))))%nat) /\
                     exists t2, rep (fst (fst p)) (snd p) t2 /\ avl t2 /\
                       cut_right (inorder tr) (Z.max e e0) (snd (fst p))
                                 (inorder t2) /\
                       (e0 <= e -> trace (fst (fst p)) = trace s1 /\
                                   snd (fst p) = e /\
                                   inorder t2 = inorder tr))).
           { pose proof (rep_ext _ _ _ _ X1 Rr) as Rr1.
             destruct (Z.leb_spec e0 e) as [G | G].
             - cbn [post fst snd].
               split; [exact W1 |]. split; [apply ext_refl |].
               split; [lia |]. split; [lia |].
               exists tr. split; [exact Rr1 |]. split; [exact Ar |].
               split; [| intros _; repeat split].
               rewrite Z.max_l by lia. apply cut_right_all; assumption.
             - apply (post_weaken _ _ _
                        (find_del_right_ok rtl f s1 (right st tree) e0 _ tr
                           W1 Rr1 I2 Ar ltac:(unfold N in *; lia))).
               intros [[s2 newe] newr] (W2 & X2 & T2 & (t2 & R2 & A2 & C2)).
               cbn [fst snd] in *.
               split; [exact W2 |]. split; [exact X2 |].
               split; [lia |]. split; [intros _; exact T2 |].
               exists t2. split; [exact R2 |]. split; [exact A2 |].
               split; [rewrite Z.max_r by lia; exact C2 | lia]. }
           apply (post_bind _ _ _ _ Q2). clear Q2.
           intros [[s2 newe] newr]
                  (W2 & X2 & T2 & T2' & (t2 & R2 & A2 & C2 & K2)).
           cbn [fst snd] in *.
           assert (Hj : depth t1 + depth t2 + 1 < Z.of_nat f).
           { pose proof (rep_depth_le _ _ _ W1 R1).
             pose proof (rep_depth_le _ _ _ W2 R2). unfold N in *. lia. }
           apply (post_weaken _ _ _
                    (join_built rtl f s2 news newe newl newr t1 t2 W2
                       (rep_ext _ _ _ _ X2 R1) R2 Hj)).
           intros [s3 n3] (W3 & X3 & T3 & (t3 & R3 & I3 & A3)).
           cbn [fst snd] in *.
           split; [exact W3 |].
           split; [apply (ext_trans _ _ _ X1 (ext_trans _ _ _ X2 X3)) |].
           split; [rewrite T3; lia |].
           exists t3. split; [exact R3 |]. split; [apply (A3 A1 A2) |].
           rewrite I3, T3.
           split; [apply ins_merge; try assumption; lia |].
           split.
           ++ intros Wi.
              destruct (proj2 (proj2 (WM Wi)) ltac:(lia) ltac:(lia))
                as [G1 G2].
              destruct (K1 G1) as (K1a & K1b & K1c).
              destruct (K2 G2) as (K2a & K2b & K2c).
              split; [congruence |].
              rewrite K1b, K1c, K2b, K2c. reflexivity.
           ++ intros Nw.
              destruct (Z_le_gt_dec s s0) as [G1 | G1];
                [destruct (Z_le_gt_dec e0 e) as [G2 | G2] |].
              ** exfalso. apply Nw. apply within_node; assumption.
              ** specialize (T2' ltac:(lia)). lia.
              ** specialize (T1' ltac:(lia)). lia.
Qed.

End Diet3Insert.

(* ================================================================== *)
(** * The balanced DIET: whole runs and the verifiers *)

Module Diet3Runs.
Import Ivl IvlFacts Diet3 Diet3Inv Diet3Build Diet3Insert Diet3Checks.

Lemma post_cases {A : Type} (r : result A) (P : A -> Prop) :
  post r P -> r = Err AssertFailed \/ exists a, r = Ok a /\ P a.
Proof.
  destruct r as [a | e]; cbn [post]; intros H.
  - right. exists a. split; [reflexivity | exact H].
  - left. rewrite H. reflexivity.
Qed.

Lemma enough_depth fuel t st h :
  enough fuel -> wf st -> rep st h t -> depth t + 3 * N + 4 < Z.of_nat fuel.
Proof.
  intros E W R. pose proof (rep_depth_le st h t W R).
  unfold enough, N in *. lia.
Qed.

(** ** [insert] and sequences of [insert] *)

Lemma d3_init_inv : Inv init Leaf.
Proof.
  split.
  - unfold wf, N. cbn. lia.
  - constructor.
  - exact I.
  - exact I.
Qed.

Lemma rep_set_root st v h t : rep st h t -> rep (set_root st v) h t.
Proof.
  apply rep_ext. split; [cbn; lia | reflexivity].
Qed.

Lemma d3_insert_ok rtl fuel st t s0 e0 :
  enough fuel -> Inv st t -> s0 <= e0 ->
  post (insert rtl fuel st s0 e0)
       (fun st' =>
          ext st st' /\
          exists t', Inv st' t' /\ ins (inorder t) s0 e0 (inorder t') /\
            (within (inorder t) s0 e0 ->
             trace st' = [] /\ inorder t' = inorder t) /\
            (~ within (inorder t) s0 e0 -> trace st' <> [])).
Proof.
  intros E [W R Iso A] H0. unfold insert.
  assert (X0 : ext st (set_trace st [])).
  { split; [cbn; lia | reflexivity]. }
  assert (W0 : wf (set_trace st [])) by exact W.
  pose proof (rep_ext _ _ _ _ X0 R) as R0.
  apply (post_bind _ _ _ _
           (insert_range_ok rtl fuel (set_trace st []) (root st) s0 e0 t
              W0 R0 Iso A H0 (enough_depth fuel t _ _ E W0 R0))).
  intros [s1 n1] (W1 & X1 & T1 & (t1 & R1 & A1 & C1 & Y1 & N1)).
  cbn [fst snd post] in *.
  split.
  { destruct X1 as [L1 E1]. split; [exact L1 | exact E1]. }
  exists t1. split.
  - split.
    + exact W1.
    + apply rep_set_root. exact R1.
    + apply (ins_iso _ _ _ _ C1).
    + exact A1.
  - split; [exact C1 |]. split.
    + intros Wi. destruct (Y1 Wi) as [Y Y']. split; [exact Y | exact Y'].
    + intros Nw. specialize (N1 Nw).
      change (trace s1 <> []). intros Et. rewrite Et in N1.
      cbn in N1. lia.
Qed.

Lemma d3_inserts_ok rtl fuel ops : forall st t,
  enough fuel -> Inv st t -> Forall (fun op => fst op <= snd op) ops ->
  post (inserts rtl fuel st ops)
       (fun st' =>
          ext st st' /\
          exists t', Inv st' t' /\
            forall z, covers (inorder t') z <->
                      covers (inorder t) z \/ covers ops z).
Proof.
  induction ops as [| [s0 e0] ops IH]; intros st t E I F.
  - cbn [inserts post]. split; [apply ext_refl |].
    exists t. split; [exact I |]. intros z.
    pose proof (covers_nil z). tauto.
  - inversion F as [| x l F1 F2]; subst. cbn [fst snd] in F1.
    cbn [inserts].
    apply (post_bind _ _ _ _ (d3_insert_ok rtl fuel st t s0 e0 E I F1)).
    intros s1 (X1 & t1 & I1 & C1 & _).
    apply (post_weaken _ _ _ (IH s1 t1 E I1 F2)).
    intros s2 (X2 & t2 & I2 & C2).
    split; [apply (ext_trans _ _ _ X1 X2) |].
    exists t2. split; [exact I2 |]. intros z.
    rewrite C2, (ins_cov _ _ _ _ C1), covers_cons. tauto.
Qed.

(** ** The stored handles *)

Lemma gather_indices_ok fuel : forall st x t acc,
  wf st -> rep st x t -> x <> T -> depth t <= Z.of_nat fuel ->
  gather_indices fuel st x acc = Ok (acc ++ handles t).
Proof.
  induction fuel as [| f IH]; intros st x t acc W R HxT Hf.
  - destruct (rep_inorder st x t W R HxT) as (tl & tr & _ & _ & _ & _ & Ed).
    pose proof (depth_nonneg tl). lia.
  - destruct (rep_inorder st x t W R HxT)
      as (tl & tr & Et & Rl & Rr & _ & Ed).
    cbn [gather_indices]. rewrite Et. cbn [handles].
    assert (L : (if left st x =? T then Ok (acc ++ [x])
                 else gather_indices f st (left st x) (acc ++ [x]))
                = Ok ((acc ++ [x]) ++ handles tl)).
    { destruct (Z.eqb_spec (left st x) T) as [E | NE].
      - rewrite E in Rl. rewrite (rep_T st tl W Rl). cbn [handles].
        rewrite app_nil_r. reflexivity.
      - apply IH; [exact W | exact Rl | exact NE |].
        pose proof (depth_nonneg tr). lia. }
    rewrite L. cbn [bind].
    destruct (Z.eqb_spec (right st x) T) as [E | NE].
    + rewrite E in Rr. rewrite (rep_T st tr W Rr). cbn [handles].
      rewrite app_nil_r, <- app_assoc. reflexivity.
    + rewrite (IH st (right st x) tr _ W Rr NE).
      * rewrite <- !app_assoc. reflexivity.
      * pose proof (depth_nonneg tl). lia.
Qed.

Lemma handles_intervals st x t :
  rep st x t ->
  map (fun h => (start st h, end_ st h)) (handles t) = preorder t.
Proof.
  intros R. induction R as [| h l r Hh Cl Cr Rl IHl Rr IHr Hd];
    cbn [handles preorder map]; [reflexivity |].
  rewrite map_app, IHl, IHr. reflexivity.
Qed.

Lemma handles_in st x t h :
  rep st x t -> In h (handles t) ->
  In (start st h, end_ st h) (inorder t).
Proof.
  intros R H. apply in_preorder. rewrite <- (handles_intervals st x t R).
  apply (in_map (fun h => (start st h, end_ st h))). exact H.
Qed.

Lemma stored_ok fuel st t :
  Inv st t -> N < Z.of_nat fuel -> stored fuel st = Ok (handles t).
Proof.
  intros [W R _ _] Hf. unfold stored.
  destruct (Z.eqb_spec (root st) T) as [E | NE].
  - rewrite E in R. rewrite (rep_T st t W R). reflexivity.
  - rewrite (gather_indices_ok fuel st (root st) t [] W R NE); [reflexivity |].
    pose proof (rep_depth_le st _ t W R). lia.
Qed.

(** ** [check_isolation], [check_inequality], [check_height] *)

Lemma isolated_pairs_ok st hs :
  ForallOrdPairs (fun x y => adjacent x y = false)
                 (map (fun h => (start st h, end_ st h)) hs) ->
  isolated_pairs st hs = true.
Proof.
  induction hs as [| x hs IH]; cbn [map isolated_pairs]; intros H;
    [reflexivity |].
  inversion H as [| a l Ha Hl]; subst.
  rewrite (IH Hl), andb_true_r.
  apply forallb_forall. intros y Hy.
  rewrite Forall_forall in Ha.
  specialize (Ha _ (in_map (fun h => (start st h, end_ st h)) _ _ Hy)).
  unfold adjacent in Ha. cbn [fst snd] in Ha.
  unfold overlapping_or_adjacent. rewrite Ha. reflexivity.
Qed.

Lemma pairs_by_position st hs :
  isolated_pairs st hs = true ->
  forall i j, (i < j < length hs)%nat ->
    overlapping_or_adjacent st (nth i hs T) (nth j hs T) = false.
Proof.
  induction hs as [| x hs IH]; cbn [isolated_pairs length]; intros H i j Hij;
    [lia |].
  apply andb_prop in H. destruct H as [H1 H2].
  destruct j as [| j]; [lia |].
  destruct i as [| i]; cbn [nth].
  - rewrite forallb_forall in H1.
    apply negb_true_iff. apply H1. apply nth_In. lia.
  - apply IH; [exact H2 | lia].
Qed.

Lemma check_isolation_ok fuel st t :
  Inv st t -> root st <> T -> N < Z.of_nat fuel ->
  check_isolation fuel st = Ok tt.
Proof.
  intros [W R Iso A] NE Hf. unfold check_isolation.
  rewrite (gather_indices_ok fuel st (root st) t [] W R NE)
    by (pose proof (rep_depth_le st _ t W R); lia).
  cbn [bind app].
  rewrite isolated_pairs_ok; [reflexivity |].
  rewrite (handles_intervals st _ t R). apply preorder_isolated. exact Iso.
Qed.

Lemma check_inequality_ok fuel : forall st x t,
  wf st -> rep st x t -> x <> T -> iso (inorder t) ->
  depth t <= Z.of_nat fuel ->
  check_inequality fuel st x = Ok tt.
Proof.
  induction fuel as [| f IH]; intros st x t W R HxT Iso Hf.
  - destruct (rep_inorder st x t W R HxT) as (tl & tr & _ & _ & _ & _ & Ed).
    pose proof (depth_nonneg tl). lia.
  - destruct (rep_inorder st x t W R HxT)
      as (tl & tr & Et & Rl & Rr & Ein & Ed).
    rewrite Ein in Iso.
    pose proof (proj1 (iso_mid _ _ _ _) Iso) as (I1 & I2 & Hs & B & Ab).
    pose proof (depth_nonneg tl) as Pl. pose proof (depth_nonneg tr) as Pr.
    cbn [check_inequality].
    assert (L : (if left st x =? T then Ok tt
                 else
                   values <- gather_indices f st (left st x) [] ;;
                   if forallb (fun v => start st v <=? start st x) values
                   then check_inequality f st (left st x)
                   else Err AssertFailed) = Ok tt).
    { destruct (Z.eqb_spec (left st x) T) as [E | NE]; [reflexivity |].
      rewrite (gather_indices_ok f st _ tl [] W Rl NE) by lia.
      cbn [bind app].
      assert (F : forallb (fun v => start st v <=? start st x) (handles tl)
                  = true).
      { apply forallb_forall. intros v Hv. apply Z.leb_le.
        pose proof (handles_in st _ tl v Rl Hv) as Hi.
        pose proof (B _ _ Hi). pose proof (iso_in _ _ _ I1 Hi). lia. }
      rewrite F. apply (IH st _ tl W Rl NE I1). lia. }
    rewrite L. cbn [bind].
    destruct (Z.eqb_spec (right st x) T) as [E | NE]; [reflexivity |].
    rewrite (gather_indices_ok f st _ tr [] W Rr NE) by lia.
    cbn [bind app].
    assert (F : forallb (fun v => start st x <=? start st v) (handles tr)
                = true).
    { apply forallb_forall. intros v Hv. apply Z.leb_le.
      pose proof (handles_in st _ tr v Rr Hv) as Hi.
      pose proof (Ab _ _ Hi). lia. }
    rewrite F. apply (IH st _ tr W Rr NE I2). lia.
Qed.

Lemma d3_calc_height_ok fuel : forall st x t,
  wf st -> rep st x t -> depth t < Z.of_nat fuel ->
  calc_height fuel st x = Ok (depth t).
Proof.
  induction fuel as [| f IH]; intros st x t W R Hf.
  - pose proof (depth_nonneg t). lia.
  - cbn [calc_height]. destruct (Z.eqb_spec x T) as [E | NE].
    + rewrite E in R. rewrite (rep_T st t W R). reflexivity.
    + destruct (rep_inorder st x t W R NE)
        as (tl & tr & Et & Rl & Rr & _ & Ed).
      pose proof (depth_nonneg tl) as Pl. pose proof (depth_nonneg tr) as Pr.
      rewrite (IH st _ tl W Rl) by lia.
      rewrite (IH st _ tr W Rr) by lia.
      cbn [bind]. rewrite <- Ed.
      rewrite wrap16_id; [reflexivity |].
      pose proof (rep_depth_le st x t W R). unfold N in *. lia.
Qed.

Lemma d3_check_height_ok fuel : forall st x t,
  wf st -> rep st x t -> x <> T -> depth t < Z.of_nat fuel ->
  check_height fuel st x = Ok tt.
Proof.
  induction fuel as [| f IH]; intros st x t W R HxT Hf.
  - pose proof (depth_nonneg t). lia.
  - cbn [check_height].
    rewrite (d3_calc_height_ok (S f) st x t W R Hf). cbn [bind].
    destruct (rep_inv st x t W R HxT) as (tl & tr & Et & _ & Rl & Rr & Hd).
    assert (Ed : depth t = hfield st x) by (rewrite Et; cbn [depth]; lia).
    rewrite Ed, Z.eqb_refl. cbn [negb].
    rewrite Et in Hf. cbn [depth] in Hf.
    pose proof (depth_nonneg tl) as Pl. pose proof (depth_nonneg tr) as Pr.
    assert (L : (if left st x =? T then Ok tt
                 else check_height f st (left st x)) = Ok tt).
    { destruct (Z.eqb_spec (left st x) T) as [E | NE]; [reflexivity |].
      apply (IH st _ tl W Rl NE). lia. }
    rewrite L. cbn [bind].
    destruct (Z.eqb_spec (right st x) T) as [E | NE]; [reflexivity |].
    apply (IH st _ tr W Rr NE). lia.
Qed.

Lemma avl_stored st x t :
  wf st -> rep st x t -> avl t ->
  forall h, In h (handles t) ->
    -1 <= height st (left st h) - height st (right st h) <= 1.
Proof.
  intros W R. induction R as [| x l r Hh Cl Cr Rl IHl Rr IHr Hd];
    intros A h Hin; [destruct Hin |].
  cbn [avl] in A. destruct A as (Al & Ar & Hb).
  cbn [handles] in Hin. destruct Hin as [E | Hin].
  - subst h. rewrite (rep_height st _ l W Rl), (rep_height st _ r W Rr).
    exact Hb.
  - apply in_app_or in Hin. destruct Hin as [Hin | Hin];
      [apply (IHl Al h Hin) | apply (IHr Ar h Hin)].
Qed.

End Diet3Runs.

(* ================================================================== *)
(** * The balanced DIET: every call allocates *)

Module Diet3Alloc.
Import Ivl IvlFacts Diet3 Diet3Inv Diet3Build.

Lemma bind_ok {A B : Type} (r : result A) (k : A -> result B) (b : B) :
  bind r k = Ok b -> exists a, r = Ok a /\ k a = Ok b.
Proof.
  destruct r as [a | e]; cbn [bind]; intros H; [| discriminate].
  exists a. split; [reflexivity | exact H].
Qed.

Lemma new_node_grows st s e h l r st' n :
  wf st -> new_node st s e h l r = Ok (st', n) ->
  wf st' /\ len st' = len st + 1.
Proof.
  intros W. unfold new_node.
  destruct (Z.leb_spec N (len st)) as [Full | Free]; [discriminate |].
  destruct (Z.ltb_spec (len st) 0) as [Neg | Pos]; [discriminate |].
  intros E. inversion E; subst. cbn [len]. unfold wf. cbn [len].
  rewrite wrap16_id by (unfold N in *; lia). lia.
Qed.

Lemma create_grows st s e l r st' n :
  wf st -> create st s e l r = Ok (st', n) ->
  wf st' /\ len st' = len st + 1.
Proof. unfold create. apply new_node_grows. Qed.

Lemma create2_grows rtl st s1 e1 l1 r1 s2 e2 l2 r2 st' a b :
  wf st -> create2 rtl st s1 e1 l1 r1 s2 e2 l2 r2 = Ok (st', a, b) ->
  wf st' /\ len st < len st'.
Proof.
  intros W. unfold create2. destruct rtl; intros E.
  - apply bind_ok in E. destruct E as ([sa x] & Ea & E).
    apply bind_ok in E. destruct E as ([sb y] & Eb & E).
    inversion E; subst.
    destruct (create_grows _ _ _ _ _ _ _ W Ea) as [Wa La].
    destruct (create_grows _ _ _ _ _ _ _ Wa Eb) as [Wb Lb].
    split; [exact Wb | lia].
  - apply bind_ok in E. destruct E as ([sa x] & Ea & E).
    apply bind_ok in E. destruct E as ([sb y] & Eb & E).
    inversion E; subst.
    destruct (create_grows _ _ _ _ _ _ _ W Ea) as [Wa La].
    destruct (create_grows _ _ _ _ _ _ _ Wa Eb) as [Wb Lb].
    split; [exact Wb | lia].
Qed.

Ltac two_creates W E :=
  let sa := fresh "sa" in let x := fresh "x" in
  let Ea := fresh "Ea" in let Wa := fresh "Wa" in
  let La := fresh "La" in let Wb := fresh "Wb" in let Lb := fresh "Lb" in
  apply bind_ok in E; destruct E as ([sa x] & Ea & E);
  destruct (create_grows _ _ _ _ _ _ _ W Ea) as [Wa La];
  destruct (create_grows _ _ _ _ _ _ _ Wa E) as [Wb Lb];
  split; [exact Wb | lia].

Ltac three_creates W E :=
  let sa := fresh "sa" in let x := fresh "x" in let y := fresh "y" in
  let Ea := fresh "Ea" in let Wa := fresh "Wa" in
  let La := fresh "La" in let Wb := fresh "Wb" in let Lb := fresh "Lb" in
  apply bind_ok in E; destruct E as ([[sa x] y] & Ea & E);
  destruct (create2_grows _ _ _ _ _ _ _ _ _ _ _ _ _ W Ea) as [Wa La];
  destruct (create_grows _ _ _ _ _ _ _ Wa E) as [Wb Lb];
  split; [exact Wb | lia].

Lemma balance_grows rtl st s e l r st' n :
  wf st -> balance rtl st s e l r = Ok (st', n) ->
  wf st' /\ len st < len st'.
Proof.
  intros W. unfold balance.
  destruct (height st r + bal_const <? height st l).
  - destruct (l =? T); [discriminate |].
    destruct (height st (right st l) <=? height st (left st l)).
    + intros E. two_creates W E.
    + destruct (right st l =? T); [discriminate |].
      intros E. three_creates W E.
  - destruct (height st l + bal_const <? height st r).
    + destruct (r =? T); [discriminate |].
      destruct (height st (left st r) <=? height st (right st r)).
      * intros E. two_creates W E.
      * destruct (left st r =? T); [discriminate |].
        intros E. three_creates W E.
    + intros E. destruct (new_node_grows _ _ _ _ _ _ _ _ W E) as [W' L'].
      split; [exact W' | lia].
Qed.

Lemma add_grows rtl fuel : forall st tree is_left s0 e0 st' n,
  wf st -> add rtl fuel st tree is_left s0 e0 = Ok (st', n) ->
  wf st' /\ len st < len st'.
Proof.
  induction fuel as [| f IH]; intros st tree is_left s0 e0 st' n W E;
    [discriminate |].
  cbn [add] in E. destruct (tree =? T).
  - destruct (new_node_grows _ _ _ _ _ _ _ _ W E) as [W' L'].
    split; [exact W' | lia].
  - destruct is_left.
    + apply bind_ok in E. destruct E as ([s1 n1] & E1 & E).
      destruct (IH _ _ _ _ _ _ _ W E1) as [W1 L1].
      destruct (balance_grows _ _ _ _ _ _ _ _ W1 E) as [W2 L2].
      split; [exact W2 | lia].
    + apply bind_ok in E. destruct E as ([s1 n1] & E1 & E).
      destruct (IH _ _ _ _ _ _ _ W E1) as [W1 L1].
      destruct (balance_grows _ _ _ _ _ _ _ _ W1 E) as [W2 L2].
      split; [exact W2 | lia].
Qed.

Lemma join_grows rtl fuel : forall st s0 e0 l r st' n,
  wf st -> join rtl fuel st s0 e0 l r = Ok (st', n) ->
  wf st' /\ len st < len st'.
Proof.
  induction fuel as [| f IH]; intros st s0 e0 l r st' n W E;
    [discriminate |].
  cbn [join] in E. destruct (l =? T).
  - apply (add_grows rtl f _ _ _ _ _ _ _ W E).
  - destruct (r =? T).
    + apply (add_grows rtl f _ _ _ _ _ _ _ W E).
    + destruct (hfield st r + bal_const <? hfield st l).
      * apply bind_ok in E. destruct E as ([s1 n1] & E1 & E).
        destruct (IH _ _ _ _ _ _ _ W E1) as [W1 L1].
        destruct (balance_grows _ _ _ _ _ _ _ _ W1 E) as [W2 L2].
        split; [exact W2 | lia].
      * destruct (hfield st l + bal_const <? hfield st r).
        -- apply bind_ok in E. destruct E as ([s1 n1] & E1 & E).
           destruct (IH _ _ _ _ _ _ _ W E1) as [W1 L1].
           destruct (balance_grows _ _ _ _ _ _ _ _ W1 E) as [W2 L2].
           split; [exact W2 | lia].
        -- destruct (create_grows _ _ _ _ _ _ _ W E) as [W' L'].
           split; [exact W' | lia].
Qed.

Lemma find_del_left_len rtl fuel : forall st tree s0 dbe st' news newl,
  wf st -> find_del_left rtl fuel st tree s0 dbe = Ok (st', news, newl) ->
  wf st' /\ len st <= len st'.
Proof.
  induction fuel as [| f IH]; intros st tree s0 dbe st' news newl W E;
    [discriminate |].
  cbn [find_del_left] in E. destruct (tree =? T).
  - inversion E; subst. split; [exact W | cbn; lia].
  - destruct (end_ st tree + 1 <? s0).
    + apply bind_ok in E. destruct E as ([[s1 n1] r1] & E1 & E).
      apply bind_ok in E. destruct E as ([s2 n2] & E2 & E).
      inversion E; subst.
      destruct (IH _ _ _ _ _ _ _ W E1) as [W1 L1].
      destruct (join_grows _ _ _ _ _ _ _ _ _ W1 E2) as [W2 L2].
      split; [exact W2 | lia].
    + destruct (s0 <? start st tree).
      * apply (IH _ _ _ _ _ _ _ W E).
      * inversion E; subst. split; [exact W | cbn; lia].
Qed.

Lemma find_del_right_len rtl fuel : forall st tree e0 dbs st' newe newr,
  wf st -> find_del_right rtl fuel st tree e0 dbs = Ok (st', newe, newr) ->
  wf st' /\ len st <= len st'.
Proof.
  induction fuel as [| f IH]; intros st tree e0 dbs st' newe newr W E;
    [discriminate |].
  cbn [find_del_right] in E. destruct (tree =? T).
  - inversion E; subst. split; [exact W | cbn; lia].
  - destruct (e0 <? start st tree - 1).
    + apply bind_ok in E. destruct E as ([[s1 n1] r1] & E1 & E).
      apply bind_ok in E. destruct E as ([s2 n2] & E2 & E).
      inversion E; subst.
      destruct (IH _ _ _ _ _ _ _ W E1) as [W1 L1].
      destruct (join_grows _ _ _ _ _ _ _ _ _ W1 E2) as [W2 L2].
      split; [exact W2 | lia].
    + destruct (end_ st tree <? e0).
      * apply (IH _ _ _ _ _ _ _ W E).
      * inversion E; subst. split; [exact W | cbn; lia].
Qed.

Lemma insert_range_grows rtl fuel : forall st tree s0 e0 st' n,
  wf st -> insert_range rtl fuel st tree s0 e0 = Ok (st', n) ->
  wf st' /\ len st < len st'.
Proof.
  induction fuel as [| f IH]; intros st tree s0 e0 st' n W E;
    [discriminate |].
  cbn [insert_range] in E. destruct (tree =? T).
  - destruct (new_node_grows _ _ _ _ _ _ _ _ (W : wf (blit st s0 e0)) E)
      as [W' L'].
    split; [exact W' | cbn in L'; lia].
  - destruct (e0 <? start st tree - 1).
    + apply bind_ok in E. destruct E as ([s1 n1] & E1 & E).
      destruct (IH _ _ _ _ _ _ W E1) as [W1 L1].
      destruct (join_grows _ _ _ _ _ _ _ _ _ W1 E) as [W2 L2].
      split; [exact W2 | lia].
    + destruct (end_ st tree + 1 <? s0).
      * apply bind_ok in E. destruct E as ([s1 n1] & E1 & E).
        destruct (IH _ _ _ _ _ _ W E1) as [W1 L1].
        destruct (join_grows _ _ _ _ _ _ _ _ _ W1 E) as [W2 L2].
        split; [exact W2 | lia].
      * apply bind_ok in E. destruct E as ([[s1 news] newl] & E1 & E).
        apply bind_ok in E. destruct E as ([[s2 newe] newr] & E2 & E).
        assert (G1 : wf s1 /\ len st <= len s1).
        { destruct (start st tree <=? s0).
          - inversion E1; subst. split; [exact W | lia].
          - apply (find_del_left_len _ _ _ _ _ _ _ _ _ W E1). }
        destruct G1 as [W1 L1].
        assert (G2 : wf s2 /\ len s1 <= len s2).
        { destruct (e0 <=? end_ st tree).
          - inversion E2; subst. split; [exact W1 | lia].
          - apply (find_del_right_len _ _ _ _ _ _ _ _ _ W1 E2). }
        destruct G2 as [W2 L2].
        destruct (join_grows _ _ _ _ _ _ _ _ _ W2 E) as [W3 L3].
        split; [exact W3 | lia].
Qed.

Lemma insert_grows rtl fuel st s0 e0 st' :
  wf st -> insert rtl fuel st s0 e0 = Ok st' ->
  wf st' /\ len st < len st'.
Proof.
  intros W E. unfold insert in E.
  apply bind_ok in E. destruct E as ([s1 n1] & E1 & E).
  inversion E; subst.
  apply (insert_range_grows rtl fuel _ _ _ _ _ _ (W : wf (set_trace st [])) E1).
Qed.

Lemma inserts_grow rtl fuel ops : forall st st',
  wf st -> inserts rtl fuel st ops = Ok st' ->
  wf st' /\ len st + Z.of_nat (length ops) <= len st'.
Proof.
  induction ops as [| [s0 e0] ops IH]; intros st st' W E.
  - inversion E; subst. split; [exact W | cbn [length]; lia].
  - cbn [inserts] in E. apply bind_ok in E. destruct E as (s1 & E1 & E).
    destruct (insert_grows _ _ _ _ _ _ W E1) as [W1 L1].
    destruct (IH _ _ W1 E) as [W2 L2].
    split; [exact W2 | cbn [length]; lia].
Qed.

End Diet3Alloc.

(* ================================================================== *)
(** * The balanced DIET: what is handed to [blit] *)

Module Diet3Blit.
Import Ivl IvlFacts Diet3 Diet3Inv Diet3Build Diet3Insert Diet3Alloc.
Import Diet3Runs Diet3BlitDefs.

Lemma bounded_app L1 s e L2 :
  bounded (L1 ++ (s, e) :: L2) ->
  bounded L1 /\ bounded L2 /\ -32768 < s /\ e < 32767.
Proof.
  intros B. split; [| split].
  - intros a b H. apply B. apply in_or_app. left. exact H.
  - intros a b H. apply B. apply in_or_app. right. right. exact H.
  - apply B. apply in_or_app. right. left. reflexivity.
Qed.

Lemma bounded_ins L s0 e0 L' :
  bounded L -> -32768 < s0 -> e0 < 32767 -> ins L s0 e0 L' -> bounded L'.
Proof.
  intros B H1 H2 [Iso Cov] a b H.
  pose proof (iso_in _ _ _ Iso H) as Hab.
  assert (Ca : covers L' a) by (apply (covers_in a b); [exact H | lia]).
  assert (Cb : covers L' b) by (apply (covers_in a b); [exact H | lia]).
  apply Cov in Ca. apply Cov in Cb. split.
  - destruct Ca as [(c & d & Hc & Hz) | Hz]; [| lia].
    destruct (B c d Hc). lia.
  - destruct Cb as [(c & d & Hc & Hz) | Hz]; [| lia].
    destruct (B c d Hc). lia.
Qed.

Lemma post_ok {A : Type} (r : result A) (P : A -> Prop) (a : A) :
  post r P -> r = Ok a -> P a.
Proof. intros H E. rewrite E in H. exact H. Qed.

(** [find_del_left] calls [blit] once, on a range that ends at
    [def_blit_end] and starts at [start] or just after a stored interval
    that contains [start - 1] or [start]. *)
Lemma find_del_left_trace rtl fuel : forall st tree s0 dbe t st' news newl,
  wf st -> rep st tree t -> iso (inorder t) -> avl t ->
  depth t + 2 * N + 2 < Z.of_nat fuel ->
  find_del_left rtl fuel st tree s0 dbe = Ok (st', news, newl) ->
  exists a,
    trace st' = trace st ++ [(wrap16 a, wrap16 dbe)] /\ s0 <= a /\
    (a = s0 \/ exists s, In (s, a - 1) (inorder t)) /\
    (forall z, s0 <= z -> ~ covers (inorder t) z -> a <= z).
Proof.
  induction fuel as [| f IH];
    intros st tree s0 dbe t st' news newl W R Iso A Hf E.
  - discriminate E.
  - cbn [find_del_left] in E. destruct (Z.eqb_spec tree T) as [ET | NE].
    + injection E as E1 _ _. subst st'. exists s0.
      split; [reflexivity |]. split; [lia |]. split; [left; reflexivity |].
      intros z Hz _. exact Hz.
    + destruct (rep_inorder st tree t W R NE)
        as (tl & tr & Et & Rl & Rr & Ein & Ed).
      rewrite Ein in *. rewrite Et in A. cbn [avl] in A.
      destruct A as (Al & Ar & _).
      pose proof (proj1 (iso_mid _ _ _ _) Iso) as (I1 & I2 & Hs & B & Ab).
      pose proof (depth_nonneg tl) as Pl. pose proof (depth_nonneg tr) as Pr.
      destruct (Z.ltb_spec (end_ st tree + 1) s0) as [H1 | H1].
      * apply bind_ok in E. destruct E as ([[s1 news1] newr] & E1 & E).
        apply bind_ok in E. destruct E as ([s2 n2] & E2 & E).
        injection E as -> _ _.
        assert (Hf1 : depth tr + 2 * N + 2 < Z.of_nat f) by lia.
        destruct (post_ok _ _ _
                    (find_del_left_ok rtl f st (right st tree) s0 dbe tr
                       W Rr I2 Ar Hf1) E1)
          as (W1 & X1 & _ & (t1 & R1 & _)).
        cbn [fst snd] in *.
        assert (Hj : depth tl + depth t1 + 1 < Z.of_nat f).
        { pose proof (rep_depth_le _ _ _ W1 R1). unfold N in *. lia. }
        destruct (post_ok _ _ _
                    (join_built rtl f s1 (start st tree) (end_ st tree)
                       (left st tree) newr tl t1 W1
                       (rep_ext _ _ _ _ X1 Rl) R1 Hj) E2)
          as (_ & _ & T2 & _).
        cbn [fst snd] in T2.
        destruct (IH st (right st tree) s0 dbe tr s1 news1 newr
                    W Rr I2 Ar Hf1 E1) as (a & Ta & Ha & Ia & Ca).
        exists a. split; [rewrite T2; exact Ta |]. split; [exact Ha |].
        split.
        -- destruct Ia as [Ia | (s & Hs')]; [left; exact Ia | right].
           exists s. apply in_or_app. right. right. exact Hs'.
        -- intros z Hz Nz. apply Ca; [exact Hz |].
           intros C. apply Nz. apply covers_mid. right. right. exact C.
      * destruct (Z.ltb_spec s0 (start st tree)) as [H2 | H2].
        -- assert (Hf1 : depth tl + 2 * N + 2 < Z.of_nat f) by lia.
           destruct (IH st (left st tree) s0 dbe tl st' news newl
                       W Rl I1 Al Hf1 E) as (a & Ta & Ha & Ia & Ca).
           exists a. split; [exact Ta |]. split; [exact Ha |].
           split.
           ++ destruct Ia as [Ia | (s & Hs')]; [left; exact Ia | right].
              exists s. apply in_or_app. left. exact Hs'.
           ++ intros z Hz Nz. apply Ca; [exact Hz |].
              intros C. apply Nz. apply covers_mid. left. exact C.
        -- injection E as E1 _ _. subst st'.
           exists (end_ st tree + 1).
           split; [reflexivity |]. split; [lia |]. split.
           ++ right. exists (start st tree).
              replace (end_ st tree + 1 - 1) with (end_ st tree) by lia.
              apply in_or_app. right. left. reflexivity.
           ++ intros z Hz Nz.
              destruct (Z_le_gt_dec z (end_ st tree)) as [G | G]; [| lia].
              exfalso. apply Nz. apply covers_mid. right. left. lia.
Qed.

Lemma find_del_right_trace rtl fuel : forall st tree e0 dbs t st' newe newr,
  wf st -> rep st tree t -> iso (inorder t) -> avl t ->
  depth t + 2 * N + 2 < Z.of_nat fuel ->
  find_del_right rtl fuel st tree e0 dbs = Ok (st', newe, newr) ->
  exists b,
    trace st' = trace st ++ [(wrap16 dbs, wrap16 b)] /\ b <= e0 /\
    (b = e0 \/ exists e, In (b + 1, e) (inorder t)) /\
    (forall z, z <= e0 -> ~ covers (inorder t) z -> z <= b).
Proof.
  induction fuel as [| f IH];
    intros st tree e0 dbs t st' newe newr W R Iso A Hf E.
  - discriminate E.
  - cbn [find_del_right] in E. destruct (Z.eqb_spec tree T) as [ET | NE].
    + injection E as E1 _ _. subst st'. exists e0.
      split; [reflexivity |]. split; [lia |]. split; [left; reflexivity |].
      intros z Hz _. exact Hz.
    + destruct (rep_inorder st tree t W R NE)
        as (tl & tr & Et & Rl & Rr & Ein & Ed).
      rewrite Ein in *. rewrite Et in A. cbn [avl] in A.
      destruct A as (Al & Ar & _).
      pose proof (proj1 (iso_mid _ _ _ _) Iso) as (I1 & I2 & Hs & B & Ab).
      pose proof (depth_nonneg tl) as Pl. pose proof (depth_nonneg tr) as Pr.
      destruct (Z.ltb_spec e0 (start st tree - 1)) as [H1 | H1].
      * apply bind_ok in E. destruct E as ([[s1 newe1] newl] & E1 & E).
        apply bind_ok in E. destruct E as ([s2 n2] & E2 & E).
        injection E as -> _ _.
        assert (Hf1 : depth tl + 2 * N + 2 < Z.of_nat f) by lia.
        destruct (post_ok _ _ _
                    (find_del_right_ok rtl f st (left st tree) e0 dbs tl
                       W Rl I1 Al Hf1) E1)
          as (W1 & X1 & _ & (t1 & R1 & _)).
        cbn [fst snd] in *.
        assert (Hj : depth t1 + depth tr + 1 < Z.of_nat f).
        { pose proof (rep_depth_le _ _ _ W1 R1). unfold N in *. lia. }
        destruct (post_ok _ _ _
                    (join_built rtl f s1 (start st tree) (end_ st tree)
                       newl (right st tree) t1 tr W1 R1
                       (rep_ext _ _ _ _ X1 Rr) Hj) E2)
          as (_ & _ & T2 & _).
        cbn [fst snd] in T2.
        destruct (IH st (left st tree) e0 dbs tl s1 newe1 newl
                    W Rl I1 Al Hf1 E1) as (b & Tb & Hb & Ib & Cb).
        exists b. split; [rewrite T2; exact Tb |]. split; [exact Hb |].
        split.
        -- destruct Ib as [Ib | (e & He')]; [left; exact Ib | right].
           exists e. apply in_or_app. left. exact He'.
        -- intros z Hz Nz. apply Cb; [exact Hz |].
           intros C. apply Nz. apply covers_mid. left. exact C.
      * destruct (Z.ltb_spec (end_ st tree) e0) as [H2 | H2].
        -- assert (Hf1 : depth tr + 2 * N + 2 < Z.of_nat f) by lia.
           destruct (IH st (right st tree) e0 dbs tr st' newe newr
                       W Rr I2 Ar Hf1 E) as (b & Tb & Hb & Ib & Cb).
           exists b. split; [exact Tb |]. split; [exact Hb |].
           split.
           ++ destruct Ib as [Ib | (e & He')]; [left; exact Ib | right].
              exists e. apply in_or_app. right. right. exact He'.
           ++ intros z Hz Nz. apply Cb; [exact Hz |].
              intros C. apply Nz. apply covers_mid. right. right. exact C.
        -- injection E as E1 _ _. subst st'.
           exists (start st tree - 1).
           split; [reflexivity |]. split; [lia |]. split.
           ++ right. exists (end_ st tree).
              replace (start st tree - 1 + 1) with (start st tree) by lia.
              apply in_or_app. right. left. reflexivity.
           ++ intros z Hz Nz.
              destruct (Z_le_gt_dec (start st tree) z) as [G | G]; [| lia].
              exfalso. apply Nz. apply covers_mid. right. left. lia.
Qed.

Lemma covers_one a b z : covers [(a, b)] z <-> a <= z <= b.
Proof.
  rewrite covers_cons. pose proof (covers_nil z). tauto.
Qed.

(** The ranges that one [insert_range] hands to [blit] lie inside the
    inserted range and contain every integer of it that was not
    stored. *)
Lemma insert_range_trace rtl fuel : forall st tree s0 e0 t st' n,
  wf st -> rep st tree t -> iso (inorder t) -> avl t -> s0 <= e0 ->
  bounded (inorder t) -> -32768 < s0 -> e0 < 32767 ->
  depth t + 3 * N + 4 < Z.of_nat fuel ->
  insert_range rtl fuel st tree s0 e0 = Ok (st', n) ->
  exists new,
    trace st' = trace st ++ new /\
    (forall z, covers new z -> s0 <= z <= e0) /\
    (forall z, s0 <= z <= e0 -> ~ covers (inorder t) z -> covers new z).
Proof.
  induction fuel as [| f IH];
    intros st tree s0 e0 t st' n W R Iso A H0 Bd Hlo Hhi Hf E.
  - discriminate E.
  - cbn [insert_range] in E. destruct (Z.eqb_spec tree T) as [ET | NE].
    + cbv zeta in E.
      destruct (post_ok _ _ _
                  (new_node_rep (blit st s0 e0) s0 e0 1 T T Leaf Leaf
                     (wf_blit _ _ _ W) (rep_leaf _) (rep_leaf _) (eq_refl _))
                  E) as (_ & _ & T2 & _).
      cbn [fst snd] in T2.
      exists [(s0, e0)]. split.
      { rewrite T2. unfold blit. cbn [trace set_trace].
        rewrite !wrap16_id by lia. reflexivity. }
      split; intros z Hz.
      * apply covers_one in Hz. exact Hz.
      * intros _. apply covers_one. exact Hz.
    + destruct (rep_inorder st tree t W R NE)
        as (tl & tr & Et & Rl & Rr & Ein & Ed).
      rewrite Ein in *. rewrite Et in A. cbn [avl] in A.
      destruct A as (Al & Ar & _).
      pose proof (proj1 (iso_mid _ _ _ _) Iso) as (I1 & I2 & Hs & B & Ab).
      destruct (bounded_app _ _ _ _ Bd) as (Bl & Br & Bs & Be).
      pose proof (depth_nonneg tl) as Pl. pose proof (depth_nonneg tr) as Pr.
      cbv zeta in E.
      destruct (Z.ltb_spec e0 (start st tree - 1)) as [H1 | H1].
      * (* entirely to the left *)
        apply bind_ok in E. destruct E as ([s1 n1] & E1 & E2).
        assert (Hf1 : depth tl + 3 * N + 4 < Z.of_nat f) by lia.
        destruct (post_ok _ _ _
                    (insert_range_ok rtl f st (left st tree) s0 e0 tl
                       W Rl I1 Al H0 Hf1) E1)
          as (W1 & X1 & _ & (t1 & R1 & _)).
        cbn [fst snd] in *.
        assert (Hj : depth t1 + depth tr + 1 < Z.of_nat f).
        { pose proof (rep_depth_le _ _ _ W1 R1). unfold N in *. lia. }
        destruct (post_ok _ _ _
                    (join_built rtl f s1 (start st tree) (end_ st tree)
                       n1 (right st tree) t1 tr W1 R1
                       (rep_ext _ _ _ _ X1 Rr) Hj) E2)
          as (_ & _ & T2 & _).
        cbn [fst snd] in T2.
        destruct (IH st (left st tree) s0 e0 tl s1 n1 W Rl I1 Al H0 Bl
                    Hlo Hhi Hf1 E1) as (new & Tn & In1 & Cn).
        exists new. split; [rewrite T2; exact Tn |].
        split; [exact In1 |].
        intros z Hz Nz. apply Cn; [exact Hz |].
        intros C. apply Nz. apply covers_mid. left. exact C.
      * destruct (Z.ltb_spec (end_ st tree + 1) s0) as [H2 | H2].
        -- (* entirely to the right *)
           apply bind_ok in E. destruct E as ([s1 n1] & E1 & E2).
           assert (Hf1 : depth tr + 3 * N + 4 < Z.of_nat f) by lia.
           destruct (post_ok _ _ _
                       (insert_range_ok rtl f st (right st tree) s0 e0 tr
                          W Rr I2 Ar H0 Hf1) E1)
             as (W1 & X1 & _ & (t1 & R1 & _)).
           cbn [fst snd] in *.
           assert (Hj : depth tl + depth t1 + 1 < Z.of_nat f).
           { pose proof (rep_depth_le _ _ _ W1 R1). unfold N in *. lia. }
           destruct (post_ok _ _ _
                       (join_built rtl f s1 (start st tree) (end_ st tree)
                          (left st tree) n1 tl t1 W1
                          (rep_ext _ _ _ _ X1 Rl) R1 Hj) E2)
             as (_ & _ & T2 & _).
           cbn [fst snd] in T2.
           destruct (IH st (right st tree) s0 e0 tr s1 n1 W Rr I2 Ar H0 Br
                       Hlo Hhi Hf1 E1) as (new & Tn & In1 & Cn).
           exists new. split; [rewrite T2; exact Tn |].
           split; [exact In1 |].
           intros z Hz Nz. apply Cn; [exact Hz |].
           intros C. apply Nz. apply covers_mid. right. right. exact C.
        -- (* the node is met *)
           set (s := start st tree) in *. set (e := end_ st tree) in *.
           apply bind_ok in E. destruct E as ([[s1 news] newl] & E1 & E).
           apply bind_ok in E. destruct E as ([[s2 newe] newr] & E2 & E3).
           (* the lower end *)
           assert (Q1 :
             wf s1 /\ ext st s1 /\
             (exists t1, rep s1 newl t1) /\
             exists new1,
               trace s1 = trace st ++ new1 /\
               (forall z, covers new1 z -> s0 <= z <= s - 1) /\
               (forall z, s0 <= z <= s - 1 -> ~ covers (inorder tl) z ->
                          covers new1 z)).
           { destruct (Z.leb_spec s s0) as [G | G].
             - injection E1 as <- _ <-.
               split; [exact W |]. split; [apply ext_refl |].
               split; [exists tl; exact Rl |].
               exists []. rewrite app_nil_r. split; [reflexivity |].
               split; intros z Hz; [exfalso; apply (covers_nil z Hz) | lia].
             - assert (Hf1 : depth tl + 2 * N + 2 < Z.of_nat f)
                 by (unfold N in *; lia).
               destruct (post_ok _ _ _
                           (find_del_left_ok rtl f st (left st tree) s0 _ tl
                              W Rl I1 Al Hf1) E1)
                 as (W1 & X1 & _ & (t1 & R1 & _)).
               cbn [fst snd] in *.
               split; [exact W1 |]. split; [exact X1 |].
               split; [exists t1; exact R1 |].
               destruct (find_del_left_trace rtl f st (left st tree) s0 _ tl
                           s1 news newl W Rl I1 Al Hf1 E1)
                 as (a & Ta & Ha & Ia & Ca).
               assert (Ra : -32768 <= a <= 32767).
               { destruct Ia as [-> | (s' & Hs')]; [lia |].
                 destruct (Bl _ _ Hs'). pose proof (iso_in _ _ _ I1 Hs').
                 lia. }
               rewrite (wrap16_id (s - 1)) in Ta by lia.
               rewrite (wrap16_id (s - 1)) in Ta by lia.
               rewrite (wrap16_id a) in Ta by exact Ra.
               exists [(a, s - 1)]. split; [exact Ta |].
               split; intros z Hz.
               + apply covers_one in Hz. lia.
               + intros Nz. apply covers_one.
                 split; [apply Ca; [lia | exact Nz] | lia]. }
           destruct Q1 as (W1 & X1 & (t1 & R1) & new1 & T1 & In1 & Cn1).
           (* the upper end *)
           pose proof (rep_ext _ _ _ _ X1 Rr) as Rr1.
           assert (Q2 :
             wf s2 /\ ext s1 s2 /\
             (exists t2, rep s2 newr t2) /\
             exists new2,
               trace s2 = trace s1 ++ new2 /\
               (forall z, covers new2 z -> e + 1 <= z <= e0) /\
               (forall z, e + 1 <= z <= e0 -> ~ covers (inorder tr) z ->
                          covers new2 z)).
           { destruct (Z.leb_spec e0 e) as [G | G].
             - injection E2 as <- _ <-.
               split; [exact W1 |]. split; [apply ext_refl |].
               split; [exists tr; exact Rr1 |].
               exists []. rewrite app_nil_r. split; [reflexivity |].
               split; intros z Hz; [exfalso; apply (covers_nil z Hz) | lia].
             - assert (Hf1 : depth tr + 2 * N + 2 < Z.of_nat f)
                 by (unfold N in *; lia).
               destruct (post_ok _ _ _
                           (find_del_right_ok rtl f s1 (right st tree) e0 _ tr
                              W1 Rr1 I2 Ar Hf1) E2)
                 as (W2 & X2 & _ & (t2 & R2 & _)).
               cbn [fst snd] in *.
               split; [exact W2 |]. split; [exact X2 |].
               split; [exists t2; exact R2 |].
               destruct (find_del_right_trace rtl f s1 (right st tree) e0 _ tr
                           s2 newe newr W1 Rr1 I2 Ar Hf1 E2)
                 as (b & Tb & Hb & Ib & Cb).
               assert (Rb : -32768 <= b <= 32767).
               { destruct Ib as [-> | (e' & He')]; [lia |].
                 destruct (Br _ _ He'). pose proof (iso_in _ _ _ I2 He').
                 lia. }
               rewrite (wrap16_id (e + 1)) in Tb by lia.
               rewrite (wrap16_id (e + 1)) in Tb by lia.
               rewrite (wrap16_id b) in Tb by exact Rb.
               exists [(e + 1, b)]. split; [exact Tb |].
               split; intros z Hz.
               + apply covers_one in Hz. lia.
               + intros Nz. apply covers_one.
                 split; [lia | apply Cb; [lia | exact Nz]]. }
           destruct Q2 as (W2 & X2 & (t2 & R2) & new2 & T2 & In2 & Cn2).
           assert (Hj : depth t1 + depth t2 + 1 < Z.of_nat f).
           { pose proof (rep_depth_le _ _ _ W1 R1).
             pose proof (rep_depth_le _ _ _ W2 R2). unfold N in *. lia. }
           destruct (post_ok _ _ _
                       (join_built rtl f s2 news newe newl newr t1 t2 W2
                          (rep_ext _ _ _ _ X2 R1) R2 Hj) E3)
             as (_ & _ & T3 & _).
           cbn [fst snd] in T3.
           exists (new1 ++ new2).
           split; [rewrite T3, T2, T1, app_assoc; reflexivity |].
           split.
           ++ intros z Hz. apply covers_app in Hz.
              destruct Hz as [Hz | Hz].
              ** specialize (In1 z Hz). lia.
              ** specialize (In2 z Hz). lia.
           ++ intros z Hz Nz. apply covers_app.
              assert (Nm : ~ s <= z <= e).
              { intros C. apply Nz. apply covers_mid. right. left. exact C. }
              destruct (Z_lt_ge_dec z s) as [G | G].
              ** left. apply Cn1; [lia |].
                 intros C. apply Nz. apply covers_mid. left. exact C.
              ** right. apply Cn2; [lia |].
                 intros C. apply Nz. apply covers_mid. right. right. exact C.
Qed.


(** ** Whole runs *)

Lemma d3_inserts_bounded rtl fuel ops : forall st t,
  enough fuel -> Inv st t -> bounded (inorder t) ->
  Forall (fun op => -32768 < fst op <= snd op /\ snd op < 32767) ops ->
  post (inserts rtl fuel st ops)
       (fun st' => exists t', Inv st' t' /\ bounded (inorder t')).
Proof.
  induction ops as [| [s0 e0] ops IH]; intros st t E I B F.
  - cbn [inserts post]. exists t. split; assumption.
  - inversion F as [| x l F1 F2]; subst. cbn [fst snd] in F1.
    cbn [inserts].
    apply (post_bind _ _ _ _
             (d3_insert_ok rtl fuel st t s0 e0 E I ltac:(lia))).
    intros s1 (_ & t1 & I1 & C1 & _).
    apply (IH s1 t1 E I1); [| exact F2].
    apply (bounded_ins (inorder t) s0 e0); [exact B | lia | lia | exact C1].
Qed.

Lemma d3_insert_trace rtl fuel st t s0 e0 st' :
  enough fuel -> Inv st t -> bounded (inorder t) ->
  -32768 < s0 -> s0 <= e0 -> e0 < 32767 ->
  insert rtl fuel st s0 e0 = Ok st' ->
  (forall z, covers (trace st') z -> s0 <= z <= e0) /\
  (forall z, s0 <= z <= e0 -> ~ covers (inorder t) z ->
             covers (trace st') z).
Proof.
  intros E [W R Iso A] B H1 H0 H2 Ei. unfold insert in Ei.
  apply bind_ok in Ei. destruct Ei as ([s1 r] & E1 & E2).
  injection E2 as <-.
  assert (X0 : ext st (set_trace st [])).
  { split; [cbn; lia | reflexivity]. }
  assert (W0 : wf (set_trace st [])) by exact W.
  pose proof (rep_ext _ _ _ _ X0 R) as R0.
  destruct (insert_range_trace rtl fuel (set_trace st []) (root st) s0 e0 t
              s1 r W0 R0 Iso A H0 B H1 H2
              (enough_depth fuel t _ _ E W0 R0) E1)
    as (new & Tn & In1 & Cn).
  change (trace (set_trace st [])) with (@nil (Z * Z)) in Tn.
  cbn [app] in Tn.
  change (trace (set_root s1 r)) with (trace s1). rewrite Tn.
  split; assumption.
Qed.

End Diet3Blit.

(* ================================================================== *)
(** * Both balanced trees: the height is logarithmic *)

Module LogHeight.
Import Ivl IvlFacts.

Lemma pow_half (d : Z) :
  1 <= d -> 2 ^ (d / 2) <= 2 ^ ((d - 1) / 2) + 2 ^ ((d - 2) / 2).
Proof.
  intros H.
  assert (C : (d - 1) / 2 = d / 2 \/
              ((d - 1) / 2 = d / 2 - 1 /\ (d - 2) / 2 = d / 2 - 1 /\
               1 <= d / 2)).
  { Z.div_mod_to_equations. lia. }
  destruct C as [C | (C1 & C2 & C3)].
  - rewrite C. pose proof (Z.pow_nonneg 2 ((d - 2) / 2)). lia.
  - rewrite C1, C2.
    replace (d / 2) with (Z.succ (d / 2 - 1)) at 1 by lia.
    rewrite Z.pow_succ_r by lia. lia.
Qed.

Lemma pow_half_le (a b : Z) : a <= b -> 0 <= b -> 2 ^ (a / 2) <= 2 ^ (b / 2).
Proof.
  intros H Hb. destruct (Z_lt_ge_dec a 0) as [Neg | Pos].
  - rewrite (Z.pow_neg_r 2 (a / 2)) by (Z.div_mod_to_equations; lia).
    apply Z.pow_nonneg. lia.
  - apply Z.pow_le_mono_r; [lia |]. apply Z.div_le_mono; lia.
Qed.

(** The counting step at a node whose subtrees differ in height by at
    most one. *)
Lemma pow_half_node (dl dr sl sr : Z) :
  0 <= dl -> 0 <= dr -> -1 <= dl - dr <= 1 ->
  2 ^ (dl / 2) <= sl + 1 -> 2 ^ (dr / 2) <= sr + 1 ->
  2 ^ ((1 + Z.max dl dr) / 2) <= (1 + sl + sr) + 1.
Proof.
  intros Hl Hr Hb Sl Sr.
  pose proof (pow_half (1 + Z.max dl dr) ltac:(lia)) as P.
  destruct (Z.max_spec dl dr) as [(Hm & E) | (Hm & E)]; rewrite E in *.
  - replace (1 + dr - 1) with dr in P by lia.
    pose proof (pow_half_le (1 + dr - 2) dl ltac:(lia) Hl). lia.
  - replace (1 + dl - 1) with dl in P by lia.
    pose proof (pow_half_le (1 + dl - 2) dr ltac:(lia) Hr). lia.
Qed.

Lemma avl_size t :
  avl t -> 2 ^ (depth t / 2) <= Z.of_nat (length (handles t)) + 1.
Proof.
  induction t as [| l IHl h s e r IHr]; cbn [avl depth handles length].
  - intros _. cbn. lia.
  - intros (Al & Ar & Hb). rewrite length_app.
    pose proof (depth_nonneg l). pose proof (depth_nonneg r).
    pose proof (pow_half_node (depth l) (depth r)
                  (Z.of_nat (length (handles l)))
                  (Z.of_nat (length (handles r)))
                  ltac:(lia) ltac:(lia) Hb (IHl Al) (IHr Ar)).
    lia.
Qed.

Lemma nodup_bounded_length (l : list Z) (n : Z) :
  0 <= n -> NoDup l -> (forall i, In i l -> 0 <= i < n) ->
  Z.of_nat (length l) <= n.
Proof.
  intros Hn Nd B.
  assert (I : incl l (map Z.of_nat (seq 0 (Z.to_nat n)))).
  { intros i Hi. specialize (B i Hi).
    apply in_map_iff. exists (Z.to_nat i). split; [lia |].
    apply in_seq. lia. }
  pose proof (NoDup_incl_length Nd I) as H.
  rewrite length_map, length_seq in H. lia.
Qed.

(** ** avl_tree_ref.c *)

Import Avl AvlInv AvlMid AvlInsert AvlQuery AvlChecksFacts.

(** A duplicate-free list of nodes of the subtree of [x] that is long
    enough for its height. *)
Lemma subtree_nodes st :
  Inv st ->
  forall (n : nat) x, x = T \/ valid st x -> height st x <= Z.of_nat n ->
    exists ds, NoDup ds /\ (forall j, In j ds -> x <> T /\ desc st x j) /\
               2 ^ (height st x / 2) <= Z.of_nat (length ds) + 1.
Proof.
  intros I. induction n as [| n IH]; intros x Hx Hn.
  - exists []. split; [constructor |]. split; [intros j [] |].
    assert (E : height st x = 0).
    { destruct Hx as [-> | Vx]; [apply height_T |].
      rewrite (height_valid _ _ (inv_valid_not_T _ _ I Vx)) in *.
      pose proof (inv_pos _ I x Vx). lia. }
    rewrite E. cbn. lia.
  - destruct Hx as [-> | Vx].
    + exists []. split; [constructor |]. split; [intros j [] |].
      rewrite height_T. cbn. lia.
    + pose proof (inv_valid_not_T _ _ I Vx) as HxT.
      rewrite (height_valid _ _ HxT) in *.
      pose proof (inv_height_child st true x I Vx) as Hl.
      pose proof (inv_height_child st false x I Vx) as Hr.
      cbn [ch] in Hl, Hr.
      destruct (IH (left st x) (inv_child st true x I Vx) ltac:(lia))
        as (dl & Nl & Dl & Sl).
      destruct (IH (right st x) (inv_child st false x I Vx) ltac:(lia))
        as (dr & Nr & Dr & Sr).
      destruct (inv_ok _ I x Vx) as [Oh Ob _].
      unfold hgt_ok in Oh. unfold bal_ok in Ob.
      exists (x :: dl ++ dr). split; [| split].
      * constructor.
        -- intros Hin. apply in_app_or in Hin.
           destruct Hin as [Hin | Hin].
           ++ destruct (Dl x Hin) as (HlT & D).
              apply (child_not_above st true x I Vx HlT D).
           ++ destruct (Dr x Hin) as (HrT & D).
              apply (child_not_above st false x I Vx HrT D).
        -- apply NoDup_app; [exact Nl | exact Nr |].
           intros j Hj1 Hj2.
           destruct (Dl j Hj1) as (HlT & D1).
           destruct (Dr j Hj2) as (HrT & D2).
           apply (subtrees_disjoint st x j I Vx HlT HrT D1 D2).
      * intros j [<- | Hin]; [split; [exact HxT | apply desc_refl] |].
        split; [exact HxT |].
        apply in_app_or in Hin. destruct Hin as [Hin | Hin].
        -- destruct (Dl j Hin) as (HlT & D).
           apply (desc_trans st x (left st x) j); [| exact D].
           apply desc_left; [apply desc_refl | exact HlT].
        -- destruct (Dr j Hin) as (HrT & D).
           apply (desc_trans st x (right st x) j); [| exact D].
           apply desc_right; [apply desc_refl | exact HrT].
      * rewrite Oh. cbn [length]. rewrite length_app.
        pose proof (pow_half_node (height st (left st x))
                      (height st (right st x))
                      (Z.of_nat (length dl)) (Z.of_nat (length dr))
                      ltac:(lia) ltac:(lia) ltac:(lia) Sl Sr).
        lia.
Qed.

Lemma avl_height_bound st :
  Inv st -> 2 ^ (height st (root st) / 2) <= len st + 1.
Proof.
  intros I.
  assert (Hr : root st = T \/ valid st (root st)).
  { destruct (Z.eq_dec (len st) 0) as [E0 | N0].
    - left. apply (inv_empty _ I E0).
    - right. apply (inv_root _ I). pose proof (inv_len _ I). lia. }
  assert (Hh : 0 <= height st (root st)).
  { destruct Hr as [-> | Vr]; [rewrite height_T; lia |].
    rewrite (height_valid _ _ (inv_valid_not_T _ _ I Vr)).
    pose proof (inv_pos _ I _ Vr). lia. }
  destruct (subtree_nodes st I (Z.to_nat (height st (root st))) (root st) Hr)
    as (ds & Nd & Dd & Sd); [lia |].
  assert (L : Z.of_nat (length ds) <= len st).
  { apply nodup_bounded_length;
      [apply (inv_len _ I) | exact Nd |].
    intros j Hj. destruct (Dd j Hj) as (HrT & D).
    destruct Hr as [E | Vr]; [contradiction |].
    apply (desc_valid st _ j I Vr D). }
  lia.
Qed.

End LogHeight.

(* ================================================================== *)
(** * The unbalanced DIET: stored trees *)

Module DietBuild.
Import Ivl IvlFacts Diet DietInv.

Lemma dpost_bind {A B : Type} (r : result A) (k : A -> result B)
      (P : A -> Prop) (Q : B -> Prop) :
  post r P -> (forall a, P a -> post (k a) Q) -> post (bind r k) Q.
Proof.
  destruct r as [a | e]; cbn [post bind]; intros H K; [apply K, H | exact H].
Qed.

Lemma dpost_weaken {A : Type} (r : result A) (P Q : A -> Prop) :
  post r P -> (forall a, P a -> Q a) -> post r Q.
Proof.
  destruct r as [a | e]; cbn [post]; intros H K; [apply K, H | exact H].
Qed.

Lemma dpost_cases {A : Type} (r : result A) (P : A -> Prop) :
  post r P -> r = Err StoreOutsideArena \/ exists a, r = Ok a /\ P a.
Proof.
  destruct r as [a | e]; cbn [post]; intros H.
  - right. exists a. split; [reflexivity | exact H].
  - left. rewrite H. reflexivity.
Qed.

Lemma dext_refl st : ext st st.
Proof. split; [lia | reflexivity]. Qed.

Lemma dext_trans st1 st2 st3 : ext st1 st2 -> ext st2 st3 -> ext st1 st3.
Proof.
  intros [L1 E1] [L2 E2]. split; [lia |].
  intros i Hi. rewrite E2 by lia. apply E1. exact Hi.
Qed.

Lemma dext_blit st a b : ext st (blit st a b).
Proof. split; [cbn; lia | reflexivity]. Qed.

Lemma dwf_not_T st h : wf st -> 0 <= h < len st -> h <> T.
Proof. unfold wf, N, T. lia. Qed.

Lemma drep_T st t : wf st -> rep st T t -> t = Leaf.
Proof.
  intros W R. inversion R as [| h l r Hh]; [reflexivity |].
  exfalso. apply (dwf_not_T st T W); [assumption | reflexivity].
Qed.

Lemma drep_inv st h t :
  wf st -> rep st h t -> h <> T ->
  exists l r,
    t = Node l h (low st h) (high st h) r /\ 0 <= h < len st /\
    rep st (left st h) l /\ rep st (right st h) r.
Proof.
  intros W R H. destruct R as [| h l r Hh Rl Rr]; [contradiction |].
  exists l, r. split; [reflexivity |].
  split; [exact Hh |]. split; [exact Rl | exact Rr].
Qed.

Lemma drep_valid st h t :
  rep st h t -> forall i, In i (handles t) -> 0 <= i < len st.
Proof.
  intros R. induction R as [| h l r Hh Rl IHl Rr IHr]; intros i Hi.
  - destruct Hi.
  - cbn [handles] in Hi. destruct Hi as [E | Hi]; [subst; exact Hh |].
    apply in_app_or in Hi. destruct Hi as [Hi | Hi]; auto.
Qed.

(** The frame rule: a tree is not affected by stores to nodes that are
    not its own. *)
Lemma drep_frame st st' h t :
  rep st h t -> len st <= len st' ->
  (forall i, In i (handles t) -> nodes st' i = nodes st i) ->
  rep st' h t.
Proof.
  intros R L. induction R as [| h l r Hh Rl IHl Rr IHr]; intros F.
  - constructor.
  - assert (E : nodes st' h = nodes st h) by (apply F; left; reflexivity).
    assert (E1 : low st' h = low st h) by (unfold low; rewrite E; reflexivity).
    assert (E2 : high st' h = high st h)
      by (unfold high; rewrite E; reflexivity).
    assert (E3 : left st' h = left st h)
      by (unfold left; rewrite E; reflexivity).
    assert (E4 : right st' h = right st h)
      by (unfold right; rewrite E; reflexivity).
    rewrite <- E1, <- E2.
    constructor; rewrite ?E3, ?E4.
    + lia.
    + apply IHl. intros i Hi. apply F. cbn [handles]. right.
      apply in_or_app. left. exact Hi.
    + apply IHr. intros i Hi. apply F. cbn [handles]. right.
      apply in_or_app. right. exact Hi.
Qed.

Lemma drep_ext st st' h t : ext st st' -> rep st h t -> rep st' h t.
Proof.
  intros [L E] R. apply (drep_frame st st' h t R L).
  intros i Hi. apply E. apply (drep_valid st h t R i Hi).
Qed.

Lemma depth_le_size t : depth t <= Z.of_nat (length (handles t)).
Proof.
  induction t as [| l IHl h s e r IHr]; cbn [depth handles length].
  - lia.
  - rewrite length_app. lia.
Qed.

(** A tree without repeated handles has at most [len] nodes. *)
Lemma size_le_len st h t :
  rep st h t -> NoDup (handles t) -> 0 <= len st ->
  Z.of_nat (length (handles t)) <= len st.
Proof.
  intros R Nd L.
  assert (I : incl (handles t) (map Z.of_nat (seq 0 (Z.to_nat (len st))))).
  { intros i Hi. pose proof (drep_valid st h t R i Hi) as V.
    apply in_map_iff. exists (Z.to_nat i). split; [lia |].
    apply in_seq. lia. }
  pose proof (NoDup_incl_length Nd I) as H.
  rewrite length_map, length_seq in H. lia.
Qed.

Lemma drep_depth st h t :
  wf st -> rep st h t -> NoDup (handles t) -> 0 <= depth t <= N.
Proof.
  intros W R Nd. split; [apply depth_nonneg |].
  pose proof (depth_le_size t).
  pose proof (size_le_len st h t R Nd (proj1 W)).
  unfold wf in W. lia.
Qed.

Lemma dwrap16_id z : -32768 <= z <= 32767 -> wrap16 z = z.
Proof.
  intros H. unfold wrap16. rewrite Z.mod_small by lia. lia.
Qed.

(** ** [new_node] *)

Lemma d_new_node_rep st lo hi l r tl tr :
  wf st -> rep st l tl -> rep st r tr ->
  post (new_node st lo hi l r)
       (fun p => wf (fst p) /\ ext st (fst p) /\
                 len (fst p) = len st + 1 /\ snd p = len st /\
                 trace (fst p) = trace st /\
                 rep (fst p) (snd p) (Node tl (snd p) lo hi tr)).
Proof.
  intros W Rl Rr. unfold new_node.
  destruct (Z.leb_spec 0 (len st)) as [Pos | Neg]; [| unfold wf in W; lia].
  destruct (Z.ltb_spec (len st) N) as [Free | Full]; cbn [andb negb];
    [| reflexivity].
  cbn [post fst snd].
  set (st' := upd _ _ _).
  assert (Hw : wrap16 (len st + 1) = len st + 1).
  { apply dwrap16_id. unfold N in Free. lia. }
  assert (L' : len st' = len st + 1) by exact Hw.
  assert (X : ext st st').
  { split; [lia |]. intros i Hi. unfold st', upd. cbn [nodes].
    destruct (Z.eqb_spec i (len st)); [lia | reflexivity]. }
  assert (F : nodes st' (len st) = mkNode lo hi l r).
  { unfold st', upd. cbn [nodes]. rewrite Z.eqb_refl. reflexivity. }
  split; [unfold wf; lia |]. split; [exact X |].
  split; [exact L' |]. split; [reflexivity |]. split; [reflexivity |].
  assert (E1 : low st' (len st) = lo) by (unfold low; rewrite F; reflexivity).
  assert (E2 : high st' (len st) = hi)
    by (unfold high; rewrite F; reflexivity).
  assert (E3 : left st' (len st) = l) by (unfold left; rewrite F; reflexivity).
  assert (E4 : right st' (len st) = r)
    by (unfold right; rewrite F; reflexivity).
  replace (Node tl (len st) lo hi tr)
    with (Node tl (len st) (low st' (len st)) (high st' (len st)) tr)
    by (rewrite E1, E2; reflexivity).
  constructor; rewrite ?E3, ?E4.
  - lia.
  - apply (drep_ext st st' l tl X Rl).
  - apply (drep_ext st st' r tr X Rr).
Qed.

(** ** Handles without repetition *)

Lemma nodup_app_iff {A : Type} (l1 l2 : list A) :
  NoDup (l1 ++ l2) <->
  NoDup l1 /\ NoDup l2 /\ (forall i, In i l1 -> ~ In i l2).
Proof.
  induction l1 as [| a l1 IH]; cbn [app].
  - split.
    + intros H. split; [constructor | split; [exact H | intros i []]].
    + intros (_ & H & _). exact H.
  - rewrite !NoDup_cons_iff, IH, in_app_iff. split.
    + intros (Ha & N1 & N2 & D).
      split; [split; [tauto | exact N1] | split; [exact N2 |]].
      intros i [E | Hi]; [subst; tauto | apply D; exact Hi].
    + intros ((Ha & N1) & N2 & D).
      split; [| split; [exact N1 | split; [exact N2 |]]].
      * intros [H | H]; [tauto | apply (D a); [left; reflexivity | exact H]].
      * intros i Hi. apply D. right. exact Hi.
Qed.

Lemma nodup_node (h : Z) (l1 l2 : list Z) :
  NoDup (h :: l1 ++ l2) <->
  ~ In h l1 /\ ~ In h l2 /\ NoDup l1 /\ NoDup l2 /\
  (forall i, In i l1 -> ~ In i l2).
Proof.
  rewrite NoDup_cons_iff, nodup_app_iff, in_app_iff. tauto.
Qed.

Lemma fields_ext st st' i :
  ext st st' -> 0 <= i < len st ->
  low st' i = low st i /\ high st' i = high st i /\
  left st' i = left st i /\ right st' i = right st i.
Proof.
  intros [_ E] Hi. unfold low, high, left, right.
  rewrite (E i Hi). repeat split.
Qed.

(** [blit] leaves the nodes alone. *)
Ltac blit_reads :=
  repeat match goal with
         | |- context [low (blit ?s ?a ?b) ?i] =>
             change (low (blit s a b) i) with (low s i)
         | |- context [high (blit ?s ?a ?b) ?i] =>
             change (high (blit s a b) i) with (high s i)
         | |- context [left (blit ?s ?a ?b) ?i] =>
             change (left (blit s a b) i) with (left s i)
         | |- context [right (blit ?s ?a ?b) ?i] =>
             change (right (blit s a b) i) with (right s i)
         end.

(** ** [less_than_or_equal] and [greater_than_or_equal] *)

Lemma less_than_or_equal_ok fuel : forall st x lo bl bh t,
  wf st -> rep st x t -> NoDup (handles t) -> iso (inorder t) ->
  depth t < Z.of_nat fuel ->
  post (less_than_or_equal fuel st x lo bl bh)
       (fun p =>
          wf (fst (fst p)) /\ ext st (fst (fst p)) /\
          exists t', rep (fst (fst p)) (snd (fst p)) t' /\
                     NoDup (handles t') /\ from st (fst (fst p)) t t' /\
                     cut_left (inorder t) lo (snd p) (inorder t')).
Proof.
  induction fuel as [| f IH]; intros st x lo bl bh t W R Nd Iso Hf.
  - pose proof (depth_nonneg t). lia.
  - cbn [less_than_or_equal]. destruct (Z.eqb_spec x T) as [E | NE].
    + subst x. rewrite (drep_T st t W R). cbn [post fst snd].
      split; [exact W |]. split; [apply dext_refl |].
      exists Leaf. split; [constructor |]. split; [constructor |].
      split; [intros i [] | apply cut_left_nil].
    + destruct (drep_inv st x t W R NE) as (tl & tr & Et & Hx & Rl & Rr).
      subst t. cbn [inorder handles depth] in *.
      apply nodup_node in Nd. destruct Nd as (Nxl & Nxr & Nl & Nr & Dlr).
      pose proof (proj1 (iso_mid _ _ _ _) Iso) as (I1 & I2 & Hs & B & Ab).
      pose proof (depth_nonneg tl) as Pl. pose proof (depth_nonneg tr) as Pr.
      destruct (Z.ltb_spec (high st x + 1) lo) as [H1 | H1].
      * apply (dpost_bind _ _ _ _
                 (IH st (right st x) lo _ bl tr W Rr Nr I2 ltac:(lia))).
        intros [[s1 r2] new_low] (W1 & X1 & (t2 & R2 & N2 & F2 & C2)).
        cbn [fst snd] in *.
        destruct (fields_ext st s1 x X1 Hx) as (E1 & E2 & E3 & E4).
        rewrite E1, E2, E3.
        apply (dpost_bind _ _ _ _
                 (d_new_node_rep s1 (low st x) (high st x) (left st x) r2
                    tl t2 W1 (drep_ext _ _ _ _ X1 Rl) R2)).
        intros [s2 n] (W2 & X2 & L2 & En & T2 & Rn).
        cbn [fst snd post] in *. subst n.
        split; [exact W2 |]. split; [apply (dext_trans _ _ _ X1 X2) |].
        eexists. split; [exact Rn |].
        pose proof (drep_valid st _ tl Rl) as Vl.
        pose proof (drep_valid s1 _ t2 R2) as V2.
        destruct X1 as [L1 _].
        split; [| split].
        -- cbn [handles]. apply nodup_node.
           split; [intros H; specialize (Vl _ H); lia |].
           split; [intros H; specialize (V2 _ H); lia |].
           split; [exact Nl |]. split; [exact N2 |].
           intros i Hl H2'. destruct (F2 i H2') as [H | H].
           ++ apply (Dlr i Hl H).
           ++ specialize (Vl i Hl). lia.
        -- intros i Hi. cbn [handles] in Hi.
           destruct Hi as [E | Hi]; [right; lia |].
           apply in_app_or in Hi. destruct Hi as [Hi | Hi].
           ++ left. right. apply in_or_app. left. exact Hi.
           ++ destruct (F2 i Hi) as [H | H].
              ** left. right. apply in_or_app. right. exact H.
              ** right. lia.
        -- cbn [inorder]. rewrite Z.min_r by (apply (cl_le _ _ _ _ C2)).
           apply cut_left_right; assumption.
      * destruct (Z.leb_spec (low st x) lo) as [H2 | H2].
        -- cbn [post fst snd]. blit_reads.
           split; [exact W |]. split; [apply dext_blit |].
           exists tl.
           split; [apply (drep_ext _ _ _ _ (dext_blit _ _ _) Rl) |].
           split; [exact Nl |].
           split.
           ++ intros i Hi. left. right. apply in_or_app. left. exact Hi.
           ++ apply cut_left_here; [exact Iso | lia | lia].
        -- set (st1 := blit st (high st x + 1) bh).
           set (st2 := if left st1 x =? T
                       then blit st1 bl (wrap16 (low st1 x - 1)) else st1).
           assert (X2 : ext st st2).
           { unfold st2. destruct (left st1 x =? T).
             - apply (dext_trans _ st1); apply dext_blit.
             - apply dext_blit. }
           assert (W2 : wf st2).
           { unfold st2. destruct (left st1 x =? T); exact W. }
           assert (E3 : left st2 x = left st x).
           { unfold st2. destruct (left st1 x =? T); reflexivity. }
           rewrite E3.
           apply (dpost_weaken _ _ _
                    (IH st2 (left st x) lo bl _ tl W2
                        (drep_ext _ _ _ _ X2 Rl) Nl I1 ltac:(lia))).
           intros [[s3 h3] out] (W3 & X3 & (t3 & R3 & N3 & F3 & C3)).
           cbn [fst snd] in *.
           split; [exact W3 |]. split; [apply (dext_trans _ _ _ X2 X3) |].
           exists t3. split; [exact R3 |]. split; [exact N3 |].
           split.
           ++ intros i Hi. destruct (F3 i Hi) as [H | H].
              ** left. right. apply in_or_app. left. exact H.
              ** right. assert (len st2 = len st).
                 { unfold st2. destruct (left st1 x =? T); reflexivity. }
                 lia.
           ++ apply cut_left_left; [exact Iso | lia | exact C3].
Qed.

Lemma greater_than_or_equal_ok fuel : forall st x hi bl bh t,
  wf st -> rep st x t -> NoDup (handles t) -> iso (inorder t) ->
  depth t < Z.of_nat fuel ->
  post (greater_than_or_equal fuel st x hi bl bh)
       (fun p =>
          wf (fst (fst p)) /\ ext st (fst (fst p)) /\
          exists t', rep (fst (fst p)) (snd (fst p)) t' /\
                     NoDup (handles t') /\ from st (fst (fst p)) t t' /\
                     cut_right (inorder t) hi (snd p) (inorder t')).
Proof.
  induction fuel as [| f IH]; intros st x hi bl bh t W R Nd Iso Hf.
  - pose proof (depth_nonneg t). lia.
  - cbn [greater_than_or_equal]. destruct (Z.eqb_spec x T) as [E | NE].
    + subst x. rewrite (drep_T st t W R). cbn [post fst snd].
      split; [exact W |]. split; [apply dext_refl |].
      exists Leaf. split; [constructor |]. split; [constructor |].
      split; [intros i [] | apply cut_right_nil].
    + destruct (drep_inv st x t W R NE) as (tl & tr & Et & Hx & Rl & Rr).
      subst t. cbn [inorder handles depth] in *.
      apply nodup_node in Nd. destruct Nd as (Nxl & Nxr & Nl & Nr & Dlr).
      pose proof (proj1 (iso_mid _ _ _ _) Iso) as (I1 & I2 & Hs & B & Ab).
      pose proof (depth_nonneg tl) as Pl. pose proof (depth_nonneg tr) as Pr.
      destruct (Z.ltb_spec hi (low st x - 1)) as [H1 | H1].
      * apply (dpost_bind _ _ _ _
                 (IH st (left st x) hi bh _ tl W Rl Nl I1 ltac:(lia))).
        intros [[s1 l2] new_high] (W1 & X1 & (t2 & R2 & N2 & F2 & C2)).
        cbn [fst snd] in *.
        destruct (fields_ext st s1 x X1 Hx) as (E1 & E2 & E3 & E4).
        rewrite E1, E2, E4.
        apply (dpost_bind _ _ _ _
                 (d_new_node_rep s1 (low st x) (high st x) l2 (right st x)
                    t2 tr W1 R2 (drep_ext _ _ _ _ X1 Rr))).
        intros [s2 n] (W2 & X2 & L2 & En & T2 & Rn).
        cbn [fst snd post] in *. subst n.
        split; [exact W2 |]. split; [apply (dext_trans _ _ _ X1 X2) |].
        eexists. split; [exact Rn |].
        pose proof (drep_valid st _ tr Rr) as Vr.
        pose proof (drep_valid s1 _ t2 R2) as V2.
        destruct X1 as [L1 _].
        split; [| split].
        -- cbn [handles]. apply nodup_node.
           split; [intros H; specialize (V2 _ H); lia |].
           split; [intros H; specialize (Vr _ H); lia |].
           split; [exact N2 |]. split; [exact Nr |].
           intros i H2' Hr. destruct (F2 i H2') as [H | H].
           ++ apply (Dlr i H Hr).
           ++ specialize (Vr i Hr). lia.
        -- intros i Hi. cbn [handles] in Hi.
           destruct Hi as [E | Hi]; [right; lia |].
           apply in_app_or in Hi. destruct Hi as [Hi | Hi].
           ++ destruct (F2 i Hi) as [H | H].
              ** left. right. apply in_or_app. left. exact H.
              ** right. lia.
           ++ left. right. apply in_or_app. right. exact Hi.
        -- cbn [inorder]. rewrite Z.max_r by (apply (cr_ge _ _ _ _ C2)).
           apply cut_right_left; assumption.
      * destruct (Z.leb_spec hi (high st x)) as [H2 | H2].
        -- cbn [post fst snd]. blit_reads.
           split; [exact W |]. split; [apply dext_blit |].
           exists tr.
           split; [apply (drep_ext _ _ _ _ (dext_blit _ _ _) Rr) |].
           split; [exact Nr |].
           split.
           ++ intros i Hi. left. right. apply in_or_app. right. exact Hi.
           ++ apply cut_right_here; [exact Iso | lia | lia].
        -- set (st1 := blit st bl (low st x - 1)).
           set (st2 := if right st1 x =? T
                       then blit st1 (wrap16 (high st1 x + 1)) bh else st1).
           assert (X2 : ext st st2).
           { unfold st2. destruct (right st1 x =? T).
             - apply (dext_trans _ st1); apply dext_blit.
             - apply dext_blit. }
           assert (W2 : wf st2).
           { unfold st2. destruct (right st1 x =? T); exact W. }
           assert (E3 : right st2 x = right st x).
           { unfold st2. destruct (right st1 x =? T); reflexivity. }
           rewrite E3.
           apply (dpost_weaken _ _ _
                    (IH st2 (right st x) hi _ bh tr W2
                        (drep_ext _ _ _ _ X2 Rr) Nr I2 ltac:(lia))).
           intros [[s3 h3] out] (W3 & X3 & (t3 & R3 & N3 & F3 & C3)).
           cbn [fst snd] in *.
           split; [exact W3 |]. split; [apply (dext_trans _ _ _ X2 X3) |].
           exists t3. split; [exact R3 |]. split; [exact N3 |].
           split.
           ++ intros i Hi. destruct (F3 i Hi) as [H | H].
              ** left. right. apply in_or_app. right. exact H.
              ** right. assert (len st2 = len st).
                 { unfold st2. destruct (right st1 x =? T); reflexivity. }
                 lia.
           ++ apply cut_right_right; [exact Iso | lia | exact C3].
Qed.

End DietBuild.

(* ================================================================== *)
(** * The unbalanced DIET: insertion *)

Module DietInsert.
Import Ivl IvlFacts Diet DietInv DietBuild.

(** The four stores that end the merging branch of [insert_range]. *)
Lemma store_node st x a b c d :
  let st' := set_right (set_left (set_high (set_low st x a) x b) x c) x d in
  len st' = len st /\ trace st' = trace st /\ root st' = root st /\
  nodes st' x = mkNode a b c d /\
  forall i, i <> x -> nodes st' i = nodes st i.
Proof.
  cbv zeta. unfold set_right, set_left, set_high, set_low, upd.
  cbn [len trace root nodes].
  split; [reflexivity |]. split; [reflexivity |]. split; [reflexivity |].
  split.
  - rewrite Z.eqb_refl. reflexivity.
  - intros i Hi. apply Z.eqb_neq in Hi. rewrite Hi. reflexivity.
Qed.

Lemma store_right st x r :
  len (set_right st x r) = len st /\
  trace (set_right st x r) = trace st /\
  nodes (set_right st x r) x
  = mkNode (low st x) (high st x) (left st x) r /\
  forall i, i <> x -> nodes (set_right st x r) i = nodes st i.
Proof.
  unfold set_right, upd, low, high, left. cbn [len trace nodes].
  split; [reflexivity |]. split; [reflexivity |]. split.
  - rewrite Z.eqb_refl. reflexivity.
  - intros i Hi. apply Z.eqb_neq in Hi. rewrite Hi. reflexivity.
Qed.

Lemma store_left st x l :
  len (set_left st x l) = len st /\
  trace (set_left st x l) = trace st /\
  nodes (set_left st x l) x
  = mkNode (low st x) (high st x) l (right st x) /\
  forall i, i <> x -> nodes (set_left st x l) i = nodes st i.
Proof.
  unfold set_left, upd, low, high, right. cbn [len trace nodes].
  split; [reflexivity |]. split; [reflexivity |]. split.
  - rewrite Z.eqb_refl. reflexivity.
  - intros i Hi. apply Z.eqb_neq in Hi. rewrite Hi. reflexivity.
Qed.

Lemma node_eta (n : node) :
  mkNode (n_low n) (n_high n) (n_left n) (n_right n) = n.
Proof. destruct n. reflexivity. Qed.

(** ** The branches of [insert_range] *)

Lemma insert_range_covered f st x lo hi :
  x <> T -> low st x <= lo -> hi <= high st x -> lo <= hi ->
  insert_range (S f) st x lo hi = Ok (st, x).
Proof.
  intros HxT H1 H2 H0. cbn [insert_range].
  rewrite (proj2 (Z.eqb_neq x T) HxT).
  destruct (Z.ltb_spec (low st x) lo) as [G | G]; cbv beta iota.
  - assert (E : (lo <=? high st x) || (high st x + 1 =? lo) = true).
    { apply orb_true_iff. left. apply Z.leb_le. lia. }
    rewrite E.
    rewrite (proj2 (Z.leb_le _ _) H1), (proj2 (Z.leb_le _ _) H2).
    reflexivity.
  - assert (E : (low st x <=? hi) || (hi + 1 =? low st x) = true).
    { apply orb_true_iff. left. apply Z.leb_le. lia. }
    rewrite E.
    rewrite (proj2 (Z.leb_le _ _) H1), (proj2 (Z.leb_le _ _) H2).
    reflexivity.
Qed.

Lemma insert_range_merge f st x lo hi :
  x <> T -> lo <= hi -> low st x <= high st x ->
  lo <= high st x + 1 -> low st x - 1 <= hi ->
  ~ (low st x <= lo /\ hi <= high st x) ->
  exists dbl dbh,
    insert_range (S f) st x lo hi =
    (' (st1, new_left, new_low) <-
       less_than_or_equal f st (left st x) (Z.min (low st x) lo) dbl dbh ;;
     ' (st2, new_right, new_high) <-
       greater_than_or_equal f st1 (right st1 x) (Z.max (high st x) hi)
                             dbl dbh ;;
     let st3 := if (left st2 x =? T) && (right st2 x =? T)
                then blit st2 dbl dbh else st2 in
     Ok (set_right (set_left (set_high (set_low st3 x new_low) x new_high)
                             x new_left) x new_right, x)).
Proof.
  intros HxT H0 Hs H1 H2 Nc. cbn [insert_range].
  rewrite (proj2 (Z.eqb_neq x T) HxT).
  assert (C : (low st x <=? lo) && (hi <=? high st x) = false).
  { apply andb_false_iff.
    destruct (Z.leb_spec (low st x) lo); [| left; reflexivity].
    destruct (Z.leb_spec hi (high st x)); [| right; reflexivity].
    exfalso. apply Nc. split; assumption. }
  destruct (Z.ltb_spec (low st x) lo) as [G | G]; cbv beta iota.
  - assert (E : (lo <=? high st x) || (high st x + 1 =? lo) = true).
    { apply orb_true_iff.
      destruct (Z.eq_dec (high st x + 1) lo) as [E | E].
      - right. apply Z.eqb_eq. exact E.
      - left. apply Z.leb_le. lia. }
    rewrite E, C.
    exists (wrap16 (Z.max lo (high st x + 1))), hi.
    rewrite (Z.min_l (low st x) lo) by lia. reflexivity.
  - assert (E : (low st x <=? hi) || (hi + 1 =? low st x) = true).
    { apply orb_true_iff.
      destruct (Z.eq_dec (hi + 1) (low st x)) as [E | E].
      - right. apply Z.eqb_eq. exact E.
      - left. apply Z.leb_le. lia. }
    rewrite E, C.
    exists lo, (wrap16 (Z.min hi (low st x - 1))).
    rewrite (Z.min_r (low st x) lo) by lia.
    rewrite (Z.max_comm (high st x) hi). reflexivity.
Qed.

Lemma insert_range_right f st x lo hi :
  x <> T -> lo <= hi -> low st x <= high st x -> high st x + 1 < lo ->
  insert_range (S f) st x lo hi =
  (' (st1, r) <- insert_range f st (right st x) lo hi ;;
   Ok (set_right st1 x r, x)).
Proof.
  intros HxT H0 Hs H1. cbn [insert_range].
  rewrite (proj2 (Z.eqb_neq x T) HxT).
  destruct (Z.ltb_spec (low st x) lo) as [G | G]; [| lia]. cbv beta iota.
  assert (E : (lo <=? high st x) || (high st x + 1 =? lo) = false).
  { apply orb_false_iff. split; [apply Z.leb_gt | apply Z.eqb_neq]; lia. }
  rewrite E, !Z.eqb_refl. reflexivity.
Qed.

Lemma insert_range_left f st x lo hi :
  x <> T -> lo <= hi -> low st x <= high st x -> hi < low st x - 1 ->
  insert_range (S f) st x lo hi =
  (' (st1, l) <- insert_range f st (left st x) lo hi ;;
   Ok (set_left st1 x l, x)).
Proof.
  intros HxT H0 Hs H1. cbn [insert_range].
  rewrite (proj2 (Z.eqb_neq x T) HxT).
  destruct (Z.ltb_spec (low st x) lo) as [G | G]; [lia |]. cbv beta iota.
  assert (E : (low st x <=? hi) || (hi + 1 =? low st x) = false).
  { apply orb_false_iff. split; [apply Z.leb_gt | apply Z.eqb_neq]; lia. }
  rewrite E.
  assert (E' : (lo =? low st x) && (hi =? high st x) = false).
  { apply andb_false_iff. left. apply Z.eqb_neq. lia. }
  rewrite E'. reflexivity.
Qed.


Lemma ins_same L lo hi : iso L -> within L lo hi -> ins L lo hi L.
Proof.
  intros I W. split; [exact I |].
  intro z. split.
  - intro C. left. exact C.
  - intros [C | C]; [exact C | apply W; exact C].
Qed.

Lemma untouched_refl st : untouched st st.
Proof. split; [reflexivity |]. split; [reflexivity |]. intro i. reflexivity. Qed.

Lemma changes_refl hs st : changes hs st st.
Proof. split; [lia |]. intros i _ _. reflexivity. Qed.

(** ** [insert_range] *)

Lemma d_insert_range_ok fuel : forall st x lo hi t,
  wf st -> rep st x t -> NoDup (handles t) -> iso (inorder t) ->
  lo <= hi -> depth t < Z.of_nat fuel ->
  post (insert_range fuel st x lo hi) (inserted st x t lo hi).
Proof.
  induction fuel as [| f IH]; intros st x lo hi t W R ND IS H0 Hf.
  { pose proof (depth_nonneg t). lia. }
  destruct (Z.eq_dec x T) as [HxT | HxT].
  - (* empty subtree: a new leaf *)
    subst x. pose proof (drep_T st t W R) as Et. subst t.
    cbn [insert_range]. rewrite Z.eqb_refl. cbv zeta.
    assert (Wb : wf (blit st lo hi)) by exact W.
    pose proof (d_new_node_rep (blit st lo hi) lo hi T T Leaf Leaf Wb
                  (rep_leaf _) (rep_leaf _)) as P.
    eapply dpost_weaken; [exact P |].
    intros [s1 n] (W1 & X1 & L1 & En & _ & R1). cbn [fst snd] in *.
    change (len (blit st lo hi)) with (len st) in *.
    subst n. unfold inserted. cbn [fst snd handles inorder].
    split; [exact W1 |].
    split; [intro H; exfalso; apply H; reflexivity |]. split.
    { destruct X1 as (Xl & Xn). split; [exact Xl |].
      intros i Hi _. apply Xn. exact Hi. }
    exists (Node Leaf (len st) lo hi Leaf). cbn [handles inorder app].
    split; [exact R1 |]. split.
    { constructor; [intros [] | constructor]. }
    split.
    { intros i [Hi | []]. right. lia. }
    split; [apply ins_nil; exact H0 |].
    intro Wn. exfalso. apply (covers_nil lo). apply Wn. lia.
  - destruct (drep_inv st x t W R HxT) as (l & r & Et & Hx & Rl & Rr).
    subst t. cbn [inorder handles depth] in *.
    pose proof IS as IS0.
    apply iso_mid in IS as (Il & Ir & Hse & Bl & Ar).
    apply nodup_node in ND as (Nxl & Nxr & NDl & NDr & Dlr).
    pose proof (drep_valid st _ _ Rl) as Vl.
    pose proof (drep_valid st _ _ Rr) as Vr.
    assert (Fl : depth l < Z.of_nat f) by lia.
    assert (Fr : depth r < Z.of_nat f) by lia.
    destruct (Z_lt_dec (high st x + 1) lo) as [Ca | Ca].
    { (* strictly to the right of the node *)
      rewrite insert_range_right by assumption.
      eapply dpost_bind;
        [apply (IH st (right st x) lo hi r W Rr NDr Ir H0 Fr) |].
      intros [s1 r'] (W1 & _ & C1 & t1 & R1 & ND1 & F1 & I1 & K1).
      cbn [fst snd] in *.
      destruct (store_right s1 x r') as (L & Tr & Nx & No).
      set (st' := set_right s1 x r') in *. clearbody st'.
      unfold post, inserted. cbn [fst snd handles inorder].
      destruct C1 as (Cl & Cn).
      assert (Ex : nodes s1 x = nodes st x) by (apply Cn; assumption).
      assert (Nt1 : ~ In x (handles t1)).
      { intro Hi. destruct (F1 x Hi) as [Hr | Hr]; [exact (Nxr Hr) | lia]. }
      split; [unfold wf in *; lia |].
      split; [intros _; reflexivity |]. split.
      { split; [lia |]. intros i Hi Ni.
        assert (i <> x) by (intro; subst i; apply Ni; left; reflexivity).
        rewrite No by assumption. apply Cn; [exact Hi |].
        intro Hr. apply Ni. right. apply in_or_app. right. exact Hr. }
      exists (Node l x (low st x) (high st x) t1).
      cbn [handles inorder]. split.
      { replace (Node l x (low st x) (high st x) t1)
          with (Node l x (low st' x) (high st' x) t1)
          by (unfold low, high; rewrite Nx; cbn [n_low n_high];
              unfold low, high; rewrite Ex; reflexivity).
        apply rep_node; [lia | |].
        - replace (left st' x) with (left st x)
            by (unfold left; rewrite Nx; cbn [n_left];
                unfold left; rewrite Ex; reflexivity).
          apply (drep_frame st); [exact Rl | lia |].
          intros i Hi.
          assert (i <> x) by (intro; subst i; exact (Nxl Hi)).
          rewrite No by assumption.
          apply Cn; [apply Vl; exact Hi | exact (Dlr i Hi)].
        - replace (right st' x) with r'
            by (unfold right; rewrite Nx; reflexivity).
          apply (drep_frame s1); [exact R1 | lia |].
          intros i Hi.
          assert (i <> x) by (intro; subst i; exact (Nt1 Hi)).
          apply No. assumption. }
      split.
      { apply nodup_node. split; [exact Nxl |]. split; [exact Nt1 |].
        split; [exact NDl |]. split; [exact ND1 |].
        intros i Hi Hj. destruct (F1 i Hj) as [Hr | Hr].
        - exact (Dlr i Hi Hr).
        - specialize (Vl i Hi). lia. }
      split.
      { intros i [Hi | Hi]; [left; left; exact Hi |].
        apply in_app_or in Hi as [Hi | Hi].
        - left. right. apply in_or_app. left. exact Hi.
        - destruct (F1 i Hi) as [Hr | Hr].
          + left. right. apply in_or_app. right. exact Hr.
          + right. lia. }
      split; [apply ins_right; assumption |].
      intro Wn.
      destruct (within_mid _ _ _ _ _ _ IS0 H0 Wn) as (_ & Wr & _).
      destruct (K1 (Wr Ca)) as ((Kt & Kl & Kn) & Kr & Kt1).
      split; [| split; [reflexivity | rewrite Kt1; reflexivity]].
      split; [congruence |]. split; [lia |].
      intro i. destruct (Z.eq_dec i x) as [-> | Ni].
      - rewrite Nx, Kr. unfold low, high, left, right.
        rewrite Kn. apply node_eta.
      - rewrite No by assumption. apply Kn. }
    destruct (Z_lt_dec hi (low st x - 1)) as [Cb | Cb].
    { (* strictly to the left of the node *)
      rewrite insert_range_left by assumption.
      eapply dpost_bind;
        [apply (IH st (left st x) lo hi l W Rl NDl Il H0 Fl) |].
      intros [s1 l'] (W1 & _ & C1 & t1 & R1 & ND1 & F1 & I1 & K1).
      cbn [fst snd] in *.
      destruct (store_left s1 x l') as (L & Tr & Nx & No).
      set (st' := set_left s1 x l') in *. clearbody st'.
      unfold post, inserted. cbn [fst snd handles inorder].
      destruct C1 as (Cl & Cn).
      assert (Ex : nodes s1 x = nodes st x) by (apply Cn; assumption).
      assert (Nt1 : ~ In x (handles t1)).
      { intro Hi. destruct (F1 x Hi) as [Hr | Hr]; [exact (Nxl Hr) | lia]. }
      split; [unfold wf in *; lia |].
      split; [intros _; reflexivity |]. split.
      { split; [lia |]. intros i Hi Ni.
        assert (i <> x) by (intro; subst i; apply Ni; left; reflexivity).
        rewrite No by assumption. apply Cn; [exact Hi |].
        intro Hr. apply Ni. right. apply in_or_app. left. exact Hr. }
      exists (Node t1 x (low st x) (high st x) r).
      cbn [handles inorder]. split.
      { replace (Node t1 x (low st x) (high st x) r)
          with (Node t1 x (low st' x) (high st' x) r)
          by (unfold low, high; rewrite Nx; cbn [n_low n_high];
              unfold low, high; rewrite Ex; reflexivity).
        apply rep_node; [lia | |].
        - replace (left st' x) with l'
            by (unfold left; rewrite Nx; reflexivity).
          apply (drep_frame s1); [exact R1 | lia |].
          intros i Hi.
          assert (i <> x) by (intro; subst i; exact (Nt1 Hi)).
          apply No. assumption.
        - replace (right st' x) with (right st x)
            by (unfold right; rewrite Nx; cbn [n_right];
                unfold right; rewrite Ex; reflexivity).
          apply (drep_frame st); [exact Rr | lia |].
          intros i Hi.
          assert (i <> x) by (intro; subst i; exact (Nxr Hi)).
          rewrite No by assumption.
          apply Cn; [apply Vr; exact Hi |].
          intro Hl. exact (Dlr i Hl Hi). }
      split.
      { apply nodup_node. split; [exact Nt1 |]. split; [exact Nxr |].
        split; [exact ND1 |]. split; [exact NDr |].
        intros i Hi Hj. destruct (F1 i Hi) as [Hl | Hl].
        - exact (Dlr i Hl Hj).
        - specialize (Vr i Hj). lia. }
      split.
      { intros i [Hi | Hi]; [left; left; exact Hi |].
        apply in_app_or in Hi as [Hi | Hi].
        - destruct (F1 i Hi) as [Hl | Hl].
          + left. right. apply in_or_app. left. exact Hl.
          + right. lia.
        - left. right. apply in_or_app. right. exact Hi. }
      split; [apply ins_left; assumption |].
      intro Wn.
      destruct (within_mid _ _ _ _ _ _ IS0 H0 Wn) as (Wl & _ & _).
      destruct (K1 (Wl Cb)) as ((Kt & Kl & Kn) & Kr & Kt1).
      split; [| split; [reflexivity | rewrite Kt1; reflexivity]].
      split; [congruence |]. split; [lia |].
      intro i. destruct (Z.eq_dec i x) as [-> | Ni].
      - rewrite Nx, Kr. unfold low, high, left, right.
        rewrite Kn. apply node_eta.
      - rewrite No by assumption. apply Kn. }
    destruct (Z_le_dec (low st x) lo) as [Cc | Cc];
      [destruct (Z_le_dec hi (high st x)) as [Cd | Cd] |].
    { (* covered by the node *)
      rewrite insert_range_covered by assumption.
      unfold post, inserted. cbn [fst snd handles inorder].
      split; [exact W |]. split; [intros _; reflexivity |].
      split; [apply changes_refl |].
      exists (Node l x (low st x) (high st x) r). cbn [handles inorder].
      split; [exact R |]. split.
      { apply nodup_node. repeat (split; [assumption |]). assumption. }
      split; [intros i Hi; left; exact Hi |].
      split.
      { apply ins_same; [exact IS0 |]. intros z Hz. apply covers_mid.
        right. left. lia. }
      intros _. split; [apply untouched_refl |]. split; reflexivity. }
    all: (* merged with the node *)
      destruct (insert_range_merge f st x lo hi HxT H0 Hse
                  ltac:(lia) ltac:(lia) ltac:(lia)) as (dbl & dbh & E);
      rewrite E; clear E;
      (eapply dpost_bind;
       [apply (less_than_or_equal_ok f st (left st x) (Z.min (low st x) lo)
                 dbl dbh l W Rl NDl Il Fl) |]);
      intros [[s1 nl] nlow] (W1 & X1 & t1 & R1 & ND1 & F1 & CL);
      cbn [fst snd] in *;
      destruct (fields_ext st s1 x X1 Hx) as (_ & _ & _ & Er);
      rewrite Er;
      (eapply dpost_bind;
       [apply (greater_than_or_equal_ok f s1 (right st x)
                 (Z.max (high st x) hi) dbl dbh r W1
                 (drep_ext _ _ _ _ X1 Rr) NDr Ir Fr) |]);
      intros [[s2 nr] nhigh] (W2 & X2 & t2 & R2 & ND2 & F2 & CR);
      cbn [fst snd] in *; cbv zeta;
      set (s3 := if (left s2 x =? T) && (right s2 x =? T)
                 then blit s2 dbl dbh else s2);
      assert (L3 : len s3 = len s2)
        by (unfold s3; destruct ((left s2 x =? T) && (right s2 x =? T));
            reflexivity);
      assert (N3 : forall i, nodes s3 i = nodes s2 i)
        by (intro i; unfold s3;
            destruct ((left s2 x =? T) && (right s2 x =? T)); reflexivity);
      clearbody s3;
      destruct (store_node s3 x nlow nhigh nl nr) as (L & _ & _ & Nx & No);
      set (st' := set_right _ x nr) in *; clearbody st';
      unfold post, inserted; cbn [fst snd handles inorder];
      destruct X1 as (Xl1 & Xn1); destruct X2 as (Xl2 & Xn2);
      assert (Nt1 : ~ In x (handles t1))
        by (intro Hi; destruct (F1 x Hi) as [Hr | Hr];
            [exact (Nxl Hr) | lia]);
      assert (Nt2 : ~ In x (handles t2))
        by (intro Hi; destruct (F2 x Hi) as [Hr | Hr];
            [exact (Nxr Hr) | lia]);
      (split; [unfold wf in *; lia |]);
      (split; [intros _; reflexivity |]);
      (split;
       [split; [lia |]; intros i Hi Ni;
        assert (i <> x) by (intro; subst i; apply Ni; left; reflexivity);
        rewrite No by assumption; rewrite N3;
        rewrite Xn2 by lia; apply Xn1; exact Hi |]);
      exists (Node t1 x nlow nhigh t2); cbn [handles inorder];
      (split;
       [replace (Node t1 x nlow nhigh t2)
          with (Node t1 x (low st' x) (high st' x) t2)
          by (unfold low, high; rewrite Nx; reflexivity);
        apply rep_node; [lia | |];
        [replace (left st' x) with nl
           by (unfold left; rewrite Nx; reflexivity);
         apply (drep_frame s2);
         [apply (drep_ext s1); [split; assumption | exact R1] | lia |];
         intros i Hi;
         assert (i <> x) by (intro; subst i; exact (Nt1 Hi));
         rewrite No by assumption; apply N3
        |replace (right st' x) with nr
           by (unfold right; rewrite Nx; reflexivity);
         apply (drep_frame s2); [exact R2 | lia |];
         intros i Hi;
         assert (i <> x) by (intro; subst i; exact (Nt2 Hi));
         rewrite No by assumption; apply N3] |]);
      (split;
       [apply nodup_node; split; [exact Nt1 |]; split; [exact Nt2 |];
        split; [exact ND1 |]; split; [exact ND2 |];
        intros i Hi Hj;
        destruct (F1 i Hi) as [Hl | Hl]; destruct (F2 i Hj) as [Hr | Hr];
        [exact (Dlr i Hl Hr) | specialize (Vl i Hl); lia
        | specialize (Vr i Hr); lia | lia] |]);
      (split;
       [intros i [Hi | Hi]; [left; left; exact Hi |];
        apply in_app_or in Hi as [Hi | Hi];
        [destruct (F1 i Hi) as [Hl | Hl];
         [left; right; apply in_or_app; left; exact Hl | right; lia]
        |destruct (F2 i Hi) as [Hr | Hr];
         [left; right; apply in_or_app; right; exact Hr | right; lia]] |]);
      (split;
       [apply (ins_merge (inorder l) (low st x) (high st x) (inorder r)
                 lo hi nlow (inorder t1) nhigh (inorder t2));
        [exact IS0 | exact H0 | lia | lia | exact CL | exact CR] |]);
      intro Wn;
      destruct (within_mid _ _ _ _ _ _ IS0 H0 Wn) as (_ & _ & Wm);
      exfalso; specialize (Wm ltac:(lia) ltac:(lia)); lia.
Qed.


(** A range that is already stored is found without any allocation, so
    the call returns. *)
Lemma insert_range_within fuel : forall st x lo hi t,
  wf st -> rep st x t -> iso (inorder t) -> lo <= hi ->
  within (inorder t) lo hi -> depth t < Z.of_nat fuel ->
  exists p, insert_range fuel st x lo hi = Ok p.
Proof.
  induction fuel as [| f IH]; intros st x lo hi t W R IS H0 Wn Hf.
  { pose proof (depth_nonneg t). lia. }
  destruct (Z.eq_dec x T) as [HxT | HxT].
  - subst x. pose proof (drep_T st t W R) as Et. subst t.
    exfalso. apply (covers_nil lo). apply Wn. lia.
  - destruct (drep_inv st x t W R HxT) as (l & r & Et & Hx & Rl & Rr).
    subst t. cbn [inorder depth] in *.
    pose proof IS as IS0.
    apply iso_mid in IS as (Il & Ir & Hse & Bl & Ar).
    destruct (within_mid _ _ _ _ _ _ IS0 H0 Wn) as (Wl & Wr & Wm).
    destruct (Z_lt_dec (high st x + 1) lo) as [Ca | Ca].
    { rewrite insert_range_right by assumption.
      destruct (IH st (right st x) lo hi r W Rr Ir H0 (Wr Ca) ltac:(lia))
        as ([s1 r'] & E).
      rewrite E. cbn [bind]. eexists. reflexivity. }
    destruct (Z_lt_dec hi (low st x - 1)) as [Cb | Cb].
    { rewrite insert_range_left by assumption.
      destruct (IH st (left st x) lo hi l W Rl Il H0 (Wl Cb) ltac:(lia))
        as ([s1 l'] & E).
      rewrite E. cbn [bind]. eexists. reflexivity. }
    specialize (Wm ltac:(lia) ltac:(lia)).
    rewrite insert_range_covered by (assumption || lia).
    eexists. reflexivity.
Qed.

End DietInsert.

(* ================================================================== *)
(** * The unbalanced DIET: whole runs and the verifiers *)

Module DietRuns.
Import Ivl IvlFacts Diet DietInv DietBuild DietInsert DietChecks.

Lemma d_init_inv : Inv init Leaf.
Proof.
  split.
  - unfold wf, N. cbn. lia.
  - constructor.
  - constructor.
  - exact I.
Qed.

Lemma drep_set_root st v h t : rep st h t -> rep (set_root st v) h t.
Proof.
  intro R. apply (drep_frame st); [exact R | cbn; lia |].
  intros i _. reflexivity.
Qed.

(** ** [insert] and sequences of [insert] *)

Lemma d_insert_ok fuel st t lo hi :
  N < Z.of_nat fuel -> Inv st t -> lo <= hi ->
  post (insert fuel st lo hi)
       (fun st' =>
          changes (handles t) st st' /\
          (root st <> T -> root st' = root st) /\
          exists t', Inv st' t' /\ from st st' t t' /\
            ins (inorder t) lo hi (inorder t') /\
            (within (inorder t) lo hi ->
             trace st' = [] /\ len st' = len st /\ root st' = root st /\
             (forall i, nodes st' i = nodes st i) /\ t' = t)).
Proof.
  intros E [W R ND Iso] H0. unfold insert.
  assert (W0 : wf (set_trace st [])) by exact W.
  assert (R0 : rep (set_trace st []) (root st) t).
  { apply (drep_frame st); [exact R | cbn; lia |]. intros i _. reflexivity. }
  assert (Hf : depth t < Z.of_nat fuel).
  { pose proof (drep_depth st _ t W R ND). lia. }
  apply (dpost_bind _ _ _ _
           (d_insert_range_ok fuel (set_trace st []) (root st) lo hi t
              W0 R0 ND Iso H0 Hf)).
  intros [s1 r] (W1 & Hr & C1 & t1 & R1 & ND1 & F1 & I1 & K1).
  cbn [fst snd post] in *.
  split; [exact C1 |]. split; [exact Hr |].
  exists t1. split.
  { split.
    - exact W1.
    - apply drep_set_root. exact R1.
    - exact ND1.
    - apply (ins_iso _ _ _ _ I1). }
  split; [exact F1 |]. split; [exact I1 |].
  intro Wn. destruct (K1 Wn) as ((Kt & Kl & Kn) & Kr & Kt1).
  split; [exact Kt |]. split; [exact Kl |]. split; [exact Kr |].
  split; [exact Kn | exact Kt1].
Qed.

Lemma d_inserts_ok fuel ops : forall st t,
  N < Z.of_nat fuel -> Inv st t ->
  Forall (fun op => fst op <= snd op) ops ->
  post (inserts fuel st ops)
       (fun st' =>
          len st <= len st' /\
          exists t', Inv st' t' /\
            forall z, covers (inorder t') z <->
                      covers (inorder t) z \/ covers ops z).
Proof.
  induction ops as [| [lo hi] ops IH]; intros st t E I F.
  - cbn [inserts post]. split; [lia |].
    exists t. split; [exact I |]. intros z.
    pose proof (covers_nil z). tauto.
  - inversion F as [| x l F1 F2]; subst. cbn [fst snd] in F1.
    cbn [inserts].
    apply (dpost_bind _ _ _ _ (d_insert_ok fuel st t lo hi E I F1)).
    intros s1 (X1 & _ & t1 & I1 & _ & C1 & _).
    apply (dpost_weaken _ _ _ (IH s1 t1 E I1 F2)).
    intros s2 (X2 & t2 & I2 & C2).
    split; [destruct X1; lia |].
    exists t2. split; [exact I2 |]. intros z.
    rewrite C2, (ins_cov _ _ _ _ C1), covers_cons. tauto.
Qed.

(** ** The stored handles *)

Lemma d_gather_indices_ok fuel : forall st x t acc,
  wf st -> rep st x t -> x <> T -> depth t <= Z.of_nat fuel ->
  gather_indices fuel st x acc = Ok (acc ++ handles t).
Proof.
  induction fuel as [| f IH]; intros st x t acc W R HxT Hf;
    destruct (drep_inv st x t W R HxT) as (tl & tr & Et & _ & Rl & Rr);
    subst t; cbn [depth handles] in *;
    pose proof (depth_nonneg tl) as Pl; pose proof (depth_nonneg tr) as Pr;
    [lia |].
  cbn [gather_indices].
  assert (L : (if left st x =? T then Ok (acc ++ [x])
               else gather_indices f st (left st x) (acc ++ [x]))
              = Ok ((acc ++ [x]) ++ handles tl)).
  { destruct (Z.eqb_spec (left st x) T) as [E | NE].
    - rewrite E in Rl. rewrite (drep_T st tl W Rl). cbn [handles].
      rewrite app_nil_r. reflexivity.
    - apply IH; [exact W | exact Rl | exact NE | lia]. }
  rewrite L. cbn [bind].
  destruct (Z.eqb_spec (right st x) T) as [E | NE].
  - rewrite E in Rr. rewrite (drep_T st tr W Rr). cbn [handles].
    rewrite app_nil_r, <- app_assoc. reflexivity.
  - rewrite (IH st (right st x) tr _ W Rr NE) by lia.
    rewrite <- !app_assoc. reflexivity.
Qed.

Lemma d_handles_intervals st x t :
  rep st x t ->
  map (fun h => (low st h, high st h)) (handles t) = preorder t.
Proof.
  intros R. induction R as [| h l r Hh Rl IHl Rr IHr];
    cbn [handles preorder map]; [reflexivity |].
  rewrite map_app, IHl, IHr. reflexivity.
Qed.

Lemma d_handles_in st x t h :
  rep st x t -> In h (handles t) ->
  In (low st h, high st h) (inorder t).
Proof.
  intros R H. apply in_preorder. rewrite <- (d_handles_intervals st x t R).
  apply (in_map (fun h => (low st h, high st h))). exact H.
Qed.

Lemma d_stored_ok fuel st t :
  Inv st t -> N < Z.of_nat fuel -> stored fuel st = Ok (handles t).
Proof.
  intros [W R ND _] Hf. unfold stored.
  destruct (Z.eqb_spec (root st) T) as [E | NE].
  - rewrite E in R. rewrite (drep_T st t W R). reflexivity.
  - rewrite (d_gather_indices_ok fuel st (root st) t [] W R NE);
      [reflexivity |].
    pose proof (drep_depth st _ t W R ND). lia.
Qed.

(** ** [check_isolation] and [check_inequality] *)

Lemma d_isolated_pairs_ok st hs :
  ForallOrdPairs (fun x y => adjacent x y = false)
                 (map (fun h => (low st h, high st h)) hs) ->
  isolated_pairs st hs = true.
Proof.
  induction hs as [| x hs IH]; cbn [map isolated_pairs]; intros H;
    [reflexivity |].
  inversion H as [| a l Ha Hl]; subst.
  rewrite (IH Hl), andb_true_r.
  apply forallb_forall. intros y Hy.
  rewrite Forall_forall in Ha.
  specialize (Ha _ (in_map (fun h => (low st h, high st h)) _ _ Hy)).
  unfold adjacent in Ha. cbn [fst snd] in Ha.
  unfold overlapping_or_adjacent. rewrite Ha. reflexivity.
Qed.

Lemma d_pairs_by_position st hs :
  isolated_pairs st hs = true ->
  forall i j, (i < j < length hs)%nat ->
    overlapping_or_adjacent st (nth i hs T) (nth j hs T) = false.
Proof.
  induction hs as [| x hs IH]; cbn [isolated_pairs length]; intros H i j Hij;
    [lia |].
  apply andb_prop in H. destruct H as [H1 H2].
  destruct j as [| j]; [lia |].
  destruct i as [| i]; cbn [nth].
  - rewrite forallb_forall in H1.
    apply negb_true_iff. apply H1. apply nth_In. lia.
  - apply IH; [exact H2 | lia].
Qed.

Lemma d_check_isolation_ok fuel st t :
  Inv st t -> root st <> T -> N < Z.of_nat fuel ->
  check_isolation fuel st = Ok tt.
Proof.
  intros [W R ND Iso] NE Hf. unfold check_isolation.
  rewrite (d_gather_indices_ok fuel st (root st) t [] W R NE)
    by (pose proof (drep_depth st _ t W R ND); lia).
  cbn [bind app].
  rewrite d_isolated_pairs_ok; [reflexivity |].
  rewrite (d_handles_intervals st _ t R). apply preorder_isolated. exact Iso.
Qed.

Lemma d_check_inequality_ok fuel : forall st x t,
  wf st -> rep st x t -> x <> T -> iso (inorder t) ->
  depth t <= Z.of_nat fuel ->
  check_inequality fuel st x = Ok tt.
Proof.
  induction fuel as [| f IH]; intros st x t W R HxT Iso Hf;
    destruct (drep_inv st x t W R HxT) as (tl & tr & Et & _ & Rl & Rr);
    subst t; cbn [depth inorder] in *;
    pose proof (depth_nonneg tl) as Pl; pose proof (depth_nonneg tr) as Pr;
    [lia |].
  pose proof (proj1 (iso_mid _ _ _ _) Iso) as (I1 & I2 & Hs & B & Ab).
  cbn [check_inequality].
  assert (L : (if left st x =? T then Ok tt
               else
                 values <- gather_indices f st (left st x) [] ;;
                 if forallb (fun v => low st v <=? low st x) values
                 then check_inequality f st (left st x)
                 else Err AssertFailed) = Ok tt).
  { destruct (Z.eqb_spec (left st x) T) as [E | NE]; [reflexivity |].
    rewrite (d_gather_indices_ok f st _ tl [] W Rl NE) by lia.
    cbn [bind app].
    assert (F : forallb (fun v => low st v <=? low st x) (handles tl)
                = true).
    { apply forallb_forall. intros v Hv. apply Z.leb_le.
      pose proof (d_handles_in st _ tl v Rl Hv) as Hi.
      pose proof (B _ _ Hi). pose proof (iso_in _ _ _ I1 Hi). lia. }
    rewrite F. apply (IH st _ tl W Rl NE I1). lia. }
  rewrite L. cbn [bind].
  destruct (Z.eqb_spec (right st x) T) as [E | NE]; [reflexivity |].
  rewrite (d_gather_indices_ok f st _ tr [] W Rr NE) by lia.
  cbn [bind app].
  assert (F : forallb (fun v => low st x <=? low st v) (handles tr)
              = true).
  { apply forallb_forall. intros v Hv. apply Z.leb_le.
    pose proof (d_handles_in st _ tr v Rr Hv) as Hi.
    pose proof (Ab _ _ Hi). lia. }
  rewrite F. apply (IH st _ tr W Rr NE I2). lia.
Qed.


Lemma d_insert_within fuel st t lo hi :
  N < Z.of_nat fuel -> Inv st t -> lo <= hi -> within (inorder t) lo hi ->
  exists st', insert fuel st lo hi = Ok st'.
Proof.
  intros E [W R ND Iso] H0 Wn. unfold insert.
  assert (W0 : wf (set_trace st [])) by exact W.
  assert (R0 : rep (set_trace st []) (root st) t).
  { apply (drep_frame st); [exact R | cbn; lia |]. intros i _. reflexivity. }
  assert (Hf : depth t < Z.of_nat fuel).
  { pose proof (drep_depth st _ t W R ND). lia. }
  destruct (insert_range_within fuel (set_trace st []) (root st) lo hi t
              W0 R0 Iso H0 Wn Hf) as ([s1 r] & E1).
  rewrite E1. cbn [bind]. eexists. reflexivity.
Qed.

End DietRuns.
(* ================================================================== *)
(** * Concrete runs *)

Lemma covers_singleton (a b z : Z) : covers [(a, b)] z <-> a <= z <= b.
Proof.
  unfold covers; split.
  - intros (a' & b' & [E | []] & H). inversion E; subst; exact H.
  - intros H. exists a, b. split; [left; reflexivity | exact H].
Qed.

(** C1 (evaluation at the failing inputs).  [diet.c]: after [insert(1,1)],
    [insert(1,2)] calls [blit(1,0)] only, so the newly covered integer 2 is
    in no emitted range.  [diet3.c]: after [insert(2,2)], [insert(4,4)],
    [insert(1,3)] calls [blit(1,3)], which contains the integer 2 that was
    stored before the call. *)
Theorem blit_fidelity_fails :
  diet_run 10 [(1, 1); (1, 2)] = Ok ([(1, 2)], [(1, 0)])
  /\ ~ covers [(1, 0)] 2
  /\ diet3_run false 10 [(2, 2); (4, 4)] = Ok ([(4, 4); (2, 2)], [(4, 4)])
  /\ diet3_run false 10 [(2, 2); (4, 4); (1, 3)] = Ok ([(1, 4)], [(1, 3)])
  /\ diet3_run true 10 [(2, 2); (4, 4); (1, 3)] = Ok ([(1, 4)], [(1, 3)])
  /\ covers [(1, 3)] 2.
Proof.
  repeat split; try (vm_compute; reflexivity).
  - rewrite covers_singleton. lia.
  - apply covers_singleton. lia.
Qed.

(** C4 (evaluation of scenario E5).  After [insert(10,11)], [insert(9,12)]
    both variants store the single interval [9,12]; [diet3.c] blits
    [(9,9)] and [(12,12)], but [diet.c] blits [(9,9)] only, leaving 12
    out. *)
Theorem adjacent_merge_E5 :
  diet_run 10 [(10, 11); (9, 12)] = Ok ([(9, 12)], [(9, 9)])
  /\ ~ covers [(9, 9)] 12
  /\ diet3_run false 10 [(10, 11); (9, 12)]
     = Ok ([(9, 12)], [(9, 9); (12, 12)])
  /\ diet3_run true 10 [(10, 11); (9, 12)]
     = Ok ([(9, 12)], [(9, 9); (12, 12)])
  /\ (forall z, covers [(9, 9); (12, 12)] z <-> z = 9 \/ z = 12).
Proof.
  repeat split; try (vm_compute; reflexivity).
  - rewrite covers_singleton. lia.
  - intros (a & b & [E | [E | []]] & H); inversion E; subst; lia.
  - intros [-> | ->]; [exists 9, 9 | exists 12, 12]; simpl; split; auto; lia.
Qed.

(** C9 (counterexample).  Re-inserting a stored range calls [blit] zero
    times, in both variants. *)
Lemma blit_not_always_invoked :
  1 <= 1
  /\ diet_run 10 [(1, 1); (1, 1)] = Ok ([(1, 1)], [])
  /\ diet3_run false 10 [(1, 1); (1, 1)] = Ok ([(1, 1)], [])
  /\ diet3_run true 10 [(1, 1); (1, 1)] = Ok ([(1, 1)], []).
Proof.
  repeat split; try (vm_compute; reflexivity). lia.
Qed.

(** C8.  With the arena full, only [diet3.c] stops on its assertion; the
    allocation of [diet.c] and the [insert] of [avl_tree_ref.c] carry on to
    a store outside [nodes[N]]. *)
Theorem capacity_exhausted :
  (forall st s e h l r,
      Diet3.len st = Diet3.N ->
      Diet3.new_node st s e h l r = Err AssertFailed)
  /\ (forall st lo hi l r,
      Diet.len st = Diet.N ->
      Diet.new_node st lo hi l r = Err StoreOutsideArena)
  /\ (forall fuel st lo hi,
      Avl.len st = Avl.N ->
      Avl.insert fuel st lo hi = Err StoreOutsideArena).
Proof.
  repeat split; intros.
  - unfold Diet3.new_node. rewrite H. reflexivity.
  - unfold Diet.new_node. rewrite H. reflexivity.
  - unfold Avl.insert. rewrite H. reflexivity.
Qed.

Lemma capacity_exhausted_witness :
  Diet3.new_node (Diet3.mkState Diet3.N T (Diet3.nodes Diet3.init) [])
                 1 1 1 T T = Err AssertFailed
  /\ Diet.new_node (Diet.mkState Diet.N T (Diet.nodes Diet.init) [])
                   1 1 T T = Err StoreOutsideArena
  /\ Avl.insert 1 (Avl.mkState T Avl.N (Avl.nodes Avl.init)) 1 1
     = Err StoreOutsideArena.
Proof.
  destruct capacity_exhausted as (H3 & H1 & Ha).
  split; [| split].
  - apply H3. reflexivity.
  - apply H1. reflexivity.
  - apply Ha. reflexivity.
Defined.

(* ================================================================== *)
(** * The interval AVL tree: properties of every run *)

(** C7 (AVL balance).  Any sequence of at most [N] calls of [insert] on
    the empty tree runs to completion, and in the resulting state every
    allocated node [x] has [-1 <= diff(x) <= 1], where [diff(x)] is
    [height(nodes[x].right) - height(nodes[x].left)] with height 0 for
    the sentinel.  These heights are the heights of the subtrees:
    [calc_height], which walks the [left] and [right] links down to the
    sentinel, returns for either child what [height] reads, so the two
    recomputed subtree heights of every node differ by at most one.  The
    nodes of the tree are allocated nodes. *)
Theorem avl_balance_invariant (fuel : nat) (ops : list (Z * Z)) :
  Avl.N < Z.of_nat fuel -> Z.of_nat (length ops) <= Avl.N ->
  exists st,
    Avl.inserts fuel Avl.init ops = Ok st
    /\ Avl.len st = Z.of_nat (length ops)
    /\ (forall x, 0 <= x < Avl.len st ->
          Avl.diff st x
          = Avl.height st (Avl.right st x) - Avl.height st (Avl.left st x)
          /\ -1 <= Avl.diff st x <= 1)
    /\ (forall x, 0 <= x < Avl.len st ->
          exists hl hr,
            Avl.calc_height fuel st (Avl.left st x) = Ok hl
            /\ Avl.calc_height fuel st (Avl.right st x) = Ok hr
            /\ Avl.height st (Avl.left st x) = hl
            /\ Avl.height st (Avl.right st x) = hr
            /\ -1 <= hr - hl <= 1)
    /\ (forall x, Avl.root st <> T -> AvlInv.desc st (Avl.root st) x ->
          0 <= x < Avl.len st).
Proof.
  intros Hf Hn.
  destruct (AvlQuery.inserts_ok fuel ops Avl.init AvlQuery.init_inv)
    as (st & E & I & L).
  - change (Avl.len Avl.init) with 0. lia.
  - exact Hf.
  - exists st. split; [exact E |].
    split; [rewrite L; reflexivity |].
    split; [| split].
    + intros x Hx. apply (AvlQuery.inv_diff st x I Hx).
    + intros x Hx.
      pose proof (AvlQuery.inv_hfield_le st x I Hx) as Hb.
      pose proof (AvlInsert.inv_height_child st true x I Hx) as Hl.
      pose proof (AvlInsert.inv_height_child st false x I Hx) as Hr.
      cbn [AvlInv.ch] in Hl, Hr.
      exists (Avl.height st (Avl.left st x)),
             (Avl.height st (Avl.right st x)).
      split.
      { apply AvlChecksFacts.calc_height_ok;
          [exact I | apply (AvlInsert.inv_child st true x I Hx) | lia]. }
      split.
      { apply AvlChecksFacts.calc_height_ok;
          [exact I | apply (AvlInsert.inv_child st false x I Hx) | lia]. }
      split; [reflexivity |]. split; [reflexivity |].
      apply (AvlInv.ok_bal _ _ (AvlInv.inv_ok _ I x Hx)).
    + intros x Hr D.
      assert (Hpos : 0 < Avl.len st).
      { destruct (Z.eq_dec (Avl.len st) 0) as [E0 | N0].
        - elim Hr. apply (AvlInv.inv_empty _ I E0).
        - pose proof (AvlInv.inv_len _ I). lia. }
      destruct (AvlInv.inv_root _ I Hpos) as [Vr _].
      apply (AvlQuery.desc_valid st _ x I Vr D).
Qed.

Lemma avl_balance_invariant_witness :
  exists st,
    Avl.inserts 1001 Avl.init
      [(1, 1); (2, 2); (3, 3); (4, 4); (5, 5); (6, 6)] = Ok st
    /\ Avl.len st = 6
    /\ (forall x, 0 <= x < Avl.len st ->
          Avl.diff st x
          = Avl.height st (Avl.right st x) - Avl.height st (Avl.left st x)
          /\ -1 <= Avl.diff st x <= 1)
    /\ (forall x, 0 <= x < Avl.len st ->
          exists hl hr,
            Avl.calc_height 1001 st (Avl.left st x) = Ok hl
            /\ Avl.calc_height 1001 st (Avl.right st x) = Ok hr
            /\ Avl.height st (Avl.left st x) = hl
            /\ Avl.height st (Avl.right st x) = hr
            /\ -1 <= hr - hl <= 1)
    /\ (forall x, Avl.root st <> T -> AvlInv.desc st (Avl.root st) x ->
          0 <= x < Avl.len st).
Proof.
  apply (avl_balance_invariant 1001
           [(1, 1); (2, 2); (3, 3); (4, 4); (5, 5); (6, 6)]).
  - vm_compute. reflexivity.
  - vm_compute. discriminate.
Defined.

(** C10 (frame of [insert]).  In every state reached by fewer than [N]
    calls of [insert], a further call [insert(lo, hi)] runs to completion,
    increments [len] by one, stores [(lo, hi)] in the new node
    [nodes[len]] and leaves the [low] and [high] fields of every other
    node as they were. *)
Theorem avl_insert_frame (fuel : nat) (ops : list (Z * Z)) (lo hi : Z) :
  Avl.N < Z.of_nat fuel -> Z.of_nat (length ops) < Avl.N ->
  exists st st',
    Avl.inserts fuel Avl.init ops = Ok st
    /\ Avl.insert fuel st lo hi = Ok st'
    /\ Avl.len st' = Avl.len st + 1
    /\ Avl.low st' (Avl.len st) = lo
    /\ Avl.high st' (Avl.len st) = hi
    /\ (forall i, i <> Avl.len st ->
          Avl.low st' i = Avl.low st i /\ Avl.high st' i = Avl.high st i).
Proof.
  intros Hf Hn.
  destruct (AvlQuery.inserts_ok fuel ops Avl.init AvlQuery.init_inv)
    as (st & E & I & L).
  - change (Avl.len Avl.init) with 0. lia.
  - exact Hf.
  - change (Avl.len Avl.init) with 0 in L.
    destruct (AvlInsert.insert_ok fuel st lo hi I) as (st' & E' & _ & L' & Fl & Fh).
    + lia.
    + exact Hf.
    + exists st, st'. split; [exact E |]. split; [exact E' |].
      split; [exact L' |].
      split; [rewrite Fl, Z.eqb_refl; reflexivity |].
      split; [rewrite Fh, Z.eqb_refl; reflexivity |].
      intros i Hi. rewrite Fl, Fh.
      apply Z.eqb_neq in Hi. rewrite Hi. split; reflexivity.
Qed.

Lemma avl_insert_frame_witness :
  exists st st',
    Avl.inserts 1001 Avl.init [(5, 9); (1, 3); (7, 8)] = Ok st
    /\ Avl.insert 1001 st 2 6 = Ok st'
    /\ Avl.len st' = Avl.len st + 1
    /\ Avl.low st' (Avl.len st) = 2
    /\ Avl.high st' (Avl.len st) = 6
    /\ (forall i, i <> Avl.len st ->
          Avl.low st' i = Avl.low st i /\ Avl.high st' i = Avl.high st i).
Proof.
  apply (avl_insert_frame 1001 [(5, 9); (1, 3); (7, 8)] 2 6).
  - vm_compute. reflexivity.
  - vm_compute. reflexivity.
Defined.

(** C6 (overlap query oracle).  After any sequence of at most [N] calls
    of [insert] on the empty tree, for every query [(lo, hi)] the call
    [find_all_overlapping(root, lo, hi)] returns, and a handle is among
    its results exactly when it is among the results of the linear scan
    [find_all_overlapping_naive(lo, hi)]. *)
Theorem avl_overlap_query (fuel : nat) (ops : list (Z * Z)) (lo hi : Z) :
  Avl.N < Z.of_nat fuel -> Z.of_nat (length ops) <= Avl.N ->
  exists st res,
    Avl.inserts fuel Avl.init ops = Ok st
    /\ Avl.find_all_overlapping fuel st (Avl.root st) lo hi [] = Ok res
    /\ (forall i, In i res <->
                  In i (Avl.find_all_overlapping_naive st lo hi [])).
Proof.
  intros Hf Hn.
  destruct (AvlQuery.inserts_ok fuel ops Avl.init AvlQuery.init_inv)
    as (st & E & I & L).
  - change (Avl.len Avl.init) with 0. lia.
  - exact Hf.
  - destruct (AvlQuery.query_ok fuel st lo hi I Hf) as (res & Eq & R).
    exists st, res. split; [exact E |]. split; [exact Eq | exact R].
Qed.

Lemma avl_overlap_query_witness :
  exists st res,
    Avl.inserts 1001 Avl.init [(5, 9); (1, 3); (7, 8)] = Ok st
    /\ Avl.find_all_overlapping 1001 st (Avl.root st) 2 6 [] = Ok res
    /\ (forall i, In i res <->
                  In i (Avl.find_all_overlapping_naive st 2 6 [])).
Proof.
  apply (avl_overlap_query 1001 [(5, 9); (1, 3); (7, 8)] 2 6).
  - vm_compute. reflexivity.
  - vm_compute. discriminate.
Defined.

(* ================================================================== *)
(** * More about avl_tree_ref.c *)

Lemma avl_inserts_app (fuel : nat) (a b : list (Z * Z)) : forall st,
  Avl.inserts fuel st (a ++ b)
  = bind (Avl.inserts fuel st a) (fun st' => Avl.inserts fuel st' b).
Proof.
  induction a as [| [lo hi] a IH]; intros st; cbn [app Avl.inserts bind].
  - reflexivity.
  - destruct (Avl.insert fuel st lo hi) as [st1 | e]; cbn [bind];
      [apply IH | reflexivity].
Qed.

Lemma avl_reached (fuel : nat) (ops : list (Z * Z)) :
  Avl.N < Z.of_nat fuel -> Z.of_nat (length ops) <= Avl.N ->
  exists st, Avl.inserts fuel Avl.init ops = Ok st /\ AvlInv.Inv st /\
             Avl.len st = Z.of_nat (length ops).
Proof.
  intros Hf Hn.
  destruct (AvlQuery.inserts_ok fuel ops Avl.init AvlQuery.init_inv)
    as (st & E & I & L).
  - change (Avl.len Avl.init) with 0. lia.
  - exact Hf.
  - exists st. split; [exact E | split; [exact I | exact L]].
Qed.

(** X1 ([check_height]).  After any non-empty sequence of at most [N]
    calls of [insert], [check_height(root)] runs through without a failing
    assertion, and for every allocated node [calc_height] recomputes
    exactly the stored [height] field. *)
Theorem avl_check_height_passes (fuel : nat) (ops : list (Z * Z)) :
  Avl.N < Z.of_nat fuel -> 0 < Z.of_nat (length ops) <= Avl.N ->
  exists st,
    Avl.inserts fuel Avl.init ops = Ok st
    /\ AvlChecks.check_height fuel st (Avl.root st) = Ok tt
    /\ (forall x, 0 <= x < Avl.len st ->
          Avl.calc_height fuel st x = Ok (Avl.hfield st x)).
Proof.
  intros Hf Hn.
  destruct (avl_reached fuel ops Hf (proj2 Hn)) as (st & E & I & L).
  exists st. split; [exact E |].
  assert (Hpos : 0 < Avl.len st) by lia.
  destruct (AvlInv.inv_root _ I Hpos) as [Vr _].
  split.
  - apply AvlChecksFacts.check_height_ok; [exact I | exact Vr |].
    pose proof (AvlQuery.inv_hfield_le st _ I Vr). lia.
  - intros x Hx.
    rewrite <- (AvlMid.height_valid st x (AvlInsert.inv_valid_not_T st x I Hx)).
    apply AvlChecksFacts.calc_height_ok; [exact I | right; exact Hx |].
    rewrite (AvlMid.height_valid st x (AvlInsert.inv_valid_not_T st x I Hx)).
    pose proof (AvlQuery.inv_hfield_le st x I Hx). lia.
Qed.

Lemma avl_check_height_passes_witness :
  exists st,
    Avl.inserts 1001 Avl.init [(5, 9); (1, 3); (7, 8)] = Ok st
    /\ AvlChecks.check_height 1001 st (Avl.root st) = Ok tt
    /\ (forall x, 0 <= x < Avl.len st ->
          Avl.calc_height 1001 st x = Ok (Avl.hfield st x)).
Proof.
  apply (avl_check_height_passes 1001 [(5, 9); (1, 3); (7, 8)]).
  - vm_compute. reflexivity.
  - split; [vm_compute; reflexivity | vm_compute; discriminate].
Defined.

(** X2 (links).  After any sequence of at most [N] calls of [insert],
    child and parent fields agree: a child that is present is an allocated
    node whose [parent] is the node itself, the two children of a node
    differ unless both are absent, exactly the root has no parent, and
    every other node is a child of its parent. *)
Theorem avl_links_consistent (fuel : nat) (ops : list (Z * Z)) :
  Avl.N < Z.of_nat fuel -> Z.of_nat (length ops) <= Avl.N ->
  exists st,
    Avl.inserts fuel Avl.init ops = Ok st
    /\ forall x, 0 <= x < Avl.len st ->
         (Avl.left st x = T \/
          (0 <= Avl.left st x < Avl.len st
           /\ Avl.parent st (Avl.left st x) = x))
         /\ (Avl.right st x = T \/
             (0 <= Avl.right st x < Avl.len st
              /\ Avl.parent st (Avl.right st x) = x))
         /\ (Avl.left st x = Avl.right st x -> Avl.left st x = T)
         /\ (Avl.parent st x = T <-> x = Avl.root st)
         /\ (Avl.parent st x <> T ->
             0 <= Avl.parent st x < Avl.len st
             /\ (Avl.left st (Avl.parent st x) = x
                 \/ Avl.right st (Avl.parent st x) = x)).
Proof.
  intros Hf Hn.
  destruct (avl_reached fuel ops Hf Hn) as (st & E & I & L).
  exists st. split; [exact E |]. intros x Hx.
  destruct (AvlInv.inv_links _ I x Hx) as [L1 L2 L3 L4].
  split; [exact L1 |]. split; [exact L2 |]. split; [exact L3 |].
  split.
  - split.
    + intros P. apply (AvlInv.inv_top _ I x Hx P).
    + intros ->. apply (AvlInv.inv_root _ I). lia.
  - intros P. destruct L4 as [P' | L4]; [contradiction | exact L4].
Qed.

Lemma avl_links_consistent_witness :
  exists st,
    Avl.inserts 1001 Avl.init [(5, 9); (1, 3); (7, 8)] = Ok st
    /\ forall x, 0 <= x < Avl.len st ->
         (Avl.left st x = T \/
          (0 <= Avl.left st x < Avl.len st
           /\ Avl.parent st (Avl.left st x) = x))
         /\ (Avl.right st x = T \/
             (0 <= Avl.right st x < Avl.len st
              /\ Avl.parent st (Avl.right st x) = x))
         /\ (Avl.left st x = Avl.right st x -> Avl.left st x = T)
         /\ (Avl.parent st x = T <-> x = Avl.root st)
         /\ (Avl.parent st x <> T ->
             0 <= Avl.parent st x < Avl.len st
             /\ (Avl.left st (Avl.parent st x) = x
                 \/ Avl.right st (Avl.parent st x) = x)).
Proof.
  apply (avl_links_consistent 1001 [(5, 9); (1, 3); (7, 8)]).
  - vm_compute. reflexivity.
  - vm_compute. discriminate.
Defined.

(** X3 (reachability and subtree maximum).  After any sequence of at most
    [N] calls of [insert], every allocated node is reached from [root]
    through [left] and [right] links, and the [max] field of a node is at
    least the [high] of every node of its subtree. *)
Theorem avl_reachable_and_max (fuel : nat) (ops : list (Z * Z)) :
  Avl.N < Z.of_nat fuel -> Z.of_nat (length ops) <= Avl.N ->
  exists st,
    Avl.inserts fuel Avl.init ops = Ok st
    /\ (forall x, 0 <= x < Avl.len st -> AvlInv.desc st (Avl.root st) x)
    /\ (forall x i, 0 <= x < Avl.len st -> AvlInv.desc st x i ->
          Avl.high st i <= Avl.max st x).
Proof.
  intros Hf Hn.
  destruct (avl_reached fuel ops Hf Hn) as (st & E & I & L).
  exists st. split; [exact E |]. split.
  - intros x Hx. apply (AvlQuery.inv_reach st x I Hx).
  - intros x i Hx D. pose proof (AvlQuery.desc_max st x i I Hx D). lia.
Qed.

Lemma avl_reachable_and_max_witness :
  exists st,
    Avl.inserts 1001 Avl.init [(5, 9); (1, 3); (7, 8)] = Ok st
    /\ (forall x, 0 <= x < Avl.len st -> AvlInv.desc st (Avl.root st) x)
    /\ (forall x i, 0 <= x < Avl.len st -> AvlInv.desc st x i ->
          Avl.high st i <= Avl.max st x).
Proof.
  apply (avl_reachable_and_max 1001 [(5, 9); (1, 3); (7, 8)]).
  - vm_compute. reflexivity.
  - vm_compute. discriminate.
Defined.

(** X4 ([search]).  After any sequence of at most [N] calls of [insert],
    [search(lo, hi)] returns, and what it returns is either the sentinel
    or the handle of an allocated node whose interval overlaps
    [lo .. hi]. *)
Theorem avl_search_sound (fuel : nat) (ops : list (Z * Z)) (lo hi : Z) :
  Avl.N < Z.of_nat fuel -> Z.of_nat (length ops) <= Avl.N ->
  exists st r,
    Avl.inserts fuel Avl.init ops = Ok st
    /\ AvlChecks.search fuel st lo hi = Ok r
    /\ (r = T \/
        (0 <= r < Avl.len st
         /\ overlap lo hi (Avl.low st r) (Avl.high st r) = true)).
Proof.
  intros Hf Hn.
  destruct (avl_reached fuel ops Hf Hn) as (st & E & I & L).
  assert (Hr : Avl.root st = T \/ AvlInv.valid st (Avl.root st)).
  { destruct (Z.eq_dec (Avl.len st) 0) as [E0 | N0].
    - left. apply (AvlInv.inv_empty _ I E0).
    - right. apply (AvlInv.inv_root _ I).
      pose proof (AvlInv.inv_len _ I). lia. }
  destruct (AvlChecksFacts.search_from_ok fuel st (Avl.root st) lo hi I Hr)
    as (r & Er & Pr).
  - destruct Hr as [Hr | Hr].
    + rewrite Hr. change (Avl.height st T) with 0. unfold Avl.N in Hf. lia.
    + rewrite (AvlMid.height_valid st _ (AvlInsert.inv_valid_not_T st _ I Hr)).
      pose proof (AvlQuery.inv_hfield_le st _ I Hr). lia.
  - exists st, r. split; [exact E |]. split; [exact Er |].
    destruct Pr as [Pr | (V & _ & H)]; [left; exact Pr | right].
    split; [exact V | exact H].
Qed.

Lemma avl_search_sound_witness :
  exists st r,
    Avl.inserts 1001 Avl.init [(5, 9); (1, 3); (7, 8)] = Ok st
    /\ AvlChecks.search 1001 st 2 6 = Ok r
    /\ (r = T \/
        (0 <= r < Avl.len st
         /\ overlap 2 6 (Avl.low st r) (Avl.high st r) = true)).
Proof.
  apply (avl_search_sound 1001 [(5, 9); (1, 3); (7, 8)] 2 6).
  - vm_compute. reflexivity.
  - vm_compute. discriminate.
Defined.

(** X5 ([check_overlaps]).  After any sequence of at most [N] calls of
    [insert], for every query [(i, j)] the comparison that
    [test_overlaps] makes passes: [find_all_overlapping] reports no
    handle twice, it reports as many handles as the linear scan
    ([rlen == alen]), and each of them is found in the scan's result. *)
Theorem avl_check_overlaps_passes (fuel : nat) (ops : list (Z * Z))
        (i j : Z) :
  Avl.N < Z.of_nat fuel -> Z.of_nat (length ops) <= Avl.N ->
  exists st results,
    Avl.inserts fuel Avl.init ops = Ok st
    /\ Avl.find_all_overlapping fuel st (Avl.root st) i j [] = Ok results
    /\ NoDup results
    /\ length results = length (Avl.find_all_overlapping_naive st i j [])
    /\ AvlChecks.check_overlaps
         results (Avl.find_all_overlapping_naive st i j []) = Ok tt
    /\ AvlChecks.test_overlap fuel st i j = Ok tt.
Proof.
  intros Hf Hn.
  destruct (avl_reached fuel ops Hf Hn) as (st & E & I & L).
  destruct (AvlQuery.query_ok fuel st i j I Hf) as (res & Eq & R).
  assert (Hr : Avl.root st = T \/ AvlInv.valid st (Avl.root st)).
  { destruct (Z.eq_dec (Avl.len st) 0) as [E0 | N0].
    - left. apply (AvlInv.inv_empty _ I E0).
    - right. apply (AvlInv.inv_root _ I).
      pose proof (AvlInv.inv_len _ I). lia. }
  destruct (AvlChecksFacts.find_all_overlapping_new
              fuel st _ i j [] res I Hr Eq) as (new & En & Nn & _).
  cbn [app] in En. subst new.
  pose proof (AvlChecksFacts.naive_nodup st i j) as Na.
  pose proof (AvlChecksFacts.check_overlaps_ok res _ Nn Na R) as C.
  exists st, res. split; [exact E |]. split; [exact Eq |].
  split; [exact Nn |]. split; [| split; [exact C |]].
  - apply Nat.le_antisymm; apply NoDup_incl_length; try assumption;
      intros k Hk; apply R; exact Hk.
  - unfold AvlChecks.test_overlap. rewrite Eq. cbn [bind]. exact C.
Qed.

Lemma avl_check_overlaps_passes_witness :
  exists st results,
    Avl.inserts 1001 Avl.init [(5, 9); (1, 3); (7, 8)] = Ok st
    /\ Avl.find_all_overlapping 1001 st (Avl.root st) 2 6 [] = Ok results
    /\ NoDup results
    /\ length results = length (Avl.find_all_overlapping_naive st 2 6 [])
    /\ AvlChecks.check_overlaps
         results (Avl.find_all_overlapping_naive st 2 6 []) = Ok tt
    /\ AvlChecks.test_overlap 1001 st 2 6 = Ok tt.
Proof.
  apply (avl_check_overlaps_passes 1001 [(5, 9); (1, 3); (7, 8)] 2 6).
  - vm_compute. reflexivity.
  - vm_compute. discriminate.
Defined.

(** X6 (arena bound of [insert]).  [insert] has no capacity check: of any
    sequence of more than [N] calls the first [N] succeed and fill the
    arena exactly, and the next one stores its node outside
    [nodes[N]]. *)
Theorem avl_overflow_at_capacity (fuel : nat) (ops : list (Z * Z)) :
  Avl.N < Z.of_nat fuel -> Avl.N < Z.of_nat (length ops) ->
  (exists st,
      Avl.inserts fuel Avl.init (firstn (Z.to_nat Avl.N) ops) = Ok st
      /\ Avl.len st = Avl.N)
  /\ Avl.inserts fuel Avl.init ops = Err StoreOutsideArena.
Proof.
  intros Hf Hn.
  assert (Hl : length (firstn (Z.to_nat Avl.N) ops) = Z.to_nat Avl.N).
  { apply firstn_length_le. lia. }
  destruct (avl_reached fuel (firstn (Z.to_nat Avl.N) ops) Hf)
    as (st & E & I & L).
  { rewrite Hl. unfold Avl.N. lia. }
  rewrite Hl in L.
  assert (L' : Avl.len st = Avl.N) by (rewrite L; unfold Avl.N; lia).
  split; [exists st; split; assumption |].
  rewrite <- (firstn_skipn (Z.to_nat Avl.N) ops) at 1.
  rewrite avl_inserts_app, E. cbn [bind].
  destruct (skipn (Z.to_nat Avl.N) ops) as [| [lo hi] rest] eqn:Es.
  - exfalso.
    assert (Hs : length (skipn (Z.to_nat Avl.N) ops) = 0%nat)
      by (rewrite Es; reflexivity).
    rewrite length_skipn in Hs. lia.
  - cbn [Avl.inserts]. unfold Avl.insert. rewrite L'. reflexivity.
Qed.

Lemma avl_overflow_at_capacity_witness :
  (exists st,
      Avl.inserts 1001 Avl.init
        (firstn (Z.to_nat Avl.N) (repeat (1, 2) 1001)) = Ok st
      /\ Avl.len st = Avl.N)
  /\ Avl.inserts 1001 Avl.init (repeat (1, 2) 1001)
     = Err StoreOutsideArena.
Proof.
  apply (avl_overflow_at_capacity 1001 (repeat (1, 2) 1001)).
  - vm_compute. reflexivity.
  - rewrite repeat_length. vm_compute. reflexivity.
Defined.

(* ================================================================== *)
(** * More about diet3.c *)

Lemma diet3_reached (rtl : bool) (fuel : nat) (ops : list (Z * Z)) :
  4 * Diet3.N + 4 < Z.of_nat fuel ->
  Forall (fun op => fst op <= snd op) ops ->
  Diet3Inv.post (Diet3.inserts rtl fuel Diet3.init ops)
    (fun st => exists t, Diet3Inv.Inv st t /\
                 forall z, covers (Ivl.inorder t) z <-> covers ops z).
Proof.
  intros Hf F.
  apply (Diet3Build.post_weaken _ _ _
           (Diet3Runs.d3_inserts_ok rtl fuel ops Diet3.init Ivl.Leaf Hf
              Diet3Runs.d3_init_inv F)).
  intros st (_ & t & I & C). exists t. split; [exact I |].
  intros z. rewrite C. cbn [Ivl.inorder].
  pose proof (IvlFacts.covers_nil z). tauto.
Qed.

Lemma diet3_root (st : Diet3.state) (t : Ivl.tree) (ops : list (Z * Z)) :
  Diet3Inv.Inv st t ->
  (forall z, covers (Ivl.inorder t) z <-> covers ops z) ->
  Forall (fun op => fst op <= snd op) ops -> ops <> [] ->
  Diet3.root st <> T.
Proof.
  intros [W R _ _] C F Hn E.
  rewrite E in R. pose proof (Diet3Build.rep_T st t W R) as Et.
  destruct ops as [| [a b] ops]; [contradiction |].
  inversion F as [| x l F1 F2]; subst. cbn [fst snd] in F1.
  assert (Hc : covers ((a, b) :: ops) a).
  { apply IvlFacts.covers_cons. left. lia. }
  apply C in Hc. cbn [Ivl.inorder] in Hc.
  apply (IvlFacts.covers_nil a Hc).
Qed.

Lemma diet3_intervals_ok (fuel : nat) (st : Diet3.state) (t : Ivl.tree) :
  Diet3Inv.Inv st t -> Diet3.N < Z.of_nat fuel ->
  diet3_intervals fuel st = Ok (Ivl.preorder t).
Proof.
  intros I Hf. unfold diet3_intervals.
  rewrite (Diet3Runs.stored_ok fuel st t I Hf). cbn [rmap].
  rewrite (Diet3Runs.handles_intervals st _ t (Diet3Inv.inv_rep _ _ I)).
  reflexivity.
Qed.

Lemma covers_preorder (t : Ivl.tree) (z : Z) :
  covers (Ivl.preorder t) z <-> covers (Ivl.inorder t) z.
Proof.
  unfold covers. split; intros (a & b & H & Hz); exists a, b;
    (split; [apply IvlFacts.in_preorder; exact H | exact Hz]).
Qed.

(** X7 (isolation, [diet3.c]).  A non-empty sequence of [insert] calls
    with [start <= end] either stops on the assertion of [new_node] (arena
    exhausted) or ends in a state in which no two of the handles that
    [gather_indices] collects from [root] are [overlapping_or_adjacent]:
    [check_isolation] passes. *)
Theorem diet3_isolation (rtl : bool) (fuel : nat) (ops : list (Z * Z)) :
  4 * Diet3.N + 4 < Z.of_nat fuel ->
  Forall (fun op => fst op <= snd op) ops -> ops <> [] ->
  Diet3.inserts rtl fuel Diet3.init ops = Err AssertFailed
  \/ exists st hs,
       Diet3.inserts rtl fuel Diet3.init ops = Ok st
       /\ Diet3.stored fuel st = Ok hs
       /\ (forall i j, (i < j < length hs)%nat ->
             Diet3.overlapping_or_adjacent st (nth i hs T) (nth j hs T)
             = false)
       /\ Diet3Checks.check_isolation fuel st = Ok tt.
Proof.
  intros Hf F Hn.
  destruct (Diet3Runs.post_cases _ _ (diet3_reached rtl fuel ops Hf F))
    as [E | (st & E & t & I & C)]; [left; exact E | right].
  assert (Hf' : Diet3.N < Z.of_nat fuel) by (unfold Diet3.N in *; lia).
  pose proof (diet3_root st t ops I C F Hn) as Hr.
  pose proof (Diet3Runs.check_isolation_ok fuel st t I Hr Hf') as Hc.
  exists st, (Ivl.handles t). split; [exact E |].
  split; [apply (Diet3Runs.stored_ok fuel st t I Hf') |].
  split; [| exact Hc].
  apply Diet3Runs.pairs_by_position.
  apply Diet3Runs.isolated_pairs_ok.
  rewrite (Diet3Runs.handles_intervals st _ t (Diet3Inv.inv_rep _ _ I)).
  apply IvlFacts.preorder_isolated. apply (Diet3Inv.inv_iso _ _ I).
Qed.

Lemma diet3_isolation_witness :
  Diet3.inserts false 4005 Diet3.init [(2, 2); (4, 4); (1, 3)]
  = Err AssertFailed
  \/ exists st hs,
       Diet3.inserts false 4005 Diet3.init [(2, 2); (4, 4); (1, 3)] = Ok st
       /\ Diet3.stored 4005 st = Ok hs
       /\ (forall i j, (i < j < length hs)%nat ->
             Diet3.overlapping_or_adjacent st (nth i hs T) (nth j hs T)
             = false)
       /\ Diet3Checks.check_isolation 4005 st = Ok tt.
Proof.
  apply (diet3_isolation false 4005 [(2, 2); (4, 4); (1, 3)]).
  - vm_compute. reflexivity.
  - repeat constructor; cbn; lia.
  - discriminate.
Defined.

(** X8 (coverage, [diet3.c]).  Unless the arena is exhausted, after a
    sequence of [insert] calls with [start <= end] an integer lies in a
    stored interval exactly when it lies in one of the inserted ranges. *)
Theorem diet3_coverage (rtl : bool) (fuel : nat) (ops : list (Z * Z)) :
  4 * Diet3.N + 4 < Z.of_nat fuel ->
  Forall (fun op => fst op <= snd op) ops ->
  Diet3.inserts rtl fuel Diet3.init ops = Err AssertFailed
  \/ exists st ivs,
       Diet3.inserts rtl fuel Diet3.init ops = Ok st
       /\ diet3_intervals fuel st = Ok ivs
       /\ forall z, covers ivs z <-> covers ops z.
Proof.
  intros Hf F.
  destruct (Diet3Runs.post_cases _ _ (diet3_reached rtl fuel ops Hf F))
    as [E | (st & E & t & I & C)]; [left; exact E | right].
  assert (Hf' : Diet3.N < Z.of_nat fuel) by (unfold Diet3.N in *; lia).
  exists st, (Ivl.preorder t). split; [exact E |].
  split; [apply (diet3_intervals_ok fuel st t I Hf') |].
  intros z. rewrite covers_preorder. apply C.
Qed.

Lemma diet3_coverage_witness :
  Diet3.inserts false 4005 Diet3.init [(2, 2); (4, 4); (1, 3)]
  = Err AssertFailed
  \/ exists st ivs,
       Diet3.inserts false 4005 Diet3.init [(2, 2); (4, 4); (1, 3)] = Ok st
       /\ diet3_intervals 4005 st = Ok ivs
       /\ forall z, covers ivs z <-> covers [(2, 2); (4, 4); (1, 3)] z.
Proof.
  apply (diet3_coverage false 4005 [(2, 2); (4, 4); (1, 3)]).
  - vm_compute. reflexivity.
  - repeat constructor; cbn; lia.
Defined.

(** X9 ([check_inequality] and [check_height], [diet3.c]).  Unless the
    arena is exhausted, after a non-empty sequence of [insert] calls with
    [start <= end] the order check and the height check of [run_checks]
    pass: below every node the [start] fields of the left subtree are not
    larger and those of the right subtree not smaller than its own, and
    every stored [height] equals the recomputed one. *)
Theorem diet3_order_and_height (rtl : bool) (fuel : nat)
        (ops : list (Z * Z)) :
  4 * Diet3.N + 4 < Z.of_nat fuel ->
  Forall (fun op => fst op <= snd op) ops -> ops <> [] ->
  Diet3.inserts rtl fuel Diet3.init ops = Err AssertFailed
  \/ exists st,
       Diet3.inserts rtl fuel Diet3.init ops = Ok st
       /\ Diet3Checks.check_inequality fuel st (Diet3.root st) = Ok tt
       /\ Diet3Checks.check_height fuel st (Diet3.root st) = Ok tt.
Proof.
  intros Hf F Hn.
  destruct (Diet3Runs.post_cases _ _ (diet3_reached rtl fuel ops Hf F))
    as [E | (st & E & t & I & C)]; [left; exact E | right].
  pose proof (diet3_root st t ops I C F Hn) as Hr.
  destruct I as [W R Iso A].
  pose proof (Diet3Build.rep_depth_le st _ t W R) as Hd.
  exists st. split; [exact E |]. split.
  - apply (Diet3Runs.check_inequality_ok fuel st _ t W R Hr Iso).
    unfold Diet3.N in *. lia.
  - apply (Diet3Runs.d3_check_height_ok fuel st _ t W R Hr).
    unfold Diet3.N in *. lia.
Qed.

Lemma diet3_order_and_height_witness :
  Diet3.inserts false 4005 Diet3.init [(2, 2); (4, 4); (1, 3)]
  = Err AssertFailed
  \/ exists st,
       Diet3.inserts false 4005 Diet3.init [(2, 2); (4, 4); (1, 3)] = Ok st
       /\ Diet3Checks.check_inequality 4005 st (Diet3.root st) = Ok tt
       /\ Diet3Checks.check_height 4005 st (Diet3.root st) = Ok tt.
Proof.
  apply (diet3_order_and_height false 4005 [(2, 2); (4, 4); (1, 3)]).
  - vm_compute. reflexivity.
  - repeat constructor; cbn; lia.
  - discriminate.
Defined.

(** X10 (AVL balance, [diet3.c]).  Unless the arena is exhausted, after a
    sequence of [insert] calls with [start <= end] the heights of the two
    children of every stored node differ by at most one. *)
Theorem diet3_avl_balance (rtl : bool) (fuel : nat) (ops : list (Z * Z)) :
  4 * Diet3.N + 4 < Z.of_nat fuel ->
  Forall (fun op => fst op <= snd op) ops ->
  Diet3.inserts rtl fuel Diet3.init ops = Err AssertFailed
  \/ exists st hs,
       Diet3.inserts rtl fuel Diet3.init ops = Ok st
       /\ Diet3.stored fuel st = Ok hs
       /\ forall h, In h hs ->
            -1 <= Diet3.height st (Diet3.left st h)
                  - Diet3.height st (Diet3.right st h) <= 1.
Proof.
  intros Hf F.
  destruct (Diet3Runs.post_cases _ _ (diet3_reached rtl fuel ops Hf F))
    as [E | (st & E & t & I & C)]; [left; exact E | right].
  assert (Hf' : Diet3.N < Z.of_nat fuel) by (unfold Diet3.N in *; lia).
  exists st, (Ivl.handles t). split; [exact E |].
  split; [apply (Diet3Runs.stored_ok fuel st t I Hf') |].
  destruct I as [W R Iso A].
  apply (Diet3Runs.avl_stored st _ t W R A).
Qed.

Lemma diet3_avl_balance_witness :
  Diet3.inserts false 4005 Diet3.init [(2, 2); (4, 4); (1, 3)]
  = Err AssertFailed
  \/ exists st hs,
       Diet3.inserts false 4005 Diet3.init [(2, 2); (4, 4); (1, 3)] = Ok st
       /\ Diet3.stored 4005 st = Ok hs
       /\ forall h, In h hs ->
            -1 <= Diet3.height st (Diet3.left st h)
                  - Diet3.height st (Diet3.right st h) <= 1.
Proof.
  apply (diet3_avl_balance false 4005 [(2, 2); (4, 4); (1, 3)]).
  - vm_compute. reflexivity.
  - repeat constructor; cbn; lia.
Defined.

(** X11 (persistence, [diet3.c]).  In every state reached by [insert]
    calls with [start <= end], a further [insert] either stops on the
    assertion of [new_node] or returns after allocating at least one node
    and without changing any node that was allocated before: the arena is
    only ever extended. *)
Theorem diet3_insert_persistent (rtl : bool) (fuel : nat)
        (ops : list (Z * Z)) (s0 e0 : Z) :
  4 * Diet3.N + 4 < Z.of_nat fuel ->
  Forall (fun op => fst op <= snd op) ops -> s0 <= e0 ->
  Diet3.inserts rtl fuel Diet3.init ops = Err AssertFailed
  \/ exists st,
       Diet3.inserts rtl fuel Diet3.init ops = Ok st
       /\ (Diet3.insert rtl fuel st s0 e0 = Err AssertFailed
           \/ exists st',
                Diet3.insert rtl fuel st s0 e0 = Ok st'
                /\ Diet3.len st < Diet3.len st'
                /\ forall i, 0 <= i < Diet3.len st ->
                     Diet3.nodes st' i = Diet3.nodes st i).
Proof.
  intros Hf F H0.
  destruct (Diet3Runs.post_cases _ _ (diet3_reached rtl fuel ops Hf F))
    as [E | (st & E & t & I & C)]; [left; exact E | right].
  exists st. split; [exact E |].
  destruct (Diet3Runs.post_cases _ _
              (Diet3Runs.d3_insert_ok rtl fuel st t s0 e0 Hf I H0))
    as [E' | (st' & E' & X & _)]; [left; exact E' | right].
  exists st'. split; [exact E' |].
  split; [| apply X].
  apply (Diet3Alloc.insert_grows rtl fuel st s0 e0 st'
           (Diet3Inv.inv_wf _ _ I) E').
Qed.

Lemma diet3_insert_persistent_witness :
  Diet3.inserts false 4005 Diet3.init [(2, 2); (4, 4)] = Err AssertFailed
  \/ exists st,
       Diet3.inserts false 4005 Diet3.init [(2, 2); (4, 4)] = Ok st
       /\ (Diet3.insert false 4005 st 1 3 = Err AssertFailed
           \/ exists st',
                Diet3.insert false 4005 st 1 3 = Ok st'
                /\ Diet3.len st < Diet3.len st'
                /\ forall i, 0 <= i < Diet3.len st ->
                     Diet3.nodes st' i = Diet3.nodes st i).
Proof.
  apply (diet3_insert_persistent false 4005 [(2, 2); (4, 4)] 1 3).
  - vm_compute. reflexivity.
  - repeat constructor; cbn; lia.
  - lia.
Defined.

(** X12 (idempotence and blit calls, [diet3.c]).  In every state reached
    by [insert] calls with [start <= end], a further [insert(s0, e0)] that
    returns calls [blit] not at all and leaves the set of stored intervals
    as it was when every integer of [s0 .. e0] was stored already, and
    calls [blit] at least once otherwise. *)
Theorem diet3_idempotent_and_blit (rtl : bool) (fuel : nat)
        (ops : list (Z * Z)) (s0 e0 : Z) :
  4 * Diet3.N + 4 < Z.of_nat fuel ->
  Forall (fun op => fst op <= snd op) ops -> s0 <= e0 ->
  Diet3.inserts rtl fuel Diet3.init ops = Err AssertFailed
  \/ exists st ivs,
       Diet3.inserts rtl fuel Diet3.init ops = Ok st
       /\ diet3_intervals fuel st = Ok ivs
       /\ (Diet3.insert rtl fuel st s0 e0 = Err AssertFailed
           \/ exists st' ivs',
                Diet3.insert rtl fuel st s0 e0 = Ok st'
                /\ diet3_intervals fuel st' = Ok ivs'
                /\ ((forall z, s0 <= z <= e0 -> covers ivs z) ->
                    Diet3.trace st' = []
                    /\ forall iv, In iv ivs' <-> In iv ivs)
                /\ (~ (forall z, s0 <= z <= e0 -> covers ivs z) ->
                    Diet3.trace st' <> [])).
Proof.
  intros Hf F H0.
  destruct (Diet3Runs.post_cases _ _ (diet3_reached rtl fuel ops Hf F))
    as [E | (st & E & t & I & C)]; [left; exact E | right].
  assert (Hf' : Diet3.N < Z.of_nat fuel) by (unfold Diet3.N in *; lia).
  exists st, (Ivl.preorder t). split; [exact E |].
  split; [apply (diet3_intervals_ok fuel st t I Hf') |].
  destruct (Diet3Runs.post_cases _ _
              (Diet3Runs.d3_insert_ok rtl fuel st t s0 e0 Hf I H0))
    as [E' | (st' & E' & X & t' & I' & _ & Y & Nw)];
    [left; exact E' | right].
  exists st', (Ivl.preorder t'). split; [exact E' |].
  split; [apply (diet3_intervals_ok fuel st' t' I' Hf') |].
  assert (Wi : (forall z, s0 <= z <= e0 -> covers (Ivl.preorder t) z)
               <-> Ivl.within (Ivl.inorder t) s0 e0).
  { unfold Ivl.within. split; intros H z Hz;
      [apply covers_preorder | apply covers_preorder]; apply H; exact Hz. }
  split.
  - intros H. destruct (Y (proj1 Wi H)) as [Y1 Y2].
    split; [exact Y1 |]. intros iv.
    rewrite !IvlFacts.in_preorder, Y2. tauto.
  - intros H. apply Nw. intros H'. apply H. apply Wi. exact H'.
Qed.

Lemma diet3_idempotent_and_blit_witness :
  Diet3.inserts false 4005 Diet3.init [(2, 5); (9, 9)] = Err AssertFailed
  \/ exists st ivs,
       Diet3.inserts false 4005 Diet3.init [(2, 5); (9, 9)] = Ok st
       /\ diet3_intervals 4005 st = Ok ivs
       /\ (Diet3.insert false 4005 st 3 4 = Err AssertFailed
           \/ exists st' ivs',
                Diet3.insert false 4005 st 3 4 = Ok st'
                /\ diet3_intervals 4005 st' = Ok ivs'
                /\ ((forall z, 3 <= z <= 4 -> covers ivs z) ->
                    Diet3.trace st' = []
                    /\ forall iv, In iv ivs' <-> In iv ivs)
                /\ (~ (forall z, 3 <= z <= 4 -> covers ivs z) ->
                    Diet3.trace st' <> [])).
Proof.
  apply (diet3_idempotent_and_blit false 4005 [(2, 5); (9, 9)] 3 4).
  - vm_compute. reflexivity.
  - repeat constructor; cbn; lia.
  - lia.
Defined.

(** X13 (arena exhaustion, [diet3.c]).  Every [insert] that returns has
    allocated at least one node, also when it adds nothing to the stored
    set, and no node is ever released: a sequence of more than [N]
    [insert] calls with [start <= end] always ends on the assertion of
    [new_node]. *)
Theorem diet3_capacity (rtl : bool) (fuel : nat) (ops : list (Z * Z)) :
  4 * Diet3.N + 4 < Z.of_nat fuel ->
  Forall (fun op => fst op <= snd op) ops ->
  Diet3.N < Z.of_nat (length ops) ->
  Diet3.inserts rtl fuel Diet3.init ops = Err AssertFailed.
Proof.
  intros Hf F Hn.
  destruct (Diet3Runs.post_cases _ _ (diet3_reached rtl fuel ops Hf F))
    as [E | (st & E & _)]; [exact E | exfalso].
  assert (W0 : Diet3Inv.wf Diet3.init).
  { apply (Diet3Inv.inv_wf _ _ Diet3Runs.d3_init_inv). }
  destruct (Diet3Alloc.inserts_grow rtl fuel ops _ _ W0 E) as [W L].
  change (Diet3.len Diet3.init) with 0 in L.
  unfold Diet3Inv.wf in W. lia.
Qed.

Lemma diet3_capacity_witness :
  Diet3.inserts false 4005 Diet3.init (repeat (1, 1) 1001)
  = Err AssertFailed.
Proof.
  apply (diet3_capacity false 4005 (repeat (1, 1) 1001)).
  - vm_compute. reflexivity.
  - apply Forall_forall. intros op H. apply repeat_spec in H. subst op.
    cbn. lia.
  - rewrite repeat_length. vm_compute. reflexivity.
Defined.

(** X14 ([join], [diet3.c]).  For two stored trees [l] and [r],
    [join(s, e, l, r)] either stops on the assertion of [new_node] or
    returns a tree whose intervals in order are those of [l], then
    [(s, e)], then those of [r]; the result is AVL-balanced when [l] and
    [r] are, whatever their heights; [blit] is not called and no
    allocated node is changed. *)
Theorem diet3_join_inorder (rtl : bool) (fuel : nat) (st : Diet3.state)
        (s e l r : Z) (tl tr : Ivl.tree) :
  Diet3Inv.wf st -> Diet3Inv.rep st l tl -> Diet3Inv.rep st r tr ->
  2 * Diet3.N + 1 < Z.of_nat fuel ->
  Diet3.join rtl fuel st s e l r = Err AssertFailed
  \/ exists st' n t,
       Diet3.join rtl fuel st s e l r = Ok (st', n)
       /\ Diet3Inv.rep st' n t
       /\ Ivl.inorder t = Ivl.inorder tl ++ (s, e) :: Ivl.inorder tr
       /\ (Ivl.avl tl -> Ivl.avl tr -> Ivl.avl t)
       /\ Diet3.trace st' = Diet3.trace st
       /\ forall i, 0 <= i < Diet3.len st ->
            Diet3.nodes st' i = Diet3.nodes st i.
Proof.
  intros W Rl Rr Hf.
  assert (Hd : Ivl.depth tl + Ivl.depth tr + 1 < Z.of_nat fuel).
  { pose proof (Diet3Build.rep_depth_le st l tl W Rl).
    pose proof (Diet3Build.rep_depth_le st r tr W Rr). lia. }
  destruct (Diet3Runs.post_cases _ _
              (Diet3Build.join_built rtl fuel st s e l r tl tr W Rl Rr Hd))
    as [E | ([st' n] & E & _ & X & Tr & t & R & Io & A)];
    [left; exact E | right].
  cbn [fst snd] in *.
  exists st', n, t. split; [exact E |]. split; [exact R |].
  split; [exact Io |].
  split; [intros Al Ar; apply (A Al Ar) |].
  split; [exact Tr | apply X].
Qed.

Lemma diet3_join_inorder_witness :
  Diet3.join true 2002 Diet3Sample.arena 11 11 4 5 = Err AssertFailed
  \/ exists st' n t,
       Diet3.join true 2002 Diet3Sample.arena 11 11 4 5 = Ok (st', n)
       /\ Diet3Inv.rep st' n t
       /\ Ivl.inorder t
          = Ivl.inorder Diet3Sample.tall
            ++ (11, 11) :: Ivl.inorder Diet3Sample.single13
       /\ (Ivl.avl Diet3Sample.tall -> Ivl.avl Diet3Sample.single13 ->
           Ivl.avl t)
       /\ Diet3.trace st' = Diet3.trace Diet3Sample.arena
       /\ forall i, 0 <= i < Diet3.len Diet3Sample.arena ->
            Diet3.nodes st' i = Diet3.nodes Diet3Sample.arena i.
Proof.
  apply (diet3_join_inorder true 2002 Diet3Sample.arena 11 11 4 5
           Diet3Sample.tall Diet3Sample.single13).
  - unfold Diet3Inv.wf. vm_compute. split; discriminate.
  - apply (Diet3Inv.rep_node Diet3Sample.arena 4
             (Ivl.Node (Ivl.Node Ivl.Leaf 0 1 1 Ivl.Leaf) 2 3 3
                       (Ivl.Node Ivl.Leaf 1 5 5 Ivl.Leaf))
             (Ivl.Node Ivl.Leaf 3 9 9 Ivl.Leaf)).
    + vm_compute. split; [discriminate | reflexivity].
    + right. vm_compute. reflexivity.
    + right. vm_compute. reflexivity.
    + apply (Diet3Inv.rep_node Diet3Sample.arena 2
               (Ivl.Node Ivl.Leaf 0 1 1 Ivl.Leaf)
               (Ivl.Node Ivl.Leaf 1 5 5 Ivl.Leaf)).
      * vm_compute. split; [discriminate | reflexivity].
      * right. vm_compute. reflexivity.
      * right. vm_compute. reflexivity.
      * apply (Diet3Inv.rep_node Diet3Sample.arena 0 Ivl.Leaf Ivl.Leaf).
        -- vm_compute. split; [discriminate | reflexivity].
        -- left. reflexivity.
        -- left. reflexivity.
        -- apply Diet3Inv.rep_leaf.
        -- apply Diet3Inv.rep_leaf.
        -- reflexivity.
      * apply (Diet3Inv.rep_node Diet3Sample.arena 1 Ivl.Leaf Ivl.Leaf).
        -- vm_compute. split; [discriminate | reflexivity].
        -- left. reflexivity.
        -- left. reflexivity.
        -- apply Diet3Inv.rep_leaf.
        -- apply Diet3Inv.rep_leaf.
        -- reflexivity.
      * reflexivity.
    + apply (Diet3Inv.rep_node Diet3Sample.arena 3 Ivl.Leaf Ivl.Leaf).
      * vm_compute. split; [discriminate | reflexivity].
      * left. reflexivity.
      * left. reflexivity.
      * apply Diet3Inv.rep_leaf.
      * apply Diet3Inv.rep_leaf.
      * reflexivity.
    + reflexivity.
  - apply (Diet3Inv.rep_node Diet3Sample.arena 5 Ivl.Leaf Ivl.Leaf).
    + vm_compute. split; [discriminate | reflexivity].
    + left. reflexivity.
    + left. reflexivity.
    + apply Diet3Inv.rep_leaf.
    + apply Diet3Inv.rep_leaf.
    + reflexivity.
  - vm_compute. reflexivity.
Defined.

(** X15 ([balance], [diet3.c]).  For two stored trees [l] and [r],
    [balance(s, e, l, r)] never takes an [err(0, "Node.balance")] exit:
    it either stops on the assertion of [new_node] or returns a tree
    whose intervals in order are those of [l], then [(s, e)], then those
    of [r], and which is AVL-balanced when [l] and [r] are and their
    heights differ by at most two. *)
Theorem diet3_balance_inorder (rtl : bool) (st : Diet3.state)
        (s e l r : Z) (tl tr : Ivl.tree) :
  Diet3Inv.wf st -> Diet3Inv.rep st l tl -> Diet3Inv.rep st r tr ->
  Diet3.balance rtl st s e l r = Err AssertFailed
  \/ exists st' n t,
       Diet3.balance rtl st s e l r = Ok (st', n)
       /\ Diet3Inv.rep st' n t
       /\ Ivl.inorder t = Ivl.inorder tl ++ (s, e) :: Ivl.inorder tr
       /\ (Ivl.avl tl -> Ivl.avl tr ->
           -2 <= Ivl.depth tl - Ivl.depth tr <= 2 -> Ivl.avl t).
Proof.
  intros W Rl Rr.
  destruct (Diet3Runs.post_cases _ _
              (Diet3Build.balance_built rtl st s e l r tl tr W Rl Rr))
    as [E | ([st' n] & E & _ & X & Tr & t & R & Io & A)];
    [left; exact E | right].
  cbn [fst snd] in *.
  exists st', n, t. split; [exact E |]. split; [exact R |].
  split; [exact Io |].
  intros Al Ar Hd. apply (A Al Ar Hd).
Qed.

Lemma diet3_balance_inorder_witness :
  Diet3.balance true Diet3Sample.arena 29 29 9 10 = Err AssertFailed
  \/ exists st' n t,
       Diet3.balance true Diet3Sample.arena 29 29 9 10 = Ok (st', n)
       /\ Diet3Inv.rep st' n t
       /\ Ivl.inorder t
          = Ivl.inorder Diet3Sample.skew
            ++ (29, 29) :: Ivl.inorder Diet3Sample.single31
       /\ (Ivl.avl Diet3Sample.skew -> Ivl.avl Diet3Sample.single31 ->
           -2 <= Ivl.depth Diet3Sample.skew
                 - Ivl.depth Diet3Sample.single31 <= 2 ->
           Ivl.avl t).
Proof.
  apply (diet3_balance_inorder true Diet3Sample.arena 29 29 9 10
           Diet3Sample.skew Diet3Sample.single31).
  - unfold Diet3Inv.wf. vm_compute. split; discriminate.
  - apply (Diet3Inv.rep_node Diet3Sample.arena 9
             (Ivl.Node Ivl.Leaf 6 21 21 Ivl.Leaf)
             (Ivl.Node (Ivl.Node Ivl.Leaf 7 25 25 Ivl.Leaf) 8 27 27
                       Ivl.Leaf)).
    + vm_compute. split; [discriminate | reflexivity].
    + right. vm_compute. reflexivity.
    + right. vm_compute. reflexivity.
    + apply (Diet3Inv.rep_node Diet3Sample.arena 6 Ivl.Leaf Ivl.Leaf).
      * vm_compute. split; [discriminate | reflexivity].
      * left. reflexivity.
      * left. reflexivity.
      * apply Diet3Inv.rep_leaf.
      * apply Diet3Inv.rep_leaf.
      * reflexivity.
    + apply (Diet3Inv.rep_node Diet3Sample.arena 8
               (Ivl.Node Ivl.Leaf 7 25 25 Ivl.Leaf) Ivl.Leaf).
      * vm_compute. split; [discriminate | reflexivity].
      * right. vm_compute. reflexivity.
      * left. reflexivity.
      * apply (Diet3Inv.rep_node Diet3Sample.arena 7 Ivl.Leaf Ivl.Leaf).
        -- vm_compute. split; [discriminate | reflexivity].
        -- left. reflexivity.
        -- left. reflexivity.
        -- apply Diet3Inv.rep_leaf.
        -- apply Diet3Inv.rep_leaf.
        -- reflexivity.
      * apply Diet3Inv.rep_leaf.
      * reflexivity.
    + reflexivity.
  - apply (Diet3Inv.rep_node Diet3Sample.arena 10 Ivl.Leaf Ivl.Leaf).
    + vm_compute. split; [discriminate | reflexivity].
    + left. reflexivity.
    + left. reflexivity.
    + apply Diet3Inv.rep_leaf.
    + apply Diet3Inv.rep_leaf.
    + reflexivity.
Defined.

(* ================================================================== *)
(** * More about diet.c *)

Lemma diet_reached (fuel : nat) (ops : list (Z * Z)) :
  Diet.N < Z.of_nat fuel ->
  Forall (fun op => fst op <= snd op) ops ->
  DietInv.post (Diet.inserts fuel Diet.init ops)
    (fun st => exists t, DietInv.Inv st t /\
                 forall z, covers (Ivl.inorder t) z <-> covers ops z).
Proof.
  intros Hf F.
  apply (DietBuild.dpost_weaken _ _ _
           (DietRuns.d_inserts_ok fuel ops Diet.init Ivl.Leaf Hf
              DietRuns.d_init_inv F)).
  intros st (_ & t & I & C). exists t. split; [exact I |].
  intros z. rewrite C. cbn [Ivl.inorder].
  pose proof (IvlFacts.covers_nil z). tauto.
Qed.

Lemma diet_root (st : Diet.state) (t : Ivl.tree) (ops : list (Z * Z)) :
  DietInv.Inv st t ->
  (forall z, covers (Ivl.inorder t) z <-> covers ops z) ->
  Forall (fun op => fst op <= snd op) ops -> ops <> [] ->
  Diet.root st <> T.
Proof.
  intros [W R _ _] C F Hn E.
  rewrite E in R. pose proof (DietBuild.drep_T st t W R) as Et.
  destruct ops as [| [a b] ops]; [contradiction |].
  inversion F as [| x l F1 F2]; subst. cbn [fst snd] in F1.
  assert (Hc : covers ((a, b) :: ops) a).
  { apply IvlFacts.covers_cons. left. lia. }
  apply C in Hc. cbn [Ivl.inorder] in Hc.
  apply (IvlFacts.covers_nil a Hc).
Qed.

Lemma diet_intervals_ok (fuel : nat) (st : Diet.state) (t : Ivl.tree) :
  DietInv.Inv st t -> Diet.N < Z.of_nat fuel ->
  diet_intervals fuel st = Ok (Ivl.preorder t).
Proof.
  intros I Hf. unfold diet_intervals.
  rewrite (DietRuns.d_stored_ok fuel st t I Hf). cbn [rmap].
  rewrite (DietRuns.d_handles_intervals st _ t (DietInv.inv_rep _ _ I)).
  reflexivity.
Qed.

(** The tree below a handle returned by one of the two searches, seen as
    a state of its own. *)
Lemma diet_inv_at (st : Diet.state) (h : Z) (t : Ivl.tree) :
  DietInv.wf st -> DietInv.rep st h t -> NoDup (Ivl.handles t) ->
  Ivl.iso (Ivl.inorder t) -> DietInv.Inv (Diet.set_root st h) t.
Proof.
  intros W R ND Iso. split.
  - exact W.
  - apply DietRuns.drep_set_root. exact R.
  - exact ND.
  - exact Iso.
Qed.

(** X16 (isolation, [diet.c]).  A non-empty sequence of [insert] calls
    with [low <= high] either runs [new_node] into a store outside the
    arena or ends in a state in which the handles that [gather_indices]
    collects from [root] are pairwise distinct and no two of them are
    [overlapping_or_adjacent]: [check_isolation] passes. *)
Theorem diet_isolation (fuel : nat) (ops : list (Z * Z)) :
  Diet.N < Z.of_nat fuel ->
  Forall (fun op => fst op <= snd op) ops -> ops <> [] ->
  Diet.inserts fuel Diet.init ops = Err StoreOutsideArena
  \/ exists st hs,
       Diet.inserts fuel Diet.init ops = Ok st
       /\ Diet.stored fuel st = Ok hs
       /\ NoDup hs
       /\ (forall i j, (i < j < length hs)%nat ->
             Diet.overlapping_or_adjacent st (nth i hs T) (nth j hs T)
             = false)
       /\ DietChecks.check_isolation fuel st = Ok tt.
Proof.
  intros Hf F Hn.
  destruct (DietBuild.dpost_cases _ _ (diet_reached fuel ops Hf F))
    as [E | (st & E & t & I & C)]; [left; exact E | right].
  pose proof (diet_root st t ops I C F Hn) as Hr.
  pose proof (DietRuns.d_check_isolation_ok fuel st t I Hr Hf) as Hc.
  exists st, (Ivl.handles t). split; [exact E |].
  split; [apply (DietRuns.d_stored_ok fuel st t I Hf) |].
  split; [apply (DietInv.inv_nodup _ _ I) |].
  split; [| exact Hc].
  apply DietRuns.d_pairs_by_position.
  apply DietRuns.d_isolated_pairs_ok.
  rewrite (DietRuns.d_handles_intervals st _ t (DietInv.inv_rep _ _ I)).
  apply IvlFacts.preorder_isolated. apply (DietInv.inv_iso _ _ I).
Qed.

Lemma diet_isolation_witness :
  Diet.inserts (Z.to_nat 10001) Diet.init [(2, 2); (4, 4); (1, 3)]
  = Err StoreOutsideArena
  \/ exists st hs,
       Diet.inserts (Z.to_nat 10001) Diet.init [(2, 2); (4, 4); (1, 3)]
       = Ok st
       /\ Diet.stored (Z.to_nat 10001) st = Ok hs
       /\ NoDup hs
       /\ (forall i j, (i < j < length hs)%nat ->
             Diet.overlapping_or_adjacent st (nth i hs T) (nth j hs T)
             = false)
       /\ DietChecks.check_isolation (Z.to_nat 10001) st = Ok tt.
Proof.
  apply (diet_isolation (Z.to_nat 10001) [(2, 2); (4, 4); (1, 3)]).
  - vm_compute. reflexivity.
  - repeat constructor; cbn; lia.
  - discriminate.
Defined.

(** X17 ([check_inequality], [diet.c]).  Unless [new_node] runs outside
    the arena, after a non-empty sequence of [insert] calls with
    [low <= high] the order check of the test loop passes: below every
    node the [low] fields of the left subtree are not greater, and those
    of the right subtree not smaller, than the node's. *)
Theorem diet_order (fuel : nat) (ops : list (Z * Z)) :
  Diet.N < Z.of_nat fuel ->
  Forall (fun op => fst op <= snd op) ops -> ops <> [] ->
  Diet.inserts fuel Diet.init ops = Err StoreOutsideArena
  \/ exists st,
       Diet.inserts fuel Diet.init ops = Ok st
       /\ DietChecks.check_inequality fuel st (Diet.root st) = Ok tt.
Proof.
  intros Hf F Hn.
  destruct (DietBuild.dpost_cases _ _ (diet_reached fuel ops Hf F))
    as [E | (st & E & t & I & C)]; [left; exact E | right].
  pose proof (diet_root st t ops I C F Hn) as Hr.
  destruct I as [W R ND Iso].
  exists st. split; [exact E |].
  apply (DietRuns.d_check_inequality_ok fuel st _ t W R Hr Iso).
  pose proof (DietBuild.drep_depth st _ t W R ND). lia.
Qed.

Lemma diet_order_witness :
  Diet.inserts (Z.to_nat 10001) Diet.init [(2, 2); (4, 4); (1, 3)]
  = Err StoreOutsideArena
  \/ exists st,
       Diet.inserts (Z.to_nat 10001) Diet.init [(2, 2); (4, 4); (1, 3)]
       = Ok st
       /\ DietChecks.check_inequality (Z.to_nat 10001) st (Diet.root st)
          = Ok tt.
Proof.
  apply (diet_order (Z.to_nat 10001) [(2, 2); (4, 4); (1, 3)]).
  - vm_compute. reflexivity.
  - repeat constructor; cbn; lia.
  - discriminate.
Defined.

(** X18 (coverage, [diet.c]).  Unless [new_node] runs outside the arena,
    after a sequence of [insert] calls with [low <= high] an integer lies
    in a stored interval exactly when it lies in one of the inserted
    ranges. *)
Theorem diet_coverage (fuel : nat) (ops : list (Z * Z)) :
  Diet.N < Z.of_nat fuel ->
  Forall (fun op => fst op <= snd op) ops ->
  Diet.inserts fuel Diet.init ops = Err StoreOutsideArena
  \/ exists st ivs,
       Diet.inserts fuel Diet.init ops = Ok st
       /\ diet_intervals fuel st = Ok ivs
       /\ forall z, covers ivs z <-> covers ops z.
Proof.
  intros Hf F.
  destruct (DietBuild.dpost_cases _ _ (diet_reached fuel ops Hf F))
    as [E | (st & E & t & I & C)]; [left; exact E | right].
  exists st, (Ivl.preorder t). split; [exact E |].
  split; [apply (diet_intervals_ok fuel st t I Hf) |].
  intros z. rewrite covers_preorder. apply C.
Qed.

Lemma diet_coverage_witness :
  Diet.inserts (Z.to_nat 10001) Diet.init [(2, 2); (4, 4); (1, 3)]
  = Err StoreOutsideArena
  \/ exists st ivs,
       Diet.inserts (Z.to_nat 10001) Diet.init [(2, 2); (4, 4); (1, 3)]
       = Ok st
       /\ diet_intervals (Z.to_nat 10001) st = Ok ivs
       /\ forall z, covers ivs z <-> covers [(2, 2); (4, 4); (1, 3)] z.
Proof.
  apply (diet_coverage (Z.to_nat 10001) [(2, 2); (4, 4); (1, 3)]).
  - vm_compute. reflexivity.
  - repeat constructor; cbn; lia.
Defined.

(** X19 (a stored range, [diet.c]).  In every reachable state, an
    [insert(lo, hi)] with [lo <= hi] of which every integer is already
    stored returns, and it has called neither [blit] nor [new_node] and
    written to no node: the arena, its length and [root] are as before. *)
Theorem diet_stored_range_untouched (fuel : nat) (ops : list (Z * Z))
        (lo hi : Z) :
  Diet.N < Z.of_nat fuel ->
  Forall (fun op => fst op <= snd op) ops -> lo <= hi ->
  Diet.inserts fuel Diet.init ops = Err StoreOutsideArena
  \/ exists st ivs,
       Diet.inserts fuel Diet.init ops = Ok st
       /\ diet_intervals fuel st = Ok ivs
       /\ ((forall z, lo <= z <= hi -> covers ivs z) ->
           exists st',
             Diet.insert fuel st lo hi = Ok st'
             /\ Diet.trace st' = []
             /\ Diet.len st' = Diet.len st
             /\ Diet.root st' = Diet.root st
             /\ forall i, Diet.nodes st' i = Diet.nodes st i).
Proof.
  intros Hf F H0.
  destruct (DietBuild.dpost_cases _ _ (diet_reached fuel ops Hf F))
    as [E | (st & E & t & I & C)]; [left; exact E | right].
  exists st, (Ivl.preorder t). split; [exact E |].
  split; [apply (diet_intervals_ok fuel st t I Hf) |].
  intros Hc.
  assert (Wn : Ivl.within (Ivl.inorder t) lo hi).
  { intros z Hz. apply covers_preorder. apply Hc. exact Hz. }
  destruct (DietRuns.d_insert_within fuel st t lo hi Hf I H0 Wn)
    as (st' & E').
  pose proof (DietRuns.d_insert_ok fuel st t lo hi Hf I H0) as P.
  rewrite E' in P. cbn [DietInv.post] in P.
  destruct P as (_ & _ & t' & _ & _ & _ & K).
  destruct (K Wn) as (Kt & Kl & Kr & Kn & _).
  exists st'. split; [exact E' |].
  split; [exact Kt |]. split; [exact Kl |]. split; [exact Kr | exact Kn].
Qed.

Lemma diet_stored_range_untouched_witness :
  Diet.inserts (Z.to_nat 10001) Diet.init [(2, 5); (9, 9)]
  = Err StoreOutsideArena
  \/ exists st ivs,
       Diet.inserts (Z.to_nat 10001) Diet.init [(2, 5); (9, 9)] = Ok st
       /\ diet_intervals (Z.to_nat 10001) st = Ok ivs
       /\ ((forall z, 3 <= z <= 4 -> covers ivs z) ->
           exists st',
             Diet.insert (Z.to_nat 10001) st 3 4 = Ok st'
             /\ Diet.trace st' = []
             /\ Diet.len st' = Diet.len st
             /\ Diet.root st' = Diet.root st
             /\ forall i, Diet.nodes st' i = Diet.nodes st i).
Proof.
  apply (diet_stored_range_untouched (Z.to_nat 10001) [(2, 5); (9, 9)] 3 4).
  - vm_compute. reflexivity.
  - repeat constructor; cbn; lia.
  - lia.
Defined.

(** X20 (what [insert] writes, [diet.c]).  In every reachable state a
    further [insert] with [low <= high] that returns has written only to
    nodes of the tree and to newly allocated ones: every other allocated
    node is unchanged, [len] has not decreased, a non-empty tree keeps
    its [root] handle, and the handles of the new tree are old ones or
    newly allocated. *)
Theorem diet_insert_footprint (fuel : nat) (ops : list (Z * Z))
        (lo hi : Z) :
  Diet.N < Z.of_nat fuel ->
  Forall (fun op => fst op <= snd op) ops -> lo <= hi ->
  Diet.inserts fuel Diet.init ops = Err StoreOutsideArena
  \/ exists st hs,
       Diet.inserts fuel Diet.init ops = Ok st
       /\ Diet.stored fuel st = Ok hs
       /\ (Diet.insert fuel st lo hi = Err StoreOutsideArena
           \/ exists st' hs',
                Diet.insert fuel st lo hi = Ok st'
                /\ Diet.stored fuel st' = Ok hs'
                /\ Diet.len st <= Diet.len st'
                /\ (Diet.root st <> T -> Diet.root st' = Diet.root st)
                /\ (forall i, 0 <= i < Diet.len st -> ~ In i hs ->
                      Diet.nodes st' i = Diet.nodes st i)
                /\ (forall h, In h hs' ->
                      In h hs \/ Diet.len st <= h < Diet.len st')).
Proof.
  intros Hf F H0.
  destruct (DietBuild.dpost_cases _ _ (diet_reached fuel ops Hf F))
    as [E | (st & E & t & I & C)]; [left; exact E | right].
  exists st, (Ivl.handles t). split; [exact E |].
  split; [apply (DietRuns.d_stored_ok fuel st t I Hf) |].
  destruct (DietBuild.dpost_cases _ _
              (DietRuns.d_insert_ok fuel st t lo hi Hf I H0))
    as [E' | (st' & E' & (Cl & Cn) & Hr & t' & I' & Fr & _)];
    [left; exact E' | right].
  exists st', (Ivl.handles t'). split; [exact E' |].
  split; [apply (DietRuns.d_stored_ok fuel st' t' I' Hf) |].
  split; [exact Cl |]. split; [exact Hr |]. split; [exact Cn | exact Fr].
Qed.

Lemma diet_insert_footprint_witness :
  Diet.inserts (Z.to_nat 10001) Diet.init [(2, 2); (4, 4)]
  = Err StoreOutsideArena
  \/ exists st hs,
       Diet.inserts (Z.to_nat 10001) Diet.init [(2, 2); (4, 4)] = Ok st
       /\ Diet.stored (Z.to_nat 10001) st = Ok hs
       /\ (Diet.insert (Z.to_nat 10001) st 1 3 = Err StoreOutsideArena
           \/ exists st' hs',
                Diet.insert (Z.to_nat 10001) st 1 3 = Ok st'
                /\ Diet.stored (Z.to_nat 10001) st' = Ok hs'
                /\ Diet.len st <= Diet.len st'
                /\ (Diet.root st <> T -> Diet.root st' = Diet.root st)
                /\ (forall i, 0 <= i < Diet.len st -> ~ In i hs ->
                      Diet.nodes st' i = Diet.nodes st i)
                /\ (forall h, In h hs' ->
                      In h hs \/ Diet.len st <= h < Diet.len st')).
Proof.
  apply (diet_insert_footprint (Z.to_nat 10001) [(2, 2); (4, 4)] 1 3).
  - vm_compute. reflexivity.
  - repeat constructor; cbn; lia.
  - lia.
Defined.

(** X21 ([less_than_or_equal], [diet.c]).  Called on the tree of a
    reachable state, the search for the new lower end either runs
    [new_node] outside the arena or returns without having changed any
    allocated node; its [out_low] is at most [low] and is [low] or the
    [low] of a stored interval; the intervals of the returned subtree are
    stored intervals that end before [out_low - 1]; and the returned
    intervals together with the integers from [out_low] on cover exactly
    the stored intervals together with the integers from [low] on. *)
Theorem diet_less_than_or_equal_cut (fuel : nat) (ops : list (Z * Z))
        (lo bl bh : Z) :
  Diet.N < Z.of_nat fuel ->
  Forall (fun op => fst op <= snd op) ops ->
  Diet.inserts fuel Diet.init ops = Err StoreOutsideArena
  \/ exists st ivs,
       Diet.inserts fuel Diet.init ops = Ok st
       /\ diet_intervals fuel st = Ok ivs
       /\ (Diet.less_than_or_equal fuel st (Diet.root st) lo bl bh
           = Err StoreOutsideArena
           \/ exists st' h out ivs',
                Diet.less_than_or_equal fuel st (Diet.root st) lo bl bh
                = Ok (st', h, out)
                /\ diet_intervals fuel (Diet.set_root st' h) = Ok ivs'
                /\ (forall i, 0 <= i < Diet.len st ->
                      Diet.nodes st' i = Diet.nodes st i)
                /\ out <= lo
                /\ (out = lo \/ exists b, In (out, b) ivs)
                /\ (forall a b, In (a, b) ivs' ->
                      In (a, b) ivs /\ b + 1 < out)
                /\ (forall z, covers ivs' z \/ out <= z <->
                              covers ivs z \/ lo <= z)).
Proof.
  intros Hf F.
  destruct (DietBuild.dpost_cases _ _ (diet_reached fuel ops Hf F))
    as [E | (st & E & t & I & C)]; [left; exact E | right].
  exists st, (Ivl.preorder t). split; [exact E |].
  split; [apply (diet_intervals_ok fuel st t I Hf) |].
  destruct I as [W R ND Iso].
  assert (Hd : Ivl.depth t < Z.of_nat fuel).
  { pose proof (DietBuild.drep_depth st _ t W R ND). lia. }
  destruct (DietBuild.dpost_cases _ _
              (DietBuild.less_than_or_equal_ok fuel st (Diet.root st)
                 lo bl bh t W R ND Iso Hd))
    as [E' | ([[st' h] out] & E' & W' & (_ & Xn) & t' & R' & ND' & _ & CL)];
    [left; exact E' | right].
  cbn [fst snd] in *.
  destruct CL as [Cle Cnews Csub Cbelow Ciso Ccov].
  exists st', h, out, (Ivl.preorder t'). split; [exact E' |].
  split.
  { apply diet_intervals_ok; [| exact Hf].
    apply diet_inv_at; assumption. }
  split; [exact Xn |]. split; [exact Cle |]. split.
  { destruct Cnews as [Hn | (b & Hb)]; [left; exact Hn | right].
    exists b. apply IvlFacts.in_preorder. exact Hb. }
  split.
  { intros a b Hab. apply IvlFacts.in_preorder in Hab. split.
    - apply IvlFacts.in_preorder. apply Csub. exact Hab.
    - apply (Cbelow a b Hab). }
  intros z. rewrite !covers_preorder. apply Ccov.
Qed.

Lemma diet_less_than_or_equal_cut_witness :
  Diet.inserts (Z.to_nat 10001) Diet.init [(9, 9); (2, 3); (5, 6)]
  = Err StoreOutsideArena
  \/ exists st ivs,
       Diet.inserts (Z.to_nat 10001) Diet.init [(9, 9); (2, 3); (5, 6)]
       = Ok st
       /\ diet_intervals (Z.to_nat 10001) st = Ok ivs
       /\ (Diet.less_than_or_equal (Z.to_nat 10001) st (Diet.root st) 7 7 8
           = Err StoreOutsideArena
           \/ exists st' h out ivs',
                Diet.less_than_or_equal (Z.to_nat 10001) st (Diet.root st)
                                        7 7 8
                = Ok (st', h, out)
                /\ diet_intervals (Z.to_nat 10001) (Diet.set_root st' h)
                   = Ok ivs'
                /\ (forall i, 0 <= i < Diet.len st ->
                      Diet.nodes st' i = Diet.nodes st i)
                /\ out <= 7
                /\ (out = 7 \/ exists b, In (out, b) ivs)
                /\ (forall a b, In (a, b) ivs' ->
                      In (a, b) ivs /\ b + 1 < out)
                /\ (forall z, covers ivs' z \/ out <= z <->
                              covers ivs z \/ 7 <= z)).
Proof.
  apply (diet_less_than_or_equal_cut (Z.to_nat 10001)
           [(9, 9); (2, 3); (5, 6)] 7 7 8).
  - vm_compute. reflexivity.
  - repeat constructor; cbn; lia.
Defined.

(** X22 ([greater_than_or_equal], [diet.c]).  The mirror image for the
    new upper end: no allocated node is changed; [out_high] is at least
    [high] and is [high] or the [high] of a stored interval; the intervals
    of the returned subtree are stored intervals that start after
    [out_high + 1]; and the returned intervals together with the integers
    up to [out_high] cover exactly the stored intervals together with the
    integers up to [high]. *)
Theorem diet_greater_than_or_equal_cut (fuel : nat) (ops : list (Z * Z))
        (hi bl bh : Z) :
  Diet.N < Z.of_nat fuel ->
  Forall (fun op => fst op <= snd op) ops ->
  Diet.inserts fuel Diet.init ops = Err StoreOutsideArena
  \/ exists st ivs,
       Diet.inserts fuel Diet.init ops = Ok st
       /\ diet_intervals fuel st = Ok ivs
       /\ (Diet.greater_than_or_equal fuel st (Diet.root st) hi bl bh
           = Err StoreOutsideArena
           \/ exists st' h out ivs',
                Diet.greater_than_or_equal fuel st (Diet.root st) hi bl bh
                = Ok (st', h, out)
                /\ diet_intervals fuel (Diet.set_root st' h) = Ok ivs'
                /\ (forall i, 0 <= i < Diet.len st ->
                      Diet.nodes st' i = Diet.nodes st i)
                /\ hi <= out
                /\ (out = hi \/ exists a, In (a, out) ivs)
                /\ (forall a b, In (a, b) ivs' ->
                      In (a, b) ivs /\ out + 1 < a)
                /\ (forall z, covers ivs' z \/ z <= out <->
                              covers ivs z \/ z <= hi)).
Proof.
  intros Hf F.
  destruct (DietBuild.dpost_cases _ _ (diet_reached fuel ops Hf F))
    as [E | (st & E & t & I & C)]; [left; exact E | right].
  exists st, (Ivl.preorder t). split; [exact E |].
  split; [apply (diet_intervals_ok fuel st t I Hf) |].
  destruct I as [W R ND Iso].
  assert (Hd : Ivl.depth t < Z.of_nat fuel).
  { pose proof (DietBuild.drep_depth st _ t W R ND). lia. }
  destruct (DietBuild.dpost_cases _ _
              (DietBuild.greater_than_or_equal_ok fuel st (Diet.root st)
                 hi bl bh t W R ND Iso Hd))
    as [E' | ([[st' h] out] & E' & W' & (_ & Xn) & t' & R' & ND' & _ & CR)];
    [left; exact E' | right].
  cbn [fst snd] in *.
  destruct CR as [Cge Cnewe Csub Cabove Ciso Ccov].
  exists st', h, out, (Ivl.preorder t'). split; [exact E' |].
  split.
  { apply diet_intervals_ok; [| exact Hf].
    apply diet_inv_at; assumption. }
  split; [exact Xn |]. split; [exact Cge |]. split.
  { destruct Cnewe as [Hn | (a & Ha)]; [left; exact Hn | right].
    exists a. apply IvlFacts.in_preorder. exact Ha. }
  split.
  { intros a b Hab. apply IvlFacts.in_preorder in Hab. split.
    - apply IvlFacts.in_preorder. apply Csub. exact Hab.
    - apply (Cabove a b Hab). }
  intros z. rewrite !covers_preorder. apply Ccov.
Qed.

Lemma diet_greater_than_or_equal_cut_witness :
  Diet.inserts (Z.to_nat 10001) Diet.init [(1, 1); (8, 9); (5, 6)]
  = Err StoreOutsideArena
  \/ exists st ivs,
       Diet.inserts (Z.to_nat 10001) Diet.init [(1, 1); (8, 9); (5, 6)]
       = Ok st
       /\ diet_intervals (Z.to_nat 10001) st = Ok ivs
       /\ (Diet.greater_than_or_equal (Z.to_nat 10001) st (Diet.root st)
                                      3 2 3
           = Err StoreOutsideArena
           \/ exists st' h out ivs',
                Diet.greater_than_or_equal (Z.to_nat 10001) st
                                           (Diet.root st) 3 2 3
                = Ok (st', h, out)
                /\ diet_intervals (Z.to_nat 10001) (Diet.set_root st' h)
                   = Ok ivs'
                /\ (forall i, 0 <= i < Diet.len st ->
                      Diet.nodes st' i = Diet.nodes st i)
                /\ 3 <= out
                /\ (out = 3 \/ exists a, In (a, out) ivs)
                /\ (forall a b, In (a, b) ivs' ->
                      In (a, b) ivs /\ out + 1 < a)
                /\ (forall z, covers ivs' z \/ z <= out <->
                              covers ivs z \/ z <= 3)).
Proof.
  apply (diet_greater_than_or_equal_cut (Z.to_nat 10001)
           [(1, 1); (8, 9); (5, 6)] 3 2 3).
  - vm_compute. reflexivity.
  - repeat constructor; cbn; lia.
Defined.

(* ================================================================== *)
(** * avl_tree_ref.c: the search order, the exact [max] and [search] *)

Lemma avl_reached_ord (fuel : nat) (ops : list (Z * Z)) :
  Avl.N < Z.of_nat fuel -> Z.of_nat (length ops) <= Avl.N ->
  Forall (fun op => MIN <= snd op) ops ->
  exists st, Avl.inserts fuel Avl.init ops = Ok st /\ AvlInv.Inv st /\
             AvlOrd.Ord st /\
             (forall i, AvlInv.valid st i -> MIN <= Avl.high st i) /\
             Avl.len st = Z.of_nat (length ops).
Proof.
  intros Hf Hn F.
  destruct (avl_reached fuel ops Hf Hn) as (st & E & I & L).
  assert (H0 : Avl.len Avl.init + Z.of_nat (length ops) <= Avl.N).
  { change (Avl.len Avl.init) with 0. lia. }
  exists st. split; [exact E |]. split; [exact I |]. split; [| split].
  - apply (AvlOrdFacts.inserts_ord fuel ops Avl.init st AvlQuery.init_inv
             AvlOrdFacts.init_ord H0 Hf F E).
  - apply (AvlOrdChecks.inserts_high fuel ops Avl.init st AvlQuery.init_inv);
      try assumption.
    intros i Vi. unfold AvlInv.valid in Vi.
    change (Avl.len Avl.init) with 0 in Vi. lia.
  - exact L.
Qed.

(** X23 (search order).  After any non-empty sequence of at most [N]
    calls of [insert] whose [high] values are [int16] values, every node
    below the left child of a node has a [low] that is at most the node's
    [low], every node below its right child a [low] that is at least the
    node's [low], and [check_inequality(root)] runs through without a
    failing assertion. *)
Theorem avl_low_order (fuel : nat) (ops : list (Z * Z)) :
  Avl.N < Z.of_nat fuel -> 0 < Z.of_nat (length ops) <= Avl.N ->
  Forall (fun op => MIN <= snd op) ops ->
  exists st,
    Avl.inserts fuel Avl.init ops = Ok st
    /\ (forall x j, 0 <= x < Avl.len st ->
          (Avl.left st x <> T -> AvlInv.desc st (Avl.left st x) j ->
           Avl.low st j <= Avl.low st x)
          /\ (Avl.right st x <> T -> AvlInv.desc st (Avl.right st x) j ->
              Avl.low st x <= Avl.low st j))
    /\ AvlChecks.check_inequality fuel st (Avl.root st) = Ok tt.
Proof.
  intros Hf Hn F.
  destruct (avl_reached_ord fuel ops Hf (proj2 Hn) F)
    as (st & E & I & [_ [bd B]] & _ & L).
  exists st. split; [exact E |]. split.
  - intros x j Hx. apply (AvlOrdChecks.bst_order st bd x j I B Hx).
  - assert (Hpos : 0 < Avl.len st) by lia.
    destruct (AvlInv.inv_root _ I Hpos) as [Vr _].
    apply (AvlOrdChecks.avl_check_inequality_ok fuel st bd _ I B Vr).
    pose proof (AvlQuery.inv_hfield_le st _ I Vr). lia.
Qed.

Lemma avl_low_order_witness :
  exists st,
    Avl.inserts 1001 Avl.init [(5, 9); (1, 3); (7, 8); (5, 6)] = Ok st
    /\ (forall x j, 0 <= x < Avl.len st ->
          (Avl.left st x <> T -> AvlInv.desc st (Avl.left st x) j ->
           Avl.low st j <= Avl.low st x)
          /\ (Avl.right st x <> T -> AvlInv.desc st (Avl.right st x) j ->
              Avl.low st x <= Avl.low st j))
    /\ AvlChecks.check_inequality 1001 st (Avl.root st) = Ok tt.
Proof.
  apply (avl_low_order 1001 [(5, 9); (1, 3); (7, 8); (5, 6)]).
  - vm_compute. reflexivity.
  - split; vm_compute; [reflexivity | discriminate].
  - repeat constructor; vm_compute; discriminate.
Defined.

(** X24 (exact [max]).  After any non-empty sequence of at most [N]
    calls of [insert] whose [high] values are [int16] values, the [max]
    field of every allocated node is the [high] of some node of its
    subtree, [calc_max] recomputes exactly the stored [max], and
    [check_max(root)] runs through without a failing assertion. *)
Theorem avl_max_exact (fuel : nat) (ops : list (Z * Z)) :
  Avl.N < Z.of_nat fuel -> 0 < Z.of_nat (length ops) <= Avl.N ->
  Forall (fun op => MIN <= snd op) ops ->
  exists st,
    Avl.inserts fuel Avl.init ops = Ok st
    /\ (forall x, 0 <= x < Avl.len st ->
          exists j, AvlInv.desc st x j /\ Avl.high st j = Avl.max st x)
    /\ (forall x, 0 <= x < Avl.len st ->
          AvlChecks.calc_max fuel st x = Ok (Avl.max st x))
    /\ AvlChecks.check_max fuel st (Avl.root st) = Ok tt.
Proof.
  intros Hf Hn F.
  destruct (avl_reached_ord fuel ops Hf (proj2 Hn) F)
    as (st & E & I & [Om _] & Hh & L).
  exists st. split; [exact E |]. split; [| split].
  - intros x Hx.
    pose proof (AvlQuery.inv_hfield_le st x I Hx) as Hb.
    apply (AvlOrdChecks.max_attained st I Om Hh
             (Z.to_nat (Avl.hfield st x)) x Hx). lia.
  - intros x Hx.
    pose proof (AvlInsert.inv_valid_not_T st x I Hx) as HxT.
    rewrite <- (AvlOrdChecks.mx_valid st x HxT).
    apply AvlOrdChecks.calc_max_ok; [exact I | exact Om | right; exact Hx |].
    rewrite (AvlMid.height_valid st x HxT).
    pose proof (AvlQuery.inv_hfield_le st x I Hx). lia.
  - assert (Hpos : 0 < Avl.len st) by lia.
    destruct (AvlInv.inv_root _ I Hpos) as [Vr _].
    apply (AvlOrdChecks.check_max_ok fuel st _ I Om Vr).
    pose proof (AvlQuery.inv_hfield_le st _ I Vr). lia.
Qed.

Lemma avl_max_exact_witness :
  exists st,
    Avl.inserts 1001 Avl.init [(5, 9); (1, 3); (7, 8); (5, 6)] = Ok st
    /\ (forall x, 0 <= x < Avl.len st ->
          exists j, AvlInv.desc st x j /\ Avl.high st j = Avl.max st x)
    /\ (forall x, 0 <= x < Avl.len st ->
          AvlChecks.calc_max 1001 st x = Ok (Avl.max st x))
    /\ AvlChecks.check_max 1001 st (Avl.root st) = Ok tt.
Proof.
  apply (avl_max_exact 1001 [(5, 9); (1, 3); (7, 8); (5, 6)]).
  - vm_compute. reflexivity.
  - split; vm_compute; [reflexivity | discriminate].
  - repeat constructor; vm_compute; discriminate.
Defined.

(** X25 ([check_invariants]).  After any non-empty sequence of at most
    [N] calls of [insert] whose [high] values are [int16] values, the
    three checks of [check_invariants] ([check_inequality],
    [check_height], [check_max], each from [root]) run through without a
    failing assertion. *)
Theorem avl_check_invariants_pass (fuel : nat) (ops : list (Z * Z)) :
  Avl.N < Z.of_nat fuel -> 0 < Z.of_nat (length ops) <= Avl.N ->
  Forall (fun op => MIN <= snd op) ops ->
  exists st,
    Avl.inserts fuel Avl.init ops = Ok st
    /\ AvlChecks.check_invariants fuel st = Ok tt.
Proof.
  intros Hf Hn F.
  destruct (avl_reached_ord fuel ops Hf (proj2 Hn) F)
    as (st & E & I & O & _ & L).
  exists st. split; [exact E |].
  apply (AvlOrdChecks.check_invariants_ok fuel st I O); [lia | exact Hf].
Qed.

Lemma avl_check_invariants_pass_witness :
  exists st,
    Avl.inserts 1001 Avl.init [(5, 9); (1, 3); (7, 8); (5, 6)] = Ok st
    /\ AvlChecks.check_invariants 1001 st = Ok tt.
Proof.
  apply (avl_check_invariants_pass 1001 [(5, 9); (1, 3); (7, 8); (5, 6)]).
  - vm_compute. reflexivity.
  - split; vm_compute; [reflexivity | discriminate].
  - repeat constructor; vm_compute; discriminate.
Defined.

(** X26 ([search] misses nothing).  After any sequence of at most [N]
    calls of [insert] whose [high] values are [int16] values,
    [search(lo, hi)] returns the sentinel exactly when no allocated node
    has an interval that overlaps [lo .. hi]. *)
Theorem avl_search_complete (fuel : nat) (ops : list (Z * Z)) (lo hi : Z) :
  Avl.N < Z.of_nat fuel -> Z.of_nat (length ops) <= Avl.N ->
  Forall (fun op => MIN <= snd op) ops ->
  exists st r,
    Avl.inserts fuel Avl.init ops = Ok st
    /\ AvlChecks.search fuel st lo hi = Ok r
    /\ (r = T <->
        forall i, 0 <= i < Avl.len st ->
                  overlap lo hi (Avl.low st i) (Avl.high st i) = false).
Proof.
  intros Hf Hn F.
  destruct (avl_reached_ord fuel ops Hf Hn F)
    as (st & E & I & [Om [bd B]] & Hh & L).
  assert (Hr : Avl.root st = T \/ AvlInv.valid st (Avl.root st)).
  { destruct (Z.eq_dec (Avl.len st) 0) as [E0 | N0].
    - left. apply (AvlInv.inv_empty _ I E0).
    - right. apply (AvlInv.inv_root _ I).
      pose proof (AvlInv.inv_len _ I). lia. }
  destruct (AvlChecksFacts.search_from_ok fuel st (Avl.root st) lo hi I Hr)
    as (r & Er & Pr).
  { destruct Hr as [Hr | Hr].
    - rewrite Hr. change (Avl.height st T) with 0. unfold Avl.N in Hf. lia.
    - rewrite (AvlMid.height_valid st _ (AvlInsert.inv_valid_not_T st _ I Hr)).
      pose proof (AvlQuery.inv_hfield_le st _ I Hr). lia. }
  exists st, r. split; [exact E |]. split; [exact Er |]. split.
  - intros -> i Hi.
    destruct Hr as [Hr | Vr].
    + exfalso. pose proof (AvlInv.inv_root _ I) as R.
      assert (Hpos : 0 < Avl.len st) by lia.
      destruct (R Hpos) as [Vr _].
      apply (AvlInsert.inv_valid_not_T st _ I Vr). exact Hr.
    + apply (AvlOrdChecks.search_from_complete fuel st bd (Avl.root st) lo hi
               I Om B Hh Vr Er i).
      apply (AvlQuery.inv_reach st i I Hi).
  - intros Hno. destruct Pr as [Pr | (V & _ & H)]; [exact Pr |].
    unfold AvlInv.hit in H. rewrite (Hno r V) in H. discriminate H.
Qed.

Lemma avl_search_complete_witness :
  exists st r,
    Avl.inserts 1001 Avl.init [(5, 9); (1, 3); (7, 8)] = Ok st
    /\ AvlChecks.search 1001 st 4 4 = Ok r
    /\ (r = T <->
        forall i, 0 <= i < Avl.len st ->
                  overlap 4 4 (Avl.low st i) (Avl.high st i) = false).
Proof.
  apply (avl_search_complete 1001 [(5, 9); (1, 3); (7, 8)] 4 4).
  - vm_compute. reflexivity.
  - vm_compute. discriminate.
  - repeat constructor; vm_compute; discriminate.
Defined.

(* ================================================================== *)
(** * The [blit] calls of diet3.c, the height of the balanced trees,
      [clear] *)

Lemma diet3_reached_bounded (rtl : bool) (fuel : nat) (ops : list (Z * Z)) :
  4 * Diet3.N + 4 < Z.of_nat fuel ->
  Forall (fun op => -32768 < fst op <= snd op /\ snd op < 32767) ops ->
  Diet3Inv.post (Diet3.inserts rtl fuel Diet3.init ops)
    (fun st => exists t, Diet3Inv.Inv st t /\
                         Diet3BlitDefs.bounded (Ivl.inorder t)).
Proof.
  intros Hf F.
  apply (Diet3Blit.d3_inserts_bounded rtl fuel ops Diet3.init Ivl.Leaf Hf
           Diet3Runs.d3_init_inv); [| exact F].
  intros a b [].
Qed.

(** X27 (what [diet3.c] hands to [blit]).  In every state reached with
    ranges that stay clear of the two ends of [int16], a further
    [insert(s0, e0)] that returns has called [blit] only on ranges
    inside [s0 .. e0], and every integer of [s0 .. e0] that was not
    stored before lies in one of these ranges. *)
Theorem diet3_blit_contract (rtl : bool) (fuel : nat)
        (ops : list (Z * Z)) (s0 e0 : Z) :
  4 * Diet3.N + 4 < Z.of_nat fuel ->
  Forall (fun op => -32768 < fst op <= snd op /\ snd op < 32767) ops ->
  -32768 < s0 <= e0 /\ e0 < 32767 ->
  Diet3.inserts rtl fuel Diet3.init ops = Err AssertFailed
  \/ exists st ivs,
       Diet3.inserts rtl fuel Diet3.init ops = Ok st
       /\ diet3_intervals fuel st = Ok ivs
       /\ (Diet3.insert rtl fuel st s0 e0 = Err AssertFailed
           \/ exists st',
                Diet3.insert rtl fuel st s0 e0 = Ok st'
                /\ (forall z, covers (Diet3.trace st') z -> s0 <= z <= e0)
                /\ (forall z, s0 <= z <= e0 -> ~ covers ivs z ->
                      covers (Diet3.trace st') z)).
Proof.
  intros Hf F H0.
  destruct (Diet3Runs.post_cases _ _ (diet3_reached_bounded rtl fuel ops Hf F))
    as [E | (st & E & t & I & B)]; [left; exact E | right].
  assert (Hf' : Diet3.N < Z.of_nat fuel) by (unfold Diet3.N in *; lia).
  exists st, (Ivl.preorder t). split; [exact E |].
  split; [apply (diet3_intervals_ok fuel st t I Hf') |].
  destruct (Diet3.insert rtl fuel st s0 e0) as [st' | err] eqn:Ei.
  - right. exists st'. split; [reflexivity |].
    destruct (Diet3Blit.d3_insert_trace rtl fuel st t s0 e0 st' Hf I B
                ltac:(lia) ltac:(lia) ltac:(lia) Ei) as (In1 & Cn).
    split; [exact In1 |].
    intros z Hz Nz. apply Cn; [exact Hz |].
    intros C. apply Nz. apply covers_preorder. exact C.
  - left.
    pose proof (Diet3Runs.d3_insert_ok rtl fuel st t s0 e0 Hf I ltac:(lia))
      as P.
    rewrite Ei in P. cbn [Diet3Inv.post] in P. rewrite P. reflexivity.
Qed.

Lemma diet3_blit_contract_witness :
  Diet3.inserts false 4005 Diet3.init [(4, 4); (1, 2)] = Err AssertFailed
  \/ exists st ivs,
       Diet3.inserts false 4005 Diet3.init [(4, 4); (1, 2)] = Ok st
       /\ diet3_intervals 4005 st = Ok ivs
       /\ (Diet3.insert false 4005 st 2 5 = Err AssertFailed
           \/ exists st',
                Diet3.insert false 4005 st 2 5 = Ok st'
                /\ (forall z, covers (Diet3.trace st') z -> 2 <= z <= 5)
                /\ (forall z, 2 <= z <= 5 -> ~ covers ivs z ->
                      covers (Diet3.trace st') z)).
Proof.
  apply (diet3_blit_contract false 4005 [(4, 4); (1, 2)] 2 5).
  - vm_compute. reflexivity.
  - repeat constructor; cbn; lia.
  - lia.
Defined.

(** X28 (logarithmic height, [diet3.c]).  Unless the arena is exhausted,
    after a sequence of [insert] calls with [start <= end] the tree with
    [k] stored intervals has a height [h] with [2 ^ (h / 2) <= k + 1]. *)
Theorem diet3_height_log (rtl : bool) (fuel : nat) (ops : list (Z * Z)) :
  4 * Diet3.N + 4 < Z.of_nat fuel ->
  Forall (fun op => fst op <= snd op) ops ->
  Diet3.inserts rtl fuel Diet3.init ops = Err AssertFailed
  \/ exists st hs,
       Diet3.inserts rtl fuel Diet3.init ops = Ok st
       /\ Diet3.stored fuel st = Ok hs
       /\ 2 ^ (Diet3.height st (Diet3.root st) / 2)
          <= Z.of_nat (length hs) + 1.
Proof.
  intros Hf F.
  destruct (Diet3Runs.post_cases _ _ (diet3_reached rtl fuel ops Hf F))
    as [E | (st & E & t & I & C)]; [left; exact E | right].
  assert (Hf' : Diet3.N < Z.of_nat fuel) by (unfold Diet3.N in *; lia).
  exists st, (Ivl.handles t). split; [exact E |].
  split; [apply (Diet3Runs.stored_ok fuel st t I Hf') |].
  destruct I as [W R _ A].
  rewrite (Diet3Build.rep_height st _ t W R).
  apply (LogHeight.avl_size t A).
Qed.

Lemma diet3_height_log_witness :
  Diet3.inserts false 4005 Diet3.init [(2, 2); (4, 4); (6, 6); (8, 8)]
  = Err AssertFailed
  \/ exists st hs,
       Diet3.inserts false 4005 Diet3.init [(2, 2); (4, 4); (6, 6); (8, 8)]
       = Ok st
       /\ Diet3.stored 4005 st = Ok hs
       /\ 2 ^ (Diet3.height st (Diet3.root st) / 2)
          <= Z.of_nat (length hs) + 1.
Proof.
  apply (diet3_height_log false 4005 [(2, 2); (4, 4); (6, 6); (8, 8)]).
  - vm_compute. reflexivity.
  - repeat constructor; cbn; lia.
Defined.

(** X29 (logarithmic height, [avl_tree_ref.c]).  After any sequence of
    [k <= N] calls of [insert] the height [h] of the root satisfies
    [2 ^ (h / 2) <= k + 1]. *)
Theorem avl_height_log (fuel : nat) (ops : list (Z * Z)) :
  Avl.N < Z.of_nat fuel -> Z.of_nat (length ops) <= Avl.N ->
  exists st,
    Avl.inserts fuel Avl.init ops = Ok st
    /\ 2 ^ (Avl.height st (Avl.root st) / 2) <= Z.of_nat (length ops) + 1.
Proof.
  intros Hf Hn.
  destruct (avl_reached fuel ops Hf Hn) as (st & E & I & L).
  exists st. split; [exact E |].
  rewrite <- L. apply (LogHeight.avl_height_bound st I).
Qed.

Lemma avl_height_log_witness :
  exists st,
    Avl.inserts 1001 Avl.init [(1, 3); (2, 4); (3, 5); (4, 6); (5, 7)] = Ok st
    /\ 2 ^ (Avl.height st (Avl.root st) / 2)
       <= Z.of_nat (length [(1, 3); (2, 4); (3, 5); (4, 6); (5, 7)]) + 1.
Proof.
  apply (avl_height_log 1001 [(1, 3); (2, 4); (3, 5); (4, 6); (5, 7)]).
  - vm_compute. reflexivity.
  - vm_compute. discriminate.
Defined.

(** X30 ([clear]).  [clear] resets [root] and [len] only; the node
    records keep their old contents.  Whatever they hold, the calls of
    [insert] that follow a [clear] build a tree of exactly the ranges
    inserted since, in which no two stored intervals overlap or touch:
    nothing of an earlier test case is read.  This is so in [diet.c] and
    in [diet3.c]. *)
Theorem clear_resets (rtl : bool) (fuel : nat) (d : Diet.state)
        (d3 : Diet3.state) (ops : list (Z * Z)) :
  Diet.N < Z.of_nat fuel -> 4 * Diet3.N + 4 < Z.of_nat fuel ->
  Forall (fun op => fst op <= snd op) ops ->
  (Diet.inserts fuel (DietChecks.clear d) ops = Err StoreOutsideArena
   \/ exists st ivs,
        Diet.inserts fuel (DietChecks.clear d) ops = Ok st
        /\ diet_intervals fuel st = Ok ivs
        /\ (forall z, covers ivs z <-> covers ops z)
        /\ ForallOrdPairs (fun x y => Ivl.adjacent x y = false) ivs)
  /\ (Diet3.inserts rtl fuel (Diet3Checks.clear d3) ops = Err AssertFailed
      \/ exists st ivs,
           Diet3.inserts rtl fuel (Diet3Checks.clear d3) ops = Ok st
           /\ diet3_intervals fuel st = Ok ivs
           /\ (forall z, covers ivs z <-> covers ops z)
           /\ ForallOrdPairs (fun x y => Ivl.adjacent x y = false) ivs).
Proof.
  intros Hf Hf3 F. split.
  - assert (I0 : DietInv.Inv (DietChecks.clear d) Ivl.Leaf).
    { split.
      - unfold DietInv.wf, Diet.N. cbn. lia.
      - constructor.
      - constructor.
      - exact I. }
    destruct (DietBuild.dpost_cases _ _
                (DietRuns.d_inserts_ok fuel ops _ Ivl.Leaf Hf I0 F))
      as [E | (st & E & _ & t & I1 & C)]; [left; exact E | right].
    exists st, (Ivl.preorder t). split; [exact E |].
    split; [apply (diet_intervals_ok fuel st t I1 Hf) |].
    split.
    + intros z. rewrite covers_preorder, C. cbn [Ivl.inorder].
      pose proof (IvlFacts.covers_nil z). tauto.
    + apply IvlFacts.preorder_isolated. apply (DietInv.inv_iso _ _ I1).
  - assert (I0 : Diet3Inv.Inv (Diet3Checks.clear d3) Ivl.Leaf).
    { split.
      - unfold Diet3Inv.wf, Diet3.N. cbn. lia.
      - constructor.
      - exact I.
      - exact I. }
    assert (Hf' : Diet3.N < Z.of_nat fuel) by (unfold Diet3.N in *; lia).
    destruct (Diet3Runs.post_cases _ _
                (Diet3Runs.d3_inserts_ok rtl fuel ops _ Ivl.Leaf Hf3 I0 F))
      as [E | (st & E & _ & t & I1 & C)]; [left; exact E | right].
    exists st, (Ivl.preorder t). split; [exact E |].
    split; [apply (diet3_intervals_ok fuel st t I1 Hf') |].
    split.
    + intros z. rewrite covers_preorder, C. cbn [Ivl.inorder].
      pose proof (IvlFacts.covers_nil z). tauto.
    + apply IvlFacts.preorder_isolated. apply (Diet3Inv.inv_iso _ _ I1).
Qed.

Lemma clear_resets_witness :
  (Diet.inserts (Z.to_nat 10001)
     (DietChecks.clear
        (Diet.mkState 2 1 (fun i => Diet.mkNode 7 9 i i) [(1, 2)]))
     [(2, 2); (4, 4); (1, 3)] = Err StoreOutsideArena
   \/ exists st ivs,
        Diet.inserts (Z.to_nat 10001)
          (DietChecks.clear
             (Diet.mkState 2 1 (fun i => Diet.mkNode 7 9 i i) [(1, 2)]))
          [(2, 2); (4, 4); (1, 3)] = Ok st
        /\ diet_intervals (Z.to_nat 10001) st = Ok ivs
        /\ (forall z, covers ivs z <-> covers [(2, 2); (4, 4); (1, 3)] z)
        /\ ForallOrdPairs (fun x y => Ivl.adjacent x y = false) ivs)
  /\ (Diet3.inserts false (Z.to_nat 10001)
        (Diet3Checks.clear
           (Diet3.mkState 2 1 (fun i => Diet3.mkNode 7 9 5 i i) [(1, 2)]))
        [(2, 2); (4, 4); (1, 3)] = Err AssertFailed
      \/ exists st ivs,
           Diet3.inserts false (Z.to_nat 10001)
             (Diet3Checks.clear
                (Diet3.mkState 2 1 (fun i => Diet3.mkNode 7 9 5 i i)
                               [(1, 2)]))
             [(2, 2); (4, 4); (1, 3)] = Ok st
           /\ diet3_intervals (Z.to_nat 10001) st = Ok ivs
           /\ (forall z, covers ivs z <-> covers [(2, 2); (4, 4); (1, 3)] z)
           /\ ForallOrdPairs (fun x y => Ivl.adjacent x y = false) ivs).
Proof.
  apply (clear_resets false (Z.to_nat 10001)
           (Diet.mkState 2 1 (fun i => Diet.mkNode 7 9 i i) [(1, 2)])
           (Diet3.mkState 2 1 (fun i => Diet3.mkNode 7 9 5 i i) [(1, 2)])
           [(2, 2); (4, 4); (1, 3)]).
  - vm_compute. reflexivity.
  - vm_compute. reflexivity.
  - repeat constructor; cbn; lia.
Defined.
